(** * node-enumerable: a shallow embedding of [enumerable_1.ts]

    The lazy sequence engine of the library is embedded as explicit state
    passing: every sequence object is a value of [Seq], a pull is the
    function [next], and a generator function of the source becomes a
    suspended frame that [resume] runs up to its next [yield].  JavaScript
    loops need not terminate (a [where] over an endless source can spin
    forever), so the pull functions take a fuel argument and answer [None]
    when it runs out; [pulls] is the fuel-free reading of [next]. *)

From Stdlib Require Import List ZArith QArith String Bool Lia Permutation Sorted.
Import ListNotations.
Open Scope list_scope.
Open Scope Z_scope.

Set Implicit Arguments.
Set Warnings "-register-all".

(** ** Thrown values and completion records *)

(** Identity of a function object (what [FunctionError._function] keeps). *)
Definition FuncRef := nat.

(** Whatever a [throw] can carry in the modelled code: the string literals
    the library throws, the engine's TypeError, an opaque value thrown by a
    callback, and the two error wrappers of the library. *)
Inductive Thrown : Type :=
| ThrownString (msg : string)
| TypeError (msg : string)
| UserError (tag : nat)
| FunctionError (_error : Thrown) (_function : option FuncRef) (_index : Z)
| AggregateError (_errors : list Thrown).

Inductive Result (A : Type) : Type :=
| Ok (a : A)
| Throw (e : Thrown).
Arguments Ok {A} a.
Arguments Throw {A} e.

(** [new AggregateError(errors)]: null and undefined entries (here [None])
    are filtered out, a missing array counts as empty. *)
Fixpoint filter_defined (errors : list (option Thrown)) : list Thrown :=
  match errors with
  | [] => []
  | Some e :: rest => e :: filter_defined rest
  | None :: rest => filter_defined rest
  end.

Definition new_AggregateError (errors : option (list (option Thrown))) : Thrown :=
  AggregateError (filter_defined (match errors with Some l => l | None => [] end)).

(** [new FunctionError(err, func, index)]. *)
Definition new_FunctionError (err : Thrown) (func : option FuncRef) (index : Z) : Thrown :=
  FunctionError err func index.

(** The getters [index] and [innerError] of [FunctionError]. *)
Definition FunctionError_index (e : Thrown) : option Z :=
  match e with FunctionError _ _ i => Some i | _ => None end.

Definition FunctionError_innerError (e : Thrown) : option Thrown :=
  match e with FunctionError err _ _ => Some err | _ => None end.

Definition FunctionError_function (e : Thrown) : option FuncRef :=
  match e with FunctionError _ f _ => f | _ => None end.

(** The getter [errors] of [AggregateError]. *)
Definition AggregateError_errors (e : Thrown) : list Thrown :=
  match e with AggregateError l => l | _ => [] end.

(** ** Numbers

    A JavaScript number is kept as an exact rational or NaN; rounding of
    doubles and the infinities are left out, so [num_add] is the sum of
    doubles only where that sum is exact, as it is on integers while the
    result stays within 2^53 in size. *)
Inductive JsNum : Type :=
| NaN
| Fin (q : Q).

Definition isNaN (n : JsNum) : bool :=
  match n with NaN => true | Fin _ => false end.

Definition num_add (a b : JsNum) : JsNum :=
  match a, b with
  | Fin x, Fin y => Fin (x + y)
  | _, _ => NaN
  end.

(** [a / b] for a divisor that is not zero (the only use, in [average],
    divides by a positive count). *)
Definition num_div (a b : JsNum) : JsNum :=
  match a, b with
  | Fin x, Fin y => Fin (x / y)
  | _, _ => NaN
  end.

Definition num_eq (a b : JsNum) : bool :=
  match a, b with
  | Fin x, Fin y => Qeq_bool x y
  | _, _ => false
  end.

Definition num_lt (a b : JsNum) : bool :=
  match a, b with
  | Fin x, Fin y => negb (Qle_bool y x)
  | _, _ => false
  end.

Definition num_of_Z (z : Z) : JsNum := Fin (inject_Z z).

(** A count argument as the operators receive it ([count?: number]) after
    [parseInt(toStringSafe(count).trim())]: an omitted or NaN argument parses
    to NaN, an integer to itself.  The last holds for the integers that
    the conversion to text writes in plain digits, those below 1e21 in
    size; from there on the text has an exponent and [parseInt] reads only
    the digits in front of it.  Counts with a fraction and infinite counts
    are left out.  The properties of the operators that take a count are
    stated for [safe_count] arguments, integers of size at most 2^53. *)
Inductive CountArg : Type :=
| CountUndefined
| CountNaN
| CountInt (z : Z).

Definition parseInt_count (count : CountArg) : option Z :=
  match count with
  | CountInt z => Some z
  | _ => None
  end.

(** ** Sequence objects

    [T] is the type of the elements flowing through a pipeline. *)
Section Engine.
Context {T : Type}.

(** An [IteratorResult]: [{done: false, value}] or [{done: true}]. *)
Inductive IteratorResult : Type :=
| IterItem (value : T)
| IterDone.

(** A predicate as the operators receive it: a function, or the closure
    [() => count-- > 0] that [skip] and [take] build around their own
    [count] variable. *)
Inductive Predicate : Type :=
| PredicateFn (f : T -> Result bool)
| CountdownClosure (count : Z).

Definition call_predicate (p : Predicate) (item : T) : Result bool * Predicate :=
  match p with
  | PredicateFn f => (f item, p)
  | CountdownClosure count => (Ok (0 <? count), CountdownClosure (count - 1))
  end.

(** [toPredicateSafe(predicate)] with the default [defaultValue = true]. *)
Definition toPredicateSafe (predicate : option Predicate) : Predicate :=
  match predicate with
  | None => PredicateFn (fun _ => Ok true)
  | Some p => p
  end.

(** An [EachAction] with the identity of its function object. *)
Record EachAction : Type := {
  action_ref : FuncRef;
  action_call : T -> Z -> Result unit
}.

(** The classes [ArrayEnumerable] and [IteratorEnumerable] with their
    fields, the iterators an [IteratorEnumerable] can wrap, and the frames
    of the generator functions ([_whereInner], [_selectManyInner], ...)
    with their parameters, local variables and captured [this]. *)
Inductive Seq : Type :=
| ArrayEnumerable (_array : list T) (_index : Z) (_current : option IteratorResult)
| IteratorEnumerable (_iterator : Iterator) (_index : Z) (_current : option IteratorResult)
with Iterator : Type :=
| GeneratorObject (completed : bool) (frame : Frame)
| EnumerableIterator (seq : Seq)
with Frame : Type :=
| SourceFrame (St : Type) (body : St -> option (Result T * St)) (st : St)
| SelectManyFrame (selector : option (T -> Result (list T))) (SEQ : list T) (this : Seq)
| WhereFrame (predicate : option Predicate) (this : Seq)
| SkipWhileFrame (predicate : option Predicate) (returnItem : bool) (this : Seq)
| TakeWhileFrame (predicate : option Predicate) (this : Seq)
| DistinctByFrame (selector : T -> Result T) (comparer : T -> T -> bool)
                  (TEMP : list T) (this : Seq)
| ExceptFrame (second : list T) (comparer : T -> T -> bool) (this : Seq)
| IntersectFrame (second : list T) (comparer : T -> T -> bool) (this : Seq)
| PipeFrame (action : option EachAction) (i : Z) (this : Seq)
| IntersperseFrame (separators : list T) (isFirst : bool) (pending : list T) (this : Seq)
| ConcatArrayFrame (sequences : option (list Sequence)) (thisDone : bool) (i : nat)
                   (inner : option Seq) (this : Seq)
| ZipFrame (second : Seq) (resultSelector : T -> T -> Z -> Result T) (i : Z) (this : Seq)
| ChunkFrame (as_item : list T -> T) (size : Z) (this : Seq)
| CloneFrame (as_item : list T -> option (T -> Result T) -> T) (count : option Z)
             (itemSelector : option (T -> Result T)) (ITEMS : option (list T)) (this : Seq)
with Sequence : Type :=
| SequenceNull
| SequenceArray (arr : list T)
| SequenceIterator (it : Seq).

(** What running a generator body up to its next suspension gives. *)
Inductive Suspension : Type :=
| Yielded (value : T)
| Returned
| Raised (e : Thrown).

(** [from(seq)]: null or undefined counts as the empty array, an array
    gets an [ArrayEnumerable], anything else is wrapped as an iterator. *)
Definition from (seq : Sequence) : Seq :=
  match seq with
  | SequenceNull => ArrayEnumerable [] (-1) None
  | SequenceArray arr => ArrayEnumerable arr (-1) None
  | SequenceIterator it => IteratorEnumerable (EnumerableIterator it) (-1) None
  end.

(** [from] applied to a fresh generator object. *)
Definition from_generator (frame : Frame) : Seq :=
  IteratorEnumerable (GeneratorObject false frame) (-1) None.

(** [arr[i]] for an integer index; [None] is JavaScript's [undefined]. *)
Definition lookupZ (arr : list T) (i : Z) : option T :=
  if i <? 0 then None else nth_error arr (Z.to_nat i).

End Engine.
Arguments IteratorResult T : clear implicits.
Arguments Predicate T : clear implicits.
Arguments EachAction T : clear implicits.
Arguments Seq T : clear implicits.
Arguments Iterator T : clear implicits.
Arguments Frame T : clear implicits.
Arguments Sequence T : clear implicits.
Arguments Suspension T : clear implicits.

(** ** Pulling

    [next] is the method [next()] of the two sequence classes,
    [iterator_next] the [next()] of the wrapped iterator (a generator object
    answers done for ever once its body has returned or thrown), [resume]
    one run of a generator body from its suspension point to the next
    [yield], and [getNextChunkArray] and [toArray] the two consuming
    methods that generator bodies call. *)
Section Pull.
Context {T : Type}.

Fixpoint next (fuel : nat) (s : Seq T) {struct fuel}
  : option (Result (IteratorResult T) * Seq T) :=
  match fuel with
  | O => None
  | S fuel =>
    match s with
    | ArrayEnumerable _array _index _current =>
        let NEXT_INDEX := _index + 1 in
        if NEXT_INDEX >=? Z.of_nat (List.length _array)
        then Some (Ok IterDone, ArrayEnumerable _array _index (Some IterDone))
        else match lookupZ _array NEXT_INDEX with
             | Some v => Some (Ok (IterItem v),
                               ArrayEnumerable _array NEXT_INDEX (Some (IterItem v)))
             | None => None
             end
    | IteratorEnumerable _iterator _index _current =>
        match iterator_next fuel _iterator with
        | None => None
        | Some (Throw e, it') => Some (Throw e, IteratorEnumerable it' _index _current)
        | Some (Ok result, it') =>
            Some (Ok result,
                  IteratorEnumerable it'
                    (match result with IterDone => _index | IterItem _ => _index + 1 end)
                    (Some result))
        end
    end
  end

with iterator_next (fuel : nat) (it : Iterator T) {struct fuel}
  : option (Result (IteratorResult T) * Iterator T) :=
  match fuel with
  | O => None
  | S fuel =>
    match it with
    | EnumerableIterator seq =>
        match next fuel seq with
        | None => None
        | Some (r, seq') => Some (r, EnumerableIterator seq')
        end
    | GeneratorObject true frame => Some (Ok IterDone, GeneratorObject true frame)
    | GeneratorObject false frame =>
        match resume fuel frame with
        | None => None
        | Some (Yielded v, frame') => Some (Ok (IterItem v), GeneratorObject false frame')
        | Some (Returned, frame') => Some (Ok IterDone, GeneratorObject true frame')
        | Some (Raised e, frame') => Some (Throw e, GeneratorObject true frame')
        end
    end
  end

with resume (fuel : nat) (frame : Frame T) {struct fuel}
  : option (Suspension T * Frame T) :=
  match fuel with
  | O => None
  | S fuel =>
    match frame with
    | SourceFrame body st =>
        match body st with
        | None => Some (Returned, frame)
        | Some (Ok v, st') => Some (Yielded v, SourceFrame body st')
        | Some (Throw e, st') => Some (Raised e, SourceFrame body st')
        end
    | SelectManyFrame selector SEQ this =>
        match SEQ with
        | item :: SEQ' => Some (Yielded item, SelectManyFrame selector SEQ' this)
        | [] =>
          match next fuel this with
          | None => None
          | Some (Throw e, this') => Some (Raised e, SelectManyFrame selector [] this')
          | Some (Ok IterDone, this') => Some (Returned, SelectManyFrame selector [] this')
          | Some (Ok (IterItem s), this') =>
              match match selector with Some f => f s | None => Ok [s] end with
              | Throw e => Some (Raised e, SelectManyFrame selector [] this')
              | Ok arr => resume fuel (SelectManyFrame selector arr this')
              end
          end
        end
    | WhereFrame predicate this =>
        match next fuel this with
        | None => None
        | Some (Throw e, this') => Some (Raised e, WhereFrame predicate this')
        | Some (Ok IterDone, this') => Some (Returned, WhereFrame predicate this')
        | Some (Ok (IterItem item), this') =>
            match call_predicate (toPredicateSafe predicate) item with
            | (Throw e, p') => Some (Raised e, WhereFrame (Some p') this')
            | (Ok true, p') => Some (Yielded item, WhereFrame (Some p') this')
            | (Ok false, p') => resume fuel (WhereFrame (Some p') this')
            end
        end
    | SkipWhileFrame predicate returnItem this =>
        match next fuel this with
        | None => None
        | Some (Throw e, this') => Some (Raised e, SkipWhileFrame predicate returnItem this')
        | Some (Ok IterDone, this') => Some (Returned, SkipWhileFrame predicate returnItem this')
        | Some (Ok (IterItem item), this') =>
            if returnItem
            then Some (Yielded item, SkipWhileFrame predicate true this')
            else
              match call_predicate (toPredicateSafe predicate) item with
              | (Throw e, p') => Some (Raised e, SkipWhileFrame (Some p') false this')
              | (Ok true, p') => resume fuel (SkipWhileFrame (Some p') false this')
              | (Ok false, p') => Some (Yielded item, SkipWhileFrame (Some p') true this')
              end
        end
    | TakeWhileFrame predicate this =>
        match next fuel this with
        | None => None
        | Some (Throw e, this') => Some (Raised e, TakeWhileFrame predicate this')
        | Some (Ok IterDone, this') => Some (Returned, TakeWhileFrame predicate this')
        | Some (Ok (IterItem item), this') =>
            match call_predicate (toPredicateSafe predicate) item with
            | (Throw e, p') => Some (Raised e, TakeWhileFrame (Some p') this')
            | (Ok true, p') => Some (Yielded item, TakeWhileFrame (Some p') this')
            | (Ok false, p') => Some (Returned, TakeWhileFrame (Some p') this')
            end
        end
    | DistinctByFrame selector comparer TEMP this =>
        match next fuel this with
        | None => None
        | Some (Throw e, this') => Some (Raised e, DistinctByFrame selector comparer TEMP this')
        | Some (Ok IterDone, this') =>
            Some (Returned, DistinctByFrame selector comparer TEMP this')
        | Some (Ok (IterItem item), this') =>
            match selector item with
            | Throw e => Some (Raised e, DistinctByFrame selector comparer TEMP this')
            | Ok KEY_ITEM =>
                let found := existsb (fun t => comparer KEY_ITEM t) TEMP in
                if found
                then resume fuel (DistinctByFrame selector comparer TEMP this')
                else Some (Yielded item,
                           DistinctByFrame selector comparer (TEMP ++ [KEY_ITEM]) this')
            end
        end
    | ExceptFrame second comparer this =>
        match next fuel this with
        | None => None
        | Some (Throw e, this') => Some (Raised e, ExceptFrame second comparer this')
        | Some (Ok IterDone, this') => Some (Returned, ExceptFrame second comparer this')
        | Some (Ok (IterItem item), this') =>
            let found := existsb (fun secondItem => comparer item secondItem) second in
            if found
            then resume fuel (ExceptFrame second comparer this')
            else Some (Yielded item, ExceptFrame second comparer this')
        end
    | IntersectFrame second comparer this =>
        match next fuel this with
        | None => None
        | Some (Throw e, this') => Some (Raised e, IntersectFrame second comparer this')
        | Some (Ok IterDone, this') => Some (Returned, IntersectFrame second comparer this')
        | Some (Ok (IterItem item), this') =>
            if existsb (fun secondItem => comparer item secondItem) second
            then Some (Yielded item, IntersectFrame second comparer this')
            else resume fuel (IntersectFrame second comparer this')
        end
    | PipeFrame action i this =>
        match next fuel this with
        | None => None
        | Some (Throw e, this') => Some (Raised e, PipeFrame action i this')
        | Some (Ok IterDone, this') => Some (Returned, PipeFrame action i this')
        | Some (Ok (IterItem item), this') =>
            let i := i + 1 in
            match match action with Some a => action_call a item i | None => Ok tt end with
            | Throw e => Some (Raised e, PipeFrame action i this')
            | Ok _ => Some (Yielded item, PipeFrame action i this')
            end
        end
    | IntersperseFrame separators isFirst pending this =>
        match pending with
        | v :: pending' => Some (Yielded v, IntersperseFrame separators isFirst pending' this)
        | [] =>
          match next fuel this with
          | None => None
          | Some (Throw e, this') =>
              Some (Raised e, IntersperseFrame separators isFirst [] this')
          | Some (Ok IterDone, this') =>
              Some (Returned, IntersperseFrame separators isFirst [] this')
          | Some (Ok (IterItem item), this') =>
              if isFirst
              then Some (Yielded item, IntersperseFrame separators false [] this')
              else match separators ++ [item] with
                   | v :: pending' =>
                       Some (Yielded v, IntersperseFrame separators false pending' this')
                   | [] => None
                   end
          end
        end
    | ConcatArrayFrame sequences thisDone i inner this =>
        if thisDone
        then
          match inner with
          | Some SEQ =>
              match next fuel SEQ with
              | None => None
              | Some (Throw e, SEQ') =>
                  Some (Raised e, ConcatArrayFrame sequences true i (Some SEQ') this)
              | Some (Ok IterDone, SEQ') =>
                  resume fuel (ConcatArrayFrame sequences true (S i) None this)
              | Some (Ok (IterItem item), SEQ') =>
                  Some (Yielded item, ConcatArrayFrame sequences true i (Some SEQ') this)
              end
          | None =>
              match sequences with
              | None => Some (Returned, frame)
              | Some seqs =>
                  match nth_error seqs i with
                  | None => Some (Returned, frame)
                  | Some SEQ =>
                      resume fuel (ConcatArrayFrame sequences true i (Some (from SEQ)) this)
                  end
              end
          end
        else
          match next fuel this with
          | None => None
          | Some (Throw e, this') =>
              Some (Raised e, ConcatArrayFrame sequences false i inner this')
          | Some (Ok IterDone, this') =>
              resume fuel (ConcatArrayFrame sequences true i inner this')
          | Some (Ok (IterItem item), this') =>
              Some (Yielded item, ConcatArrayFrame sequences false i inner this')
          end
    | ZipFrame second resultSelector i this =>
        match next fuel this with
        | None => None
        | Some (Throw e, this') => Some (Raised e, ZipFrame second resultSelector i this')
        | Some (Ok IterDone, this') => Some (Returned, ZipFrame second resultSelector i this')
        | Some (Ok (IterItem x), this') =>
            match next fuel second with
            | None => None
            | Some (Throw e, second') =>
                Some (Raised e, ZipFrame second' resultSelector i this')
            | Some (Ok IterDone, second') =>
                Some (Returned, ZipFrame second' resultSelector i this')
            | Some (Ok (IterItem y), second') =>
                match resultSelector x y (i + 1) with
                | Throw e => Some (Raised e, ZipFrame second' resultSelector (i + 1) this')
                | Ok v => Some (Yielded v, ZipFrame second' resultSelector (i + 1) this')
                end
            end
        end
    | ChunkFrame as_item size this =>
        match getNextChunkArray fuel size [] this with
        | None => None
        | Some (Throw e, this') => Some (Raised e, ChunkFrame as_item size this')
        | Some (Ok ARR, this') =>
            if (0 <? Z.of_nat (List.length ARR))
            then Some (Yielded (as_item ARR), ChunkFrame as_item size this')
            else Some (Returned, ChunkFrame as_item size this')
        end
    | CloneFrame as_item count itemSelector ITEMS this =>
        match ITEMS with
        | None =>
            match toArray_from fuel [] this with
            | None => None
            | Some (Throw e, this') =>
                Some (Raised e, CloneFrame as_item count itemSelector None this')
            | Some (Ok ARR, this') =>
                resume fuel (CloneFrame as_item count itemSelector (Some ARR) this')
            end
        | Some ARR =>
            match count with
            | Some c =>
                if c <? 1
                then Some (Returned, CloneFrame as_item (Some (c - 1)) itemSelector ITEMS this)
                else Some (Yielded (as_item ARR itemSelector),
                           CloneFrame as_item (Some (c - 1)) itemSelector ITEMS this)
            | None =>
                Some (Yielded (as_item ARR itemSelector), frame)
            end
        end
    end
  end

with getNextChunkArray (fuel : nat) (size : Z) (ARR : list T) (this : Seq T) {struct fuel}
  : option (Result (list T) * Seq T) :=
  match fuel with
  | O => None
  | S fuel =>
    match next fuel this with
    | None => None
    | Some (Throw e, this') => Some (Throw e, this')
    | Some (Ok IterDone, this') => Some (Ok ARR, this')
    | Some (Ok (IterItem item), this') =>
        let ARR := ARR ++ [item] in
        if Z.of_nat (List.length ARR) >=? size
        then Some (Ok ARR, this')
        else getNextChunkArray fuel size ARR this'
    end
  end

with toArray_from (fuel : nat) (ARR : list T) (this : Seq T) {struct fuel}
  : option (Result (list T) * Seq T) :=
  match fuel with
  | O => None
  | S fuel =>
    match next fuel this with
    | None => None
    | Some (Throw e, this') => Some (Throw e, this')
    | Some (Ok IterDone, this') => Some (Ok ARR, this')
    | Some (Ok (IterItem item), this') => toArray_from fuel (ARR ++ [item]) this'
    end
  end.

(** [toArray()]: a fresh array, then every element pushed in turn. *)
Definition toArray (fuel : nat) (this : Seq T) : option (Result (list T) * Seq T) :=
  toArray_from fuel [] this.

End Pull.

(** ** Equality comparers *)

(** JavaScript's [==] and [===] on the element type. *)
Class JsEquality (T : Type) : Type := {
  loose_eq : T -> T -> bool;
  strict_eq : T -> T -> bool
}.

(** The argument [comparer?: EqualityComparer<T> | true]. *)
Inductive EqualityComparerArg (T : Type) : Type :=
| ComparerUndefined
| ComparerTrue
| ComparerFn (f : T -> T -> bool).
Arguments ComparerUndefined {T}.
Arguments ComparerTrue {T}.
Arguments ComparerFn {T} f.

Definition toEqualityComparerSafe {T : Type} `{JsEquality T}
  (comparer : EqualityComparerArg T) : T -> T -> bool :=
  match comparer with
  | ComparerUndefined => fun x y => loose_eq x y
  | ComparerTrue => fun x y => strict_eq x y
  | ComparerFn f => f
  end.

(** ** The transformation operators *)

(** The target of [cast(type)] that a label of its [switch] selects. *)
Inductive CastType : Type :=
| CastBoolean | CastFloat | CastFunction | CastNull | CastNumber
| CastObject | CastInteger | CastString | CastSymbol | CastUndefined.

Definition cast_label (type : string) : option CastType :=
  if (String.eqb type "bool" || String.eqb type "boolean")%bool then Some CastBoolean
  else if String.eqb type "float" then Some CastFloat
  else if (String.eqb type "func" || String.eqb type "function")%bool then Some CastFunction
  else if String.eqb type "null" then Some CastNull
  else if String.eqb type "number" then Some CastNumber
  else if String.eqb type "object" then Some CastObject
  else if (String.eqb type "int" || String.eqb type "integer")%bool then Some CastInteger
  else if String.eqb type "string" then Some CastString
  else if String.eqb type "symbol" then Some CastSymbol
  else if String.eqb type "undefined" then Some CastUndefined
  else None.

(** The numeric operators, by the [Math] function each applies. *)
Inductive NumericMap : Type :=
| Abs | ArcCos | ArcCosH | ArcSin | ArcSinH | ArcTan | ArcTanH | Ceil | Cos | CosH
| Exp | Floor | Log (base : JsNum) | Pow (exponent : JsNum) | Root (power : JsNum)
| Round | Sin | SinH | Sqrt | Tan | TanH.

Section Operators.
Context {T : Type} `{JsEquality T}.

(** What the engine, not the library, provides: the element that stands
    for a sequence object built over an array (optionally mapped through a
    selector), the array behind an element that is itself a sequence, [+],
    the number behind an element of type number and back,
    [parseFloat(toStringSafe(x).trim())] and its [parseInt] twin, the
    conversions done by the arms of [cast], and the [Math] functions. *)
Variable sequence_item : list T -> option (T -> Result T) -> T.
Variable isSequence_items : T -> option (list T).
Variable js_plus : T -> T -> Result T.
Variable typeof_number : T -> option JsNum.
Variable number_item : JsNum -> T.
Variable parseFloat_item : T -> Result JsNum.
Variable parseInt_item : T -> Result JsNum.
Variable cast_arm : CastType -> T -> Result T.
Variable Math : NumericMap -> JsNum -> JsNum.

Definition selectMany (selector : option (T -> Result (list T))) (this : Seq T) : Seq T :=
  from_generator (SelectManyFrame selector [] this).

Definition select (selector : option (T -> Result T)) (this : Seq T) : Seq T :=
  let selector := match selector with Some f => f | None => fun x => Ok x end in
  selectMany (Some (fun x => match selector x with
                             | Ok y => Ok [y]
                             | Throw e => Throw e
                             end)) this.

Definition where_ (predicate : option (Predicate T)) (this : Seq T) : Seq T :=
  from_generator (WhereFrame predicate this).

Definition skipWhile (predicate : option (Predicate T)) (this : Seq T) : Seq T :=
  from_generator (SkipWhileFrame predicate false this).

Definition skip (count : CountArg) (this : Seq T) : Seq T :=
  let count := match parseInt_count count with Some c => c | None => 1 end in
  skipWhile (Some (CountdownClosure count)) this.

Definition takeWhile (predicate : option (Predicate T)) (this : Seq T) : Seq T :=
  from_generator (TakeWhileFrame predicate this).

Definition take (count : CountArg) (this : Seq T) : Seq T :=
  let count := match parseInt_count count with Some c => c | None => 1 end in
  takeWhile (Some (CountdownClosure count)) this.

Definition distinctBy (selector : option (T -> Result T))
  (comparer : EqualityComparerArg T) (this : Seq T) : Seq T :=
  let selector := match selector with Some f => f | None => fun i => Ok i end in
  from_generator (DistinctByFrame selector (toEqualityComparerSafe comparer) [] this).

Definition distinct (comparer : EqualityComparerArg T) (this : Seq T) : Seq T :=
  distinctBy (Some (fun x => Ok x)) comparer this.

(** [except] and [intersect] evaluate
    [from(second).distinct().toArray()] before they build their
    generator, so they need fuel and can fail. *)
Definition except (fuel : nat) (second : Sequence T)
  (comparer : EqualityComparerArg T) (this : Seq T) : option (Result (Seq T)) :=
  match toArray fuel (distinct ComparerUndefined (from second)) with
  | None => None
  | Some (Throw e, _) => Some (Throw e)
  | Some (Ok arr, _) =>
      Some (Ok (from_generator (ExceptFrame arr (toEqualityComparerSafe comparer) this)))
  end.

Definition intersect (fuel : nat) (second : Sequence T)
  (comparer : EqualityComparerArg T) (this : Seq T) : option (Result (Seq T)) :=
  match toArray fuel (distinct ComparerUndefined (from second)) with
  | None => None
  | Some (Throw e, _) => Some (Throw e)
  | Some (Ok arr, _) =>
      Some (Ok (from_generator (IntersectFrame arr (toEqualityComparerSafe comparer) this)))
  end.

Definition concatArray (sequences : option (list (Sequence T))) (this : Seq T) : Seq T :=
  from_generator (ConcatArrayFrame sequences false 0%nat None this).

Definition concat (args : list (Sequence T)) (this : Seq T) : Seq T :=
  concatArray (Some args) this.

Definition union (second : Sequence T) (comparer : EqualityComparerArg T)
  (this : Seq T) : Seq T :=
  distinct comparer (concat [second] this).

Definition intersperse (separators : list T) (this : Seq T) : Seq T :=
  from_generator (IntersperseFrame separators true [] this).

Definition chunk (size : CountArg) (this : Seq T) : Seq T :=
  let size := match parseInt_count size with Some c => c | None => 1 end in
  from_generator (ChunkFrame (fun ARR => sequence_item ARR None) size this).

Definition clone (count : CountArg) (itemSelector : option (T -> Result T))
  (this : Seq T) : Seq T :=
  from_generator (CloneFrame sequence_item (parseInt_count count) itemSelector None this).

Definition flatten (this : Seq T) : Seq T :=
  selectMany (Some (fun x => Ok (match isSequence_items x with
                                 | None => [x]
                                 | Some items => items
                                 end))) this.

Definition zip (second : Sequence T) (resultSelector : option (T -> T -> Z -> Result T))
  (this : Seq T) : Seq T :=
  let resultSelector := match resultSelector with
                        | Some f => f
                        | None => fun x y _ => js_plus x y
                        end in
  from_generator (ZipFrame (from second) resultSelector (-1) this).

Definition pipe (action : option (EachAction T)) (this : Seq T) : Seq T :=
  from_generator (PipeFrame action (-1) this).

(** The selector that [cast(type)] hands to [select]; [type] is the
    argument after [toStringSafe(type).trim()]. *)
Definition cast_selector (type : string) (x : T) : Result T :=
  if String.eqb type "" then Ok x
  else match cast_label type with
       | Some CastFloat =>
           match parseFloat_item x with Ok n => Ok (number_item n) | Throw e => Throw e end
       | Some CastNumber =>
           match typeof_number x with
           | Some _ => Ok x
           | None =>
               match parseFloat_item x with Ok n => Ok (number_item n) | Throw e => Throw e end
           end
       | Some CastInteger =>
           match parseInt_item x with Ok n => Ok (number_item n) | Throw e => Throw e end
       | Some c => cast_arm c x
       | None => Throw (ThrownString (String.append "Not supported type " type))
       end.

Definition cast (type : string) (this : Seq T) : Seq T :=
  select (Some (cast_selector type)) this.

Definition invokeForValidNumber (x : T) (action : JsNum -> JsNum) (handleAsInt : bool)
  : Result T :=
  match match typeof_number x with
        | Some n => Ok n
        | None => if handleAsInt then parseInt_item x else parseFloat_item x
        end with
  | Throw e => Throw e
  | Ok n => Ok (number_item (if isNaN n then n else action n))
  end.

(** [abs], [arcCos], ..., [tanH]: each is [select] over
    [invokeForValidNumber] with its [Math] function. *)
Definition numeric_map (op : NumericMap) (handleAsInt : bool) (this : Seq T) : Seq T :=
  select (Some (fun x => invokeForValidNumber x (Math op) handleAsInt)) this.

End Operators.

(** ** Terminal operations *)
Section Terminal.
Context {T : Type}.

(** How the body of a [for (let item of this)] loop ends: it goes on to
    the next element, breaks, makes the enclosing method return, or throws. *)
Inductive Completion (A R : Type) : Type :=
| Continue (acc : A)
| Break (acc : A)
| Return (r : R)
| Abrupt (e : Thrown).
Arguments Continue {A R} acc.
Arguments Break {A R} acc.
Arguments Return {A R} r.
Arguments Abrupt {A R} e.

(** [for (let item of this) body]: [acc] holds the variables the body
    updates.  The loop ends normally ([Continue]) when [this] signals done;
    a failing pull ends it abruptly. *)
Fixpoint for_of {A R : Type} (fuel : nat) (this : Seq T) (acc : A)
  (body : A -> T -> Completion A R) {struct fuel} : option (Completion A R * Seq T) :=
  match fuel with
  | O => None
  | S fuel =>
    match next fuel this with
    | None => None
    | Some (Throw e, this') => Some (Abrupt e, this')
    | Some (Ok IterDone, this') => Some (Continue acc, this')
    | Some (Ok (IterItem item), this') =>
        match body acc item with
        | Continue acc' => for_of fuel this' acc' body
        | Break acc' => Some (Break acc', this')
        | Return r => Some (Return r, this')
        | Abrupt e => Some (Abrupt e, this')
        end
    end
  end.

(** [forAll(action)]: the accumulator is [(ERRORS, i)]; the [catch] turns a
    failing action into a [FunctionError] pushed on [ERRORS]. *)
Definition forAll_body (action : option (EachAction T))
  (acc : list (option Thrown) * Z) (item : T)
  : Completion (list (option Thrown) * Z) unit :=
  let (ERRORS, i) := acc in
  let i := i + 1 in
  match action with
  | Some a =>
      match action_call a item i with
      | Ok _ => Continue (ERRORS, i)
      | Throw e =>
          Continue (ERRORS ++ [Some (new_FunctionError e (Some (action_ref a)) i)], i)
      end
  | None => Continue (ERRORS, i)
  end.

Definition forAll (fuel : nat) (action : option (EachAction T)) (this : Seq T)
  : option (Result unit * Seq T) :=
  match for_of fuel this ([], -1) (forAll_body action) with
  | None => None
  | Some (Abrupt e, this') => Some (Throw e, this')
  | Some (Return _, this') => Some (Ok tt, this')
  | Some (Continue (ERRORS, _), this') | Some (Break (ERRORS, _), this') =>
      if 0 <? Z.of_nat (List.length ERRORS)
      then Some (Throw (new_AggregateError (Some ERRORS)), this')
      else Some (Ok tt, this')
  end.

(** [forEach(action)]: no [catch], the first failure leaves the loop. *)
Definition forEach_body (action : option (EachAction T)) (i : Z) (item : T)
  : Completion Z unit :=
  let i := i + 1 in
  match action with
  | Some a =>
      match action_call a item i with
      | Ok _ => Continue i
      | Throw e => Abrupt e
      end
  | None => Continue i
  end.

Definition forEach (fuel : nat) (action : option (EachAction T)) (this : Seq T)
  : option (Result unit * Seq T) :=
  match for_of fuel this (-1) (forEach_body action) with
  | None => None
  | Some (Abrupt e, this') => Some (Throw e, this')
  | Some (_, this') => Some (Ok tt, this')
  end.

(** The arguments of an [...OrDefault] method as [arguments.length] and
    [typeof] tell them apart: none, one (a function or some other value),
    or two.  [U] is the type of the default value. *)
Inductive OrDefaultArguments (U : Type) : Type :=
| NoArguments
| OneFunction (predicate : Predicate T)
| OneValue (defaultValue : U)
| TwoArguments (predicate : option (Predicate T)) (defaultValue : U).
Arguments NoArguments {U}.
Arguments OneFunction {U} predicate.
Arguments OneValue {U} defaultValue.
Arguments TwoArguments {U} predicate defaultValue.

(** [getOrDefaultArguments]; [NOT_FOUND] is [Enumerable.NOT_FOUND] as a
    value of the default's type. *)
Definition getOrDefaultArguments {U : Type} (NOT_FOUND : U) (args : OrDefaultArguments U)
  : U * Predicate T :=
  match args with
  | NoArguments => (NOT_FOUND, toPredicateSafe None)
  | OneFunction predicate => (NOT_FOUND, toPredicateSafe (Some predicate))
  | OneValue defVal => (defVal, toPredicateSafe None)
  | TwoArguments predicate defaultValue => (defaultValue, toPredicateSafe predicate)
  end.

(** [singleOrDefault]: the result [T | U] is a sum; the local
    [ELEMENT_NOT_FOUND], a symbol made for this call that no element can
    be, is the [None] of the variable [result].  The accumulator carries
    [result] and the predicate closure. *)
Definition singleOrDefault_body
  (acc : option T * Predicate T) (item : T)
  : Completion (option T * Predicate T) (T + Thrown) :=
  let (result, predicate) := acc in
  match call_predicate predicate item with
  | (Throw e, _) => Abrupt e
  | (Ok false, p') => Continue (result, p')
  | (Ok true, p') =>
      match result with
      | Some _ => Abrupt (ThrownString "Sequence contains more that one matching element")
      | None => Continue (Some item, p')
      end
  end.

Definition singleOrDefault {U : Type} (fuel : nat) (NOT_FOUND : U)
  (args : OrDefaultArguments U) (this : Seq T) : option (Result (T + U) * Seq T) :=
  let (defaultValue, predicate) := getOrDefaultArguments NOT_FOUND args in
  match for_of fuel this (None, predicate) singleOrDefault_body with
  | None => None
  | Some (Abrupt e, this') => Some (Throw e, this')
  | Some (Return _, this') => Some (Ok (inr defaultValue), this')
  | Some (Continue (result, _), this') | Some (Break (result, _), this') =>
      match result with
      | Some item => Some (Ok (inl item), this')
      | None => Some (Ok (inr defaultValue), this')
      end
  end.

(** [single(predicate)]: its own fresh [ELEMENT_NOT_FOUND] is the default
    it passes on, here the one value of [unit]. *)
Definition single (fuel : nat) (predicate : option (Predicate T)) (this : Seq T)
  : option (Result T * Seq T) :=
  let predicate := toPredicateSafe predicate in
  match singleOrDefault fuel tt (TwoArguments (Some predicate) tt) this with
  | None => None
  | Some (Throw e, this') => Some (Throw e, this')
  | Some (Ok (inr _), this') => Some (Throw (ThrownString "Element not found"), this')
  | Some (Ok (inl ITEM), this') => Some (Ok ITEM, this')
  end.

(** [reset()]: an [ArrayEnumerable] can reset and moves its index back;
    [EnumerableBase.reset] throws. *)
Definition canReset (s : Seq T) : bool :=
  match s with
  | ArrayEnumerable _ _ _ => true
  | IteratorEnumerable _ _ _ => false
  end.

Definition reset (s : Seq T) : Result (Seq T) :=
  match s with
  | ArrayEnumerable _array _index _current => Ok (ArrayEnumerable _array (-1) _current)
  | IteratorEnumerable _ _ _ => Throw (ThrownString "Not supported")
  end.

(** The getters [index] and [current]. *)
Definition index (s : Seq T) : Z :=
  match s with
  | ArrayEnumerable _ i _ => i
  | IteratorEnumerable _ i _ => i
  end.

Definition current (s : Seq T) : option (IteratorResult T) :=
  match s with
  | ArrayEnumerable _ _ c => c
  | IteratorEnumerable _ _ c => c
  end.

End Terminal.
Arguments NoArguments {T U}.
Arguments OneFunction {T U} predicate.
Arguments OneValue {T U} defaultValue.
Arguments TwoArguments {T U} predicate defaultValue.
Arguments Continue {A R} acc.
Arguments Break {A R} acc.
Arguments Return {A R} r.
Arguments Abrupt {A R} e.

(** ** JavaScript values

    The values the numeric and sentinel-returning operations work on:
    undefined, null, booleans, numbers and symbols.  Strings and objects
    are left out, so [+] is always numeric here and [==] never has to parse
    a string. *)
Inductive Symbol : Type :=
| IS_EMPTY
| IS_ENUMERABLE
| NOT_FOUND
| UserSymbol (id : nat).

Inductive JsValue : Type :=
| JsUndefined
| JsNull
| JsBoolean (b : bool)
| JsNumber (n : JsNum)
| JsSymbol (s : Symbol).

Definition symbol_eq (a b : Symbol) : bool :=
  match a, b with
  | IS_EMPTY, IS_EMPTY => true
  | IS_ENUMERABLE, IS_ENUMERABLE => true
  | NOT_FOUND, NOT_FOUND => true
  | UserSymbol i, UserSymbol j => Nat.eqb i j
  | _, _ => false
  end.

(** [x === y]. *)
Definition js_strict_eq (x y : JsValue) : bool :=
  match x, y with
  | JsUndefined, JsUndefined => true
  | JsNull, JsNull => true
  | JsBoolean a, JsBoolean b => Bool.eqb a b
  | JsNumber a, JsNumber b => num_eq a b
  | JsSymbol a, JsSymbol b => symbol_eq a b
  | _, _ => false
  end.

Definition boolean_to_number (b : bool) : JsNum :=
  if b then num_of_Z 1 else num_of_Z 0.

(** [x == y]: values of one type compare strictly, null and undefined
    equal each other, a boolean is compared as a number. *)
Definition js_loose_eq (x y : JsValue) : bool :=
  match x, y with
  | JsUndefined, JsNull | JsNull, JsUndefined => true
  | JsBoolean a, JsNumber b => num_eq (boolean_to_number a) b
  | JsNumber a, JsBoolean b => num_eq a (boolean_to_number b)
  | _, _ => js_strict_eq x y
  end.

#[export] Instance JsValue_equality : JsEquality JsValue := {
  loose_eq := js_loose_eq;
  strict_eq := js_strict_eq
}.

(** [ToNumber]: a symbol cannot be converted. *)
Definition to_number (x : JsValue) : Result JsNum :=
  match x with
  | JsUndefined => Ok NaN
  | JsNull => Ok (num_of_Z 0)
  | JsBoolean b => Ok (boolean_to_number b)
  | JsNumber n => Ok n
  | JsSymbol _ => Throw (TypeError "Cannot convert a Symbol value to a number")
  end.

(** [x + y]: without strings both operands are converted to numbers,
    the left one first. *)
Definition js_add (x y : JsValue) : Result JsValue :=
  match to_number x with
  | Throw e => Throw e
  | Ok a =>
      match to_number y with
      | Throw e => Throw e
      | Ok b => Ok (JsNumber (num_add a b))
      end
  end.

(** [parseFloat(toStringSafe(val).trim())]: the text of a number parses
    back to that number, the empty string and the texts of the booleans to
    NaN, and a symbol has no text. *)
Definition parseFloat_toStringSafe (val : JsValue) : Result JsNum :=
  match val with
  | JsUndefined | JsNull => Ok NaN
  | JsBoolean _ => Ok NaN
  | JsNumber n => Ok n
  | JsSymbol _ => Throw (TypeError "Cannot convert a Symbol value to a string")
  end.

Definition isNullOrUndefined (val : JsValue) : bool :=
  match val with
  | JsUndefined | JsNull => true
  | _ => false
  end.

(** [Enumerable.isEmpty(val)]. *)
Definition isEmpty (val : JsValue) : bool := js_strict_eq (JsSymbol IS_EMPTY) val.

(** [Enumerable.notFound(val)]. *)
Definition notFound (val : JsValue) : bool := js_strict_eq (JsSymbol NOT_FOUND) val.

(** A comparer's answer is a number; only its sign is used. *)
Definition Comparer (U : Type) : Type := U -> U -> Result Z.

(** [x < y] on values without strings: both sides become numbers. *)
Definition js_lt (x y : JsValue) : Result bool :=
  match to_number x with
  | Throw e => Throw e
  | Ok a =>
      match to_number y with
      | Throw e => Throw e
      | Ok b => Ok (num_lt a b)
      end
  end.

(** What the default comparer of [toComparerSafe] needs of a key type:
    [===], [<] and [>]. *)
Class JsRelational (U : Type) : Type := {
  rel_strict_eq : U -> U -> bool;
  rel_lt : U -> U -> Result bool;
  rel_gt : U -> U -> Result bool
}.

#[export] Instance JsValue_relational : JsRelational JsValue := {
  rel_strict_eq := js_strict_eq;
  rel_lt := js_lt;
  rel_gt := fun x y => js_lt y x
}.

Definition toComparerSafe {U : Type} `{JsRelational U} (comparer : option (Comparer U))
  : Comparer U :=
  match comparer with
  | Some c => c
  | None => fun x y =>
      if rel_strict_eq x y then Ok 0
      else match rel_lt x y with
           | Throw e => Throw e
           | Ok true => Ok (-1)
           | Ok false =>
               match rel_gt x y with
               | Throw e => Throw e
               | Ok true => Ok 1
               | Ok false => Ok 0
               end
           end
  end.

Section Aggregation.

(** [aggregate(func, seed, resultSelector)]; an omitted [seed] is
    [JsUndefined]. *)
Definition aggregate_body (_func : JsValue -> JsValue -> Result JsValue)
  (acc item : JsValue) : Completion JsValue unit :=
  match _func acc item with
  | Ok acc' => Continue acc'
  | Throw e => Abrupt e
  end.

Definition aggregate (fuel : nat)
  (func : option (JsValue -> JsValue -> Result JsValue)) (seed : JsValue)
  (resultSelector : option (JsValue -> Result JsValue)) (this : Seq JsValue)
  : option (Result JsValue * Seq JsValue) :=
  let _func := match func with Some f => f | None => fun acc item => js_add acc item end in
  let resultSelector := match resultSelector with Some f => f | None => fun acc => Ok acc end in
  match for_of fuel this seed (aggregate_body _func) with
  | None => None
  | Some (Abrupt e, this') => Some (Throw e, this')
  | Some (Return _, this') => Some (Ok JsUndefined, this')
  | Some (Continue acc, this') | Some (Break acc, this') => Some (resultSelector acc, this')
  end.

(** The function [sum] folds with. *)
Definition sum_func (acc x : JsValue) : Result JsValue :=
  if negb (js_strict_eq (JsSymbol IS_EMPTY) acc) then js_add acc x else Ok x.

Definition sum (fuel : nat) (this : Seq JsValue) : option (Result JsValue * Seq JsValue) :=
  aggregate fuel (Some sum_func) (JsSymbol IS_EMPTY) None this.

(** [average(selector)]: the accumulator is [(count, sum)]; [sum += n]
    adds a number to a number, null or undefined. *)
Definition average_body (acc : Z * JsNum) (n : JsValue) : Completion (Z * JsNum) unit :=
  let (count, sum) := acc in
  match (if negb (isNullOrUndefined n)
         then match n with
              | JsNumber _ => Ok n
              | _ => match parseFloat_toStringSafe n with
                     | Ok m => Ok (JsNumber m)
                     | Throw e => Throw e
                     end
              end
         else Ok n) with
  | Throw e => Abrupt e
  | Ok n =>
      match to_number n with
      | Throw e => Abrupt e
      | Ok m => Continue (count + 1, num_add sum m)
      end
  end.

Definition average (fuel : nat) (selector : option (JsValue -> Result JsValue))
  (this : Seq JsValue) : option (Result JsValue * Seq JsValue) :=
  let selector := match selector with Some f => Some f | None => Some (fun i => Ok i) end in
  match for_of fuel (select selector this) (0, num_of_Z 0) average_body with
  | None => None
  | Some (Abrupt e, s') => Some (Throw e, s')
  | Some (Return _, s') => Some (Ok JsUndefined, s')
  | Some (Continue (count, sum), s') | Some (Break (count, sum), s') =>
      if 0 <? count
      then Some (Ok (JsNumber (num_div sum (num_of_Z count))), s')
      else Some (Ok (JsSymbol IS_EMPTY), s')
  end.

(** [min(valueSelector, comparer)] and [max]: the accumulator is
    [(result, minValue, isFirst)]. *)
Definition extremum_body (better : Z -> bool)
  (valueSelector : JsValue -> Result JsValue) (comparer : Comparer JsValue)
  (acc : JsValue * JsValue * bool) (item : JsValue)
  : Completion (JsValue * JsValue * bool) unit :=
  let '(result, bestValue, isFirst) := acc in
  match valueSelector item with
  | Throw e => Abrupt e
  | Ok VALUE =>
      if negb isFirst
      then match comparer VALUE bestValue with
           | Throw e => Abrupt e
           | Ok c => if better c then Continue (item, VALUE, false)
                     else Continue (result, bestValue, false)
           end
      else Continue (item, VALUE, false)
  end.

Definition extremum (better : Z -> bool) (fuel : nat)
  (valueSelector : option (JsValue -> Result JsValue))
  (comparer : option (Comparer JsValue)) (this : Seq JsValue)
  : option (Result JsValue * Seq JsValue) :=
  let valueSelector := match valueSelector with Some f => f | None => fun i => Ok i end in
  let comparer := toComparerSafe comparer in
  match for_of (R := unit) fuel this (JsSymbol IS_EMPTY, JsUndefined, true)
          (extremum_body better valueSelector comparer) with
  | None => None
  | Some (Abrupt e, this') => Some (Throw e, this')
  | Some (Return _, this') => Some (Ok JsUndefined, this')
  | Some (Continue (result, _, _), this') | Some (Break (result, _, _), this') =>
      Some (Ok result, this')
  end.

Definition max := extremum (fun c => 0 <? c).
Definition min := extremum (fun c => c <? 0).

End Aggregation.

(** [rangeInner(start, count)]: the frame holds [current] and [count]
    (NaN is [None]). *)
Definition rangeInner (st : JsNum * option Z)
  : option (Result JsValue * (JsNum * option Z)) :=
  let (current, count) := st in
  match count with
  | Some c =>
      if c <? 1 then None
      else Some (Ok (JsNumber current), (num_add current (num_of_Z 1), Some (c - 1)))
  | None => Some (Ok (JsNumber current), (num_add current (num_of_Z 1), None))
  end.

(** [range(start, count)]: a start that is not a number becomes 0. *)
Definition range (start : JsNum) (count : CountArg) : Seq JsValue :=
  let start := if isNaN start then num_of_Z 0 else start in
  from_generator (SourceFrame rangeInner (start, parseInt_count count)).

(** ** Ordering *)

(** The key object [{level_0, level_1}] that [thenBy] builds. *)
Record Levels (U0 U1 : Type) : Type := {
  level_0 : U0;
  level_1 : U1
}.

(** Two key objects are never [===] (each is a fresh object) and, compared
    with [<] or [>], both become the same text, so neither holds. *)
#[export] Instance Levels_relational (U0 U1 : Type) : JsRelational (Levels U0 U1) := {
  rel_strict_eq := fun _ _ => false;
  rel_lt := fun _ _ => Ok false;
  rel_gt := fun _ _ => Ok false
}.

(** [Array.prototype.map] with a callback that may throw. *)
Fixpoint array_map {A B : Type} (f : A -> Result B) (arr : list A) : Result (list B) :=
  match arr with
  | [] => Ok []
  | x :: rest =>
      match f x with
      | Throw e => Throw e
      | Ok y =>
          match array_map f rest with
          | Throw e => Throw e
          | Ok ys => Ok (y :: ys)
          end
      end
  end.

(** [Array.prototype.sort(compareFn)] belongs to the engine.  The language
    requires it to be stable, which fixes its result for every consistent
    comparator; it is modelled as an insertion sort that puts an element in
    front of the first one that does not have to precede it.  For a
    comparator that is not consistent the language leaves the order to the
    engine, and the model stands for one possible engine only. *)
Fixpoint sort_insert {A : Type} (compareFn : A -> A -> Result Z) (x : A) (sorted : list A)
  : Result (list A) :=
  match sorted with
  | [] => Ok [x]
  | y :: rest =>
      match compareFn x y with
      | Throw e => Throw e
      | Ok c =>
          if c <=? 0 then Ok (x :: y :: rest)
          else match sort_insert compareFn x rest with
               | Throw e => Throw e
               | Ok r => Ok (y :: r)
               end
      end
  end.

Fixpoint array_sort {A : Type} (compareFn : A -> A -> Result Z) (arr : list A)
  : Result (list A) :=
  match arr with
  | [] => Ok []
  | x :: rest =>
      match array_sort compareFn rest with
      | Throw e => Throw e
      | Ok sorted => sort_insert compareFn x sorted
      end
  end.

Section Ordering.
Context {T : Type}.

(** The class [OrderedEnumerable<T, U>]: the wrapped [_sequence] and its
    own three fields. *)
Record OrderedEnumerable (U : Type) : Type := {
  _sequence : Seq T;
  _originalItems : list T;
  _orderComparer : Comparer U;
  _orderSelector : T -> Result U
}.

(** The sorted values: decorate with [sortBy], sort on it, undecorate. *)
Definition sorted_values {U : Type} (selector : T -> Result U) (comparer : Comparer U)
  (items : list T) : Result (list T) :=
  match array_map (fun x => match selector x with
                            | Ok k => Ok (k, x)
                            | Throw e => Throw e
                            end) items with
  | Throw e => Throw e
  | Ok decorated =>
      match array_sort (fun x y => comparer (fst x) (fst y)) decorated with
      | Throw e => Throw e
      | Ok sorted => Ok (map snd sorted)
      end
  end.

(** The constructor: [seq.toArray()] is the snapshot. *)
Definition new_OrderedEnumerable {U : Type} `{JsRelational U} (fuel : nat) (seq : Seq T)
  (selector : T -> Result U) (comparer : option (Comparer U))
  : option (Result (OrderedEnumerable U) * Seq T) :=
  let _orderComparer := toComparerSafe comparer in
  match toArray fuel seq with
  | None => None
  | Some (Throw e, seq') => Some (Throw e, seq')
  | Some (Ok items, seq') =>
      match sorted_values selector _orderComparer items with
      | Throw e => Some (Throw e, seq')
      | Ok values =>
          Some (Ok {| _sequence := from (SequenceArray values);
                      _originalItems := items;
                      _orderComparer := _orderComparer;
                      _orderSelector := selector |}, seq')
      end
  end.

Definition orderBy {U : Type} `{JsRelational U} (fuel : nat)
  (selector : T -> Result U) (comparer : option (Comparer U)) (this : Seq T)
  : option (Result (OrderedEnumerable U) * Seq T) :=
  new_OrderedEnumerable fuel this selector comparer.

Definition orderByDescending {U : Type} `{JsRelational U} (fuel : nat)
  (selector : T -> Result U) (comparer : option (Comparer U)) (this : Seq T)
  : option (Result (OrderedEnumerable U) * Seq T) :=
  let comparer := toComparerSafe comparer in
  orderBy fuel selector (Some (fun x y => comparer y x)) this.

(** The key selector and the comparer that [thenBy] hands to [orderBy]. *)
Definition thenBy_selector {U0 U1 : Type} (THIS_SELECTOR : T -> Result U0)
  (selector : T -> Result U1) (x : T) : Result (Levels U0 U1) :=
  match THIS_SELECTOR x with
  | Throw e => Throw e
  | Ok k0 =>
      match selector x with
      | Throw e => Throw e
      | Ok k1 => Ok {| level_0 := k0; level_1 := k1 |}
      end
  end.

Definition thenBy_comparer {U0 U1 : Type} (THIS_COMPARER : Comparer U0)
  (comparer : Comparer U1) : Comparer (Levels U0 U1) :=
  fun x y =>
    match THIS_COMPARER (level_0 x) (level_0 y) with
    | Throw e => Throw e
    | Ok COMP_0 =>
        if negb (0 =? COMP_0) then Ok COMP_0
        else match comparer (level_1 x) (level_1 y) with
             | Throw e => Throw e
             | Ok COMP_1 => if negb (0 =? COMP_1) then Ok COMP_1 else Ok 0
             end
    end.

Definition thenBy {U0 U1 : Type} `{JsRelational U1} (fuel : nat)
  (selector : T -> Result U1) (comparer : option (Comparer U1))
  (this : OrderedEnumerable U0)
  : option (Result (OrderedEnumerable (Levels U0 U1)) * Seq T) :=
  let comparer := toComparerSafe comparer in
  let THIS_SELECTOR := _orderSelector this in
  let THIS_COMPARER := _orderComparer this in
  orderBy fuel (thenBy_selector THIS_SELECTOR selector)
          (Some (thenBy_comparer THIS_COMPARER comparer))
          (from (SequenceArray (_originalItems this))).

Definition thenByDescending {U0 U1 : Type} `{JsRelational U1} (fuel : nat)
  (selector : T -> Result U1) (comparer : option (Comparer U1))
  (this : OrderedEnumerable U0)
  : option (Result (OrderedEnumerable (Levels U0 U1)) * Seq T) :=
  let comparer := toComparerSafe comparer in
  thenBy fuel selector (Some (fun x y => comparer y x)) this.

(** [toArray()] of an ordered sequence: [next()] is the wrapped
    sequence's. *)
Definition OrderedEnumerable_toArray {U : Type} (fuel : nat) (this : OrderedEnumerable U)
  : option (Result (list T)) :=
  match toArray fuel (_sequence this) with
  | None => None
  | Some (r, _) => Some r
  end.

End Ordering.
Arguments OrderedEnumerable T U : clear implicits.

(** ** Fuel-free readings of the pull *)
Section Readings.
Context {T : Type}.

(** [pulls s r s']: a call of [s.next()] finishes with [r] and leaves the
    sequence in state [s']. *)
Definition pulls (s : Seq T) (r : Result (IteratorResult T)) (s' : Seq T) : Prop :=
  exists fuel, next fuel s = Some (r, s').

Definition resumes (f : Frame T) (r : Suspension T) (f' : Frame T) : Prop :=
  exists fuel, resume fuel f = Some (r, f').

(** [Produces s l s']: [s] is a finite sequence; pulled to the end it
    gives the elements [l], then done, and is left in state [s']. *)
Inductive Produces : Seq T -> list T -> Seq T -> Prop :=
| Produces_done : forall s s',
    pulls s (Ok IterDone) s' -> Produces s [] s'
| Produces_item : forall s x s1 l s',
    pulls s (Ok (IterItem x)) s1 -> Produces s1 l s' -> Produces s (x :: l) s'.

(** A terminal operation finishes with [r]. *)
Definition finishes {A : Type} (run : nat -> option (A * Seq T)) (r : A) : Prop :=
  exists fuel s', run fuel = Some (r, s').

(** The sequence a freshly built operator captured as its [this]. *)
Definition captured_this (s : Seq T) : option (Seq T) :=
  match s with
  | IteratorEnumerable (GeneratorObject false frame) _ _ =>
      match frame with
      | SourceFrame _ _ => None
      | SelectManyFrame _ _ this => Some this
      | WhereFrame _ this => Some this
      | SkipWhileFrame _ _ this => Some this
      | TakeWhileFrame _ this => Some this
      | DistinctByFrame _ _ _ this => Some this
      | ExceptFrame _ _ this => Some this
      | IntersectFrame _ _ this => Some this
      | PipeFrame _ _ this => Some this
      | IntersperseFrame _ _ _ this => Some this
      | ConcatArrayFrame _ _ _ _ this => Some this
      | ZipFrame _ _ _ this => Some this
      | ChunkFrame _ _ this => Some this
      | CloneFrame _ _ _ _ this => Some this
      end
  | _ => None
  end.

(** [holds_untouched s' s]: the operator sequence [s'] reaches [s]
    through its chain of captured [this] references, and [s] is there in
    exactly the state it was handed over in. *)
Inductive holds_untouched : Seq T -> Seq T -> Prop :=
| holds_here : forall s' s, captured_this s' = Some s -> holds_untouched s' s
| holds_below : forall s' m s,
    captured_this s' = Some m -> holds_untouched m s -> holds_untouched s' s.

(** A freshly built sequence: nothing pulled from it yet. *)
Definition fresh (s : Seq T) : Prop := index s = -1 /\ current s = None.

End Readings.

(** ** Building an operator *)
Section Construction.
Context {T : Type} `{JsEquality T}.
Variable sequence_item : list T -> option (T -> Result T) -> T.
Variable isSequence_items : T -> option (list T).
Variable js_plus : T -> T -> Result T.
Variable typeof_number : T -> option JsNum.
Variable number_item : JsNum -> T.
Variable parseFloat_item : T -> Result JsNum.
Variable parseInt_item : T -> Result JsNum.
Variable cast_arm : CastType -> T -> Result T.
Variable Math : NumericMap -> JsNum -> JsNum.

(** A call of a transformation operator with its arguments. *)
Inductive OperatorCall : Type :=
| CallSelect (selector : option (T -> Result T))
| CallWhere (predicate : option (Predicate T))
| CallSelectMany (selector : option (T -> Result (list T)))
| CallDistinct (comparer : EqualityComparerArg T)
| CallDistinctBy (selector : option (T -> Result T)) (comparer : EqualityComparerArg T)
| CallExcept (second : Sequence T) (comparer : EqualityComparerArg T)
| CallIntersect (second : Sequence T) (comparer : EqualityComparerArg T)
| CallUnion (second : Sequence T) (comparer : EqualityComparerArg T)
| CallSkip (count : CountArg)
| CallSkipWhile (predicate : option (Predicate T))
| CallTake (count : CountArg)
| CallTakeWhile (predicate : option (Predicate T))
| CallConcat (args : list (Sequence T))
| CallIntersperse (separators : list T)
| CallChunk (size : CountArg)
| CallClone (count : CountArg) (itemSelector : option (T -> Result T))
| CallFlatten
| CallZip (second : Sequence T) (resultSelector : option (T -> T -> Z -> Result T))
| CallPipe (action : option (EachAction T))
| CallCast (type : string)
| CallNumeric (op : NumericMap) (handleAsInt : bool).

Definition construct (fuel : nat) (call : OperatorCall) (this : Seq T)
  : option (Result (Seq T)) :=
  match call with
  | CallSelect selector => Some (Ok (select selector this))
  | CallWhere predicate => Some (Ok (where_ predicate this))
  | CallSelectMany selector => Some (Ok (selectMany selector this))
  | CallDistinct comparer => Some (Ok (distinct comparer this))
  | CallDistinctBy selector comparer => Some (Ok (distinctBy selector comparer this))
  | CallExcept second comparer => except fuel second comparer this
  | CallIntersect second comparer => intersect fuel second comparer this
  | CallUnion second comparer => Some (Ok (union second comparer this))
  | CallSkip count => Some (Ok (skip count this))
  | CallSkipWhile predicate => Some (Ok (skipWhile predicate this))
  | CallTake count => Some (Ok (take count this))
  | CallTakeWhile predicate => Some (Ok (takeWhile predicate this))
  | CallConcat args => Some (Ok (concat args this))
  | CallIntersperse separators => Some (Ok (intersperse separators this))
  | CallChunk size => Some (Ok (chunk sequence_item size this))
  | CallClone count itemSelector => Some (Ok (clone sequence_item count itemSelector this))
  | CallFlatten => Some (Ok (flatten isSequence_items this))
  | CallZip second resultSelector => Some (Ok (zip js_plus second resultSelector this))
  | CallPipe action => Some (Ok (pipe action this))
  | CallCast type =>
      Some (Ok (cast typeof_number number_item parseFloat_item parseInt_item cast_arm
                     type this))
  | CallNumeric op handleAsInt =>
      Some (Ok (numeric_map typeof_number number_item parseFloat_item parseInt_item Math
                            op handleAsInt this))
  end.

(** The operators that read their second sequence while being built. *)
Definition materializes_second (call : OperatorCall) : option (Sequence T) :=
  match call with
  | CallExcept second _ => Some second
  | CallIntersect second _ => Some second
  | _ => None
  end.

End Construction.

(** ** Vocabulary of the statements *)
Section Vocabulary.
Context {T : Type}.

(** More fuel never changes an answer. *)
Definition fuel_monotone (fuel : nat) : Prop :=
  (forall (s : Seq T) r, next fuel s = Some r -> next (S fuel) s = Some r) /\
  (forall (it : Iterator T) r, iterator_next fuel it = Some r ->
                               iterator_next (S fuel) it = Some r) /\
  (forall (f : Frame T) r, resume fuel f = Some r -> resume (S fuel) f = Some r) /\
  (forall size ARR (s : Seq T) r, getNextChunkArray fuel size ARR s = Some r ->
                                  getNextChunkArray (S fuel) size ARR s = Some r) /\
  (forall ARR (s : Seq T) r, toArray_from fuel ARR s = Some r ->
                             toArray_from (S fuel) ARR s = Some r).

(** The loop of [for_of] over the elements a finite sequence gives. *)
Fixpoint for_of_list {A R : Type} (body : A -> T -> Completion A R) (acc : A) (l : list T)
  : Completion A R :=
  match l with
  | [] => Continue acc
  | item :: rest =>
      match body acc item with
      | Continue acc' => for_of_list body acc' rest
      | c => c
      end
  end.

(** [FrameProduces f l f']: resumed again and again, the generator body
    [f] yields the elements [l] and then returns, in state [f']. *)
Inductive FrameProduces : Frame T -> list T -> Frame T -> Prop :=
| FrameProduces_return : forall f f',
    resumes f Returned f' -> FrameProduces f [] f'
| FrameProduces_yield : forall f x f1 l f',
    resumes f (Yielded x) f1 -> FrameProduces f1 l f' -> FrameProduces f (x :: l) f'.

End Vocabulary.

(** ** What the lookups should answer *)
Section LookupOutcomes.
Context {T : Type}.

(** A predicate that answers [f] and keeps no state. *)
Definition pure_predicate (p : Predicate T) (f : T -> bool) : Prop :=
  forall x, call_predicate p x = (Ok (f x), p).

Definition ambiguous_match : Thrown :=
  ThrownString "Sequence contains more that one matching element".

Definition element_not_found : Thrown := ThrownString "Element not found".

(** By the number of elements of [l] that satisfy [f]: none, the
    default; one, that element; more, the ambiguous-match error. *)
Definition singleOrDefault_outcome {U : Type} (f : T -> bool) (l : list T) (d : U)
  : Result (T + U) :=
  match filter f l with
  | [] => Ok (inr d)
  | [x] => Ok (inl x)
  | _ :: _ :: _ => Throw ambiguous_match
  end.

Definition single_outcome (f : T -> bool) (l : list T) : Result T :=
  match filter f l with
  | [] => Throw element_not_found
  | [x] => Ok x
  | _ :: _ :: _ => Throw ambiguous_match
  end.

End LookupOutcomes.

(** ** What [forAll] should report *)
Section ForAllOutcome.
Context {T : Type}.

(** The failing calls of an action over the elements [l], numbered from
    [i]: each with its index and what it threw. *)
Fixpoint failing_actions (call : T -> Z -> Result unit) (i : Z) (l : list T)
  : list (Z * Thrown) :=
  match l with
  | [] => []
  | x :: rest =>
      match call x i with
      | Throw e => (i, e) :: failing_actions call (i + 1) rest
      | Ok _ => failing_actions call (i + 1) rest
      end
  end.

(** One [FunctionError] per failing call, then one [AggregateError]
    around them all; nothing is thrown when no call failed. *)
Definition forAll_outcome (action : EachAction T) (l : list T) : Result unit :=
  match failing_actions (action_call action) 0 l with
  | [] => Ok tt
  | failures =>
      Throw (AggregateError
               (map (fun ie => FunctionError (snd ie) (Some (action_ref action)) (fst ie))
                    failures))
  end.

End ForAllOutcome.

(** ** Sequences that may fail on the way *)
Section Emission.
Context {T : Type}.

(** [Emits s l e s']: pulled again and again, [s] gives the elements [l]
    and then either signals done ([e] is [None]) or throws [e]. *)
Inductive Emits : Seq T -> list T -> option Thrown -> Seq T -> Prop :=
| Emits_done : forall s s',
    pulls s (Ok IterDone) s' -> Emits s [] None s'
| Emits_throw : forall s e s',
    pulls s (Throw e) s' -> Emits s [] (Some e) s'
| Emits_item : forall s x s1 l e s',
    pulls s (Ok (IterItem x)) s1 -> Emits s1 l e s' -> Emits s (x :: l) e s'.

Inductive FrameEmits : Frame T -> list T -> option Thrown -> Frame T -> Prop :=
| FrameEmits_return : forall f f',
    resumes f Returned f' -> FrameEmits f [] None f'
| FrameEmits_raise : forall f e f',
    resumes f (Raised e) f' -> FrameEmits f [] (Some e) f'
| FrameEmits_yield : forall f x f1 l e f',
    resumes f (Yielded x) f1 -> FrameEmits f1 l e f' -> FrameEmits f (x :: l) e f'.

(** How a loop over such a sequence ends. *)
Definition for_of_emitted {A R : Type} (body : A -> T -> Completion A R) (acc : A)
  (l : list T) (e : option Thrown) : Completion A R :=
  match for_of_list body acc l, e with
  | Continue a, Some err => Abrupt err
  | c, _ => c
  end.

(** The values a selector gives over [l], up to its first failure. *)
Fixpoint selected (selector : T -> Result T) (l : list T) : list T * option Thrown :=
  match l with
  | [] => ([], None)
  | x :: rest =>
      match selector x with
      | Throw e => ([], Some e)
      | Ok y => let (ys, e) := selected selector rest in (y :: ys, e)
      end
  end.

(** The selector that [select] hands to [selectMany]. *)
Definition select_wrapper (selector : T -> Result T) (x : T) : Result (list T) :=
  match selector x with
  | Ok y => Ok [y]
  | Throw e => Throw e
  end.

End Emission.

(** ** What [zip] should give *)
Section ZipOutcome.
Context {T : Type}.

(** The pairs of [l1] and [l2] combined with their index, as far as both
    lists go. *)
Fixpoint zip_list (g : T -> T -> Z -> T) (i : Z) (l1 l2 : list T) : list T :=
  match l1, l2 with
  | x :: r1, y :: r2 => g x y i :: zip_list g (i + 1) r1 r2
  | _, _ => []
  end.

(** [Advances s l s']: pulling [s] gives the elements [l], one per pull,
    and leaves it in state [s']. *)
Inductive Advances : Seq T -> list T -> Seq T -> Prop :=
| Advances_nil : forall s, Advances s [] s
| Advances_cons : forall s x s1 l s',
    pulls s (Ok (IterItem x)) s1 -> Advances s1 l s' -> Advances s (x :: l) s'.

End ZipOutcome.

(** ** What [distinct] and [intersect] should give *)
Section SetOutcomes.
Context {T : Type}.

(** The scan of [_distinctByInner] over the elements [l], with [TEMP]
    the keys kept so far. *)
Fixpoint distinct_list (comparer : T -> T -> bool) (TEMP : list T) (l : list T) : list T :=
  match l with
  | [] => []
  | item :: rest =>
      if existsb (fun t => comparer item t) TEMP
      then distinct_list comparer TEMP rest
      else item :: distinct_list comparer (TEMP ++ [item]) rest
  end.

(** First occurrences, in the words of the specification: an element
    stays exactly when no element before it in the sequence (kept or not)
    equals it. *)
Fixpoint first_occurrences (comparer : T -> T -> bool) (earlier : list T) (l : list T)
  : list T :=
  match l with
  | [] => []
  | item :: rest =>
      if existsb (fun t => comparer item t) earlier
      then first_occurrences comparer (earlier ++ [item]) rest
      else item :: first_occurrences comparer (earlier ++ [item]) rest
  end.

Definition symmetric_comparer (comparer : T -> T -> bool) : Prop :=
  forall x y, comparer x y = true -> comparer y x = true.

Definition transitive_comparer (comparer : T -> T -> bool) : Prop :=
  forall x y z, comparer x y = true -> comparer y z = true -> comparer x z = true.

(** No element of [l] equals an element before it. *)
Definition pairwise_different (comparer : T -> T -> bool) (l : list T) : Prop :=
  ForallOrdPairs (fun a b => comparer a b = false /\ comparer b a = false) l.

(** The elements of the first sequence that equal some element of the
    second, each occurrence kept. *)
Definition intersect_list (comparer : T -> T -> bool) (second : list T) (l : list T)
  : list T :=
  filter (fun item => existsb (fun secondItem => comparer item secondItem) second) l.

End SetOutcomes.

(** ** What the ordering should give *)

(** Integers as sort keys: [===], [<] and [>] on numbers without NaN. *)
#[export] Instance Z_relational : JsRelational Z := {
  rel_strict_eq := Z.eqb;
  rel_lt := fun x y => Ok (x <? y);
  rel_gt := fun x y => Ok (y <? x)
}.

Section OrderingOutcome.
Context {T : Type}.

(** The sort of [array_sort] for a comparator that does not throw. *)
Fixpoint insert_sorted {A : Type} (c : A -> A -> Z) (x : A) (sorted : list A) : list A :=
  match sorted with
  | [] => [x]
  | y :: rest => if c x y <=? 0 then x :: y :: rest else y :: insert_sorted c x rest
  end.

Fixpoint stable_sort {A : Type} (c : A -> A -> Z) (arr : list A) : list A :=
  match arr with
  | [] => []
  | x :: rest => insert_sorted c x (stable_sort c rest)
  end.

(** A consistent comparator: its sign is antisymmetric, and both "before"
    and "tied" are transitive. *)
Record consistent_comparer {U : Type} (c : U -> U -> Z) : Prop := {
  comparer_antisym : forall x y, c x y < 0 <-> 0 < c y x;
  comparer_trans_lt : forall x y z, c x y < 0 -> c y z < 0 -> c x z < 0;
  comparer_trans_eq : forall x y z, c x y = 0 -> c y z = 0 -> c x z = 0
}.

(** The comparer of [thenBy] on answers that are plain numbers:
    the primary answer unless it is a tie. *)
Definition levels_comparer {U0 U1 : Type} (c0 : U0 -> U0 -> Z) (c1 : U1 -> U1 -> Z)
  (x y : Levels U0 U1) : Z :=
  if negb (0 =? c0 (level_0 x) (level_0 y)) then c0 (level_0 x) (level_0 y)
  else if negb (0 =? c1 (level_1 x) (level_1 y)) then c1 (level_1 x) (level_1 y)
  else 0.

Definition levels_key {U0 U1 : Type} (k0 : T -> U0) (k1 : T -> U1) (x : T) : Levels U0 U1 :=
  {| level_0 := k0 x; level_1 := k1 x |}.

(** [ordered_by snapshot k c o]: the ordered sequence [o] keeps the
    snapshot [snapshot], sorts by the keys [k] with the comparer [c], and
    wraps the snapshot sorted that way. *)
Definition ordered_by {U : Type} (snapshot : list T) (k : T -> U) (c : U -> U -> Z)
  (o : OrderedEnumerable T U) : Prop :=
  _originalItems o = snapshot /\
  (forall x, _orderSelector o x = Ok (k x)) /\
  (forall a b, _orderComparer o a b = Ok (c a b)) /\
  _sequence o = from (SequenceArray (stable_sort (fun x y => c (k x) (k y)) snapshot)).

(** The elements whose key ties with the key of [a]. *)
Definition tied {U : Type} (k : T -> U) (c : U -> U -> Z) (a : T) (z : T) : bool :=
  c (k a) (k z) =? 0.

(** A stable sort of [l]: the same elements, in an order the comparer
    agrees with, and tied elements in the order they had in [l]. *)
Definition is_stable_sort_of {U : Type} (k : T -> U) (c : U -> U -> Z) (l out : list T)
  : Prop :=
  Permutation out l /\
  StronglySorted (fun x y => c (k x) (k y) <= 0) out /\
  forall a, filter (tied k c a) out = filter (tied k c a) l.

End OrderingOutcome.

(** ** Sample data and small notions used in the statements *)

(** The result is the [IS_EMPTY] marker. *)
Definition is_marker (r : Result JsValue) : Prop := r = Ok (JsSymbol IS_EMPTY).

(** A number element. *)
Definition js_number_of (z : Z) : JsValue := JsNumber (num_of_Z z).

(** The sum of two elements as a combiner for [zip]. *)
Definition add_or_undefined (x y : JsValue) (_ : Z) : JsValue :=
  match js_add x y with
  | Ok v => v
  | Throw _ => JsUndefined
  end.

(** [range(0, 10)] and the ten numbers it gives. *)
Definition range_0_10 : Seq JsValue := range (num_of_Z 0) (CountInt 10).

Definition zero_to_nine : list JsValue := map js_number_of [0; 1; 2; 3; 4; 5; 6; 7; 8; 9].

(** The default comparer on integer keys. *)
Definition Z_default_comparer (x y : Z) : Z :=
  if x =? y then 0 else if x <? y then -1 else if y <? x then 1 else 0.

(** An action that fails on the second and the third of three elements. *)
Definition fails_from_second : EachAction nat :=
  {| action_ref := 5%nat;
     action_call := fun item i => if 1 <=? i then Throw (UserError item) else Ok tt |}.

(** A second sequence whose first pull fails. *)
Definition failing_second : Sequence JsValue :=
  SequenceIterator (select (Some (fun _ => Throw (UserError 0))) (from (SequenceArray [JsNull]))).


(** ** Further consuming methods *)
Section MoreTerminal.
Context {T : Type} `{JsEquality T}.

(** [count(predicate)]: the accumulator is [cnt] and the predicate closure. *)
Definition count_body (acc : Z * Predicate T) (item : T)
  : Completion (Z * Predicate T) unit :=
  let (cnt, predicate) := acc in
  match call_predicate predicate item with
  | (Throw e, _) => Abrupt e
  | (Ok true, p') => Continue (cnt + 1, p')
  | (Ok false, p') => Continue (cnt, p')
  end.

Definition count (fuel : nat) (predicate : option (Predicate T)) (this : Seq T)
  : option (Result Z * Seq T) :=
  match for_of fuel this (0, toPredicateSafe predicate) count_body with
  | None => None
  | Some (Abrupt e, this') => Some (Throw e, this')
  | Some (Return _, this') => Some (Ok 0, this')
  | Some (Continue (cnt, _), this') | Some (Break (cnt, _), this') => Some (Ok cnt, this')
  end.

(** [length()]: [EnumerableBase] counts, [ArrayEnumerable] overrides it
    with the length of its array. *)
Definition length (fuel : nat) (this : Seq T) : option (Result Z * Seq T) :=
  match this with
  | ArrayEnumerable _array _ _ => Some (Ok (Z.of_nat (List.length _array)), this)
  | IteratorEnumerable _ _ _ => count fuel None this
  end.

(** The method [isEmpty()]: [this.length() < 1]. *)
Definition isEmpty_ (fuel : nat) (this : Seq T) : option (Result bool * Seq T) :=
  match length fuel this with
  | None => None
  | Some (Throw e, this') => Some (Throw e, this')
  | Some (Ok n, this') => Some (Ok (n <? 1), this')
  end.

(** [all(predicate)] and [any(predicate)]: the accumulator is the
    predicate closure, [return] leaves the loop. *)
Definition all_body (predicate : Predicate T) (item : T) : Completion (Predicate T) bool :=
  match call_predicate predicate item with
  | (Throw e, _) => Abrupt e
  | (Ok true, p') => Continue p'
  | (Ok false, _) => Return false
  end.

Definition all (fuel : nat) (predicate : option (Predicate T)) (this : Seq T)
  : option (Result bool * Seq T) :=
  match for_of fuel this (toPredicateSafe predicate) all_body with
  | None => None
  | Some (Abrupt e, this') => Some (Throw e, this')
  | Some (Return b, this') => Some (Ok b, this')
  | Some (_, this') => Some (Ok true, this')
  end.

Definition any_body (predicate : Predicate T) (item : T) : Completion (Predicate T) bool :=
  match call_predicate predicate item with
  | (Throw e, _) => Abrupt e
  | (Ok true, _) => Return true
  | (Ok false, p') => Continue p'
  end.

Definition any (fuel : nat) (predicate : option (Predicate T)) (this : Seq T)
  : option (Result bool * Seq T) :=
  match for_of fuel this (toPredicateSafe predicate) any_body with
  | None => None
  | Some (Abrupt e, this') => Some (Throw e, this')
  | Some (Return b, this') => Some (Ok b, this')
  | Some (_, this') => Some (Ok false, this')
  end.

(** [indexOf(item, comparer)]: the accumulator is [index]. *)
Definition indexOf_body (comparer : T -> T -> bool) (item : T) (index : Z) (thisItem : T)
  : Completion Z Z :=
  let index := index + 1 in
  if comparer thisItem item then Return index else Continue index.

Definition indexOf (fuel : nat) (item : T) (comparer : EqualityComparerArg T) (this : Seq T)
  : option (Result Z * Seq T) :=
  let comparer := toEqualityComparerSafe comparer in
  match for_of fuel this (-1) (indexOf_body comparer item) with
  | None => None
  | Some (Abrupt e, this') => Some (Throw e, this')
  | Some (Return index, this') => Some (Ok index, this')
  | Some (_, this') => Some (Ok (-1), this')
  end.

(** [contains(item, comparer)]: [this.indexOf(item, comparer) > -1]. *)
Definition contains (fuel : nat) (item : T) (comparer : EqualityComparerArg T) (this : Seq T)
  : option (Result bool * Seq T) :=
  match indexOf fuel item comparer this with
  | None => None
  | Some (Throw e, this') => Some (Throw e, this')
  | Some (Ok index, this') => Some (Ok (-1 <? index), this')
  end.

(** [lastIndexOf(item, comparer)]: the accumulator is [(index, lastIndex)]. *)
Definition lastIndexOf_body (comparer : T -> T -> bool) (item : T) (acc : Z * Z)
  (thisItem : T) : Completion (Z * Z) unit :=
  let (index, lastIndex) := acc in
  let index := index + 1 in
  if comparer thisItem item then Continue (index, index) else Continue (index, lastIndex).

Definition lastIndexOf (fuel : nat) (item : T) (comparer : EqualityComparerArg T)
  (this : Seq T) : option (Result Z * Seq T) :=
  let comparer := toEqualityComparerSafe comparer in
  match for_of fuel this (-1, -1) (lastIndexOf_body comparer item) with
  | None => None
  | Some (Abrupt e, this') => Some (Throw e, this')
  | Some (Return _, this') => Some (Ok (-1), this')
  | Some (Continue (_, lastIndex), this') | Some (Break (_, lastIndex), this') =>
      Some (Ok lastIndex, this')
  end.

(** [elementAtOrDefault(index, defaultValue)]: [index] is the argument
    after [parseInt] (NaN is [None], and no [i] is [===] to it); an omitted
    default is [NOT_FOUND]. *)
Definition elementAtOrDefault_body (index : option Z) (i : Z) (item : T)
  : Completion Z T :=
  let i := i + 1 in
  match index with
  | Some n => if i =? n then Return item else Continue i
  | None => Continue i
  end.

Definition elementAtOrDefault {U : Type} (fuel : nat) (NOT_FOUND : U) (index : CountArg)
  (defaultValue : option U) (this : Seq T) : option (Result (T + U) * Seq T) :=
  let index := parseInt_count index in
  let defaultValue := match defaultValue with Some d => d | None => NOT_FOUND end in
  match for_of fuel this (-1) (elementAtOrDefault_body index) with
  | None => None
  | Some (Abrupt e, this') => Some (Throw e, this')
  | Some (Return item, this') => Some (Ok (inl item), this')
  | Some (_, this') => Some (Ok (inr defaultValue), this')
  end.

(** [elementAt(index)]: its own fresh [ELEMENT_NOT_FOUND] is the default. *)
Definition elementAt (fuel : nat) (index : CountArg) (this : Seq T)
  : option (Result T * Seq T) :=
  match elementAtOrDefault fuel tt index (Some tt) this with
  | None => None
  | Some (Throw e, this') => Some (Throw e, this')
  | Some (Ok (inr _), this') => Some (Throw (ThrownString "Element not found"), this')
  | Some (Ok (inl ITEM), this') => Some (Ok ITEM, this')
  end.

(** [firstOrDefault] and [first]. *)
Definition firstOrDefault_body (predicate : Predicate T) (item : T)
  : Completion (Predicate T) T :=
  match call_predicate predicate item with
  | (Throw e, _) => Abrupt e
  | (Ok true, _) => Return item
  | (Ok false, p') => Continue p'
  end.

Definition firstOrDefault {U : Type} (fuel : nat) (NOT_FOUND : U)
  (args : OrDefaultArguments U) (this : Seq T) : option (Result (T + U) * Seq T) :=
  let (defaultValue, predicate) := getOrDefaultArguments NOT_FOUND args in
  match for_of fuel this predicate firstOrDefault_body with
  | None => None
  | Some (Abrupt e, this') => Some (Throw e, this')
  | Some (Return item, this') => Some (Ok (inl item), this')
  | Some (_, this') => Some (Ok (inr defaultValue), this')
  end.

Definition first (fuel : nat) (predicate : option (Predicate T)) (this : Seq T)
  : option (Result T * Seq T) :=
  let predicate := toPredicateSafe predicate in
  match firstOrDefault fuel tt (TwoArguments (Some predicate) tt) this with
  | None => None
  | Some (Throw e, this') => Some (Throw e, this')
  | Some (Ok (inr _), this') => Some (Throw (ThrownString "Element not found"), this')
  | Some (Ok (inl RESULT), this') => Some (Ok RESULT, this')
  end.

(** [lastOrDefault] and [last]: the accumulator is [result] (its fresh
    [ELEMENT_NOT_FOUND] is [None]) and the predicate closure. *)
Definition lastOrDefault_body (acc : option T * Predicate T) (item : T)
  : Completion (option T * Predicate T) unit :=
  let (result, predicate) := acc in
  match call_predicate predicate item with
  | (Throw e, _) => Abrupt e
  | (Ok true, p') => Continue (Some item, p')
  | (Ok false, p') => Continue (result, p')
  end.

Definition lastOrDefault {U : Type} (fuel : nat) (NOT_FOUND : U)
  (args : OrDefaultArguments U) (this : Seq T) : option (Result (T + U) * Seq T) :=
  let (defaultValue, predicate) := getOrDefaultArguments NOT_FOUND args in
  match for_of fuel this (None, predicate) lastOrDefault_body with
  | None => None
  | Some (Abrupt e, this') => Some (Throw e, this')
  | Some (Return _, this') => Some (Ok (inr defaultValue), this')
  | Some (Continue (result, _), this') | Some (Break (result, _), this') =>
      match result with
      | Some item => Some (Ok (inl item), this')
      | None => Some (Ok (inr defaultValue), this')
      end
  end.

Definition last (fuel : nat) (predicate : option (Predicate T)) (this : Seq T)
  : option (Result T * Seq T) :=
  let predicate := toPredicateSafe predicate in
  match lastOrDefault fuel tt (TwoArguments (Some predicate) tt) this with
  | None => None
  | Some (Throw e, this') => Some (Throw e, this')
  | Some (Ok (inr _), this') => Some (Throw (ThrownString "Element not found"), this')
  | Some (Ok (inl RESULT), this') => Some (Ok RESULT, this')
  end.

(** [sequenceEqual(other, equalityComparer)]: the [do ... while (true)]
    that pulls [this], then [OTHER_SEQ]; the answer comes with the states
    both sequences are left in. *)
Fixpoint sequenceEqual_loop (fuel : nat) (equalityComparer : T -> T -> bool)
  (this OTHER_SEQ : Seq T) {struct fuel} : option (Result bool * Seq T * Seq T) :=
  match fuel with
  | O => None
  | S fuel =>
    match next fuel this with
    | None => None
    | Some (Throw e, this') => Some (Throw e, this', OTHER_SEQ)
    | Some (Ok IterDone, this') =>
        match next fuel OTHER_SEQ with
        | None => None
        | Some (Throw e, other') => Some (Throw e, this', other')
        | Some (Ok IterDone, other') => Some (Ok true, this', other')
        | Some (Ok (IterItem _), other') => Some (Ok false, this', other')
        end
    | Some (Ok (IterItem X), this') =>
        match next fuel OTHER_SEQ with
        | None => None
        | Some (Throw e, other') => Some (Throw e, this', other')
        | Some (Ok IterDone, other') => Some (Ok false, this', other')
        | Some (Ok (IterItem Y), other') =>
            if equalityComparer X Y
            then sequenceEqual_loop fuel equalityComparer this' other'
            else Some (Ok false, this', other')
        end
    end
  end.

Definition sequenceEqual (fuel : nat) (other : Sequence T)
  (equalityComparer : EqualityComparerArg T) (this : Seq T)
  : option (Result bool * Seq T * Seq T) :=
  sequenceEqual_loop fuel (toEqualityComparerSafe equalityComparer) this (from other).


End MoreTerminal.

(** ** What the prefix and suffix operators should give *)
Section PrefixOutcomes.
Context {T : Type}.

(** The longest prefix of [l] whose elements all satisfy [f], and what
    is left of [l] behind it. *)
Fixpoint take_while (f : T -> bool) (l : list T) : list T :=
  match l with
  | [] => []
  | x :: rest => if f x then x :: take_while f rest else []
  end.

Fixpoint drop_while (f : T -> bool) (l : list T) : list T :=
  match l with
  | [] => []
  | x :: rest => if f x then drop_while f rest else l
  end.

(** The count [skip], [take] and [chunk] work with: NaN becomes 1. *)
Definition count_or_one (count : CountArg) : Z :=
  match parseInt_count count with Some c => c | None => 1 end.

(** The integers on which the model follows the numbers of the code: up
    to 2^53 in magnitude a number is written in plain digits, which
    [parseInt] reads back unchanged, and adding or subtracting 1 is exact.
    Beyond that doubles no longer count by one, and from 1e21 on the text
    of a number is in exponent form, of which [parseInt] reads the leading
    digit only. *)
Definition safe_integer (z : Z) : Prop := Z.abs z <= 2 ^ 53.

Definition safe_count (count : CountArg) : Prop :=
  match count with
  | CountInt z => safe_integer z
  | _ => True
  end.

End PrefixOutcomes.

(** ** What [concat], [except], [intersperse] and [chunk] should give *)
Section JoinOutcomes.
Context {T : Type}.

(** The arguments of [concat] are finite sequences with the elements
    [lists], one list per argument. *)
Definition Sequences_give (args : list (Sequence T)) (lists : list (list T)) : Prop :=
  Forall2 (fun a la => exists sa, Produces (from a) la sa) args lists.

(** The elements of the first sequence that equal no element of the
    second, each occurrence kept. *)
Definition except_list (comparer : T -> T -> bool) (second : list T) (l : list T)
  : list T :=
  filter (fun item => negb (existsb (fun secondItem => comparer item secondItem) second)) l.

(** The separators in front of every element but the first. *)
Definition intersperse_list (separators : list T) (l : list T) : list T :=
  match l with
  | [] => []
  | x :: rest => x :: flat_map (fun y => separators ++ [y]) rest
  end.

(** One call of [getNextChunkArray] over the elements [l] with [ARR]
    collected so far: the array it returns and the elements left. *)
Fixpoint next_chunk (size : Z) (ARR : list T) (l : list T) : list T * list T :=
  match l with
  | [] => (ARR, [])
  | item :: rest =>
      let ARR := ARR ++ [item] in
      if Z.of_nat (List.length ARR) >=? size then (ARR, rest)
      else next_chunk size ARR rest
  end.

(** The arrays [_chunkInner] gets in at most [n] rounds. *)
Fixpoint chunks_within (n : nat) (size : Z) (l : list T) : list (list T) :=
  match n with
  | O => []
  | S n =>
      let (ARR, rest) := next_chunk size [] l in
      if 0 <? Z.of_nat (List.length ARR) then ARR :: chunks_within n size rest else []
  end.

Definition chunk_list (size : Z) (l : list T) : list (list T) :=
  chunks_within (S (List.length l)) size l.

End JoinOutcomes.

(** ** What the searching methods should answer *)
Section SearchOutcomes.
Context {T : Type}.

(** The first element that satisfies [f], or the default. *)
Definition firstOrDefault_outcome {U : Type} (f : T -> bool) (l : list T) (d : U)
  : Result (T + U) :=
  match find f l with
  | Some x => Ok (inl x)
  | None => Ok (inr d)
  end.

Definition first_outcome (f : T -> bool) (l : list T) : Result T :=
  match find f l with
  | Some x => Ok x
  | None => Throw element_not_found
  end.

(** The last element that satisfies [f], if there is one. *)
Definition last_match (f : T -> bool) (l : list T) : option T :=
  List.last (map Some (filter f l)) None.

Definition lastOrDefault_outcome {U : Type} (f : T -> bool) (l : list T) (d : U)
  : Result (T + U) :=
  match last_match f l with
  | Some x => Ok (inl x)
  | None => Ok (inr d)
  end.

Definition last_outcome (f : T -> bool) (l : list T) : Result T :=
  match last_match f l with
  | Some x => Ok x
  | None => Throw element_not_found
  end.

(** The position of the first and of the last element that satisfies
    [f], counted from 0. *)
Fixpoint find_index (f : T -> bool) (l : list T) : option nat :=
  match l with
  | [] => None
  | x :: rest => if f x then Some 0%nat else option_map S (find_index f rest)
  end.

Fixpoint find_last_index (f : T -> bool) (l : list T) : option nat :=
  match l with
  | [] => None
  | x :: rest =>
      match find_last_index f rest with
      | Some k => Some (S k)
      | None => if f x then Some 0%nat else None
      end
  end.

(** A position as the number [indexOf] answers: -1 for none. *)
Definition index_or_minus_one (k : option nat) : Z :=
  match k with
  | Some k => Z.of_nat k
  | None => -1
  end.

(** The element at a position given as the argument of [elementAt]. *)
Definition element_at (index : CountArg) (l : list T) : option T :=
  match parseInt_count index with
  | Some n => lookupZ l n
  | None => None
  end.

Definition elementAtOrDefault_outcome {U : Type} (index : CountArg) (l : list T) (d : U)
  : Result (T + U) :=
  match element_at index l with
  | Some x => Ok (inl x)
  | None => Ok (inr d)
  end.

Definition elementAt_outcome (index : CountArg) (l : list T) : Result T :=
  match element_at index l with
  | Some x => Ok x
  | None => Throw element_not_found
  end.

(** Two lists are equal element by element under a comparer. *)
Fixpoint list_equal (comparer : T -> T -> bool) (l1 l2 : list T) : bool :=
  match l1, l2 with
  | [], [] => true
  | x :: r1, y :: r2 => if comparer x y then list_equal comparer r1 r2 else false
  | _, _ => false
  end.

End SearchOutcomes.

(** ** The generator functions that start a pipeline *)
Section Sources.
Context {T : Type}.

(** [repeatInner(item, count)]: the frame holds [count] (NaN is [None]). *)
Definition repeatInner (item : T) (count : option Z) : option (Result T * option Z) :=
  match count with
  | Some c => if c <? 1 then None else Some (Ok item, Some (c - 1))
  | None => Some (Ok item, None)
  end.

Definition repeat (item : T) (count : CountArg) : Seq T :=
  from_generator (SourceFrame (repeatInner item) (parseInt_count count)).

(** [emptyIterator()]: [while (false)] never yields. *)
Definition emptyIterator (_ : unit) : option (Result T * unit) := None.

Definition empty : Seq T := from_generator (SourceFrame emptyIterator tt).

(** [popFromInner(stack)] and [shiftFromInner(stack)]: the frame holds
    the stack, [None] for a missing one; [pop] takes the last element off,
    [shift] the first.  The stack is taken to be touched by the generator
    only. *)
Definition popFromInner (stack : option (list T)) : option (Result T * option (list T)) :=
  match stack with
  | None => None
  | Some st =>
      if 0 <? Z.of_nat (List.length st)
      then match nth_error st (List.length st - 1) with
           | Some v => Some (Ok v, Some (removelast st))
           | None => None
           end
      else None
  end.

Definition popFrom (stack : option (list T)) : Seq T :=
  from_generator (SourceFrame popFromInner stack).

Definition shiftFromInner (stack : option (list T)) : option (Result T * option (list T)) :=
  match stack with
  | None => None
  | Some st =>
      if 0 <? Z.of_nat (List.length st)
      then match st with
           | v :: rest => Some (Ok v, Some rest)
           | [] => None
           end
      else None
  end.

Definition shiftFrom (stack : option (list T)) : Seq T :=
  from_generator (SourceFrame shiftFromInner stack).

(** What a call of the factory of [build] gives: the new item and the
    arguments of the calls of [CANCEL] it made, in order ([None] for a call
    without argument). *)
Definition CancelableFactory : Type := Z -> Result (T * list (option bool)).

(** The variable [run] after these calls of [CANCEL]. *)
Fixpoint run_after (run : bool) (cancels : list (option bool)) : bool :=
  match cancels with
  | [] => run
  | flag :: rest =>
      run_after (negb (match flag with Some f => f | None => true end)) rest
  end.

(** [buildInner(factory, count)]: the frame holds [i]; [run] is true at
    every suspension. *)
Definition buildInner (factory : CancelableFactory) (count : option Z) (i : Z)
  : option (Result T * Z) :=
  let i := i + 1 in
  if match count with Some c => i >=? c | None => false end then None
  else match factory i with
       | Throw e => Some (Throw e, i)
       | Ok (NEW_ITEM, cancels) =>
           if run_after true cancels then Some (Ok NEW_ITEM, i) else None
       end.

Definition build (factory : CancelableFactory) (count : CountArg) : Seq T :=
  from_generator (SourceFrame (buildInner factory (parseInt_count count)) (-1)).

End Sources.

(** The [n] integers from [i] on. *)
Fixpoint count_up (i : Z) (n : nat) : list Z :=
  match n with
  | O => []
  | S n => i :: count_up (i + 1) n
  end.

(** The numbers [rangeInner] gives from [current] on, [n] of them. *)
Fixpoint range_list (current : JsNum) (n : nat) : list JsValue :=
  match n with
  | O => []
  | S n => JsNumber current :: range_list (num_add current (num_of_Z 1)) n
  end.

(** ** [assert] and [assertAll] *)
Section Assertions.
Context {T : Type}.

(** The text a template literal makes of an index is the engine's. *)
Variable number_text : Z -> string.

(** The argument [errMsg?: ItemMessage<T>]: missing, a value that is not
    a function (kept as the string [toStringSafe] makes of it), or a
    function (with [toStringSafe] applied to what it returns). *)
Inductive ItemMessage : Type :=
| MessageUndefined
| MessageValue (MSG : string)
| MessageFn (f : T -> Z -> Result string).

Definition toItemMessageSafe (msgOrProvider : ItemMessage) : T -> Z -> Result string :=
  match msgOrProvider with
  | MessageUndefined =>
      fun _ index => Ok (String.append "Condition failed at index " (number_text index))
  | MessageValue MSG => fun _ _ => Ok MSG
  | MessageFn f => f
  end.

(** [assert(predicate, errMsg)]: the accumulator is [i] and the predicate
    closure; the message is thrown as it is, a string. *)
Definition assert_body (errMsg : T -> Z -> Result string) (acc : Z * Predicate T)
  (item : T) : Completion (Z * Predicate T) unit :=
  let (i, predicate) := acc in
  let i := i + 1 in
  match call_predicate predicate item with
  | (Throw e, _) => Abrupt e
  | (Ok true, p') => Continue (i, p')
  | (Ok false, _) =>
      match errMsg item i with
      | Ok msg => Abrupt (ThrownString msg)
      | Throw e => Abrupt e
      end
  end.

Definition assert (fuel : nat) (predicate : option (Predicate T)) (errMsg : ItemMessage)
  (this : Seq T) : option (Result unit * Seq T) :=
  let _predicate := toPredicateSafe predicate in
  let errMsg := toItemMessageSafe errMsg in
  match for_of fuel this (-1, _predicate) (assert_body errMsg) with
  | None => None
  | Some (Abrupt e, this') => Some (Throw e, this')
  | Some (_, this') => Some (Ok tt, this')
  end.

(** [assertAll(predicate, errMsg)]: the accumulator is [(ERRORS, i)] and
    the predicate closure. *)
Definition assertAll_body (errMsg : T -> Z -> Result string)
  (acc : list (option Thrown) * Z * Predicate T) (item : T)
  : Completion (list (option Thrown) * Z * Predicate T) unit :=
  let '(ERRORS, i, predicate) := acc in
  let i := i + 1 in
  match call_predicate predicate item with
  | (Throw e, _) => Abrupt e
  | (Ok true, p') => Continue (ERRORS, i, p')
  | (Ok false, p') =>
      match errMsg item i with
      | Ok msg => Continue (ERRORS ++ [Some (ThrownString msg)], i, p')
      | Throw e => Abrupt e
      end
  end.

Definition assertAll (fuel : nat) (predicate : option (Predicate T)) (errMsg : ItemMessage)
  (this : Seq T) : option (Result unit * Seq T) :=
  let predicate := toPredicateSafe predicate in
  let errMsg := toItemMessageSafe errMsg in
  match for_of fuel this ([], -1, predicate) (assertAll_body errMsg) with
  | None => None
  | Some (Abrupt e, this') => Some (Throw e, this')
  | Some (Return _, this') => Some (Ok tt, this')
  | Some (Continue (ERRORS, _, _), this') | Some (Break (ERRORS, _, _), this') =>
      if 0 <? Z.of_nat (List.length ERRORS)
      then Some (Throw (new_AggregateError (Some ERRORS)), this')
      else Some (Ok tt, this')
  end.

(** The messages for the elements of [l] that fail the condition [f],
    the first element of [l] being at the index [i]. *)
Fixpoint failed_conditions (f : T -> bool) (msg : T -> Z -> string) (i : Z) (l : list T)
  : list Thrown :=
  match l with
  | [] => []
  | x :: rest =>
      if f x then failed_conditions f msg (i + 1) rest
      else ThrownString (msg x i) :: failed_conditions f msg (i + 1) rest
  end.

End Assertions.
Arguments ItemMessage T : clear implicits.

(** ** Sample data for sequences that fail or never end *)

(** A selector that fails on the element 30. *)
Definition fails_on_30 (x : nat) : Result nat :=
  if Nat.eqb x 30 then Throw (UserError 99) else Ok x.

(** The numbers that are not above zero. *)
Definition not_positive (v : JsValue) : bool :=
  match v with
  | JsNumber (Fin q) => Qle_bool q 0
  | _ => false
  end.

(** The answer of the default comparer as a number. *)
Definition default_order (a b : JsValue) : Z :=
  match toComparerSafe None a b with
  | Ok z => z
  | Throw _ => 0
  end.

(** Three keys for a sort, the middle one NaN. *)
Definition three_NaN_two : list JsValue :=
  [js_number_of 3; JsNumber NaN; js_number_of 2].

(** * Properties *)

(** ** Fuel *)
Section FuelLemmas.
Context {T : Type}.

Ltac fuel_step IHn IHi IHr IHc IHt :=
  repeat (cbn iota beta;
  match goal with
  | H : None = Some _ |- _ => discriminate H
  | H : ?x = Some _ |- ?x = Some _ => exact H
  | H : resume _ _ = Some _ |- resume _ _ = Some _ => exact (IHr _ _ H)
  | H : getNextChunkArray _ _ _ _ = Some _ |- getNextChunkArray _ _ _ _ = Some _ =>
      exact (IHc _ _ _ _ H)
  | H : toArray_from _ _ _ = Some _ |- toArray_from _ _ _ = Some _ => exact (IHt _ _ _ H)
  | H : context [next ?f ?s] |- _ =>
      let E := fresh "E" in
      destruct (next f s) as [[? ?]|] eqn:E; [rewrite (IHn _ _ E) | discriminate H]
  | H : context [iterator_next ?f ?s] |- _ =>
      let E := fresh "E" in
      destruct (iterator_next f s) as [[? ?]|] eqn:E; [rewrite (IHi _ _ E) | discriminate H]
  | H : context [resume ?f ?s] |- _ =>
      let E := fresh "E" in
      destruct (resume f s) as [[? ?]|] eqn:E; [rewrite (IHr _ _ E) | discriminate H]
  | H : context [getNextChunkArray ?f ?z ?a ?s] |- _ =>
      let E := fresh "E" in
      destruct (getNextChunkArray f z a s) as [[? ?]|] eqn:E;
      [rewrite (IHc _ _ _ _ E) | discriminate H]
  | H : context [toArray_from ?f ?a ?s] |- _ =>
      let E := fresh "E" in
      destruct (toArray_from f a s) as [[? ?]|] eqn:E;
      [rewrite (IHt _ _ _ E) | discriminate H]
  | H : context [match ?x with _ => _ end] |- _ => destruct x eqn:?
  end).

Lemma fuel_monotone_all : forall fuel, fuel_monotone (T := T) fuel.
Proof.
  induction fuel as [|fuel IH].
  - repeat split; intros; discriminate.
  - destruct IH as (IHn & IHi & IHr & IHc & IHt).
    remember (S fuel) as fuel' eqn:Hfuel.
    repeat split.
    + intros s r Hs. rewrite Hfuel in Hs. simpl in Hs. simpl.
      fuel_step IHn IHi IHr IHc IHt.
    + intros s r Hs. rewrite Hfuel in Hs. simpl in Hs. simpl.
      fuel_step IHn IHi IHr IHc IHt.
    + intros s r Hs. rewrite Hfuel in Hs. simpl in Hs. simpl.
      fuel_step IHn IHi IHr IHc IHt.
    + intros size ARR s r Hs. rewrite Hfuel in Hs. simpl in Hs. simpl.
      fuel_step IHn IHi IHr IHc IHt.
    + intros ARR s r Hs. rewrite Hfuel in Hs. simpl in Hs. simpl.
      fuel_step IHn IHi IHr IHc IHt.
Qed.

Lemma next_fuel_le : forall fuel fuel' (s : Seq T) r,
  (fuel <= fuel')%nat -> next fuel s = Some r -> next fuel' s = Some r.
Proof.
  intros fuel fuel' s r Hle. induction Hle; intro Hs; [exact Hs|].
  apply (fuel_monotone_all m). auto.
Qed.

Lemma resume_fuel_le : forall fuel fuel' (f : Frame T) r,
  (fuel <= fuel')%nat -> resume fuel f = Some r -> resume fuel' f = Some r.
Proof.
  intros fuel fuel' f r Hle. induction Hle; intro Hs; [exact Hs|].
  apply (fuel_monotone_all m). auto.
Qed.

Lemma toArray_from_fuel_le : forall fuel fuel' ARR (s : Seq T) r,
  (fuel <= fuel')%nat -> toArray_from fuel ARR s = Some r ->
  toArray_from fuel' ARR s = Some r.
Proof.
  intros fuel fuel' ARR s r Hle. induction Hle; intro Hs; [exact Hs|].
  apply (fuel_monotone_all m). auto.
Qed.

Lemma for_of_fuel_S : forall (A R : Type) fuel (s : Seq T) (acc : A)
  (body : A -> T -> Completion A R) r,
  for_of fuel s acc body = Some r -> for_of (S fuel) s acc body = Some r.
Proof.
  induction fuel as [|fuel IH]; intros s acc body r Hs; [discriminate|].
  remember (S fuel) as fuel' eqn:Hfuel.
  rewrite Hfuel in Hs. simpl in Hs. simpl.
  destruct (next fuel s) as [[res s1]|] eqn:E; [|discriminate].
  assert (E' : next fuel' s = Some (res, s1)).
  { rewrite Hfuel. apply (fuel_monotone_all fuel). exact E. }
  rewrite E'. destruct res as [[x|]|e]; try exact Hs.
  destruct (body acc x); try exact Hs.
  apply IH. exact Hs.
Qed.

Lemma for_of_fuel_le : forall (A R : Type) fuel fuel' (s : Seq T) (acc : A)
  (body : A -> T -> Completion A R) r,
  (fuel <= fuel')%nat -> for_of fuel s acc body = Some r ->
  for_of fuel' s acc body = Some r.
Proof.
  intros A R fuel fuel' s acc body r Hle. induction Hle; intro Hs; [exact Hs|].
  apply for_of_fuel_S. auto.
Qed.

(** A pull has one outcome. *)
Lemma pulls_deterministic : forall (s : Seq T) r1 s1 r2 s2,
  pulls s r1 s1 -> pulls s r2 s2 -> r1 = r2 /\ s1 = s2.
Proof.
  intros s r1 s1 r2 s2 [f1 H1] [f2 H2].
  apply (next_fuel_le (fuel' := Nat.max f1 f2)) in H1; [|lia].
  apply (next_fuel_le (fuel' := Nat.max f1 f2)) in H2; [|lia].
  rewrite H1 in H2. injection H2 as -> ->. split; reflexivity.
Qed.

Lemma Produces_deterministic : forall (s : Seq T) l1 s1,
  Produces s l1 s1 -> forall l2 s2, Produces s l2 s2 -> l1 = l2 /\ s1 = s2.
Proof.
  induction 1 as [s s' Hd | s x sx l s' Hx Hrest IH]; intros l2 s2 H2.
  - inversion H2 as [? ? Hd2 | ? y sy l' ? Hy Hrest2]; subst.
    + destruct (pulls_deterministic Hd Hd2) as [_ ->]. split; reflexivity.
    + destruct (pulls_deterministic Hd Hy) as [Heq _]. discriminate Heq.
  - inversion H2 as [? ? Hd2 | ? y sy l' ? Hy Hrest2]; subst.
    + destruct (pulls_deterministic Hx Hd2) as [Heq _]. discriminate Heq.
    + destruct (pulls_deterministic Hx Hy) as [Heq ->].
      injection Heq as ->.
      destruct (IH _ _ Hrest2) as [-> ->]. split; reflexivity.
Qed.

End FuelLemmas.

(** ** Finite sequences and the loops over them *)
Section FiniteSequences.
Context {T : Type}.

Lemma for_of_Produces : forall (s : Seq T) l s',
  Produces s l s' ->
  forall (A R : Type) (acc : A) (body : A -> T -> Completion A R),
  exists fuel s'', for_of fuel s acc body = Some (for_of_list body acc l, s'').
Proof.
  induction 1 as [s s' [f Hd] | s x s1 l s' [f Hx] Hrest IH]; intros A R acc body.
  - exists (S f), s'. simpl. rewrite Hd. reflexivity.
  - simpl. destruct (body acc x) as [acc'| acc' | r | e] eqn:Hb.
    + destruct (IH A R acc' body) as (f2 & s'' & H2).
      exists (S (Nat.max f f2)), s''. simpl.
      rewrite (next_fuel_le (fuel' := Nat.max f f2) s (Nat.le_max_l f f2) Hx).
      rewrite Hb. apply (for_of_fuel_le (fuel := f2)); [lia | exact H2].
    + exists (S f), s1. simpl. rewrite Hx, Hb. reflexivity.
    + exists (S f), s1. simpl. rewrite Hx, Hb. reflexivity.
    + exists (S f), s1. simpl. rewrite Hx, Hb. reflexivity.
Qed.

Lemma toArray_from_Produces : forall (s : Seq T) l s',
  Produces s l s' ->
  forall ARR, exists fuel, toArray_from fuel ARR s = Some (Ok (ARR ++ l), s').
Proof.
  induction 1 as [s s' [f Hd] | s x s1 l s' [f Hx] Hrest IH]; intros ARR.
  - exists (S f). simpl. rewrite Hd, app_nil_r. reflexivity.
  - destruct (IH (ARR ++ [x])) as (f2 & H2).
    exists (S (Nat.max f f2)). simpl.
    rewrite (next_fuel_le (fuel' := Nat.max f f2) s (Nat.le_max_l f f2) Hx).
    rewrite <- app_assoc in H2. simpl in H2.
    apply (toArray_from_fuel_le (fuel := f2)); [lia | exact H2].
Qed.

Lemma toArray_Produces : forall (s : Seq T) l s',
  Produces s l s' -> exists fuel, toArray fuel s = Some (Ok l, s').
Proof.
  intros s l s' Hp. destruct (toArray_from_Produces Hp []) as (f & Hf).
  exists f. exact Hf.
Qed.

Lemma toArray_from_inv : forall fuel ARR (s : Seq T) l s',
  toArray_from fuel ARR s = Some (Ok l, s') ->
  exists l', l = ARR ++ l' /\ Produces s l' s'.
Proof.
  induction fuel as [|fuel IH]; intros ARR s l s' Hs; [discriminate|].
  simpl in Hs. destruct (next fuel s) as [[[[x|]|e] s1]|] eqn:E; try discriminate.
  - destruct (IH _ _ _ _ Hs) as (l' & -> & Hp).
    exists (x :: l'). split.
    + rewrite <- app_assoc. reflexivity.
    + eapply Produces_item; [exists fuel; exact E | exact Hp].
  - injection Hs as <- <-. exists []. split; [symmetry; apply app_nil_r|].
    apply Produces_done. exists fuel. exact E.
Qed.

Lemma toArray_inv : forall fuel (s : Seq T) l s',
  toArray fuel s = Some (Ok l, s') -> Produces s l s'.
Proof.
  intros fuel s l s' Hs. destruct (toArray_from_inv _ _ _ Hs) as (l' & -> & Hp).
  exact Hp.
Qed.

(** An array-backed sequence gives the elements after its index. *)
Lemma Produces_array_from : forall (arr : list T) (n : nat) k c,
  (k + n = List.length arr)%nat ->
  exists c', Produces (ArrayEnumerable arr (Z.of_nat k - 1) c) (skipn k arr)
                      (ArrayEnumerable arr (Z.of_nat (List.length arr) - 1) c').
Proof.
  intros arr n. induction n as [|n IH]; intros k c Hk.
  - exists (Some IterDone). rewrite skipn_all2 by lia.
    apply Produces_done. exists 1%nat. simpl.
    destruct (Z.of_nat k - 1 + 1 >=? Z.of_nat (List.length arr)) eqn:E; [|lia].
    replace k with (List.length arr) by lia. reflexivity.
  - destruct (nth_error arr k) as [x|] eqn:Hx.
    2:{ apply nth_error_None in Hx. lia. }
    destruct (IH (S k) (Some (IterItem x))) as (c' & Hp); [lia|].
    exists c'.
    assert (Hskip : skipn k arr = x :: skipn (S k) arr).
    { clear - Hx. revert k Hx. induction arr as [|a arr IHa]; intros [|k] Hx;
        simpl in *; try discriminate.
      - injection Hx as ->. reflexivity.
      - apply IHa. exact Hx. }
    rewrite Hskip. eapply Produces_item; [|].
    + exists 1%nat. simpl.
      destruct (Z.of_nat k - 1 + 1 >=? Z.of_nat (List.length arr)) eqn:E; [lia|].
      unfold lookupZ. destruct (Z.of_nat k - 1 + 1 <? 0) eqn:E2; [lia|].
      replace (Z.to_nat (Z.of_nat k - 1 + 1)) with k by lia. rewrite Hx. reflexivity.
    + replace (Z.of_nat k - 1 + 1) with (Z.of_nat (S k) - 1) by lia. exact Hp.
Qed.

Lemma Produces_from_array : forall (arr : list T),
  exists s', Produces (from (SequenceArray arr)) arr s'.
Proof.
  intros arr. destruct (@Produces_array_from arr (List.length arr) 0%nat None)
    as (c' & Hp); [lia|].
  eexists. exact Hp.
Qed.

(** The sequence around a generator object follows the generator body. *)
Lemma pulls_generator_yield : forall (f : Frame T) v f' i c,
  resumes f (Yielded v) f' ->
  pulls (IteratorEnumerable (GeneratorObject false f) i c) (Ok (IterItem v))
        (IteratorEnumerable (GeneratorObject false f') (i + 1) (Some (IterItem v))).
Proof.
  intros f v f' i c [fuel Hr]. exists (S (S fuel)). simpl. rewrite Hr. reflexivity.
Qed.

Lemma pulls_generator_return : forall (f : Frame T) f' i c,
  resumes f Returned f' ->
  pulls (IteratorEnumerable (GeneratorObject false f) i c) (Ok IterDone)
        (IteratorEnumerable (GeneratorObject true f') i (Some IterDone)).
Proof.
  intros f f' i c [fuel Hr]. exists (S (S fuel)). simpl. rewrite Hr. reflexivity.
Qed.

Lemma pulls_generator_raise : forall (f : Frame T) e f' i c,
  resumes f (Raised e) f' ->
  pulls (IteratorEnumerable (GeneratorObject false f) i c) (Throw e)
        (IteratorEnumerable (GeneratorObject true f') i c).
Proof.
  intros f e f' i c [fuel Hr]. exists (S (S fuel)). simpl. rewrite Hr. reflexivity.
Qed.

Lemma Produces_generator : forall (f : Frame T) l f',
  FrameProduces f l f' ->
  forall i c,
  Produces (IteratorEnumerable (GeneratorObject false f) i c) l
           (IteratorEnumerable (GeneratorObject true f') (i + Z.of_nat (List.length l))
                               (Some IterDone)).
Proof.
  induction 1 as [f f' Hr | f x f1 l f' Hx Hrest IH]; intros i c.
  - simpl. rewrite Z.add_0_r. apply Produces_done. apply pulls_generator_return. exact Hr.
  - eapply Produces_item; [apply pulls_generator_yield; exact Hx|].
    replace (i + Z.of_nat (List.length (x :: l)))
      with (i + 1 + Z.of_nat (List.length l)) by (simpl List.length; lia).
    apply IH.
Qed.

End FiniteSequences.

(** ** Exhaustion and reset *)
Section Exhaustion.
Context {T : Type}.

Lemma done_is_final_fuel : forall fuel,
  (forall (s s' : Seq T), next fuel s = Some (Ok IterDone, s') ->
     forall fuel2 r s'', next fuel2 s' = Some (r, s'') -> r = Ok IterDone /\ s'' = s') /\
  (forall (it it' : Iterator T), iterator_next fuel it = Some (Ok IterDone, it') ->
     forall fuel2 r it'', iterator_next fuel2 it' = Some (r, it'') ->
     r = Ok IterDone /\ it'' = it').
Proof.
  induction fuel as [|fuel [IHn IHi]]; [split; intros; discriminate|].
  split.
  - intros s s' Hs fuel2 r s'' H2. destruct s as [arr i c | it i c]; simpl in Hs.
    + destruct (i + 1 >=? Z.of_nat (List.length arr)) eqn:E.
      * injection Hs as <-. destruct fuel2 as [|g]; [discriminate|].
        simpl in H2. rewrite E in H2. injection H2 as <- <-. split; reflexivity.
      * destruct (lookupZ arr (i + 1)); discriminate.
    + destruct (iterator_next fuel it) as [[[res|e] it']|] eqn:E; try discriminate.
      injection Hs as -> <-. destruct fuel2 as [|g]; [discriminate|].
      simpl in H2.
      destruct (iterator_next g it') as [[res2 it2]|] eqn:E2; [|discriminate].
      destruct (IHi _ _ E _ _ _ E2) as [-> ->].
      injection H2 as <- <-. split; reflexivity.
  - intros it it' Hs fuel2 r it'' H2. destruct it as [[|] f | seq]; simpl in Hs.
    + injection Hs as <-. destruct fuel2 as [|g]; [discriminate|].
      simpl in H2. injection H2 as <- <-. split; reflexivity.
    + destruct (resume fuel f) as [[[v| |e] f']|] eqn:E; try discriminate.
      injection Hs as <-. destruct fuel2 as [|g]; [discriminate|].
      simpl in H2. injection H2 as <- <-. split; reflexivity.
    + destruct (next fuel seq) as [[res seq']|] eqn:E; [|discriminate].
      injection Hs as -> <-. destruct fuel2 as [|g]; [discriminate|].
      simpl in H2. destruct (next g seq') as [[res2 seq2]|] eqn:E2; [|discriminate].
      destruct (IHn _ _ E _ _ _ E2) as [-> ->].
      injection H2 as <- <-. split; reflexivity.
Qed.

(** A pull on an exhausted sequence always answers. *)
Lemma done_pull_answers : forall fuel,
  (forall (s s' : Seq T), next fuel s = Some (Ok IterDone, s') ->
     next fuel s' = Some (Ok IterDone, s')) /\
  (forall (it it' : Iterator T), iterator_next fuel it = Some (Ok IterDone, it') ->
     iterator_next fuel it' = Some (Ok IterDone, it')).
Proof.
  induction fuel as [|fuel [IHn IHi]]; [split; intros; discriminate|].
  split.
  - intros s s' Hs. destruct s as [arr i c | it i c]; simpl in Hs.
    + destruct (i + 1 >=? Z.of_nat (List.length arr)) eqn:E.
      * injection Hs as <-. simpl. rewrite E. reflexivity.
      * destruct (lookupZ arr (i + 1)); discriminate.
    + destruct (iterator_next fuel it) as [[[res|e] it']|] eqn:E; try discriminate.
      injection Hs as -> <-. simpl. rewrite (IHi _ _ E). reflexivity.
  - intros it it' Hs. destruct it as [[|] f | seq]; simpl in Hs.
    + injection Hs as <-. reflexivity.
    + destruct (resume fuel f) as [[[v| |e] f']|] eqn:E; try discriminate.
      injection Hs as <-. reflexivity.
    + destruct (next fuel seq) as [[res seq']|] eqn:E; [|discriminate].
      injection Hs as -> <-. simpl. rewrite (IHn _ _ E). reflexivity.
Qed.

(** C9. Once a pull has signalled done, every further pull signals done
    again and leaves the sequence as it is; and [reset()] of an array-backed
    sequence, whatever it has given so far, puts the index back to -1 so
    that the iteration starts again at the first element, every pull
    answering as on a sequence freshly built over the same array. *)
Theorem exhaustion_is_final_and_reset_restarts :
  forall (s s' : Seq T),
  pulls s (Ok IterDone) s' ->
  (pulls s' (Ok IterDone) s' /\
   forall r s'', pulls s' r s'' -> r = Ok IterDone /\ s'' = s') /\
  (forall (arr : list T) i c,
     canReset (ArrayEnumerable arr i c) = true /\
     exists s0, reset (ArrayEnumerable arr i c) = Ok s0 /\
                index s0 = -1 /\
                (exists s_end, Produces s0 arr s_end) /\
                forall fuel, option_map fst (next fuel s0)
                             = option_map fst (next fuel (from (SequenceArray arr)))).
Proof.
  intros s s' [fuel Hd]. split; [split|].
  - exists fuel. apply (proj1 (done_pull_answers fuel)) with (s := s). exact Hd.
  - intros r s'' [fuel2 H2].
    exact (proj1 (done_is_final_fuel fuel) _ _ Hd _ _ _ H2).
  - intros arr i c. split; [reflexivity|].
    exists (ArrayEnumerable arr (-1) c). repeat split.
    + destruct (@Produces_array_from T arr (List.length arr) 0%nat c) as (c' & Hp); [lia|].
      eexists. exact Hp.
    + intros [|g]; [reflexivity|]. simpl.
      destruct (-1 + 1 >=? Z.of_nat (List.length arr)); [reflexivity|].
      destruct (lookupZ arr (-1 + 1)); reflexivity.
Qed.

End Exhaustion.

(** A sequence over one element, pulled to its end and pulled again. *)
Lemma exhaustion_is_final_and_reset_restarts_witness :
  pulls (ArrayEnumerable [7%nat] 0 (Some (IterItem 7%nat))) (Ok IterDone)
        (ArrayEnumerable [7%nat] 0 (Some IterDone)) /\
  pulls (ArrayEnumerable [7%nat] 0 (Some IterDone)) (Ok IterDone)
        (ArrayEnumerable [7%nat] 0 (Some IterDone)).
Proof.
  assert (Hd : pulls (ArrayEnumerable [7%nat] 0 (Some (IterItem 7%nat))) (Ok IterDone)
                     (ArrayEnumerable [7%nat] 0 (Some IterDone))).
  { exists 1%nat. reflexivity. }
  split; [exact Hd|].
  exact (proj1 (proj1 (exhaustion_is_final_and_reset_restarts Hd))).
Defined.

(** ** [single] and [singleOrDefault] *)
Section Lookups.
Context {T : Type}.

Lemma pure_predicate_fn : forall (f : T -> bool),
  pure_predicate (PredicateFn (fun x => Ok (f x))) f.
Proof. intros f x. reflexivity. Qed.

Lemma pure_predicate_default :
  pure_predicate (T := T) (toPredicateSafe None) (fun _ => true).
Proof. intros x. reflexivity. Qed.

Lemma singleOrDefault_scan : forall (p : Predicate T) f,
  pure_predicate p f ->
  forall l result,
  for_of_list (R := T + Thrown) singleOrDefault_body (result, p) l =
  (match result, filter f l with
   | _, [] => Continue (result, p)
   | None, [x] => Continue (Some x, p)
   | _, _ => Abrupt ambiguous_match
   end).
Proof.
  intros p f Hp l. induction l as [|a l IH]; intros result.
  - destruct result; reflexivity.
  - simpl. rewrite (Hp a). destruct (f a) eqn:Hfa.
    + destruct result as [r|].
      * reflexivity.
      * rewrite IH. destruct (filter f l) as [|b [|c m]]; reflexivity.
    + rewrite IH. reflexivity.
Qed.

Lemma singleOrDefault_finishes : forall (U : Type) (NF : U) (args : OrDefaultArguments U)
  (f : T -> bool) (s : Seq T) l s',
  pure_predicate (snd (getOrDefaultArguments NF args)) f ->
  Produces s l s' ->
  finishes (fun fuel => singleOrDefault fuel NF args s)
           (singleOrDefault_outcome f l (fst (getOrDefaultArguments NF args))).
Proof.
  intros U NF args f s l s' Hp Hs. unfold finishes, singleOrDefault.
  destruct (getOrDefaultArguments NF args) as [d p]. simpl in Hp |- *.
  destruct (for_of_Produces Hs (R := T + Thrown) (None, p) singleOrDefault_body)
    as (fuel & s'' & Hf).
  exists fuel, s''. rewrite Hf, (singleOrDefault_scan Hp).
  unfold singleOrDefault_outcome.
  destruct (filter f l) as [|b [|c m]]; reflexivity.
Qed.

Lemma single_finishes : forall (p : option (Predicate T)) (f : T -> bool) (s : Seq T) l s',
  pure_predicate (toPredicateSafe p) f ->
  Produces s l s' ->
  finishes (fun fuel => single fuel p s) (single_outcome f l).
Proof.
  intros p f s l s' Hp Hs.
  destruct (@singleOrDefault_finishes unit tt
              (TwoArguments (Some (toPredicateSafe p)) tt) f s l s' Hp Hs)
    as (fuel & s'' & Hf).
  exists fuel, s''. unfold single. rewrite Hf.
  unfold singleOrDefault_outcome, single_outcome.
  destruct (filter f l) as [|b [|c m]]; reflexivity.
Qed.

(** Over a finite sequence and a predicate, [singleOrDefault] throws the
    ambiguous-match error when two elements match, whether or not a
    default was passed; with one match it returns that element; with none
    it returns the default it was given, and that default is [NOT_FOUND]
    when the call passes none.  [single] does the same with the
    element-not-found error in the place of the default. *)
Lemma single_and_singleOrDefault_over_finite :
  forall (s : Seq T) (l : list T) (s' : Seq T) (f : T -> bool),
  Produces s l s' ->
  let p := PredicateFn (fun x => Ok (f x)) in
  (forall (U : Type) (NF d : U),
     finishes (fun fuel => singleOrDefault fuel NF (TwoArguments (Some p) d) s)
              (singleOrDefault_outcome f l d) /\
     finishes (fun fuel => singleOrDefault fuel NF (OneFunction p) s)
              (singleOrDefault_outcome f l NF) /\
     finishes (fun fuel => singleOrDefault fuel NF (OneValue d) s)
              (singleOrDefault_outcome (fun _ => true) l d) /\
     finishes (fun fuel => singleOrDefault fuel NF NoArguments s)
              (singleOrDefault_outcome (fun _ => true) l NF)) /\
  finishes (fun fuel => single fuel (Some p) s) (single_outcome f l) /\
  (forall (U : Type) (d : U) a b rest,
     filter f l = a :: b :: rest ->
     singleOrDefault_outcome f l d = Throw ambiguous_match /\
     single_outcome f l = Throw ambiguous_match).
Proof.
  intros s l s' f Hs p. repeat split.
  - apply (@singleOrDefault_finishes U NF (TwoArguments (Some p) d) f s l s');
      [apply pure_predicate_fn | exact Hs].
  - apply (@singleOrDefault_finishes U NF (OneFunction p) f s l s');
      [apply pure_predicate_fn | exact Hs].
  - apply (@singleOrDefault_finishes U NF (OneValue d) (fun _ => true) s l s');
      [apply pure_predicate_default | exact Hs].
  - apply (@singleOrDefault_finishes U NF NoArguments (fun _ => true) s l s');
      [apply pure_predicate_default | exact Hs].
  - apply (@single_finishes (Some p) f s l s'); [apply pure_predicate_fn | exact Hs].
  - unfold singleOrDefault_outcome. rewrite H. reflexivity.
  - unfold single_outcome. rewrite H. reflexivity.
Qed.

End Lookups.


(** ** [forAll] *)
Section ForAll.
Context {T : Type}.

Lemma for_of_Produces_continue : forall (s : Seq T) l s',
  Produces s l s' ->
  forall (A R : Type) (acc a : A) (body : A -> T -> Completion A R),
  for_of_list body acc l = Continue a ->
  exists fuel, for_of fuel s acc body = Some (Continue a, s').
Proof.
  induction 1 as [s s' [f Hd] | s x s1 l s' [f Hx] Hrest IH]; intros A R acc a body Hl.
  - simpl in Hl. injection Hl as <-. exists (S f). simpl. rewrite Hd. reflexivity.
  - simpl in Hl. destruct (body acc x) as [acc'| acc' | r | e] eqn:Hb; try discriminate.
    destruct (IH A R acc' a body Hl) as (f2 & H2).
    exists (S (Nat.max f f2)). simpl.
    rewrite (next_fuel_le (fuel' := Nat.max f f2) s (Nat.le_max_l f f2) Hx).
    rewrite Hb. apply (for_of_fuel_le (fuel := f2)); [lia | exact H2].
Qed.

Lemma forAll_scan : forall (a : EachAction T) l ERRORS i,
  for_of_list (forAll_body (Some a)) (ERRORS, i) l =
  Continue
    (ERRORS ++ map (fun ie => Some (FunctionError (snd ie) (Some (action_ref a)) (fst ie)))
                   (failing_actions (action_call a) (i + 1) l),
     i + Z.of_nat (List.length l)).
Proof.
  intros a l. induction l as [|x l IH]; intros ERRORS i.
  - simpl. rewrite app_nil_r, Z.add_0_r. reflexivity.
  - cbn [for_of_list failing_actions]. unfold forAll_body at 1.
    destruct (action_call a x (i + 1)) as [u|e].
    + rewrite IH. f_equal. f_equal. simpl List.length. lia.
    + rewrite IH. unfold new_FunctionError. rewrite <- app_assoc. simpl.
      f_equal. f_equal. lia.
Qed.

Lemma filter_defined_map_Some : forall (A : Type) (g : A -> Thrown) (l : list A),
  filter_defined (map (fun x => Some (g x)) l) = map g l.
Proof. induction l as [|e l IH]; simpl; [reflexivity | rewrite IH; reflexivity]. Qed.

Lemma failing_actions_lower_bound : forall (call : T -> Z -> Result unit) l i j e,
  In (j, e) (failing_actions call i l) -> i <= j.
Proof.
  intros call l. induction l as [|x l IH]; intros i j e Hin; [destruct Hin|].
  simpl in Hin. destruct (call x i).
  - apply IH in Hin. lia.
  - destruct Hin as [Heq | Hin]; [injection Heq as <- _; lia | apply IH in Hin; lia].
Qed.

Lemma failing_actions_NoDup : forall (call : T -> Z -> Result unit) l i,
  NoDup (map fst (failing_actions call i l)).
Proof.
  intros call l. induction l as [|x l IH]; intros i; simpl; [constructor|].
  destruct (call x i); [apply IH|].
  simpl. constructor; [|apply IH].
  intro Hin. apply in_map_iff in Hin. destruct Hin as ([j e'] & Hj & Hin).
  simpl in Hj. subst j. apply failing_actions_lower_bound in Hin. lia.
Qed.

Lemma failing_actions_spec : forall (call : T -> Z -> Result unit) l i j e,
  In (j, e) (failing_actions call i l) <->
  (i <= j /\ exists x, nth_error l (Z.to_nat (j - i)) = Some x /\ call x j = Throw e).
Proof.
  intros call l. induction l as [|x l IH]; intros i j e.
  - simpl. split; [intros []|]. intros (_ & y & Hy & _).
    destruct (Z.to_nat (j - i)); discriminate.
  - simpl. split.
    + intros Hin.
      assert (Hcase : (j = i /\ call x i = Throw e) \/
                      In (j, e) (failing_actions call (i + 1) l)).
      { destruct (call x i) as [u|e0]; [right; exact Hin|].
        destruct Hin as [Heq | Hin]; [left | right; exact Hin].
        injection Heq as <- <-. split; reflexivity. }
      destruct Hcase as [[-> Hc] | Hin'].
      * split; [lia|]. exists x. rewrite Z.sub_diag. split; [reflexivity | exact Hc].
      * apply IH in Hin'. destruct Hin' as (Hle & y & Hy & Hc).
        split; [lia|]. exists y. split; [|exact Hc].
        replace (Z.to_nat (j - i)) with (S (Z.to_nat (j - (i + 1)))) by lia. exact Hy.
    + intros (Hle & y & Hy & Hc).
      destruct (Z.eq_dec j i) as [-> | Hne].
      * rewrite Z.sub_diag in Hy. simpl in Hy. injection Hy as ->.
        rewrite Hc. left. reflexivity.
      * assert (Hin : In (j, e) (failing_actions call (i + 1) l)).
        { apply IH. split; [lia|]. exists y. split; [|exact Hc].
          replace (Z.to_nat (j - i)) with (S (Z.to_nat (j - (i + 1)))) in Hy by lia.
          exact Hy. }
        destruct (call x i); [exact Hin | right; exact Hin].
Qed.

(** [forAll] goes through the whole of a finite sequence whatever the
    action does (it ends in the state in which the sequence is exhausted);
    it returns normally when no call of the action failed, and otherwise
    throws one [AggregateError] whose errors are, in order, one
    [FunctionError] for each failing call and for no other, each holding
    what the call threw, the action and the zero-based index of the
    element. *)
Lemma forAll_over_finite :
  forall (s : Seq T) (l : list T) (s' : Seq T) (action : EachAction T),
  Produces s l s' ->
  (exists fuel, forAll fuel (Some action) s = Some (forAll_outcome action l, s')) /\
  (forall i e,
     In (i, e) (failing_actions (action_call action) 0 l) <->
     (0 <= i /\ exists x, nth_error l (Z.to_nat i) = Some x /\
                          action_call action x i = Throw e)) /\
  NoDup (map fst (failing_actions (action_call action) 0 l)) /\
  (exists fuel, forAll fuel None s = Some (Ok tt, s')).
Proof.
  intros s l s' action Hs. split; [|split; [|split]].
  - pose proof (forAll_scan action l [] (-1)) as Hscan.
    destruct (for_of_Produces_continue Hs (R := unit) _ _ Hscan) as (fuel & Hf).
    exists fuel. unfold forAll. rewrite Hf. unfold forAll_outcome.
    replace (-1 + 1) with 0 by lia. simpl app.
    destruct (failing_actions (action_call action) 0 l) as [|[i e] rest].
    + reflexivity.
    + unfold new_AggregateError.
      rewrite (filter_defined_map_Some
                 (fun ie => FunctionError (snd ie) (Some (action_ref action)) (fst ie))).
      simpl. reflexivity.
  - intros i e. rewrite failing_actions_spec. rewrite Z.sub_0_r. reflexivity.
  - apply failing_actions_NoDup.
  - assert (Hscan : for_of_list (R := unit) (forAll_body None) ([], -1) l
                    = Continue ([], -1 + Z.of_nat (List.length l))).
    { generalize (-1). clear. induction l as [|x l IH]; intros i; simpl.
      - rewrite Z.add_0_r. reflexivity.
      - rewrite IH. f_equal. f_equal. lia. }
    destruct (for_of_Produces_continue Hs _ _ Hscan) as (fuel & Hf).
    exists fuel. unfold forAll. rewrite Hf. reflexivity.
Qed.

End ForAll.



(** ** Failing sequences and [select] *)
Section EmissionLemmas.
Context {T : Type} `{JsEquality T}.

Lemma for_of_Emits : forall (s : Seq T) l e s',
  Emits s l e s' ->
  forall (A R : Type) (acc : A) (body : A -> T -> Completion A R),
  exists fuel s'', for_of fuel s acc body = Some (for_of_emitted body acc l e, s'').
Proof.
  unfold for_of_emitted.
  induction 1 as [s s' [f Hd] | s e s' [f Hd] | s x s1 l e s' [f Hx] Hrest IH];
    intros A R acc body.
  - exists (S f), s'. simpl. rewrite Hd. reflexivity.
  - exists (S f), s'. simpl. rewrite Hd. reflexivity.
  - simpl. destruct (body acc x) as [acc'| acc' | r | err] eqn:Hb.
    + destruct (IH A R acc' body) as (f2 & s'' & H2).
      exists (S (Nat.max f f2)), s''. simpl.
      rewrite (next_fuel_le (fuel' := Nat.max f f2) s (Nat.le_max_l f f2) Hx).
      rewrite Hb. apply (for_of_fuel_le (fuel := f2)); [lia | exact H2].
    + exists (S f), s1. simpl. rewrite Hx, Hb. reflexivity.
    + exists (S f), s1. simpl. rewrite Hx, Hb. reflexivity.
    + exists (S f), s1. simpl. rewrite Hx, Hb. reflexivity.
Qed.

Lemma Emits_generator : forall (f : Frame T) l e f',
  FrameEmits f l e f' ->
  forall i c, exists s', Emits (IteratorEnumerable (GeneratorObject false f) i c) l e s'.
Proof.
  induction 1 as [f f' Hr | f e f' Hr | f x f1 l e f' Hx Hrest IH]; intros i c.
  - eexists. apply Emits_done. apply pulls_generator_return. exact Hr.
  - eexists. apply Emits_throw. apply pulls_generator_raise. exact Hr.
  - destruct (IH (i + 1) (Some (IterItem x))) as (s' & Hs').
    exists s'. eapply Emits_item; [apply pulls_generator_yield; exact Hx | exact Hs'].
Qed.


Lemma select_frame_emits : forall (selector : T -> Result T) (s : Seq T) l s',
  Produces s l s' ->
  exists f', FrameEmits (SelectManyFrame (Some (select_wrapper selector)) [] s)
                        (fst (selected selector l)) (snd (selected selector l)) f'.
Proof.
  intros selector. induction 1 as [s s' [f Hd] | s x s1 l s' [f Hx] Hrest IH].
  - eexists. simpl. apply FrameEmits_return. exists (S f). simpl. rewrite Hd. reflexivity.
  - simpl. destruct (selector x) as [y|e] eqn:Hsel.
    + destruct IH as (f' & Hf'). destruct (selected selector l) as [ys e].
      simpl in *. exists f'. eapply FrameEmits_yield; [|exact Hf'].
      exists (S (S f)). cbn [resume].
      rewrite (next_fuel_le (fuel' := S f) s (Nat.le_succ_diag_r f) Hx).
      unfold select_wrapper. rewrite Hsel. reflexivity.
    + eexists. simpl. apply FrameEmits_raise. exists (S f). simpl. rewrite Hx.
      unfold select_wrapper. rewrite Hsel. reflexivity.
Qed.

Lemma select_emits : forall (selector : option (T -> Result T)) (s : Seq T) l s',
  Produces s l s' ->
  let sel := match selector with Some f => f | None => fun x => Ok x end in
  exists s'', Emits (select selector s) (fst (selected sel l)) (snd (selected sel l)) s''.
Proof.
  intros selector s l s' Hs sel.
  destruct (select_frame_emits sel Hs) as (f' & Hf').
  unfold select, selectMany, from_generator.
  apply (Emits_generator Hf').
Qed.

End EmissionLemmas.

(** ** [sum], [average], [min] and [max] *)
Section Aggregates.


Lemma js_add_not_marker : forall a x v, js_add a x = Ok v -> isEmpty v = false.
Proof.
  intros a x v Hv. unfold js_add in Hv.
  destruct (to_number a); [|discriminate]. destruct (to_number x); [|discriminate].
  injection Hv as <-. reflexivity.
Qed.

Lemma isEmpty_marker : forall v, isEmpty v = true <-> v = JsSymbol IS_EMPTY.
Proof.
  intros v. unfold isEmpty. split.
  - destruct v as [| |b|n|[| | |i]]; simpl; intro Hv; try discriminate. reflexivity.
  - intros ->. reflexivity.
Qed.

(** The fold of [sum] keeps an accumulator that is not the marker. *)
Lemma sum_scan_from_value : forall l acc,
  isEmpty acc = false ->
  match for_of_list (aggregate_body sum_func) acc l with
  | Continue a | Break a => isEmpty a = false
  | _ => True
  end.
Proof.
  induction l as [|x l IH]; intros acc Hacc; cbn [for_of_list]; [exact Hacc|].
  unfold aggregate_body at 1. unfold sum_func at 1.
  unfold isEmpty in Hacc. rewrite Hacc. cbn [negb].
  destruct (js_add acc x) as [v|e] eqn:Hadd; [|exact I].
  apply IH. exact (js_add_not_marker _ _ Hadd).
Qed.

Lemma sum_outcome : forall (s : Seq JsValue) x l s',
  Produces s (x :: l) s' ->
  Forall (fun v => isEmpty v = false) (x :: l) ->
  exists r, finishes (fun fuel => sum fuel s) r /\ ~ is_marker r.
Proof.
  intros s x l s' Hs Hall. unfold sum, aggregate, finishes.
  destruct (for_of_Produces Hs (R := unit) (JsSymbol IS_EMPTY) (aggregate_body sum_func))
    as (fuel & s'' & Hf).
  inversion Hall as [|? ? Hx _]; subst.
  pose proof (sum_scan_from_value l x Hx) as Hscan.
  change (for_of_list (aggregate_body sum_func) (JsSymbol IS_EMPTY) (x :: l))
    with (for_of_list (aggregate_body sum_func) x l) in Hf.
  destruct (for_of_list (aggregate_body sum_func) x l) as [a|a|u|e].
  - exists (Ok a). split; [exists fuel, s''; rewrite Hf; reflexivity|].
    intro Hm. injection Hm as ->. discriminate Hscan.
  - exists (Ok a). split; [exists fuel, s''; rewrite Hf; reflexivity|].
    intro Hm. injection Hm as ->. discriminate Hscan.
  - exists (Ok JsUndefined). split; [exists fuel, s''; rewrite Hf; reflexivity|].
    intro Hm. discriminate Hm.
  - exists (Throw e). split; [exists fuel, s''; rewrite Hf; reflexivity|].
    intro Hm. discriminate Hm.
Qed.

Lemma extremum_scan : forall better valueSelector comparer l result best isFirst,
  match for_of_list (extremum_body better valueSelector comparer)
                    (result, best, isFirst) l with
  | Continue (r, _, _) | Break (r, _, _) =>
      (l = [] /\ r = result) \/ (isFirst = false /\ r = result) \/ In r l
  | _ => True
  end.
Proof.
  intros better valueSelector comparer l.
  induction l as [|x l IH]; intros result best isFirst; cbn [for_of_list].
  - left. split; reflexivity.
  - unfold extremum_body at 1.
    destruct (valueSelector x) as [VALUE|e]; [|exact I].
    destruct isFirst; cbn [negb].
    + specialize (IH x VALUE false).
      destruct (for_of_list _ (x, VALUE, false) l) as [[[r b] fl]|[[r b] fl]|u|e];
        try exact I.
      * right. right. destruct IH as [[_ ->] | [[_ ->] | Hin]];
          [left; reflexivity .. | right; exact Hin].
      * right. right. destruct IH as [[_ ->] | [[_ ->] | Hin]];
          [left; reflexivity .. | right; exact Hin].
    + destruct (comparer VALUE best) as [c|e]; [|exact I].
      destruct (better c).
      * specialize (IH x VALUE false).
        destruct (for_of_list _ (x, VALUE, false) l) as [[[r b] fl]|[[r b] fl]|u|e];
          try exact I.
        -- right. right. destruct IH as [[_ ->] | [[_ ->] | Hin]];
             [left; reflexivity .. | right; exact Hin].
        -- right. right. destruct IH as [[_ ->] | [[_ ->] | Hin]];
             [left; reflexivity .. | right; exact Hin].
      * specialize (IH result best false).
        destruct (for_of_list _ (result, best, false) l) as [[[r b] fl]|[[r b] fl]|u|e];
          try exact I.
        -- destruct IH as [[_ ->] | [[_ ->] | Hin]];
             [right; left; split; reflexivity .. | right; right; right; exact Hin].
        -- destruct IH as [[_ ->] | [[_ ->] | Hin]];
             [right; left; split; reflexivity .. | right; right; right; exact Hin].
Qed.

Lemma extremum_outcome : forall better valueSelector comparer (s : Seq JsValue) x l s',
  Produces s (x :: l) s' ->
  Forall (fun v => isEmpty v = false) (x :: l) ->
  exists r, finishes (fun fuel => extremum better fuel valueSelector comparer s) r /\
            ~ is_marker r.
Proof.
  intros better valueSelector comparer s x l s' Hs Hall. unfold extremum, finishes.
  set (vs := match valueSelector with Some f => f | None => fun i => Ok i end).
  set (cmp := toComparerSafe comparer).
  destruct (for_of_Produces Hs (R := unit) (JsSymbol IS_EMPTY, JsUndefined, true)
              (extremum_body better vs cmp)) as (fuel & s'' & Hf).
  pose proof (extremum_scan better vs cmp (x :: l) (JsSymbol IS_EMPTY) JsUndefined true)
    as Hscan.
  assert (Hin : forall r, In r (x :: l) -> Ok r <> Ok (JsSymbol IS_EMPTY)).
  { intros r Hr Heq. injection Heq as ->.
    rewrite Forall_forall in Hall. specialize (Hall _ Hr). discriminate Hall. }
  destruct (for_of_list (extremum_body better vs cmp) (JsSymbol IS_EMPTY, JsUndefined, true)
              (x :: l)) as [[[r b] fl]|[[r b] fl]|u|e].
  - exists (Ok r). split; [exists fuel, s''; rewrite Hf; reflexivity|].
    destruct Hscan as [[Hnil _] | [[Hf' _] | Hr]]; try discriminate. apply Hin, Hr.
  - exists (Ok r). split; [exists fuel, s''; rewrite Hf; reflexivity|].
    destruct Hscan as [[Hnil _] | [[Hf' _] | Hr]]; try discriminate. apply Hin, Hr.
  - exists (Ok JsUndefined). split; [exists fuel, s''; rewrite Hf; reflexivity|].
    intro Hm. discriminate Hm.
  - exists (Throw e). split; [exists fuel, s''; rewrite Hf; reflexivity|].
    intro Hm. discriminate Hm.
Qed.

Lemma average_scan : forall l count sm,
  match for_of_list average_body (count, sm) l with
  | Continue (c, _) | Break (c, _) => c = count + Z.of_nat (List.length l)
  | _ => True
  end.
Proof.
  induction l as [|n l IH]; intros count sm; cbn [for_of_list].
  - simpl. lia.
  - unfold average_body at 1.
    match goal with
    | |- context [match ?c with Ok _ => _ | Throw _ => _ end] => destruct c as [m|e]
    end; [|exact I].
    destruct (to_number m) as [k|e]; [|exact I].
    specialize (IH (count + 1) (num_add sm k)).
    destruct (for_of_list average_body (count + 1, num_add sm k) l) as [[c t]|[c t]|u|e];
      try exact I; simpl List.length; lia.
Qed.

Lemma selected_nonempty : forall (T : Type) (f : T -> Result T) x l,
  fst (selected f (x :: l)) <> [] \/ snd (selected f (x :: l)) <> None.
Proof.
  intros T f x l. simpl. destruct (f x) as [y|e].
  - destruct (selected f l) as [ys e]. left. discriminate.
  - right. discriminate.
Qed.

Lemma average_outcome : forall selector (s : Seq JsValue) l s',
  Produces s l s' ->
  exists r, finishes (fun fuel => average fuel selector s) r /\
            (l = [] -> r = Ok (JsSymbol IS_EMPTY)) /\
            (l <> [] -> ~ is_marker r).
Proof.
  intros selector s l s' Hs. unfold average, finishes.
  set (sel := match selector with Some f => Some f | None => Some (fun i => Ok i) end).
  destruct (select_emits sel Hs) as (s1 & He). cbv zeta in He.
  set (f := match sel with Some f => f | None => fun x => Ok x end) in He.
  destruct (for_of_Emits He (R := unit) (0, num_of_Z 0) average_body)
    as (fuel & s'' & Hf).
  pose proof (average_scan (fst (selected f l)) 0 (num_of_Z 0)) as Hscan.
  unfold for_of_emitted in Hf.
  destruct l as [|x l].
  - cbn [selected fst snd for_of_list] in Hf. exists (Ok (JsSymbol IS_EMPTY)).
    split; [exists fuel, s''; rewrite Hf; reflexivity|].
    split; [reflexivity | intro Hne; contradiction Hne; reflexivity].
  - pose proof (selected_nonempty f x l) as Hne.
    destruct (fst (selected f (x :: l))) as [|y ys];
      destruct (snd (selected f (x :: l))) as [err|].
    + cbn [for_of_list] in Hf. exists (Throw err).
      split; [exists fuel, s''; rewrite Hf; reflexivity|].
      split; [discriminate | intros _ Hm; discriminate Hm].
    + destruct Hne as [Hne | Hne]; contradiction Hne; reflexivity.
    + destruct (for_of_list average_body (0, num_of_Z 0) (y :: ys))
        as [[c t]|[c t]|u|e1].
      * exists (Throw err). split; [exists fuel, s''; rewrite Hf; reflexivity|].
        split; [discriminate | intros _ Hm; discriminate Hm].
      * exists (Ok (JsNumber (num_div t (num_of_Z c)))).
        split; [exists fuel, s''; rewrite Hf|].
        -- simpl List.length in Hscan. destruct (0 <? c) eqn:E; [reflexivity | lia].
        -- split; [discriminate | intros _ Hm; discriminate Hm].
      * exists (Ok JsUndefined). split; [exists fuel, s''; rewrite Hf; reflexivity|].
        split; [discriminate | intros _ Hm; discriminate Hm].
      * exists (Throw e1). split; [exists fuel, s''; rewrite Hf; reflexivity|].
        split; [discriminate | intros _ Hm; discriminate Hm].
    + destruct (for_of_list average_body (0, num_of_Z 0) (y :: ys))
        as [[c t]|[c t]|u|e1].
      * exists (Ok (JsNumber (num_div t (num_of_Z c)))).
        split; [exists fuel, s''; rewrite Hf|].
        -- simpl List.length in Hscan. destruct (0 <? c) eqn:E; [reflexivity | lia].
        -- split; [discriminate | intros _ Hm; discriminate Hm].
      * exists (Ok (JsNumber (num_div t (num_of_Z c)))).
        split; [exists fuel, s''; rewrite Hf|].
        -- simpl List.length in Hscan. destruct (0 <? c) eqn:E; [reflexivity | lia].
        -- split; [discriminate | intros _ Hm; discriminate Hm].
      * exists (Ok JsUndefined). split; [exists fuel, s''; rewrite Hf; reflexivity|].
        split; [discriminate | intros _ Hm; discriminate Hm].
      * exists (Throw e1). split; [exists fuel, s''; rewrite Hf; reflexivity|].
        split; [discriminate | intros _ Hm; discriminate Hm].
Qed.

Lemma for_of_deterministic : forall (T A R : Type) f1 f2 (s : Seq T) (acc : A)
  (body : A -> T -> Completion A R) r1 r2,
  for_of f1 s acc body = Some r1 -> for_of f2 s acc body = Some r2 -> r1 = r2.
Proof.
  intros T A R f1 f2 s acc body r1 r2 H1 H2.
  apply (for_of_fuel_le (fuel' := Nat.max f1 f2)) in H1; [|lia].
  apply (for_of_fuel_le (fuel' := Nat.max f1 f2)) in H2; [|lia].
  congruence.
Qed.

Lemma sum_deterministic : forall (s : Seq JsValue) r1 r2,
  finishes (fun fuel => sum fuel s) r1 -> finishes (fun fuel => sum fuel s) r2 -> r1 = r2.
Proof.
  unfold finishes, sum, aggregate. intros s r1 r2 (f1 & s1 & H1) (f2 & s2 & H2).
  destruct (for_of f1 s _ _) as [[c1 t1]|] eqn:E1; [|discriminate].
  destruct (for_of f2 s _ _) as [[c2 t2]|] eqn:E2; [|discriminate].
  pose proof (@for_of_deterministic _ _ _ _ _ _ _ _ _ _ E1 E2) as Heq. injection Heq as -> ->.
  destruct c2; congruence.
Qed.

Lemma extremum_deterministic : forall better vs cmp (s : Seq JsValue) r1 r2,
  finishes (fun fuel => extremum better fuel vs cmp s) r1 ->
  finishes (fun fuel => extremum better fuel vs cmp s) r2 -> r1 = r2.
Proof.
  unfold finishes, extremum. intros better vs cmp s r1 r2 (f1 & s1 & H1) (f2 & s2 & H2).
  destruct (for_of f1 s _ _) as [[c1 t1]|] eqn:E1; [|discriminate].
  destruct (for_of f2 s _ _) as [[c2 t2]|] eqn:E2; [|discriminate].
  pose proof (@for_of_deterministic _ _ _ _ _ _ _ _ _ _ E1 E2) as Heq. injection Heq as -> ->.
  destruct c2 as [[[? ?] ?]|[[? ?] ?]| |]; congruence.
Qed.

Lemma average_deterministic : forall sel (s : Seq JsValue) r1 r2,
  finishes (fun fuel => average fuel sel s) r1 ->
  finishes (fun fuel => average fuel sel s) r2 -> r1 = r2.
Proof.
  unfold finishes, average. intros sel s r1 r2 (f1 & s1 & H1) (f2 & s2 & H2).
  destruct (for_of f1 _ _ _) as [[c1 t1]|] eqn:E1; [|discriminate].
  destruct (for_of f2 _ _ _) as [[c2 t2]|] eqn:E2; [|discriminate].
  pose proof (@for_of_deterministic _ _ _ _ _ _ _ _ _ _ E1 E2) as Heq. injection Heq as -> ->.
  destruct c2 as [[c t]|[c t]| |]; try congruence; destruct (0 <? c); congruence.
Qed.

Lemma empty_outcomes : forall (s s' : Seq JsValue) selector valueSelector comparer,
  Produces s [] s' ->
  finishes (fun fuel => sum fuel s) (Ok (JsSymbol IS_EMPTY)) /\
  finishes (fun fuel => average fuel selector s) (Ok (JsSymbol IS_EMPTY)) /\
  finishes (fun fuel => min fuel valueSelector comparer s) (Ok (JsSymbol IS_EMPTY)) /\
  finishes (fun fuel => max fuel valueSelector comparer s) (Ok (JsSymbol IS_EMPTY)).
Proof.
  intros s s' selector valueSelector comparer Hs. repeat split.
  - unfold sum, aggregate.
    destruct (for_of_Produces Hs (R := unit) (JsSymbol IS_EMPTY)
                (aggregate_body sum_func)) as (fuel & s'' & Hf).
    exists fuel, s''. rewrite Hf. reflexivity.
  - destruct (average_outcome selector Hs) as (r & Hr & Hnil & _).
    rewrite <- (Hnil eq_refl). exact Hr.
  - unfold min, extremum.
    match goal with
    | |- context [for_of _ _ ?acc ?body] =>
        destruct (for_of_Produces Hs (R := unit) acc body) as (fuel & s'' & Hf)
    end.
    exists fuel, s''. rewrite Hf. reflexivity.
  - unfold max, extremum.
    match goal with
    | |- context [for_of _ _ ?acc ?body] =>
        destruct (for_of_Produces Hs (R := unit) acc body) as (fuel & s'' & Hf)
    end.
    exists fuel, s''. rewrite Hf. reflexivity.
Qed.

(** C3, as the code has it.  On an empty sequence [sum], [average], [min]
    and [max] each return the [IS_EMPTY] marker: they neither throw nor
    return zero.  On a non-empty sequence [average] never returns the
    marker, and [sum], [min] and [max] never return it when no element of
    the sequence is the marker itself. *)
Theorem empty_marker_of_the_aggregates :
  forall (s : Seq JsValue) (l : list JsValue) (s' : Seq JsValue) selector valueSelector
         comparer,
  Produces s l s' ->
  (l = [] ->
     finishes (fun fuel => sum fuel s) (Ok (JsSymbol IS_EMPTY)) /\
     finishes (fun fuel => average fuel selector s) (Ok (JsSymbol IS_EMPTY)) /\
     finishes (fun fuel => min fuel valueSelector comparer s) (Ok (JsSymbol IS_EMPTY)) /\
     finishes (fun fuel => max fuel valueSelector comparer s) (Ok (JsSymbol IS_EMPTY))) /\
  (l <> [] ->
     (exists r, finishes (fun fuel => average fuel selector s) r) /\
     (forall r, finishes (fun fuel => average fuel selector s) r -> ~ is_marker r) /\
     (Forall (fun v => isEmpty v = false) l ->
        (exists r, finishes (fun fuel => sum fuel s) r) /\
        (forall r, finishes (fun fuel => sum fuel s) r -> ~ is_marker r) /\
        (exists r, finishes (fun fuel => min fuel valueSelector comparer s) r) /\
        (forall r, finishes (fun fuel => min fuel valueSelector comparer s) r ->
                   ~ is_marker r) /\
        (exists r, finishes (fun fuel => max fuel valueSelector comparer s) r) /\
        (forall r, finishes (fun fuel => max fuel valueSelector comparer s) r ->
                   ~ is_marker r))).
Proof.
  intros s l s' selector valueSelector comparer Hs. split.
  - intros ->. apply (empty_outcomes selector valueSelector comparer Hs).
  - intros Hne. destruct l as [|x l]; [contradiction Hne; reflexivity|].
    destruct (average_outcome selector Hs) as (ra & Hra & _ & Hna).
    split; [exists ra; exact Hra|]. split.
    { intros r Hr. rewrite (@average_deterministic selector s _ _ Hr Hra). apply Hna. discriminate. }
    intros Hall.
    destruct (sum_outcome Hs Hall) as (rs & Hrs & Hns).
    destruct (extremum_outcome (fun c => c <? 0) valueSelector comparer Hs Hall)
      as (rmin & Hrmin & Hnmin).
    destruct (extremum_outcome (fun c => 0 <? c) valueSelector comparer Hs Hall)
      as (rmax & Hrmax & Hnmax).
    split; [exists rs; exact Hrs|]. split.
    { intros r Hr. rewrite (@sum_deterministic s _ _ Hr Hrs). exact Hns. }
    split; [exists rmin; exact Hrmin|]. split.
    { intros r Hr. unfold min in Hr. rewrite (@extremum_deterministic _ valueSelector comparer s _ _ Hr Hrmin). exact Hnmin. }
    split; [exists rmax; exact Hrmax|].
    intros r Hr. unfold max in Hr. rewrite (@extremum_deterministic _ valueSelector comparer s _ _ Hr Hrmax). exact Hnmax.
Qed.

End Aggregates.

(** The empty array: every aggregate answers with the marker. *)
Lemma empty_marker_of_the_aggregates_witness :
  (exists s', Produces (from (SequenceArray (@nil JsValue))) [] s') /\
  finishes (fun fuel => sum fuel (from (SequenceArray []))) (Ok (JsSymbol IS_EMPTY)).
Proof.
  destruct (Produces_from_array (@nil JsValue)) as (s' & Hs).
  split; [exists s'; exact Hs|].
  exact (proj1 (proj1 (empty_marker_of_the_aggregates None None None Hs) eq_refl)).
Defined.

(** The claim as it stands fails: a sequence can hold the marker itself,
    and then [min], [max] and [sum] return it although the sequence is not
    empty. *)
Lemma aggregates_return_a_marker_element :
  (exists s', Produces (from (SequenceArray [JsSymbol IS_EMPTY])) [JsSymbol IS_EMPTY] s') /\
  option_map fst (min 3 None None (from (SequenceArray [JsSymbol IS_EMPTY])))
    = Some (Ok (JsSymbol IS_EMPTY)) /\
  option_map fst (max 3 None None (from (SequenceArray [JsSymbol IS_EMPTY])))
    = Some (Ok (JsSymbol IS_EMPTY)) /\
  option_map fst (sum 3 (from (SequenceArray [JsSymbol IS_EMPTY])))
    = Some (Ok (JsSymbol IS_EMPTY)).
Proof.
  split; [apply Produces_from_array|]. repeat split; reflexivity.
Qed.

(** ** [zip] *)
Section Zip.
Context {T : Type}.
Variable g : T -> T -> Z -> T.

Let G : T -> T -> Z -> Result T := fun x y i => Ok (g x y i).

(** One pull of [zip] takes one element from each side. *)
Lemma zip_step : forall (this this1 second second1 : Seq T) x y i,
  pulls this (Ok (IterItem x)) this1 ->
  pulls second (Ok (IterItem y)) second1 ->
  resumes (ZipFrame second G i this) (Yielded (g x y (i + 1)))
          (ZipFrame second1 G (i + 1) this1).
Proof.
  intros this this1 second second1 x y i [f1 H1] [f2 H2].
  exists (S (Nat.max f1 f2)). simpl.
  rewrite (next_fuel_le (fuel' := Nat.max f1 f2) this (Nat.le_max_l f1 f2) H1).
  rewrite (next_fuel_le (fuel' := Nat.max f1 f2) second (Nat.le_max_r f1 f2) H2).
  reflexivity.
Qed.

(** When the first side is exhausted the second is not pulled. *)
Lemma zip_first_exhausted : forall (this this' second : Seq T) i,
  pulls this (Ok IterDone) this' ->
  resumes (ZipFrame second G i this) Returned (ZipFrame second G i this').
Proof.
  intros this this' second i [f1 H1]. exists (S f1). simpl. rewrite H1. reflexivity.
Qed.

Lemma zip_second_exhausted : forall (this this1 second second' : Seq T) x i,
  pulls this (Ok (IterItem x)) this1 ->
  pulls second (Ok IterDone) second' ->
  resumes (ZipFrame second G i this) Returned (ZipFrame second' G i this1).
Proof.
  intros this this1 second second' x i [f1 H1] [f2 H2].
  exists (S (Nat.max f1 f2)). simpl.
  rewrite (next_fuel_le (fuel' := Nat.max f1 f2) this (Nat.le_max_l f1 f2) H1).
  rewrite (next_fuel_le (fuel' := Nat.max f1 f2) second (Nat.le_max_r f1 f2) H2).
  reflexivity.
Qed.

Lemma zip_list_length : forall l1 l2 i,
  List.length (zip_list g i l1 l2) = Nat.min (List.length l1) (List.length l2).
Proof.
  induction l1 as [|x l1 IH]; intros [|y l2] i; simpl; try reflexivity.
  rewrite IH. reflexivity.
Qed.

Lemma zip_frame_produces : forall (this : Seq T) l1 this',
  Produces this l1 this' ->
  forall (second : Seq T) l2 second' i,
  Produces second l2 second' ->
  exists t1 t2,
    FrameProduces (ZipFrame second G i this) (zip_list g (i + 1) l1 l2)
                  (ZipFrame t2 G (i + Z.of_nat (Nat.min (List.length l1) (List.length l2)))
                            t1) /\
    ((List.length l1 <= List.length l2)%nat ->
       t1 = this' /\ Advances second (firstn (List.length l1) l2) t2) /\
    ((List.length l2 < List.length l1)%nat ->
       t2 = second' /\ Advances this (firstn (S (List.length l2)) l1) t1).
Proof.
  induction 1 as [this this' Hd | this x this1 l1 this' Hx Hrest IH];
    intros second l2 second' i H2.
  - exists this', second. simpl. rewrite Z.add_0_r. repeat split.
    + apply FrameProduces_return. apply zip_first_exhausted. exact Hd.
    + constructor.
    + lia.
    + lia.
  - inversion H2 as [? ? Hd2 | ? y second1 l2' ? Hy Hrest2]; subst.
    + exists this1, second'. simpl. rewrite Z.add_0_r. repeat split.
      * apply FrameProduces_return. eapply zip_second_exhausted; eassumption.
      * lia.
      * lia.
      * econstructor; [exact Hx | constructor].
    + destruct (IH second1 l2' second' (i + 1) Hrest2) as (t1 & t2 & Hf & Hle & Hlt).
      exists t1, t2. split; [|split].
      * simpl zip_list. eapply FrameProduces_yield; [apply zip_step; eassumption|].
        replace (i + Z.of_nat (Nat.min (List.length (x :: l1)) (List.length (y :: l2'))))
          with (i + 1 + Z.of_nat (Nat.min (List.length l1) (List.length l2')))
          by (simpl List.length; lia).
        exact Hf.
      * intros Hlen. simpl in Hlen. destruct Hle as [-> Hadv]; [lia|].
        split; [reflexivity|]. simpl. econstructor; eassumption.
      * intros Hlen. simpl in Hlen. destruct Hlt as [-> Hadv]; [lia|].
        split; [reflexivity|].
        change (firstn (S (List.length (y :: l2'))) (x :: l1))
          with (x :: firstn (S (List.length l2')) l1).
        econstructor; eassumption.
Qed.

(** C7. [zip] over two finite sequences gives, pair by pair, the combiner
    applied to the two elements and the zero-based index of the pair, as
    many pairs as the shorter input has elements.  Each pull takes one
    element from each input; when the first input ends first the second has
    given exactly as many elements as the first, and when the second ends
    first the first has given one element more, which is dropped. *)
Theorem zip_is_lock_step :
  forall (this : Seq T) (l1 : list T) (this' : Seq T) (second : Sequence T)
         (l2 : list T) (second' : Seq T) (js_plus : T -> T -> Result T),
  Produces this l1 this' ->
  Produces (from second) l2 second' ->
  (exists s_end, Produces (zip js_plus second (Some G) this) (zip_list g 0 l1 l2) s_end) /\
  List.length (zip_list g 0 l1 l2) = Nat.min (List.length l1) (List.length l2) /\
  (exists t1 t2 i',
     FrameProduces (ZipFrame (from second) G (-1) this) (zip_list g 0 l1 l2)
                   (ZipFrame t2 G i' t1) /\
     ((List.length l1 <= List.length l2)%nat ->
        t1 = this' /\ Advances (from second) (firstn (List.length l1) l2) t2) /\
     ((List.length l2 < List.length l1)%nat ->
        t2 = second' /\ Advances this (firstn (S (List.length l2)) l1) t1)) /\
  (forall (a a1 b b1 : Seq T) x y i,
     pulls a (Ok (IterItem x)) a1 -> pulls b (Ok (IterItem y)) b1 ->
     resumes (ZipFrame b G i a) (Yielded (g x y (i + 1))) (ZipFrame b1 G (i + 1) a1)).
Proof.
  intros this l1 this' second l2 second' js_plus H1 H2.
  destruct (zip_frame_produces H1 (-1) H2) as (t1 & t2 & Hf & Hle & Hlt).
  replace (-1 + 1) with 0 in Hf by lia.
  split; [|split; [|split]].
  - eexists. unfold zip, from_generator. apply (Produces_generator Hf).
  - apply zip_list_length.
  - exists t1, t2. eexists. split; [exact Hf|]. split; assumption.
  - intros a a1 b b1 x y i Ha Hb. apply zip_step; assumption.
Qed.

End Zip.


Lemma zip_is_lock_step_witness :
  (exists s', Produces (from (SequenceArray (map js_number_of [1; 2; 3])))
                       (map js_number_of [1; 2; 3]) s') /\
  (exists s', Produces (from (SequenceArray (map js_number_of [1; 2])))
                       (map js_number_of [1; 2]) s') /\
  exists s_end,
    Produces (zip js_add (SequenceArray (map js_number_of [1; 2]))
                  (Some (fun x y i => Ok (add_or_undefined x y i)))
                  (from (SequenceArray (map js_number_of [1; 2; 3]))))
             (map js_number_of [2; 4]) s_end.
Proof.
  destruct (Produces_from_array (map js_number_of [1; 2; 3])) as (s1 & H1).
  destruct (Produces_from_array (map js_number_of [1; 2])) as (s2 & H2).
  split; [exists s1; exact H1|]. split; [exists s2; exact H2|].
  exact (proj1 (zip_is_lock_step add_or_undefined
                  (SequenceArray (map js_number_of [1; 2])) js_add H1 H2)).
Defined.

(** The same with the combiner left out: [zip] then adds with [+]. *)
Example zip_default_combiner :
  option_map fst (toArray 20 (zip js_add (SequenceArray (map js_number_of [1; 2])) None
                                  (from (SequenceArray (map js_number_of [1; 2; 3])))))
  = Some (Ok (map js_number_of [2; 4])).
Proof. reflexivity. Qed.

(** ** [take] and [skip] over [range(0, 10)] *)


Example range_0_10_elements :
  option_map fst (toArray 40 range_0_10) = Some (Ok zero_to_nine).
Proof. reflexivity. Qed.

(** C8. For every [n] from 0 to 10, [take(n)] of [range(0, 10)] gives the
    first [n] of the ten numbers and [skip(n)] of [range(0, 10)] the
    others: put one after the other they are the ten numbers in order,
    nothing twice and nothing missing. *)
Theorem take_then_skip_partitions_range :
  forall n : Z, 0 <= n <= 10 ->
  exists a b,
    option_map fst (toArray 40 (take (CountInt n) range_0_10)) = Some (Ok a) /\
    option_map fst (toArray 40 (skip (CountInt n) range_0_10)) = Some (Ok b) /\
    a = firstn (Z.to_nat n) zero_to_nine /\
    b = skipn (Z.to_nat n) zero_to_nine /\
    a ++ b = zero_to_nine.
Proof.
  intros n Hn.
  assert (Hm : (Z.to_nat n <= 10)%nat) by lia.
  rewrite <- (Z2Nat.id n) by lia.
  generalize dependent (Z.to_nat n). clear Hn n. intros m Hm.
  do 11 (destruct m as [|m];
         [eexists; eexists; split; [vm_compute; reflexivity|];
          split; [vm_compute; reflexivity|]; repeat split; reflexivity|]).
  lia.
Qed.

Lemma take_then_skip_partitions_range_witness :
  0 <= 3 <= 10 /\
  exists a b,
    option_map fst (toArray 40 (take (CountInt 3) range_0_10)) = Some (Ok a) /\
    option_map fst (toArray 40 (skip (CountInt 3) range_0_10)) = Some (Ok b) /\
    a = firstn (Z.to_nat 3) zero_to_nine /\
    b = skipn (Z.to_nat 3) zero_to_nine /\
    a ++ b = zero_to_nine.
Proof.
  assert (H3 : 0 <= 3 <= 10) by lia.
  split; [exact H3|]. exact (take_then_skip_partitions_range H3).
Defined.

(** ** [distinct] *)
Section Distinct.
Context {T : Type}.

Lemma FrameProduces_skip : forall (F F1 : Frame T) L f',
  (forall r f'', resumes F1 r f'' -> resumes F r f'') ->
  FrameProduces F1 L f' -> FrameProduces F L f'.
Proof.
  intros F F1 L f' Hskip HF1. inversion HF1; subst.
  - apply FrameProduces_return. apply Hskip. assumption.
  - eapply FrameProduces_yield; [apply Hskip; eassumption | assumption].
Qed.

Lemma distinct_frame_produces : forall (comparer : T -> T -> bool) (s : Seq T) l s',
  Produces s l s' ->
  forall TEMP, exists f',
    FrameProduces (DistinctByFrame (fun x => Ok x) comparer TEMP s)
                  (distinct_list comparer TEMP l) f'.
Proof.
  intros comparer. induction 1 as [s s' [f Hd] | s x s1 l s' [f Hx] Hrest IH]; intros TEMP.
  - eexists. apply FrameProduces_return. exists (S f). simpl. rewrite Hd. reflexivity.
  - simpl. destruct (existsb (fun t => comparer x t) TEMP) eqn:Hfound.
    + destruct (IH TEMP) as (f' & Hf'). exists f'.
      apply FrameProduces_skip with (F1 := DistinctByFrame (fun x => Ok x) comparer TEMP s1);
        [|exact Hf'].
      intros r f'' [f2 H2]. exists (S (Nat.max f f2)). simpl.
      rewrite (next_fuel_le (fuel' := Nat.max f f2) s (Nat.le_max_l f f2) Hx).
      rewrite Hfound. apply (resume_fuel_le (fuel := f2)); [lia | exact H2].
    + destruct (IH (TEMP ++ [x])) as (f' & Hf'). exists f'.
      eapply FrameProduces_yield; [|exact Hf'].
      exists (S f). simpl. rewrite Hx, Hfound. reflexivity.
Qed.

Lemma distinct_produces : forall `{JsEquality T} (comparer : EqualityComparerArg T)
  (s : Seq T) l s',
  Produces s l s' ->
  exists s'', Produces (distinct comparer s)
                       (distinct_list (toEqualityComparerSafe comparer) [] l) s''.
Proof.
  intros HT comparer s l s' Hs.
  destruct (distinct_frame_produces (toEqualityComparerSafe comparer) Hs [])
    as (f' & Hf').
  eexists. unfold distinct, distinctBy, from_generator. apply (Produces_generator Hf').
Qed.

(** Every kept element differs from all the keys kept before it. *)
Lemma distinct_list_later_differs : forall (comparer : T -> T -> bool) l TEMP,
  Forall (fun b => forall t, In t TEMP -> comparer b t = false)
         (distinct_list comparer TEMP l) /\
  ForallOrdPairs (fun a b => comparer b a = false) (distinct_list comparer TEMP l).
Proof.
  intros comparer. induction l as [|x l IH]; intros TEMP; simpl.
  - split; constructor.
  - destruct (existsb (fun t => comparer x t) TEMP) eqn:Hfound; [apply IH|].
    destruct (IH (TEMP ++ [x])) as [Hall Hpairs]. split.
    + constructor.
      * intros t Ht. destruct (comparer x t) eqn:E; [|reflexivity].
        assert (existsb (fun t => comparer x t) TEMP = true)
          by (apply existsb_exists; exists t; split; assumption).
        congruence.
      * eapply Forall_impl; [|exact Hall]. intros b Hb t Ht.
        apply Hb. apply in_or_app. left. exact Ht.
    + constructor; [|exact Hpairs].
      eapply Forall_impl; [|exact Hall]. intros b Hb.
      apply Hb. apply in_or_app. right. left. reflexivity.
Qed.

Lemma distinct_list_pairwise_different : forall (comparer : T -> T -> bool) l,
  symmetric_comparer comparer ->
  pairwise_different comparer (distinct_list comparer [] l).
Proof.
  intros comparer l Hsym. unfold pairwise_different.
  destruct (distinct_list_later_differs comparer l []) as [_ Hpairs].
  induction Hpairs as [|a out Ha Hpairs IH]; constructor; [|exact IH].
  eapply Forall_impl; [|exact Ha]. intros b Hb. split; [|exact Hb].
  destruct (comparer a b) eqn:E; [|reflexivity].
  apply Hsym in E. congruence.
Qed.

Lemma distinct_list_first_occurrences : forall (comparer : T -> T -> bool),
  transitive_comparer comparer ->
  forall l TEMP earlier,
  (forall z, existsb (fun t => comparer z t) earlier = existsb (fun t => comparer z t) TEMP) ->
  distinct_list comparer TEMP l = first_occurrences comparer earlier l.
Proof.
  intros comparer Htrans. induction l as [|x l IH]; intros TEMP earlier Hinv; simpl.
  - reflexivity.
  - rewrite (Hinv x). destruct (existsb (fun t => comparer x t) TEMP) eqn:Hfound.
    + apply IH. intros z. rewrite existsb_app, (Hinv z). simpl.
      destruct (comparer z x) eqn:Hzx; [|rewrite !orb_false_r; reflexivity].
      rewrite orb_true_r.
      apply existsb_exists in Hfound. destruct Hfound as (t & Ht & Hxt).
      symmetry. apply existsb_exists. exists t. split; [exact Ht|].
      exact (Htrans _ _ _ Hzx Hxt).
    + f_equal. apply IH. intros z. rewrite !existsb_app, (Hinv z). reflexivity.
Qed.

Lemma distinct_list_covers : forall (comparer : T -> T -> bool) l TEMP x,
  In x l -> comparer x x = true ->
  existsb (fun t => comparer x t) (TEMP ++ distinct_list comparer TEMP l) = true.
Proof.
  intros comparer. induction l as [|a l IH]; intros TEMP x Hin Hxx; [destruct Hin|].
  simpl. destruct (existsb (fun t => comparer a t) TEMP) eqn:Hfound.
  - destruct Hin as [-> | Hin].
    + rewrite existsb_app, Hfound. reflexivity.
    + apply IH; assumption.
  - destruct Hin as [-> | Hin].
    + rewrite existsb_app. simpl. rewrite Hxx, orb_true_r. reflexivity.
    + specialize (IH (TEMP ++ [a]) x Hin Hxx).
      rewrite <- app_assoc in IH. exact IH.
Qed.

Lemma pairwise_different_at_most_one : forall (comparer : T -> T -> bool) out x,
  symmetric_comparer comparer -> transitive_comparer comparer ->
  pairwise_different comparer out ->
  (List.length (filter (fun t => comparer x t) out) <= 1)%nat.
Proof.
  intros comparer out x Hsym Htrans Hpd.
  induction Hpd as [|a out Ha Hpd IH]; simpl; [lia|].
  destruct (comparer x a) eqn:Hxa; [|exact IH].
  assert (Hnone : filter (fun t => comparer x t) out = []).
  { clear IH Hpd. induction out as [|b out IHo]; simpl; [reflexivity|].
    inversion Ha as [|? ? [Hab _] Ha']; subst.
    destruct (comparer x b) eqn:Hxb; [|apply IHo; exact Ha'].
    rewrite (Htrans _ _ _ (Hsym _ _ Hxa) Hxb) in Hab. discriminate Hab. }
  rewrite Hnone. simpl. lia.
Qed.

Lemma existsb_filter_nonempty : forall (f : T -> bool) l,
  existsb f l = true -> (1 <= List.length (filter f l))%nat.
Proof.
  intros f. induction l as [|a l IH]; simpl; [discriminate|].
  destruct (f a); simpl; [lia | exact IH].
Qed.

(** C6, as the code has it.  For a comparer that is symmetric and
    transitive, [distinct] over a finite sequence keeps exactly the first
    occurrences, in order: the output holds no two elements that the
    comparer takes for equal, an element stays exactly when no element
    before it in the sequence equals it, and every element of the sequence
    that equals itself is matched by exactly one element of the output.
    The comparer is [==] when the argument is left out and [===] when it
    is [true]. *)
Theorem distinct_keeps_first_occurrences :
  forall `{JsEquality T} (comparer : EqualityComparerArg T) (s : Seq T) (l : list T)
         (s' : Seq T),
  Produces s l s' ->
  symmetric_comparer (toEqualityComparerSafe comparer) ->
  transitive_comparer (toEqualityComparerSafe comparer) ->
  exists out s'',
    Produces (distinct comparer s) out s'' /\
    out = first_occurrences (toEqualityComparerSafe comparer) [] l /\
    pairwise_different (toEqualityComparerSafe comparer) out /\
    (forall x, In x l -> toEqualityComparerSafe comparer x x = true ->
               List.length (filter (fun t => toEqualityComparerSafe comparer x t) out)
               = 1%nat) /\
    toEqualityComparerSafe (T := T) ComparerUndefined = loose_eq /\
    toEqualityComparerSafe (T := T) ComparerTrue = strict_eq.
Proof.
  intros HT comparer s l s' Hs Hsym Htrans.
  destruct (distinct_produces comparer Hs) as (s'' & Hout).
  exists (distinct_list (toEqualityComparerSafe comparer) [] l), s''.
  split; [exact Hout|]. split; [|split; [|split; [|split]]].
  - apply distinct_list_first_occurrences; [exact Htrans | reflexivity].
  - apply distinct_list_pairwise_different. exact Hsym.
  - intros x Hin Hxx.
    pose proof (distinct_list_covers (toEqualityComparerSafe comparer) l [] x Hin Hxx)
      as Hcov. simpl in Hcov. apply existsb_filter_nonempty in Hcov.
    pose proof (pairwise_different_at_most_one x Hsym Htrans
                  (distinct_list_pairwise_different l Hsym)) as Hmost.
    lia.
  - reflexivity.
  - reflexivity.
Qed.

End Distinct.

(** ** [==] and [===] on the modelled values *)

Lemma num_eq_sym : forall a b, num_eq a b = true -> num_eq b a = true.
Proof.
  intros [|x] [|y]; simpl; try discriminate.
  intros Hxy. apply Qeq_bool_iff in Hxy. apply Qeq_bool_iff. symmetry. exact Hxy.
Qed.

Lemma num_eq_trans : forall a b c,
  num_eq a b = true -> num_eq b c = true -> num_eq a c = true.
Proof.
  intros [|x] [|y] [|z]; simpl; try discriminate.
  intros Hxy Hyz. apply Qeq_bool_iff in Hxy. apply Qeq_bool_iff in Hyz.
  apply Qeq_bool_iff. rewrite Hxy. exact Hyz.
Qed.

Lemma symbol_eq_sym : forall a b, symbol_eq a b = true -> symbol_eq b a = true.
Proof.
  intros [| | |i] [| | |j]; simpl; try discriminate; try reflexivity.
  intros Hij. apply Nat.eqb_eq in Hij. subst. apply Nat.eqb_refl.
Qed.

Lemma symbol_eq_trans : forall a b c,
  symbol_eq a b = true -> symbol_eq b c = true -> symbol_eq a c = true.
Proof.
  intros [| | |i] [| | |j] [| | |k]; simpl; try discriminate; try reflexivity.
  intros Hij Hjk. apply Nat.eqb_eq in Hij. apply Nat.eqb_eq in Hjk. subst.
  apply Nat.eqb_refl.
Qed.

Lemma bool_eqb_sym : forall a b, Bool.eqb a b = true -> Bool.eqb b a = true.
Proof. intros [|] [|]; simpl; auto. Qed.

Lemma bool_eqb_trans : forall a b c,
  Bool.eqb a b = true -> Bool.eqb b c = true -> Bool.eqb a c = true.
Proof. intros [|] [|] [|]; simpl; auto. Qed.

Lemma boolean_to_number_injective : forall a b,
  num_eq (boolean_to_number a) (boolean_to_number b) = true -> Bool.eqb a b = true.
Proof. intros [|] [|]; simpl; try reflexivity; intro Hab; discriminate Hab. Qed.

Lemma boolean_to_number_eqb : forall a b,
  Bool.eqb a b = true -> num_eq (boolean_to_number a) (boolean_to_number b) = true.
Proof. intros [|] [|]; simpl; try reflexivity; intro Hab; discriminate Hab. Qed.

Lemma js_strict_eq_symmetric : symmetric_comparer js_strict_eq.
Proof.
  intros [| |a|a|a] [| |b|b|b]; simpl; try discriminate;
    auto using num_eq_sym, symbol_eq_sym, bool_eqb_sym.
Qed.

Lemma js_strict_eq_transitive : transitive_comparer js_strict_eq.
Proof.
  intros [| |a|a|a] [| |b|b|b] [| |c|c|c]; simpl; try discriminate; auto;
    eauto using num_eq_trans, symbol_eq_trans, bool_eqb_trans.
Qed.

Lemma js_loose_eq_symmetric : symmetric_comparer js_loose_eq.
Proof.
  intros [| |a|a|a] [| |b|b|b]; simpl; try discriminate;
    auto using num_eq_sym, symbol_eq_sym, bool_eqb_sym.
Qed.

Lemma js_loose_eq_transitive : transitive_comparer js_loose_eq.
Proof.
  intros [| |a|a|a] [| |b|b|b] [| |c|c|c]; simpl; try discriminate; auto;
    intros Hab Hbc;
    first [ exact (num_eq_trans _ _ _ Hab Hbc)
          | exact (symbol_eq_trans _ _ _ Hab Hbc)
          | exact (bool_eqb_trans _ _ _ Hab Hbc)
          | exact (num_eq_trans _ _ _ (boolean_to_number_eqb _ _ Hab) Hbc)
          | exact (boolean_to_number_injective _ _ (num_eq_trans _ _ _ Hab Hbc))
          | exact (num_eq_trans _ _ _ Hab (boolean_to_number_eqb _ _ Hbc)) ].
Qed.

(** The sequence 1, 2, 2, 3, 1 under the default comparer. *)
Lemma distinct_keeps_first_occurrences_witness :
  (exists s', Produces (from (SequenceArray (map js_number_of [1; 2; 2; 3; 1])))
                       (map js_number_of [1; 2; 2; 3; 1]) s') /\
  exists s'',
    Produces (distinct ComparerUndefined
                       (from (SequenceArray (map js_number_of [1; 2; 2; 3; 1]))))
             (map js_number_of [1; 2; 3]) s''.
Proof.
  destruct (Produces_from_array (map js_number_of [1; 2; 2; 3; 1])) as (s' & Hs).
  split; [exists s'; exact Hs|].
  destruct (@distinct_keeps_first_occurrences JsValue JsValue_equality ComparerUndefined
              _ _ _ Hs js_loose_eq_symmetric js_loose_eq_transitive)
    as (out & s'' & Hout & Hfirst & _).
  exists s''. rewrite Hfirst in Hout. exact Hout.
Defined.

Example distinct_1_2_2_3_1 :
  option_map fst (toArray 20 (distinct ComparerUndefined
                                (from (SequenceArray (map js_number_of [1; 2; 2; 3; 1])))))
  = Some (Ok (map js_number_of [1; 2; 3])).
Proof. reflexivity. Qed.

(** The claim as it stands fails: NaN does not equal itself, so every NaN
    of the sequence is kept and the value appears more than once. *)
Lemma distinct_keeps_every_NaN :
  (exists s', Produces (from (SequenceArray [JsNumber NaN; JsNumber NaN]))
                       [JsNumber NaN; JsNumber NaN] s') /\
  option_map fst (toArray 20 (distinct ComparerUndefined
                                (from (SequenceArray [JsNumber NaN; JsNumber NaN]))))
  = Some (Ok [JsNumber NaN; JsNumber NaN]) /\
  option_map fst (toArray 20 (distinct ComparerTrue
                                (from (SequenceArray [JsNumber NaN; JsNumber NaN]))))
  = Some (Ok [JsNumber NaN; JsNumber NaN]).
Proof.
  split; [apply Produces_from_array|]. split; reflexivity.
Qed.

(** ** [intersect] *)
Section Intersect.
Context {T : Type} `{JsEquality T}.

Lemma intersect_frame_produces : forall (comparer : T -> T -> bool) second (s : Seq T) l s',
  Produces s l s' ->
  exists f', FrameProduces (IntersectFrame second comparer s)
                           (intersect_list comparer second l) f'.
Proof.
  intros comparer second.
  induction 1 as [s s' [f Hd] | s x s1 l s' [f Hx] Hrest IH].
  - eexists. apply FrameProduces_return. exists (S f). simpl. rewrite Hd. reflexivity.
  - destruct IH as (f' & Hf'). exists f'. unfold intersect_list. simpl.
    destruct (existsb (fun secondItem => comparer x secondItem) second) eqn:Hfound.
    + eapply FrameProduces_yield; [|exact Hf'].
      exists (S f). simpl. rewrite Hx, Hfound. reflexivity.
    + apply FrameProduces_skip with (F1 := IntersectFrame second comparer s1); [|exact Hf'].
      intros r f'' [f2 H2]. exists (S (Nat.max f f2)). simpl.
      rewrite (next_fuel_le (fuel' := Nat.max f f2) s (Nat.le_max_l f f2) Hx).
      rewrite Hfound. apply (resume_fuel_le (fuel := f2)); [lia | exact H2].
Qed.

(** What [intersect] does: the second sequence is read to its end while
    the operator is built and deduplicated with [==], whatever comparer was
    passed; the first is then filtered lazily against what is left. *)
Lemma intersect_produces : forall (comparer : EqualityComparerArg T) (second : Sequence T)
  l2 second' (this : Seq T) l1 this',
  Produces (from second) l2 second' ->
  Produces this l1 this' ->
  exists fuel s s'',
    intersect fuel second comparer this = Some (Ok s) /\
    Produces s (intersect_list (toEqualityComparerSafe comparer)
                               (distinct_list (fun x y => loose_eq x y) [] l2) l1) s''.
Proof.
  intros comparer second l2 second' this l1 this' H2 H1.
  destruct (distinct_produces ComparerUndefined H2) as (d' & Hd).
  destruct (toArray_Produces Hd) as (fuel & Hfuel).
  destruct (intersect_frame_produces (toEqualityComparerSafe comparer)
              (distinct_list (fun x y => loose_eq x y) [] l2) H1) as (f' & Hf').
  exists fuel. eexists. eexists. split.
  - unfold intersect. simpl toEqualityComparerSafe in Hfuel. rewrite Hfuel. reflexivity.
  - unfold from_generator. apply (Produces_generator Hf').
Qed.

Lemma distinct_list_incl : forall (comparer : T -> T -> bool) l TEMP t,
  In t (distinct_list comparer TEMP l) -> In t l.
Proof.
  intros comparer. induction l as [|x l IH]; intros TEMP t Hin; [exact Hin|].
  simpl in Hin. destruct (existsb (fun t0 => comparer x t0) TEMP).
  - right. eapply IH. exact Hin.
  - destruct Hin as [-> | Hin]; [left; reflexivity | right; eapply IH; exact Hin].
Qed.

(** Deduplicating with the comparer that also does the filtering does
    not change which elements find a partner. *)
Lemma deduplication_is_harmless : forall (comparer : T -> T -> bool) l2 x,
  symmetric_comparer comparer -> transitive_comparer comparer ->
  existsb (fun t => comparer x t) (distinct_list comparer [] l2)
  = existsb (fun t => comparer x t) l2.
Proof.
  intros comparer l2 x Hsym Htrans.
  destruct (existsb (fun t => comparer x t) l2) eqn:E.
  - apply existsb_exists in E. destruct E as (y & Hy & Hxy).
    assert (Hyy : comparer y y = true) by exact (Htrans _ _ _ (Hsym _ _ Hxy) Hxy).
    pose proof (distinct_list_covers comparer l2 [] y Hy Hyy) as Hcov. simpl in Hcov.
    apply existsb_exists in Hcov. destruct Hcov as (t & Ht & Hyt).
    apply existsb_exists. exists t. split; [exact Ht | exact (Htrans _ _ _ Hxy Hyt)].
  - destruct (existsb (fun t => comparer x t) (distinct_list comparer [] l2)) eqn:E2;
      [|reflexivity].
    apply existsb_exists in E2. destruct E2 as (t & Ht & Hxt).
    apply distinct_list_incl in Ht.
    assert (existsb (fun t => comparer x t) l2 = true)
      by (apply existsb_exists; exists t; split; assumption).
    congruence.
Qed.

(** With the default comparer the claim holds: the occurrences of the
    first sequence that equal some element of the second, in order. *)
Lemma intersect_with_default_comparer : forall (second : Sequence T)
  l2 second' (this : Seq T) l1 this',
  symmetric_comparer (fun x y : T => loose_eq x y) ->
  transitive_comparer (fun x y : T => loose_eq x y) ->
  Produces (from second) l2 second' ->
  Produces this l1 this' ->
  exists fuel s s'',
    intersect fuel second ComparerUndefined this = Some (Ok s) /\
    Produces s (intersect_list (fun x y => loose_eq x y) l2 l1) s''.
Proof.
  intros second l2 second' this l1 this' Hsym Htrans H2 H1.
  destruct (intersect_produces ComparerUndefined second H2 H1)
    as (fuel & s & s'' & Hi & Hp).
  exists fuel, s, s''. split; [exact Hi|].
  replace (intersect_list (fun x y => loose_eq x y) l2 l1)
    with (intersect_list (toEqualityComparerSafe ComparerUndefined)
            (distinct_list (fun x y => loose_eq x y) [] l2) l1); [exact Hp|].
  unfold intersect_list. apply filter_ext. intros x.
  apply (deduplication_is_harmless l2 x Hsym Htrans).
Qed.

End Intersect.

(** C10 fails on the code.  With [===] as the comparer, the first sequence
    [undefined] and the second sequence [null, undefined]: [undefined] is
    identical to an element of the second sequence, so the claim puts it in
    the result; but [intersect] first deduplicates the second sequence with
    [==], which drops [undefined] after [null], and the result is empty. *)
Theorem intersect_deduplicates_with_loose_equality :
  (exists s', Produces (from (SequenceArray [JsUndefined])) [JsUndefined] s') /\
  (exists s', Produces (from (SequenceArray [JsNull; JsUndefined]))
                       [JsNull; JsUndefined] s') /\
  intersect_list js_strict_eq [JsNull; JsUndefined] [JsUndefined] = [JsUndefined] /\
  (exists s,
     intersect 20 (SequenceArray [JsNull; JsUndefined]) ComparerTrue
               (from (SequenceArray [JsUndefined])) = Some (Ok s) /\
     option_map fst (toArray 20 s) = Some (Ok [])) /\
  option_map fst (toArray 20 (distinct ComparerUndefined
                                (from (SequenceArray [JsNull; JsUndefined]))))
  = Some (Ok [JsNull]).
Proof.
  split; [apply Produces_from_array|]. split; [apply Produces_from_array|].
  split; [reflexivity|]. split; [|reflexivity].
  eexists. split; reflexivity.
Qed.

(** ** Building an operator defers the work *)
Section Deferred.
Context {T : Type} `{JsEquality T}.
Variable sequence_item : list T -> option (T -> Result T) -> T.
Variable isSequence_items : T -> option (list T).
Variable js_plus : T -> T -> Result T.
Variable typeof_number : T -> option JsNum.
Variable number_item : JsNum -> T.
Variable parseFloat_item : T -> Result JsNum.
Variable parseInt_item : T -> Result JsNum.
Variable cast_arm : CastType -> T -> Result T.
Variable Math : NumericMap -> JsNum -> JsNum.

Let build := construct sequence_item isSequence_items js_plus typeof_number number_item
                       parseFloat_item parseInt_item cast_arm Math.

Lemma lazy_construction : forall (call : OperatorCall) (this : Seq T),
  materializes_second call = None ->
  exists s', (forall fuel, build fuel call this = Some (Ok s')) /\
             holds_untouched s' this /\ fresh s'.
Proof.
  intros call this Hlazy.
  destruct call; try discriminate Hlazy;
    (eexists; split; [intros fuel; reflexivity|]; split;
     [first [ apply holds_here; reflexivity
            | eapply holds_below; [reflexivity | apply holds_here; reflexivity] ]
     | split; reflexivity ]).
Qed.

Lemma eager_construction : forall (call : OperatorCall) (this : Seq T) second,
  materializes_second call = Some second ->
  (forall fuel s', build fuel call this = Some (Ok s') ->
                   holds_untouched s' this /\ fresh s') /\
  (forall fuel e, build fuel call this = Some (Throw e) <->
                  exists d, toArray fuel (distinct ComparerUndefined (from second))
                            = Some (Throw e, d)) /\
  (forall l2 second', Produces (from second) l2 second' ->
                      exists fuel s', build fuel call this = Some (Ok s')).
Proof.
  intros call this second Heager.
  destruct call; try discriminate Heager; injection Heager as ->;
    unfold build, construct, except, intersect.
  - split; [|split].
    + intros fuel s' Hb.
      destruct (toArray fuel _) as [[[arr|e] d]|]; try discriminate.
      injection Hb as <-. split; [apply holds_here; reflexivity | split; reflexivity].
    + intros fuel e. destruct (toArray fuel _) as [[[arr|e0] d]|]; split;
        try discriminate; intro Hb.
      * destruct Hb as (d0 & Hd0). discriminate Hd0.
      * injection Hb as ->. exists d. reflexivity.
      * destruct Hb as (d0 & Hd0). injection Hd0 as -> _. reflexivity.
      * destruct Hb as (d0 & Hd0). discriminate Hd0.
    + intros l2 second' H2.
      destruct (distinct_produces ComparerUndefined H2) as (d' & Hd).
      destruct (toArray_Produces Hd) as (fuel & Hfuel).
      exists fuel. eexists. rewrite Hfuel. reflexivity.
  - split; [|split].
    + intros fuel s' Hb.
      destruct (toArray fuel _) as [[[arr|e] d]|]; try discriminate.
      injection Hb as <-. split; [apply holds_here; reflexivity | split; reflexivity].
    + intros fuel e. destruct (toArray fuel _) as [[[arr|e0] d]|]; split;
        try discriminate; intro Hb.
      * destruct Hb as (d0 & Hd0). discriminate Hd0.
      * injection Hb as ->. exists d. reflexivity.
      * destruct Hb as (d0 & Hd0). injection Hd0 as -> _. reflexivity.
      * destruct Hb as (d0 & Hd0). discriminate Hd0.
    + intros l2 second' H2.
      destruct (distinct_produces ComparerUndefined H2) as (d' & Hd).
      destruct (toArray_Produces Hd) as (fuel & Hfuel).
      exists fuel. eexists. rewrite Hfuel. reflexivity.
Qed.

(** A failing selector or predicate shows when the pull reaches the
    element it fails on. *)
Lemma select_failure_surfaces : forall (selector : T -> Result T) (this this1 : Seq T) x e,
  pulls this (Ok (IterItem x)) this1 ->
  selector x = Throw e ->
  exists s', pulls (select (Some selector) this) (Throw e) s'.
Proof.
  intros selector this this1 x e [f Hx] Hsel. eexists.
  unfold select, selectMany, from_generator. apply pulls_generator_raise.
  exists (S f). simpl. rewrite Hx, Hsel. reflexivity.
Qed.

Lemma where_failure_surfaces : forall (f : T -> Result bool) (this this1 : Seq T) x e,
  pulls this (Ok (IterItem x)) this1 ->
  f x = Throw e ->
  exists s', pulls (where_ (Some (PredicateFn f)) this) (Throw e) s'.
Proof.
  intros f this this1 x e [fuel Hx] Hf. eexists.
  unfold where_, from_generator. apply pulls_generator_raise.
  exists (S fuel). simpl. rewrite Hx, Hf. reflexivity.
Qed.

Lemma cast_failure_surfaces : forall (this this1 : Seq T) x,
  pulls this (Ok (IterItem x)) this1 ->
  exists s', pulls (cast typeof_number number_item parseFloat_item parseInt_item cast_arm
                         "foo" this)
                   (Throw (ThrownString "Not supported type foo")) s'.
Proof.
  intros this this1 x Hx. eapply select_failure_surfaces; [exact Hx | reflexivity].
Qed.

(** C1, as the code has it.  Building a transformation operator pulls
    nothing from the upstream sequence: the new sequence is fresh and holds
    the upstream in the state it was given.  For every operator but [except]
    and [intersect] building cannot fail, whatever the callbacks would do;
    a failing callback shows at the pull that reaches its element.
    [except] and [intersect] read their second sequence to the end while
    they are built, so building them fails exactly when that reading
    fails, and succeeds whenever the second sequence is finite. *)
Theorem construction_defers_all_work :
  forall (call : OperatorCall) (this : Seq T),
  (materializes_second call = None ->
     exists s', (forall fuel, build fuel call this = Some (Ok s')) /\
                holds_untouched s' this /\ fresh s') /\
  (forall second, materializes_second call = Some second ->
     (forall fuel s', build fuel call this = Some (Ok s') ->
                      holds_untouched s' this /\ fresh s') /\
     (forall fuel e, build fuel call this = Some (Throw e) <->
                     exists d, toArray fuel (distinct ComparerUndefined (from second))
                               = Some (Throw e, d)) /\
     (forall l2 second', Produces (from second) l2 second' ->
                         exists fuel s', build fuel call this = Some (Ok s'))) /\
  (forall (selector : T -> Result T) this1 x e,
     pulls this (Ok (IterItem x)) this1 -> selector x = Throw e ->
     exists s', pulls (select (Some selector) this) (Throw e) s') /\
  (forall (f : T -> Result bool) this1 x e,
     pulls this (Ok (IterItem x)) this1 -> f x = Throw e ->
     exists s', pulls (where_ (Some (PredicateFn f)) this) (Throw e) s').
Proof.
  intros call this. split; [|split; [|split]].
  - apply lazy_construction.
  - intros second. apply eager_construction.
  - intros selector this1 x e. apply select_failure_surfaces.
  - intros f this1 x e. apply where_failure_surfaces.
Qed.

End Deferred.

(** The claim as it stands fails: [except] and [intersect] read the
    second sequence while they are built, and its failure comes out of the
    call that builds the operator, before anything is pulled. *)
Lemma except_and_intersect_fail_when_built :
  except 20 failing_second ComparerUndefined (from (SequenceArray [JsNull]))
    = Some (Throw (UserError 0)) /\
  intersect 20 failing_second ComparerUndefined (from (SequenceArray [JsNull]))
    = Some (Throw (UserError 0)) /\
  materializes_second (CallExcept failing_second ComparerUndefined) = Some failing_second /\
  materializes_second (CallIntersect failing_second ComparerUndefined)
    = Some failing_second.
Proof. repeat split; reflexivity. Qed.

(** A host with a single element value, on which every engine function is
    trivial: [where] built over a one-element array. *)
Lemma construction_defers_all_work_witness :
  materializes_second (CallWhere (T := unit) None) = None /\
  exists s',
    (forall fuel,
       @construct unit {| loose_eq := fun _ _ => true; strict_eq := fun _ _ => true |}
                  (fun _ _ => tt) (fun _ => None) (fun _ _ => Ok tt) (fun _ => None)
                  (fun _ => tt) (fun _ => Ok NaN) (fun _ => Ok NaN) (fun _ _ => Ok tt)
                  (fun _ n => n) fuel (CallWhere None) (from (SequenceArray [tt]))
       = Some (Ok s')) /\
    holds_untouched s' (from (SequenceArray [tt])) /\ fresh s'.
Proof.
  split; [reflexivity|].
  exact (proj1 (@construction_defers_all_work unit
                  {| loose_eq := fun _ _ => true; strict_eq := fun _ _ => true |}
                  (fun _ _ => tt) (fun _ => None) (fun _ _ => Ok tt) (fun _ => None)
                  (fun _ => tt) (fun _ => Ok NaN) (fun _ => Ok NaN) (fun _ _ => Ok tt)
                  (fun _ n => n) (CallWhere None) (from (SequenceArray [tt])))
               eq_refl).
Defined.

(** ** The stable sort *)
Unset Implicit Arguments.
Section StableSort.
Context {A : Type}.
Variable c : A -> A -> Z.

Lemma insert_sorted_perm : forall x l, Permutation (insert_sorted c x l) (x :: l).
Proof.
  intros x. induction l as [|y l IH]; simpl; [reflexivity|].
  destruct (c x y <=? 0); [reflexivity|].
  rewrite IH. apply perm_swap.
Qed.

Lemma stable_sort_perm : forall l, Permutation (stable_sort c l) l.
Proof.
  induction l as [|x l IH]; simpl; [reflexivity|].
  rewrite insert_sorted_perm. constructor. exact IH.
Qed.

Hypothesis Hc : consistent_comparer c.

Lemma comparer_refl : forall x, c x x = 0.
Proof.
  intros x. pose proof (comparer_antisym Hc x x) as Ha. lia.
Qed.

Lemma comparer_sym_eq : forall x y, c x y = 0 -> c y x = 0.
Proof.
  intros x y Hxy.
  pose proof (comparer_antisym Hc x y) as H1.
  pose proof (comparer_antisym Hc y x) as H2. lia.
Qed.

Lemma comparer_eq_lt : forall x y z, c x y = 0 -> c y z < 0 -> c x z < 0.
Proof.
  intros x y z Hxy Hyz.
  destruct (Z.lt_trichotomy (c x z) 0) as [Hlt | [Heq | Hgt]]; [exact Hlt | |].
  - pose proof (comparer_trans_eq Hc _ _ _ (comparer_sym_eq _ _ Hxy) Heq) as Hyz0. lia.
  - assert (Hzx : c z x < 0) by (apply (comparer_antisym Hc); lia).
    pose proof (comparer_trans_lt Hc _ _ _ Hyz Hzx) as Hyx.
    pose proof (comparer_sym_eq _ _ Hxy). lia.
Qed.

Lemma comparer_lt_eq : forall x y z, c x y < 0 -> c y z = 0 -> c x z < 0.
Proof.
  intros x y z Hxy Hyz.
  destruct (Z.lt_trichotomy (c x z) 0) as [Hlt | [Heq | Hgt]]; [exact Hlt | |].
  - pose proof (comparer_trans_eq Hc _ _ _ Heq (comparer_sym_eq _ _ Hyz)) as Hxy0. lia.
  - assert (Hzx : c z x < 0) by (apply (comparer_antisym Hc); lia).
    pose proof (comparer_trans_lt Hc _ _ _ Hzx Hxy) as Hzy.
    pose proof (comparer_sym_eq _ _ Hyz). lia.
Qed.

Lemma comparer_le_trans : forall x y z, c x y <= 0 -> c y z <= 0 -> c x z <= 0.
Proof.
  intros x y z Hxy Hyz.
  destruct (Z.eq_dec (c x y) 0) as [Hxy0 | Hxy0];
    destruct (Z.eq_dec (c y z) 0) as [Hyz0 | Hyz0].
  - rewrite (comparer_trans_eq Hc _ _ _ Hxy0 Hyz0). lia.
  - assert (c x z < 0) by (apply (comparer_eq_lt x y z); [exact Hxy0 | lia]). lia.
  - assert (c x z < 0) by (apply (comparer_lt_eq x y z); [lia | exact Hyz0]). lia.
  - assert (c x z < 0) by (apply (comparer_trans_lt Hc x y z); lia). lia.
Qed.

Lemma insert_sorted_sorted : forall x l,
  StronglySorted (fun a b => c a b <= 0) l ->
  StronglySorted (fun a b => c a b <= 0) (insert_sorted c x l).
Proof.
  intros x. induction l as [|y l IH]; intros Hs; simpl.
  - constructor; constructor.
  - inversion Hs as [|? ? Hs' Hy]; subst.
    destruct (c x y <=? 0) eqn:E.
    + constructor; [exact Hs|]. constructor; [lia|].
      eapply Forall_impl; [|exact Hy]. intros z Hyz.
      apply (comparer_le_trans x y z); [lia | exact Hyz].
    + constructor; [apply IH; exact Hs'|].
      assert (Hyx : c y x <= 0).
      { assert (c y x < 0) by (apply (comparer_antisym Hc); lia). lia. }
      apply (@Permutation_Forall A _ (x :: l)).
      * symmetry. apply insert_sorted_perm.
      * constructor; [exact Hyx | exact Hy].
Qed.

Lemma stable_sort_sorted : forall l,
  StronglySorted (fun a b => c a b <= 0) (stable_sort c l).
Proof.
  induction l as [|x l IH]; simpl; [constructor|].
  apply insert_sorted_sorted. exact IH.
Qed.

(** Inserting does not move an element past one it ties with. *)
Lemma insert_sorted_stable : forall a x l,
  filter (fun z => c a z =? 0) (insert_sorted c x l)
  = filter (fun z => c a z =? 0) (x :: l).
Proof.
  intros a x. induction l as [|y l IH]; simpl; [reflexivity|].
  destruct (c x y <=? 0) eqn:E; [reflexivity|].
  simpl. rewrite IH. simpl.
  destruct (c a x =? 0) eqn:Eax; destruct (c a y =? 0) eqn:Eay; try reflexivity.
  apply Z.eqb_eq in Eax. apply Z.eqb_eq in Eay.
  pose proof (comparer_trans_eq Hc _ _ _ (comparer_sym_eq _ _ Eax) Eay) as Hxy. lia.
Qed.

Lemma stable_sort_stable : forall a l,
  filter (fun z => c a z =? 0) (stable_sort c l) = filter (fun z => c a z =? 0) l.
Proof.
  intros a. induction l as [|x l IH]; simpl; [reflexivity|].
  rewrite insert_sorted_stable. simpl. rewrite IH. reflexivity.
Qed.

End StableSort.

(** ** [orderBy] and [thenBy] *)
Section OrderingLemmas.
Context {T : Type}.

Lemma array_map_pure : forall (A B : Type) (f : A -> Result B) (g : A -> B) l,
  (forall x, f x = Ok (g x)) -> array_map f l = Ok (map g l).
Proof.
  intros A B f g l Hf. induction l as [|x l IH]; simpl; [reflexivity|].
  rewrite Hf, IH. reflexivity.
Qed.

Lemma sort_insert_pure : forall (A : Type) (cmp : A -> A -> Result Z) (c : A -> A -> Z) x l,
  (forall a b, cmp a b = Ok (c a b)) ->
  sort_insert cmp x l = Ok (insert_sorted c x l).
Proof.
  intros A cmp c x l Hcmp. induction l as [|y l IH]; simpl; [reflexivity|].
  rewrite Hcmp. destruct (c x y <=? 0); [reflexivity|]. rewrite IH. reflexivity.
Qed.

Lemma array_sort_pure : forall (A : Type) (cmp : A -> A -> Result Z) (c : A -> A -> Z) l,
  (forall a b, cmp a b = Ok (c a b)) ->
  array_sort cmp l = Ok (stable_sort c l).
Proof.
  intros A cmp c l Hcmp. induction l as [|x l IH]; simpl; [reflexivity|].
  rewrite IH. apply sort_insert_pure. exact Hcmp.
Qed.

(** Sorting the decorated pairs on their keys and dropping the keys is
    sorting the values by their keys. *)
Lemma undecorate_insert : forall (U : Type) (k : T -> U) (c : U -> U -> Z) x L,
  Forall (fun p => fst p = k (snd p)) L ->
  map snd (insert_sorted (fun p q => c (fst p) (fst q)) (k x, x) L)
  = insert_sorted (fun a b => c (k a) (k b)) x (map snd L).
Proof.
  intros U k c x L HL. induction HL as [|[ky y] L Hy HL IH]; simpl; [reflexivity|].
  simpl in Hy. subst ky.
  destruct (c (k x) (k y) <=? 0); simpl; [reflexivity|].
  rewrite IH. reflexivity.
Qed.

Lemma undecorate_sort : forall (U : Type) (k : T -> U) (c : U -> U -> Z) l,
  Forall (fun p => fst p = k (snd p))
         (stable_sort (fun p q => c (fst p) (fst q)) (map (fun x => (k x, x)) l)) /\
  map snd (stable_sort (fun p q => c (fst p) (fst q)) (map (fun x => (k x, x)) l))
  = stable_sort (fun a b => c (k a) (k b)) l.
Proof.
  intros U k c. induction l as [|x l [IHf IHm]]; simpl; [split; [constructor | reflexivity]|].
  split.
  - apply (@Permutation_Forall _ _ ((k x, x) ::
             stable_sort (fun p q => c (fst p) (fst q)) (map (fun x => (k x, x)) l))).
    + symmetry. apply insert_sorted_perm.
    + constructor; [reflexivity | exact IHf].
  - rewrite undecorate_insert by exact IHf. rewrite IHm. reflexivity.
Qed.

Lemma sorted_values_pure : forall (U : Type) (selector : T -> Result U)
  (comparer : Comparer U) (k : T -> U) (c : U -> U -> Z) items,
  (forall x, selector x = Ok (k x)) ->
  (forall a b, comparer a b = Ok (c a b)) ->
  sorted_values selector comparer items
  = Ok (stable_sort (fun a b => c (k a) (k b)) items).
Proof.
  intros U selector comparer k c items Hsel Hcmp. unfold sorted_values.
  rewrite (array_map_pure _ _ _ (fun x => (k x, x))).
  2:{ intros x. rewrite Hsel. reflexivity. }
  rewrite (array_sort_pure _ _ (fun p q => c (fst p) (fst q))).
  2:{ intros a b. apply Hcmp. }
  rewrite (proj2 (undecorate_sort U k c items)). reflexivity.
Qed.

Lemma new_OrderedEnumerable_ordered : forall (U : Type) `{JsRelational U}
  (selector : T -> Result U) (comparer : option (Comparer U))
  (k : T -> U) (c : U -> U -> Z) (seq : Seq T) l seq',
  (forall x, selector x = Ok (k x)) ->
  (forall a b, toComparerSafe comparer a b = Ok (c a b)) ->
  Produces seq l seq' ->
  exists fuel o,
    new_OrderedEnumerable fuel seq selector comparer = Some (Ok o, seq') /\
    ordered_by l k c o.
Proof.
  intros U HU selector comparer k c seq l seq' Hsel Hcmp Hs.
  destruct (toArray_Produces Hs) as (fuel & Hfuel).
  exists fuel. eexists. unfold new_OrderedEnumerable. rewrite Hfuel.
  rewrite (sorted_values_pure U selector (toComparerSafe comparer) k c l Hsel Hcmp).
  split; [reflexivity|].
  repeat split; simpl; auto.
Qed.

Lemma thenBy_selector_pure : forall (U0 U1 : Type) (sel0 : T -> Result U0)
  (sel1 : T -> Result U1) k0 k1,
  (forall x, sel0 x = Ok (k0 x)) -> (forall x, sel1 x = Ok (k1 x)) ->
  forall x, thenBy_selector sel0 sel1 x = Ok (levels_key k0 k1 x).
Proof.
  intros U0 U1 sel0 sel1 k0 k1 H0 H1 x. unfold thenBy_selector.
  rewrite H0, H1. reflexivity.
Qed.

Lemma thenBy_comparer_pure : forall (U0 U1 : Type) (cmp0 : Comparer U0)
  (cmp1 : Comparer U1) c0 c1,
  (forall a b, cmp0 a b = Ok (c0 a b)) -> (forall a b, cmp1 a b = Ok (c1 a b)) ->
  forall a b, thenBy_comparer cmp0 cmp1 a b = Ok (levels_comparer c0 c1 a b).
Proof.
  intros U0 U1 cmp0 cmp1 c0 c1 H0 H1 a b. unfold thenBy_comparer, levels_comparer.
  rewrite H0. destruct (negb (0 =? c0 (level_0 a) (level_0 b))); [reflexivity|].
  rewrite H1. destruct (negb (0 =? c1 (level_1 a) (level_1 b))); reflexivity.
Qed.

Lemma thenBy_ordered : forall (U0 U1 : Type) `{JsRelational U1}
  (o : OrderedEnumerable T U0) l k0 c0
  (selector : T -> Result U1) (comparer : option (Comparer U1)) k1 c1,
  ordered_by l k0 c0 o ->
  (forall x, selector x = Ok (k1 x)) ->
  (forall a b, toComparerSafe comparer a b = Ok (c1 a b)) ->
  exists fuel o' s'',
    thenBy fuel selector comparer o = Some (Ok o', s'') /\
    ordered_by l (levels_key k0 k1) (levels_comparer c0 c1) o'.
Proof.
  intros U0 U1 HU o l k0 c0 selector comparer k1 c1 (Hitems & Hsel0 & Hcmp0 & _) Hsel Hcmp.
  destruct (Produces_from_array (_originalItems o)) as (s'' & Hs).
  destruct (new_OrderedEnumerable_ordered (Levels U0 U1)
              (thenBy_selector (_orderSelector o) selector)
              (Some (thenBy_comparer (_orderComparer o) (toComparerSafe comparer)))
              (levels_key k0 k1) (levels_comparer c0 c1) _ _ _
              (thenBy_selector_pure U0 U1 _ _ k0 k1 Hsel0 Hsel)
              (thenBy_comparer_pure U0 U1 _ _ c0 c1 Hcmp0 Hcmp) Hs)
    as (fuel & o' & Ho' & Hord).
  exists fuel, o', s''. split; [exact Ho'|]. rewrite <- Hitems. exact Hord.
Qed.

Lemma levels_comparer_sign : forall (U0 U1 : Type) (c0 : U0 -> U0 -> Z)
  (c1 : U1 -> U1 -> Z) (x y : Levels U0 U1),
  (levels_comparer c0 c1 x y < 0 <->
     c0 (level_0 x) (level_0 y) < 0 \/
     (c0 (level_0 x) (level_0 y) = 0 /\ c1 (level_1 x) (level_1 y) < 0)) /\
  (levels_comparer c0 c1 x y = 0 <->
     c0 (level_0 x) (level_0 y) = 0 /\ c1 (level_1 x) (level_1 y) = 0) /\
  (0 < levels_comparer c0 c1 x y <->
     0 < c0 (level_0 x) (level_0 y) \/
     (c0 (level_0 x) (level_0 y) = 0 /\ 0 < c1 (level_1 x) (level_1 y))).
Proof.
  intros U0 U1 c0 c1 x y. unfold levels_comparer.
  destruct (0 =? c0 (level_0 x) (level_0 y)) eqn:E0;
    destruct (0 =? c1 (level_1 x) (level_1 y)) eqn:E1; simpl; lia.
Qed.

Lemma levels_comparer_consistent : forall (U0 U1 : Type) (c0 : U0 -> U0 -> Z)
  (c1 : U1 -> U1 -> Z),
  consistent_comparer c0 -> consistent_comparer c1 ->
  consistent_comparer (levels_comparer c0 c1).
Proof.
  intros U0 U1 c0 c1 H0 H1. constructor.
  - intros x y.
    destruct (levels_comparer_sign U0 U1 c0 c1 x y) as (Hlt & _ & _).
    destruct (levels_comparer_sign U0 U1 c0 c1 y x) as (_ & _ & Hgt).
    rewrite Hlt, Hgt.
    pose proof (comparer_antisym H0 (level_0 x) (level_0 y)).
    pose proof (comparer_antisym H0 (level_0 y) (level_0 x)).
    pose proof (comparer_antisym H1 (level_1 x) (level_1 y)).
    pose proof (comparer_antisym H1 (level_1 y) (level_1 x)).
    lia.
  - intros x y z Hxy Hyz.
    apply (levels_comparer_sign U0 U1 c0 c1 x y) in Hxy.
    apply (levels_comparer_sign U0 U1 c0 c1 y z) in Hyz.
    apply (levels_comparer_sign U0 U1 c0 c1 x z).
    destruct Hxy as [Hxy | [Hxy0 Hxy1]]; destruct Hyz as [Hyz | [Hyz0 Hyz1]].
    + left. exact (comparer_trans_lt H0 _ _ _ Hxy Hyz).
    + left. exact (comparer_lt_eq c0 H0 _ _ _ Hxy Hyz0).
    + left. exact (comparer_eq_lt c0 H0 _ _ _ Hxy0 Hyz).
    + right. split; [exact (comparer_trans_eq H0 _ _ _ Hxy0 Hyz0)
                    | exact (comparer_trans_lt H1 _ _ _ Hxy1 Hyz1)].
  - intros x y z Hxy Hyz.
    apply (levels_comparer_sign U0 U1 c0 c1 x y) in Hxy.
    apply (levels_comparer_sign U0 U1 c0 c1 y z) in Hyz.
    apply (levels_comparer_sign U0 U1 c0 c1 x z).
    destruct Hxy as [Hxy0 Hxy1]. destruct Hyz as [Hyz0 Hyz1].
    split; [exact (comparer_trans_eq H0 _ _ _ Hxy0 Hyz0)
           | exact (comparer_trans_eq H1 _ _ _ Hxy1 Hyz1)].
Qed.

Lemma ordered_by_toArray : forall (U : Type) (o : OrderedEnumerable T U) l k c,
  ordered_by l k c o ->
  exists fuel,
    OrderedEnumerable_toArray fuel o
    = Some (Ok (stable_sort (fun a b => c (k a) (k b)) l)).
Proof.
  intros U o l k c (_ & _ & _ & Hseq).
  destruct (Produces_from_array (stable_sort (fun a b => c (k a) (k b)) l)) as (s' & Hs).
  destruct (toArray_Produces Hs) as (fuel & Hfuel).
  exists fuel. unfold OrderedEnumerable_toArray. rewrite Hseq, Hfuel. reflexivity.
Qed.

Lemma stable_sort_is_stable_sort : forall (U : Type) (k : T -> U) (c : U -> U -> Z) l,
  consistent_comparer c ->
  is_stable_sort_of k c l (stable_sort (fun a b => c (k a) (k b)) l).
Proof.
  intros U k c l Hc.
  assert (Hck : consistent_comparer (fun a b => c (k a) (k b))).
  { constructor.
    - intros x y. apply (comparer_antisym Hc).
    - intros x y z. apply (comparer_trans_lt Hc).
    - intros x y z. apply (comparer_trans_eq Hc). }
  split; [apply stable_sort_perm|]. split.
  - apply (stable_sort_sorted (fun a b => c (k a) (k b)) Hck).
  - intros a. unfold tied.
    apply (stable_sort_stable (fun a b => c (k a) (k b)) Hck).
Qed.

End OrderingLemmas.


Lemma toComparerSafe_default_Z : forall a b : Z,
  toComparerSafe None a b = Ok (Z_default_comparer a b).
Proof.
  intros a b. unfold toComparerSafe, Z_default_comparer. simpl.
  destruct (a =? b); [reflexivity|]. destruct (a <? b); [reflexivity|].
  destruct (b <? a); reflexivity.
Qed.

Lemma Z_default_comparer_consistent : consistent_comparer Z_default_comparer.
Proof.
  constructor; unfold Z_default_comparer.
  - intros x y. destruct (x =? y) eqn:E1; destruct (y =? x) eqn:E2;
      destruct (x <? y) eqn:E3; destruct (y <? x) eqn:E4; lia.
  - intros x y z. destruct (x =? y) eqn:E1; destruct (y =? z) eqn:E2;
      destruct (x =? z) eqn:E5; destruct (x <? y) eqn:E3; destruct (y <? x) eqn:E4;
      destruct (y <? z) eqn:E6; destruct (z <? y) eqn:E7; destruct (x <? z) eqn:E8;
      destruct (z <? x) eqn:E9; lia.
  - intros x y z. destruct (x =? y) eqn:E1; destruct (y =? z) eqn:E2;
      destruct (x =? z) eqn:E5; destruct (x <? y) eqn:E3; destruct (y <? x) eqn:E4;
      destruct (y <? z) eqn:E6; destruct (z <? y) eqn:E7; destruct (x <? z) eqn:E8;
      destruct (z <? x) eqn:E9; lia.
Qed.

Lemma toComparerSafe_default_numbers : forall a b : Z,
  toComparerSafe None (js_number_of a) (js_number_of b) = Ok (Z.sgn (a - b)).
Proof.
  intros a b. unfold toComparerSafe, js_number_of, num_of_Z.
  cbn [rel_strict_eq rel_lt rel_gt JsValue_relational js_strict_eq js_lt to_number
       num_eq num_lt].
  destruct (Qeq_bool (inject_Z a) (inject_Z b)) eqn:Heq.
  - apply Qeq_bool_iff in Heq. unfold Qeq in Heq. simpl in Heq.
    f_equal. symmetry. apply Z.sgn_null_iff. lia.
  - assert (Hne : a <> b).
    { intros ->. rewrite (proj2 (Qeq_bool_iff _ _) (Qeq_refl _)) in Heq. discriminate. }
    destruct (Qle_bool (inject_Z b) (inject_Z a)) eqn:Hba; cbn [negb].
    + apply Qle_bool_iff in Hba. rewrite <- Zle_Qle in Hba.
      destruct (Qle_bool (inject_Z a) (inject_Z b)) eqn:Hab; cbn [negb].
      * apply Qle_bool_iff in Hab. rewrite <- Zle_Qle in Hab. lia.
      * f_equal. symmetry. apply Z.sgn_pos_iff. lia.
    + f_equal. symmetry. apply Z.sgn_neg_iff.
      destruct (Z.le_gt_cases b a) as [Hle|Hlt]; [|lia].
      rewrite Zle_Qle in Hle. apply Qle_bool_iff in Hle. rewrite Hle in Hba. discriminate.
Qed.

Section OrderingTheorem.
Context {T : Type}.

(** C2. [orderBy] over a finite sequence, with a key selector and a
    consistent comparer that do not throw, takes the elements of the
    sequence as its snapshot and gives a stable sort of it: the same
    elements, in an order the comparer agrees with, tied elements in their
    original order.  [thenBy] on any ordered sequence over that snapshot,
    however many levels it already has, sorts the same snapshot again, by
    the pair of the previous key and the new key, with a comparer that
    answers as the previous comparer unless that one answers 0 and then as
    the new comparer (so it answers 0 only when both do); that comparer is
    consistent again, and the result is a stable sort of the snapshot.
    The comparer that [orderBy] and [thenBy] use when none is passed
    answers -1, 0 or 1 on two integer keys as the first is below, equal to
    or above the second. *)
Theorem orderBy_is_stable_and_thenBy_refines :
  forall (U : Type) (HU : JsRelational U) (s : Seq T) (l : list T) (s' : Seq T)
         (selector : T -> Result U) (comparer : option (Comparer U))
         (k : T -> U) (c : U -> U -> Z),
  Produces s l s' ->
  (forall x, selector x = Ok (k x)) ->
  (forall a b, toComparerSafe comparer a b = Ok (c a b)) ->
  consistent_comparer c ->
  (exists fuel o,
     orderBy fuel selector comparer s = Some (Ok o, s') /\
     ordered_by l k c o /\
     exists fuel' out,
       OrderedEnumerable_toArray fuel' o = Some (Ok out) /\
       is_stable_sort_of k c l out) /\
  (forall (U0 U1 : Type) (HU1 : JsRelational U1) (o0 : OrderedEnumerable T U0)
          (k0 : T -> U0) (c0 : U0 -> U0 -> Z)
          (selector1 : T -> Result U1) (comparer1 : option (Comparer U1))
          (k1 : T -> U1) (c1 : U1 -> U1 -> Z),
     ordered_by l k0 c0 o0 ->
     consistent_comparer c0 ->
     (forall x, selector1 x = Ok (k1 x)) ->
     (forall a b, toComparerSafe comparer1 a b = Ok (c1 a b)) ->
     consistent_comparer c1 ->
     exists fuel o1 s'',
       thenBy fuel selector1 comparer1 o0 = Some (Ok o1, s'') /\
       ordered_by l (levels_key k0 k1) (levels_comparer c0 c1) o1 /\
       consistent_comparer (levels_comparer c0 c1) /\
       (forall a b,
          levels_comparer c0 c1 a b
          = if c0 (level_0 a) (level_0 b) =? 0
            then c1 (level_1 a) (level_1 b)
            else c0 (level_0 a) (level_0 b)) /\
       (forall a b,
          levels_comparer c0 c1 a b = 0 <->
          c0 (level_0 a) (level_0 b) = 0 /\ c1 (level_1 a) (level_1 b) = 0) /\
       exists fuel' out,
         OrderedEnumerable_toArray fuel' o1 = Some (Ok out) /\
         is_stable_sort_of (levels_key k0 k1) (levels_comparer c0 c1) l out) /\
  (forall a b : Z,
     toComparerSafe None a b = Ok (Z.sgn (a - b)) /\
     toComparerSafe None (js_number_of a) (js_number_of b) = Ok (Z.sgn (a - b))).
Proof.
  intros U HU s l s' selector comparer k c Hs Hsel Hcmp Hc. split; [|split].
  - destruct (new_OrderedEnumerable_ordered U selector comparer k c s l s' Hsel Hcmp Hs)
      as (fuel & o & Ho & Hord).
    exists fuel, o. split; [exact Ho|]. split; [exact Hord|].
    destruct (ordered_by_toArray U o l k c Hord) as (fuel' & Hout).
    exists fuel'. eexists. split; [exact Hout|].
    apply stable_sort_is_stable_sort. exact Hc.
  - intros U0 U1 HU1 o0 k0 c0 selector1 comparer1 k1 c1 Hord0 Hc0 Hsel1 Hcmp1 Hc1.
    destruct (thenBy_ordered U0 U1 o0 l k0 c0 selector1 comparer1 k1 c1 Hord0 Hsel1 Hcmp1)
      as (fuel & o1 & s'' & Ho1 & Hord1).
    pose proof (levels_comparer_consistent U0 U1 c0 c1 Hc0 Hc1) as Hlev.
    exists fuel, o1, s''. split; [exact Ho1|]. split; [exact Hord1|].
    split; [exact Hlev|]. split; [|split].
    + intros a b. unfold levels_comparer.
      rewrite (Z.eqb_sym 0 (c0 (level_0 a) (level_0 b))).
      destruct (c0 (level_0 a) (level_0 b) =? 0); cbn [negb]; [|reflexivity].
      destruct (0 =? c1 (level_1 a) (level_1 b)) eqn:E; cbn [negb];
        [apply Z.eqb_eq in E; exact E | reflexivity].
    + intros a b. apply (levels_comparer_sign U0 U1 c0 c1 a b).
    + destruct (ordered_by_toArray (Levels U0 U1) o1 l _ _ Hord1) as (fuel' & Hout).
      exists fuel'. eexists. split; [exact Hout|].
      apply stable_sort_is_stable_sort. exact Hlev.
  - intros a b. split.
    + rewrite toComparerSafe_default_Z. unfold Z_default_comparer.
      destruct (Z.eqb_spec a b) as [Hab|Hab];
        [f_equal; symmetry; apply Z.sgn_null_iff; lia|].
      destruct (Z.ltb_spec a b) as [Hlt|Hge];
        [f_equal; symmetry; apply Z.sgn_neg_iff; lia|].
      destruct (Z.ltb_spec b a) as [Hgt|Hle];
        [f_equal; symmetry; apply Z.sgn_pos_iff; lia | lia].
    + apply toComparerSafe_default_numbers.
Qed.

End OrderingTheorem.

(** Two records with the same key [k] keep their order. *)
Lemma orderBy_is_stable_and_thenBy_refines_witness :
  (exists s', Produces (from (SequenceArray [(1, "a"%string); (1, "b"%string)]))
                       [(1, "a"%string); (1, "b"%string)] s') /\
  exists fuel o s',
    orderBy fuel (fun x : Z * string => Ok (fst x)) None
            (from (SequenceArray [(1, "a"%string); (1, "b"%string)])) = Some (Ok o, s') /\
    exists fuel' out,
      OrderedEnumerable_toArray fuel' o = Some (Ok out) /\
      is_stable_sort_of fst Z_default_comparer [(1, "a"%string); (1, "b"%string)] out.
Proof.
  destruct (Produces_from_array [(1, "a"%string); (1, "b"%string)]) as (s' & Hs).
  split; [exists s'; exact Hs|].
  destruct (proj1 (@orderBy_is_stable_and_thenBy_refines (Z * string) Z Z_relational
                     _ _ _ (fun x => Ok (fst x)) None fst Z_default_comparer Hs
                     (fun x => eq_refl) toComparerSafe_default_Z
                     Z_default_comparer_consistent))
    as (fuel & o & Ho & _ & Hout).
  exists fuel, o, s'. split; [exact Ho | exact Hout].
Defined.

Example orderBy_keeps_equal_keys_in_order :
  match orderBy 10 (fun x : Z * string => Ok (fst x)) None
                (from (SequenceArray [(1, "a"%string); (1, "b"%string)])) with
  | Some (Ok o, _) => OrderedEnumerable_toArray 10 o
  | _ => None
  end = Some (Ok [(1, "a"%string); (1, "b"%string)]).
Proof. reflexivity. Qed.

(** Three levels: by the first component, then the second, then the
    third; the last level only decides among full ties of the first two. *)
Example thenBy_three_levels :
  let items := [(2, 1, 0); (1, 2, 5); (1, 1, 7); (2, 1, -1); (1, 1, 3)] in
  match orderBy 20 (fun x : Z * Z * Z => Ok (fst (fst x))) None
                (from (SequenceArray items)) with
  | Some (Ok o0, _) =>
      match thenBy 20 (fun x : Z * Z * Z => Ok (snd (fst x))) None o0 with
      | Some (Ok o1, _) =>
          match thenBy 20 (fun x : Z * Z * Z => Ok (snd x)) None o1 with
          | Some (Ok o2, _) => OrderedEnumerable_toArray 20 o2
          | _ => None
          end
      | _ => None
      end
  | _ => None
  end = Some (Ok [(1, 1, 3); (1, 1, 7); (1, 2, 5); (2, 1, -1); (2, 1, 0)]).
Proof. reflexivity. Qed.

(** * Further properties of the sequence classes and their methods *)
Set Implicit Arguments.

(** ** The position a sequence keeps *)
Section Bookkeeping.
Context {T : Type}.

Lemma last_default_irrelevant : forall (A : Type) (l : list A) a d d',
  List.last (a :: l) d = List.last (a :: l) d'.
Proof.
  intros A l. induction l as [|b l IH]; intros a d d'; [reflexivity|].
  change (List.last (b :: l) d = List.last (b :: l) d'). apply IH.
Qed.

Lemma pull_bookkeeping : forall (s : Seq T) r s',
  pulls s r s' ->
  match r with
  | Ok (IterItem x) => index s' = index s + 1 /\ current s' = Some (IterItem x)
  | Ok IterDone => index s' = index s /\ current s' = Some IterDone
  | Throw _ => index s' = index s /\ current s' = current s
  end.
Proof.
  intros s r s' [fuel Hs]. destruct fuel as [|fuel]; [discriminate|].
  destruct s as [arr i c | it i c]; simpl in Hs.
  - destruct (i + 1 >=? Z.of_nat (List.length arr)).
    + injection Hs as <- <-. split; reflexivity.
    + destruct (lookupZ arr (i + 1)); [|discriminate].
      injection Hs as <- <-. split; reflexivity.
  - destruct (iterator_next fuel it) as [[[[v|]|e] it']|]; try discriminate;
      injection Hs as <- <-; split; reflexivity.
Qed.

(** X1. The getters [index] and [current] follow the pulls: after a run
    of pulls that gave the elements [l], [index] has grown by the number of
    elements and [current] is the last of them (or what it was, when
    nothing was pulled); the pull that signals done leaves [index] alone
    and makes [current] the done result; a pull that throws changes
    neither. *)
Theorem index_and_current_follow_the_pulls : forall (s : Seq T) l s',
  Advances s l s' ->
  index s' = index s + Z.of_nat (List.length l) /\
  current s' = List.last (map (fun x => Some (IterItem x)) l) (current s) /\
  (forall s'', pulls s' (Ok IterDone) s'' ->
     index s'' = index s' /\ current s'' = Some IterDone) /\
  (forall e s'', pulls s' (Throw e) s'' ->
     index s'' = index s' /\ current s'' = current s').
Proof.
  intros s l s' Ha.
  split; [|split; [|split]].
  - induction Ha as [s | s x s1 l s' Hx Hrest IH]; [simpl; lia|].
    destruct (pull_bookkeeping Hx) as [Hi _]. rewrite IH, Hi.
    simpl List.length. lia.
  - induction Ha as [s | s x s1 l s' Hx Hrest IH]; [reflexivity|].
    destruct (pull_bookkeeping Hx) as [_ Hc]. rewrite IH, Hc.
    destruct l as [|y l]; [reflexivity|].
    cbn [map].
    change (List.last (Some (IterItem y) :: map (fun x => Some (IterItem x)) l)
                      (Some (IterItem x))
            = List.last (Some (IterItem y) :: map (fun x => Some (IterItem x)) l)
                        (current s)).
    apply last_default_irrelevant.
  - intros s'' Hd. exact (pull_bookkeeping Hd).
  - intros e s'' He. exact (pull_bookkeeping He).
Qed.

End Bookkeeping.

(** Two pulls on a fresh sequence over three elements. *)
Lemma index_and_current_follow_the_pulls_witness :
  exists s', Advances (from (SequenceArray [5; 6; 7])) [5; 6] s' /\ index s' = 1.
Proof.
  exists (ArrayEnumerable [5; 6; 7] 1 (Some (IterItem 6))).
  assert (Ha : Advances (from (SequenceArray [5; 6; 7])) [5; 6]
                 (ArrayEnumerable [5; 6; 7] 1 (Some (IterItem 6)))).
  { eapply Advances_cons; [exists 1%nat; reflexivity|].
    eapply Advances_cons; [exists 1%nat; reflexivity|]. apply Advances_nil. }
  split; [exact Ha|].
  exact (proj1 (index_and_current_follow_the_pulls Ha)).
Defined.

(** ** [where], [selectMany], [select] and [flatten] *)
Section FilterMap.
Context {T : Type}.

Lemma where_frame_produces : forall (f : T -> bool) (s : Seq T) l s',
  Produces s l s' ->
  forall predicate, pure_predicate (toPredicateSafe predicate) f ->
  exists f', FrameProduces (WhereFrame predicate s) (filter f l) f'.
Proof.
  intros f. induction 1 as [s s' [g Hd] | s x s1 l s' [g Hx] Hrest IH];
    intros predicate Hp.
  - eexists. apply FrameProduces_return. exists (S g). simpl. rewrite Hd. reflexivity.
  - destruct (IH (Some (toPredicateSafe predicate)) Hp) as (f' & Hf'). exists f'.
    cbn [filter]. destruct (f x) eqn:Hfx.
    + eapply FrameProduces_yield; [|exact Hf'].
      exists (S g). cbn [resume]. rewrite Hx, (Hp x), Hfx. reflexivity.
    + apply FrameProduces_skip
        with (F1 := WhereFrame (Some (toPredicateSafe predicate)) s1); [|exact Hf'].
      intros r f'' [g2 H2]. exists (S (Nat.max g g2)). cbn [resume].
      rewrite (next_fuel_le (fuel' := Nat.max g g2) s (Nat.le_max_l g g2) Hx).
      rewrite (Hp x), Hfx. apply (resume_fuel_le (fuel := g2)); [lia | exact H2].
Qed.

(** X2. Over a finite sequence, [where(predicate)] gives exactly the
    elements the predicate accepts, in their order; without a predicate it
    gives every element. *)
Theorem where_is_filter : forall (predicate : option (Predicate T)) (f : T -> bool)
  (s : Seq T) l s',
  pure_predicate (toPredicateSafe predicate) f ->
  Produces s l s' ->
  (exists s1, Produces (where_ predicate s) (filter f l) s1) /\
  (exists s2, Produces (where_ None s) l s2).
Proof.
  intros predicate f s l s' Hp Hs. split.
  - destruct (where_frame_produces Hs predicate Hp) as (f' & Hf').
    eexists. unfold where_, from_generator. apply (Produces_generator Hf').
  - assert (Hall : pure_predicate (toPredicateSafe (@None (Predicate T))) (fun _ => true))
      by (intros x; reflexivity).
    destruct (where_frame_produces Hs None Hall) as (f' & Hf').
    replace (filter (fun _ : T => true) l) with l in Hf'.
    + eexists. unfold where_, from_generator. apply (Produces_generator Hf').
    + clear. induction l as [|x l IH]; [reflexivity|]. simpl. rewrite <- IH. reflexivity.
Qed.

Lemma selectMany_frame_produces : forall (selector : option (T -> Result (list T)))
  (g : T -> list T),
  (forall x, match selector with Some f => f x | None => Ok [x] end = Ok (g x)) ->
  forall (s : Seq T) l s', Produces s l s' ->
  forall SEQ, exists f',
    FrameProduces (SelectManyFrame selector SEQ s) (SEQ ++ flat_map g l) f'.
Proof.
  intros selector g Hsel.
  induction 1 as [s s' [k Hd] | s x s1 l s' [k Hx] Hrest IH];
    intros SEQ; induction SEQ as [|item SEQ IHSEQ].
  - eexists. apply FrameProduces_return. exists (S k). simpl. rewrite Hd. reflexivity.
  - destruct IHSEQ as (f' & Hf'). exists f'. simpl.
    eapply FrameProduces_yield; [|exact Hf']. exists 1%nat. reflexivity.
  - destruct (IH (g x)) as (f' & Hf'). exists f'. cbn [app flat_map].
    apply FrameProduces_skip with (F1 := SelectManyFrame selector (g x) s1); [|exact Hf'].
    intros r f'' [k2 H2]. exists (S (Nat.max k k2)). cbn [resume].
    rewrite (next_fuel_le (fuel' := Nat.max k k2) s (Nat.le_max_l k k2) Hx).
    rewrite (Hsel x). apply (resume_fuel_le (fuel := k2)); [lia | exact H2].
  - destruct IHSEQ as (f' & Hf'). exists f'.
    change ((item :: SEQ) ++ flat_map g (x :: l)) with (item :: SEQ ++ flat_map g (x :: l)).
    eapply FrameProduces_yield; [|exact Hf']. exists 1%nat. reflexivity.
Qed.

Lemma selectMany_produces : forall (selector : option (T -> Result (list T)))
  (g : T -> list T),
  (forall x, match selector with Some f => f x | None => Ok [x] end = Ok (g x)) ->
  forall (s : Seq T) l s', Produces s l s' ->
  exists s'', Produces (selectMany selector s) (flat_map g l) s''.
Proof.
  intros selector g Hsel s l s' Hs.
  destruct (selectMany_frame_produces selector g Hsel Hs []) as (f' & Hf').
  eexists. unfold selectMany, from_generator. apply (Produces_generator Hf').
Qed.

Lemma flat_map_singleton : forall (g : T -> T) l, flat_map (fun x => [g x]) l = map g l.
Proof.
  intros g l. induction l as [|x l IH]; [reflexivity|]. simpl. rewrite IH. reflexivity.
Qed.

Lemma select_produces : forall (selector : option (T -> Result T)) (g : T -> T),
  (forall x, match selector with Some f => f x | None => Ok x end = Ok (g x)) ->
  forall (s : Seq T) l s', Produces s l s' ->
  exists s'', Produces (select selector s) (map g l) s''.
Proof.
  intros selector g Hsel s l s' Hs. unfold select.
  rewrite <- flat_map_singleton.
  apply selectMany_produces with (s' := s'); [|exact Hs].
  intros x. specialize (Hsel x). destruct selector as [f|]; cbv beta iota zeta;
    [rewrite Hsel; reflexivity | injection Hsel as <-; reflexivity].
Qed.

(** X3. With a selector that does not throw, [select] maps the
    elements one by one; two [select]s in a row give what one [select] with
    the composed selector gives; and [select()] without a selector gives
    the elements unchanged. *)
Theorem select_maps_and_composes : forall (f g : T -> Result T) (f' g' : T -> T)
  (s : Seq T) l s',
  (forall x, f x = Ok (f' x)) ->
  (forall x, g x = Ok (g' x)) ->
  Produces s l s' ->
  (exists s1, Produces (select (Some f) s) (map f' l) s1) /\
  (exists s2, Produces (select (Some g) (select (Some f) s))
                       (map (fun x => g' (f' x)) l) s2) /\
  (exists s3, Produces (select (Some (fun x => match f x with
                                               | Ok y => g y
                                               | Throw e => Throw e
                                               end)) s)
                       (map (fun x => g' (f' x)) l) s3) /\
  (exists s4, Produces (select None s) l s4).
Proof.
  intros f g f' g' s l s' Hf Hg Hs.
  destruct (select_produces (Some f) f' Hf Hs) as (s1 & H1).
  split; [exists s1; exact H1|]. split; [|split].
  - rewrite <- (map_map f' g'). apply select_produces with (s' := s1); [exact Hg | exact H1].
  - apply select_produces with (s' := s'); [|exact Hs].
    intros x. rewrite (Hf x). apply Hg.
  - assert (Hid : exists s4, Produces (select None s) (map (fun x => x) l) s4)
      by (apply select_produces with (s' := s'); [intros x; reflexivity | exact Hs]).
    rewrite map_id in Hid. exact Hid.
Qed.

(** X4. With a selector that does not throw, [selectMany] gives the
    elements of the selected arrays one after the other, and without a
    selector the elements themselves; [flatten] opens the elements that are
    sequences, by one level, and keeps the others. *)
Theorem selectMany_concatenates : forall (selector : T -> Result (list T))
  (g : T -> list T) (isSequence_items : T -> option (list T)) (s : Seq T) l s',
  (forall x, selector x = Ok (g x)) ->
  Produces s l s' ->
  (exists s1, Produces (selectMany (Some selector) s) (flat_map g l) s1) /\
  (exists s2, Produces (selectMany None s) l s2) /\
  (exists s3, Produces (flatten isSequence_items s)
                       (flat_map (fun x => match isSequence_items x with
                                           | Some items => items
                                           | None => [x]
                                           end) l) s3).
Proof.
  intros selector g isSequence_items s l s' Hsel Hs. split; [|split].
  - apply selectMany_produces with (s' := s'); [exact Hsel | exact Hs].
  - assert (Hid : exists s2, Produces (selectMany None s) (flat_map (fun x => [x]) l) s2)
      by (apply selectMany_produces with (s' := s'); [intros x; reflexivity | exact Hs]).
    rewrite (flat_map_singleton (fun x => x)), map_id in Hid. exact Hid.
  - unfold flatten. apply selectMany_produces with (s' := s'); [|exact Hs].
    intros x. cbn beta iota. destruct (isSequence_items x); reflexivity.
Qed.

End FilterMap.

(** The positive numbers of an array of three. *)
Lemma where_is_filter_witness :
  pure_predicate (toPredicateSafe (Some (PredicateFn (fun x : Z => Ok (0 <? x)))))
                 (fun x => 0 <? x) /\
  (exists s', Produces (from (SequenceArray [1; -2; 3])) [1; -2; 3] s') /\
  exists s1, Produces (where_ (Some (PredicateFn (fun x : Z => Ok (0 <? x))))
                              (from (SequenceArray [1; -2; 3]))) [1; 3] s1.
Proof.
  assert (Hp : pure_predicate (toPredicateSafe (Some (PredicateFn (fun x : Z => Ok (0 <? x)))))
                              (fun x => 0 <? x)) by (intros x; reflexivity).
  destruct (Produces_from_array [1; -2; 3]) as (s' & Hs).
  split; [exact Hp|]. split; [exists s'; exact Hs|].
  exact (proj1 (where_is_filter (Some (PredicateFn (fun x : Z => Ok (0 <? x)))) Hp Hs)).
Defined.

(** Doubling, then adding one. *)
Lemma select_maps_and_composes_witness :
  (forall x : Z, Ok (2 * x) = Ok (2 * x)) /\
  (forall x : Z, Ok (x + 1) = Ok (x + 1)) /\
  (exists s', Produces (from (SequenceArray [1; 2; 3])) [1; 2; 3] s') /\
  exists s2, Produces (select (Some (fun x => Ok (x + 1)))
                         (select (Some (fun x => Ok (2 * x)))
                                 (from (SequenceArray [1; 2; 3]))))
                      [3; 5; 7] s2.
Proof.
  destruct (Produces_from_array [1; 2; 3]) as (s' & Hs).
  split; [intros x; reflexivity|]. split; [intros x; reflexivity|].
  split; [exists s'; exact Hs|].
  exact (proj1 (proj2 (select_maps_and_composes
                         (fun x => Ok (2 * x)) (fun x => Ok (x + 1))
                         (fun x => 2 * x) (fun x => x + 1)
                         (fun x => eq_refl) (fun x => eq_refl) Hs))).
Defined.

(** Every number followed by its negative. *)
Lemma selectMany_concatenates_witness :
  (forall x : Z, Ok [x; - x] = Ok [x; - x]) /\
  (exists s', Produces (from (SequenceArray [1; 2])) [1; 2] s') /\
  exists s1, Produces (selectMany (Some (fun x => Ok [x; - x])) (from (SequenceArray [1; 2])))
                      [1; -1; 2; -2] s1.
Proof.
  destruct (Produces_from_array [1; 2]) as (s' & Hs).
  split; [intros x; reflexivity|]. split; [exists s'; exact Hs|].
  exact (proj1 (selectMany_concatenates (fun x => Ok [x; - x]) (fun x => [x; - x])
                  (fun _ => None) (fun x => eq_refl) Hs)).
Defined.

(** ** [take], [skip], [takeWhile] and [skipWhile] *)
Section Prefixes.
Context {T : Type}.

Lemma take_frame_produces : forall (s : Seq T) l s',
  Produces s l s' ->
  forall c, exists f',
    FrameProduces (TakeWhileFrame (Some (CountdownClosure c)) s) (firstn (Z.to_nat c) l) f'.
Proof.
  induction 1 as [s s' [g Hd] | s x s1 l s' [g Hx] Hrest IH]; intros c.
  - eexists. rewrite firstn_nil. apply FrameProduces_return.
    exists (S g). simpl. rewrite Hd. reflexivity.
  - destruct (0 <? c) eqn:Hc.
    + apply Z.ltb_lt in Hc. destruct (IH (c - 1)) as (f' & Hf'). exists f'.
      replace (Z.to_nat c) with (S (Z.to_nat (c - 1))) by lia. cbn [firstn].
      eapply FrameProduces_yield; [|exact Hf'].
      exists (S g). simpl. rewrite Hx. apply Z.ltb_lt in Hc. rewrite Hc. reflexivity.
    + eexists. replace (Z.to_nat c) with 0%nat by (apply Z.ltb_ge in Hc; lia).
      apply FrameProduces_return. exists (S g). simpl. rewrite Hx, Hc. reflexivity.
Qed.

Lemma skipWhile_returning : forall (predicate : option (Predicate T)) (s : Seq T) l s',
  Produces s l s' ->
  exists f', FrameProduces (SkipWhileFrame predicate true s) l f'.
Proof.
  intros predicate. induction 1 as [s s' [g Hd] | s x s1 l s' [g Hx] Hrest IH].
  - eexists. apply FrameProduces_return. exists (S g). simpl. rewrite Hd. reflexivity.
  - destruct IH as (f' & Hf'). exists f'. eapply FrameProduces_yield; [|exact Hf'].
    exists (S g). simpl. rewrite Hx. reflexivity.
Qed.

Lemma skip_frame_produces : forall (s : Seq T) l s',
  Produces s l s' ->
  forall c, exists f',
    FrameProduces (SkipWhileFrame (Some (CountdownClosure c)) false s)
                  (skipn (Z.to_nat c) l) f'.
Proof.
  induction 1 as [s s' [g Hd] | s x s1 l s' [g Hx] Hrest IH]; intros c.
  - eexists. rewrite skipn_nil. apply FrameProduces_return.
    exists (S g). simpl. rewrite Hd. reflexivity.
  - destruct (0 <? c) eqn:Hc.
    + destruct (IH (c - 1)) as (f' & Hf'). exists f'.
      replace (Z.to_nat c) with (S (Z.to_nat (c - 1))) by (apply Z.ltb_lt in Hc; lia).
      cbn [skipn].
      apply FrameProduces_skip
        with (F1 := SkipWhileFrame (Some (CountdownClosure (c - 1))) false s1); [|exact Hf'].
      intros r f'' [g2 H2]. exists (S (Nat.max g g2)). cbn [resume].
      rewrite (next_fuel_le (fuel' := Nat.max g g2) s (Nat.le_max_l g g2) Hx).
      simpl. rewrite Hc. apply (resume_fuel_le (fuel := g2)); [lia | exact H2].
    + destruct (skipWhile_returning (Some (CountdownClosure (c - 1))) Hrest) as (f' & Hf').
      exists f'. replace (Z.to_nat c) with 0%nat by (apply Z.ltb_ge in Hc; lia).
      cbn [skipn]. eapply FrameProduces_yield; [|exact Hf'].
      exists (S g). simpl. rewrite Hx, Hc. reflexivity.
Qed.

(** X5. For every finite sequence and every count that is omitted,
    not a number, or an integer up to 2^53 in magnitude, [take] gives the
    first [n] elements and [skip] the others, so that together they give
    the sequence back; [n] is the count, 0 when it is negative and 1 when
    it is omitted or not a number. *)
Theorem take_and_skip_split_every_sequence : forall (count : CountArg) (s : Seq T) l s',
  safe_count count ->
  Produces s l s' ->
  exists s1 s2,
    Produces (take count s) (firstn (Z.to_nat (count_or_one count)) l) s1 /\
    Produces (skip count s) (skipn (Z.to_nat (count_or_one count)) l) s2 /\
    firstn (Z.to_nat (count_or_one count)) l ++ skipn (Z.to_nat (count_or_one count)) l = l.
Proof.
  intros count s l s' _ Hs.
  destruct (take_frame_produces Hs (count_or_one count)) as (f1 & H1).
  destruct (skip_frame_produces Hs (count_or_one count)) as (f2 & H2).
  eexists. eexists. split; [|split].
  - unfold take, takeWhile, from_generator. apply (Produces_generator H1).
  - unfold skip, skipWhile, from_generator. apply (Produces_generator H2).
  - apply firstn_skipn.
Qed.

Lemma take_frame_advances : forall l (s : Seq T) x s1,
  Advances s (l ++ [x]) s1 ->
  FrameProduces (TakeWhileFrame (Some (CountdownClosure (Z.of_nat (List.length l)))) s) l
                (TakeWhileFrame (Some (CountdownClosure (-1))) s1).
Proof.
  induction l as [|y l IH]; intros s x s1 Ha.
  - inversion Ha as [|s0 x0 s2 l0 s3 [g Hx] Hrest]; subst.
    inversion Hrest; subst.
    apply FrameProduces_return. exists (S g). simpl. rewrite Hx. reflexivity.
  - inversion Ha as [|s0 x0 s2 l0 s3 [g Hx] Hrest]; subst.
    eapply FrameProduces_yield; [|exact (IH _ _ _ Hrest)].
    exists (S g). cbn [resume]. rewrite Hx. cbn [toPredicateSafe call_predicate].
    replace (0 <? Z.of_nat (List.length (y :: l))) with true
      by (symmetry; apply Z.ltb_lt; simpl List.length; lia).
    replace (Z.of_nat (List.length (y :: l)) - 1) with (Z.of_nat (List.length l))
      by (simpl List.length; lia).
    reflexivity.
Qed.

(** X6. For a count [n] up to 2^53, [take(n)] ends after [n]
    elements whenever the upstream sequence can give [n + 1], an endless
    one included; by then it has pulled [n + 1] elements from the upstream
    sequence: the generator it leaves behind holds the upstream sequence
    one element further than the [n] it gave. *)
Theorem take_pulls_one_element_more : forall l (s : Seq T) x s1,
  safe_count (CountInt (Z.of_nat (List.length l))) ->
  Advances s (l ++ [x]) s1 ->
  Produces (take (CountInt (Z.of_nat (List.length l))) s) l
           (IteratorEnumerable
              (GeneratorObject true (TakeWhileFrame (Some (CountdownClosure (-1))) s1))
              (-1 + Z.of_nat (List.length l)) (Some IterDone)).
Proof.
  intros l s x s1 _ Ha. unfold take, takeWhile, from_generator.
  exact (Produces_generator (@take_frame_advances l s x s1 Ha) (-1) None).
Qed.

Lemma takeWhile_frame_produces : forall (f : T -> bool) (s : Seq T) l s',
  Produces s l s' ->
  forall predicate, pure_predicate (toPredicateSafe predicate) f ->
  exists f', FrameProduces (TakeWhileFrame predicate s) (take_while f l) f'.
Proof.
  intros f. induction 1 as [s s' [g Hd] | s x s1 l s' [g Hx] Hrest IH];
    intros predicate Hp.
  - eexists. apply FrameProduces_return. exists (S g). simpl. rewrite Hd. reflexivity.
  - cbn [take_while]. destruct (f x) eqn:Hfx.
    + destruct (IH (Some (toPredicateSafe predicate)) Hp) as (f' & Hf'). exists f'.
      eapply FrameProduces_yield; [|exact Hf'].
      exists (S g). cbn [resume]. rewrite Hx, (Hp x), Hfx. reflexivity.
    + eexists. apply FrameProduces_return.
      exists (S g). cbn [resume]. rewrite Hx, (Hp x), Hfx. reflexivity.
Qed.

Lemma skipWhile_frame_produces : forall (f : T -> bool) (s : Seq T) l s',
  Produces s l s' ->
  forall predicate, pure_predicate (toPredicateSafe predicate) f ->
  exists f', FrameProduces (SkipWhileFrame predicate false s) (drop_while f l) f'.
Proof.
  intros f. induction 1 as [s s' [g Hd] | s x s1 l s' [g Hx] Hrest IH];
    intros predicate Hp.
  - eexists. apply FrameProduces_return. exists (S g). simpl. rewrite Hd. reflexivity.
  - cbn [drop_while]. destruct (f x) eqn:Hfx.
    + destruct (IH (Some (toPredicateSafe predicate)) Hp) as (f' & Hf'). exists f'.
      apply FrameProduces_skip
        with (F1 := SkipWhileFrame (Some (toPredicateSafe predicate)) false s1);
        [|exact Hf'].
      intros r f'' [g2 H2]. exists (S (Nat.max g g2)). cbn [resume].
      rewrite (next_fuel_le (fuel' := Nat.max g g2) s (Nat.le_max_l g g2) Hx).
      rewrite (Hp x), Hfx. apply (resume_fuel_le (fuel := g2)); [lia | exact H2].
    + destruct (skipWhile_returning (Some (toPredicateSafe predicate)) Hrest) as (f' & Hf').
      exists f'. eapply FrameProduces_yield; [|exact Hf'].
      exists (S g). cbn [resume]. rewrite Hx, (Hp x), Hfx. reflexivity.
Qed.

Lemma take_while_drop_while : forall (f : T -> bool) l,
  take_while f l ++ drop_while f l = l.
Proof.
  intros f l. induction l as [|x l IH]; [reflexivity|].
  simpl. destruct (f x); [simpl; rewrite IH|]; reflexivity.
Qed.

(** X7. With a predicate that keeps no state, [takeWhile] gives the
    longest prefix whose elements all satisfy it and [skipWhile] gives the
    sequence from the first element that does not satisfy it, later
    elements that satisfy it included; together they give the sequence
    back. *)
Theorem takeWhile_and_skipWhile_split : forall (predicate : option (Predicate T))
  (f : T -> bool) (s : Seq T) l s',
  pure_predicate (toPredicateSafe predicate) f ->
  Produces s l s' ->
  exists s1 s2,
    Produces (takeWhile predicate s) (take_while f l) s1 /\
    Produces (skipWhile predicate s) (drop_while f l) s2 /\
    take_while f l ++ drop_while f l = l /\
    Forall (fun x => f x = true) (take_while f l) /\
    (forall x rest, drop_while f l = x :: rest -> f x = false).
Proof.
  intros predicate f s l s' Hp Hs.
  destruct (takeWhile_frame_produces Hs predicate Hp) as (f1 & H1).
  destruct (skipWhile_frame_produces Hs predicate Hp) as (f2 & H2).
  eexists. eexists. split; [|split; [|split; [|split]]].
  - unfold takeWhile, from_generator. apply (Produces_generator H1).
  - unfold skipWhile, from_generator. apply (Produces_generator H2).
  - apply take_while_drop_while.
  - clear. induction l as [|x l IH]; [constructor|].
    simpl. destruct (f x) eqn:Hfx; constructor; assumption.
  - clear. induction l as [|y l IH]; intros x rest Hd; [discriminate|].
    simpl in Hd. destruct (f y) eqn:Hfy; [exact (IH _ _ Hd)|].
    injection Hd as <- _. exact Hfy.
Qed.

End Prefixes.

(** Two of four elements, and the other two. *)
Lemma take_and_skip_split_every_sequence_witness :
  safe_count (CountInt 2) /\
  (exists s', Produces (from (SequenceArray [1; 2; 3; 4])) [1; 2; 3; 4] s') /\
  exists s1 s2,
    Produces (take (CountInt 2) (from (SequenceArray [1; 2; 3; 4]))) [1; 2] s1 /\
    Produces (skip (CountInt 2) (from (SequenceArray [1; 2; 3; 4]))) [3; 4] s2.
Proof.
  destruct (Produces_from_array [1; 2; 3; 4]) as (s' & Hs).
  assert (Hsafe : safe_count (CountInt 2)) by (unfold safe_count, safe_integer; lia).
  split; [exact Hsafe|]. split; [exists s'; exact Hs|].
  destruct (take_and_skip_split_every_sequence (CountInt 2) Hsafe Hs)
    as (s1 & s2 & H1 & H2 & _).
  exists s1, s2. split; [exact H1 | exact H2].
Defined.

(** [take(1)] over three elements leaves the array sequence at index 1. *)
Lemma take_pulls_one_element_more_witness :
  safe_count (CountInt (Z.of_nat (List.length [1]))) /\
  Advances (from (SequenceArray [1; 2; 3])) ([1] ++ [2])
           (ArrayEnumerable [1; 2; 3] 1 (Some (IterItem 2))) /\
  Produces (take (CountInt 1) (from (SequenceArray [1; 2; 3]))) [1]
           (IteratorEnumerable
              (GeneratorObject true
                 (TakeWhileFrame (Some (CountdownClosure (-1)))
                                 (ArrayEnumerable [1; 2; 3] 1 (Some (IterItem 2)))))
              0 (Some IterDone)).
Proof.
  assert (Ha : Advances (from (SequenceArray [1; 2; 3])) ([1] ++ [2])
                 (ArrayEnumerable [1; 2; 3] 1 (Some (IterItem 2)))).
  { eapply Advances_cons; [exists 1%nat; reflexivity|].
    eapply Advances_cons; [exists 1%nat; reflexivity|]. apply Advances_nil. }
  assert (Hsafe : safe_count (CountInt (Z.of_nat (List.length [1]))))
    by (unfold safe_count, safe_integer; simpl; lia).
  split; [exact Hsafe|]. split; [exact Ha|].
  exact (@take_pulls_one_element_more Z [1] _ 2 _ Hsafe Ha).
Defined.

(** The leading positive numbers, and the rest. *)
Lemma takeWhile_and_skipWhile_split_witness :
  pure_predicate (toPredicateSafe (Some (PredicateFn (fun x : Z => Ok (0 <? x)))))
                 (fun x => 0 <? x) /\
  (exists s', Produces (from (SequenceArray [1; -2; 3])) [1; -2; 3] s') /\
  exists s1 s2,
    Produces (takeWhile (Some (PredicateFn (fun x : Z => Ok (0 <? x))))
                        (from (SequenceArray [1; -2; 3]))) [1] s1 /\
    Produces (skipWhile (Some (PredicateFn (fun x : Z => Ok (0 <? x))))
                        (from (SequenceArray [1; -2; 3]))) [-2; 3] s2.
Proof.
  assert (Hp : pure_predicate (toPredicateSafe (Some (PredicateFn (fun x : Z => Ok (0 <? x)))))
                              (fun x => 0 <? x)) by (intros x; reflexivity).
  destruct (Produces_from_array [1; -2; 3]) as (s' & Hs).
  split; [exact Hp|]. split; [exists s'; exact Hs|].
  destruct (takeWhile_and_skipWhile_split (Some (PredicateFn (fun x : Z => Ok (0 <? x))))
              Hp Hs) as (s1 & s2 & H1 & H2 & _).
  exists s1, s2. split; [exact H1 | exact H2].
Defined.

(** ** [concat], [union] and [except] *)
Section Joins.
Context {T : Type} `{JsEquality T}.

Lemma concat_inner_produces : forall (sequences : option (list (Sequence T))) i this
  (SEQ : Seq T) la sa,
  Produces SEQ la sa ->
  forall L f',
  FrameProduces (ConcatArrayFrame sequences true (S i) None this) L f' ->
  FrameProduces (ConcatArrayFrame sequences true i (Some SEQ) this) (la ++ L) f'.
Proof.
  intros sequences i this.
  induction 1 as [s s' [g Hd] | s x s1 l s' [g Hx] Hrest IH]; intros L f' HL.
  - apply FrameProduces_skip with (F1 := ConcatArrayFrame sequences true (S i) None this);
      [|exact HL].
    intros r f'' [g2 H2]. exists (S (Nat.max g g2)). cbn [resume].
    rewrite (next_fuel_le (fuel' := Nat.max g g2) s (Nat.le_max_l g g2) Hd).
    apply (resume_fuel_le (fuel := g2)); [lia | exact H2].
  - simpl. eapply FrameProduces_yield; [|exact (IH _ _ HL)].
    exists (S g). cbn [resume]. rewrite Hx. reflexivity.
Qed.

Lemma skipn_cons_nth_error : forall (A : Type) i (l : list A) a rest,
  skipn i l = a :: rest -> nth_error l i = Some a /\ skipn (S i) l = rest.
Proof.
  intros A. induction i as [|i IH]; intros l a rest Hl.
  - simpl in Hl. subst l. split; reflexivity.
  - destruct l as [|b l]; [discriminate|]. simpl in Hl. exact (IH _ _ _ Hl).
Qed.

Lemma skipn_nil_nth_error : forall (A : Type) i (l : list A),
  skipn i l = [] -> nth_error l i = None.
Proof.
  intros A. induction i as [|i IH]; intros l Hl.
  - simpl in Hl. subst l. reflexivity.
  - destruct l as [|b l]; [reflexivity|]. simpl in Hl. exact (IH _ Hl).
Qed.

Lemma concat_rest_produces : forall (seqs : list (Sequence T)) this rest lists,
  Sequences_give rest lists ->
  forall i, skipn i seqs = rest ->
  exists f',
    FrameProduces (ConcatArrayFrame (Some seqs) true i None this) (List.concat lists) f'.
Proof.
  intros seqs this. induction 1 as [|a la rest lists (sa & Ha) Hrest IH]; intros i Hi.
  - eexists. apply FrameProduces_return. exists 1%nat. cbn [resume].
    rewrite (skipn_nil_nth_error _ _ Hi). reflexivity.
  - destruct (skipn_cons_nth_error _ _ Hi) as [Hnth Hskip].
    destruct (IH (S i) Hskip) as (f' & Hf'). exists f'. cbn [List.concat].
    apply FrameProduces_skip
      with (F1 := ConcatArrayFrame (Some seqs) true i (Some (from a)) this);
      [|exact (@concat_inner_produces (Some seqs) i this _ _ _ Ha _ _ Hf')].
    intros r f'' [g2 H2]. exists (S g2). cbn [resume]. rewrite Hnth. exact H2.
Qed.

Lemma concat_this_produces : forall (sequences : option (list (Sequence T)))
  (s : Seq T) l s',
  Produces s l s' ->
  forall L f',
  FrameProduces (ConcatArrayFrame sequences true 0%nat None s') L f' ->
  FrameProduces (ConcatArrayFrame sequences false 0%nat None s) (l ++ L) f'.
Proof.
  intros sequences.
  induction 1 as [s s' [g Hd] | s x s1 l s' [g Hx] Hrest IH]; intros L f' HL.
  - apply FrameProduces_skip with (F1 := ConcatArrayFrame sequences true 0%nat None s');
      [|exact HL].
    intros r f'' [g2 H2]. exists (S (Nat.max g g2)). cbn [resume].
    rewrite (next_fuel_le (fuel' := Nat.max g g2) s (Nat.le_max_l g g2) Hd).
    apply (resume_fuel_le (fuel := g2)); [lia | exact H2].
  - simpl. eapply FrameProduces_yield; [|exact (IH _ _ HL)].
    exists (S g). cbn [resume]. rewrite Hx. reflexivity.
Qed.

Lemma concat_produces : forall (args : list (Sequence T)) lists (s : Seq T) l s',
  Produces s l s' ->
  Sequences_give args lists ->
  exists s1, Produces (concat args s) (l ++ List.concat lists) s1.
Proof.
  intros args lists s l s' Hs Hargs.
  destruct (@concat_rest_produces args s' _ _ Hargs 0%nat eq_refl) as (f' & Hf').
  eexists. unfold concat, concatArray, from_generator.
  apply (Produces_generator (@concat_this_produces (Some args) _ _ _ Hs _ _ Hf')).
Qed.

(** X8. [concat] gives the elements of the sequence it is called on,
    then those of each argument in turn, each in its own order; an argument
    that is null or undefined counts as an empty sequence, and
    [concatArray] without an array of sequences gives the sequence
    itself. *)
Theorem concat_appends_its_arguments : forall (args : list (Sequence T)) lists
  (s : Seq T) l s',
  Produces s l s' ->
  Sequences_give args lists ->
  (exists s1, Produces (concat args s) (l ++ List.concat lists) s1) /\
  (exists s2, Produces (concat (SequenceNull :: args) s) (l ++ List.concat lists) s2) /\
  (exists s3, Produces (concatArray None s) l s3).
Proof.
  intros args lists s l s' Hs Hargs. split; [|split].
  - exact (concat_produces Hs Hargs).
  - assert (Hnull : Sequences_give (SequenceNull :: args) ([] :: lists)).
    { constructor; [|exact Hargs].
      destruct (Produces_from_array (@nil T)) as (sa & Hsa). exists sa. exact Hsa. }
    exact (concat_produces Hs Hnull).
  - assert (Hret : FrameProduces (ConcatArrayFrame None true 0%nat None s') []
                                 (ConcatArrayFrame None true 0%nat None s'))
      by (apply FrameProduces_return; exists 1%nat; reflexivity).
    pose proof (@concat_this_produces None _ _ _ Hs _ _ Hret) as Hf. rewrite app_nil_r in Hf.
    eexists. unfold concatArray, from_generator. apply (Produces_generator Hf).
Qed.


Lemma except_frame_produces : forall (comparer : T -> T -> bool) second (s : Seq T) l s',
  Produces s l s' ->
  exists f', FrameProduces (ExceptFrame second comparer s)
                           (except_list comparer second l) f'.
Proof.
  intros comparer second.
  induction 1 as [s s' [g Hd] | s x s1 l s' [g Hx] Hrest IH].
  - eexists. apply FrameProduces_return. exists (S g). simpl. rewrite Hd. reflexivity.
  - destruct IH as (f' & Hf'). exists f'. unfold except_list. cbn [filter].
    destruct (existsb (fun secondItem => comparer x secondItem) second) eqn:Hfound;
      cbn [negb].
    + apply FrameProduces_skip with (F1 := ExceptFrame second comparer s1); [|exact Hf'].
      intros r f'' [g2 H2]. exists (S (Nat.max g g2)). cbn [resume].
      rewrite (next_fuel_le (fuel' := Nat.max g g2) s (Nat.le_max_l g g2) Hx).
      cbv zeta. rewrite Hfound. apply (resume_fuel_le (fuel := g2)); [lia | exact H2].
    + eapply FrameProduces_yield; [|exact Hf'].
      exists (S g). cbn [resume]. rewrite Hx. cbv zeta. rewrite Hfound. reflexivity.
Qed.

(** X10. For finite sequences, [except] is built without failure and
    gives the elements of the first sequence, every occurrence and in
    order, that equal under its comparer no element of the second sequence
    after the second was deduplicated with [==]; with the default
    comparer, when [==] is symmetric and transitive on the elements, these
    are the elements that equal no element of the second sequence. *)
Theorem except_removes_the_second_sequence : forall (comparer : EqualityComparerArg T)
  (second : Sequence T) l2 second' (this : Seq T) l1 this',
  Produces (from second) l2 second' ->
  Produces this l1 this' ->
  (exists fuel s s'',
     except fuel second comparer this = Some (Ok s) /\
     Produces s (except_list (toEqualityComparerSafe comparer)
                             (distinct_list (fun x y => loose_eq x y) [] l2) l1) s'') /\
  (symmetric_comparer (fun x y : T => loose_eq x y) ->
   transitive_comparer (fun x y : T => loose_eq x y) ->
   exists fuel s s'',
     except fuel second ComparerUndefined this = Some (Ok s) /\
     Produces s (except_list (fun x y => loose_eq x y) l2 l1) s'').
Proof.
  intros comparer second l2 second' this l1 this' H2 H1.
  destruct (distinct_produces ComparerUndefined H2) as (d' & Hd).
  destruct (toArray_Produces Hd) as (fuel & Hfuel).
  simpl toEqualityComparerSafe in Hfuel.
  split.
  - destruct (except_frame_produces (toEqualityComparerSafe comparer)
                (distinct_list (fun x y => loose_eq x y) [] l2) H1) as (f' & Hf').
    exists fuel. eexists. eexists. split.
    + unfold except. rewrite Hfuel. reflexivity.
    + unfold from_generator. apply (Produces_generator Hf').
  - intros Hsym Htrans.
    destruct (except_frame_produces (toEqualityComparerSafe ComparerUndefined)
                (distinct_list (fun x y => loose_eq x y) [] l2) H1) as (f' & Hf').
    exists fuel. eexists. eexists. split.
    + unfold except. rewrite Hfuel. reflexivity.
    + replace (except_list (fun x y => loose_eq x y) l2 l1)
        with (except_list (toEqualityComparerSafe ComparerUndefined)
                (distinct_list (fun x y => loose_eq x y) [] l2) l1).
      * unfold from_generator. apply (Produces_generator Hf').
      * unfold except_list. apply filter_ext. intros x. f_equal.
        apply (deduplication_is_harmless l2 x Hsym Htrans).
Qed.

End Joins.

(** An array, then an array and a missing sequence. *)
Lemma concat_appends_its_arguments_witness :
  (exists s', Produces (from (SequenceArray [1; 2])) [1; 2] s') /\
  Sequences_give [SequenceArray [3]; SequenceNull; SequenceArray [4; 5]] [[3]; []; [4; 5]] /\
  exists s1, Produces (concat [SequenceArray [3]; SequenceNull; SequenceArray [4; 5]]
                              (from (SequenceArray [1; 2])))
                      [1; 2; 3; 4; 5] s1.
Proof.
  destruct (Produces_from_array [1; 2]) as (s' & Hs).
  assert (Hargs : Sequences_give [SequenceArray [3]; SequenceNull; SequenceArray [4; 5]]
                                 [[3]; []; [4; 5]]).
  { constructor; [exact (Produces_from_array [3])|].
    constructor; [exact (Produces_from_array (@nil Z))|].
    constructor; [exact (Produces_from_array [4; 5])|]. constructor. }
  split; [exists s'; exact Hs|]. split; [exact Hargs|].
  exact (proj1 (concat_appends_its_arguments Hs Hargs)).
Defined.


(** The numbers 1, 2, 3, 2 without 2 and 4. *)
Lemma except_removes_the_second_sequence_witness :
  (exists s', Produces (from (SequenceArray (map js_number_of [2; 4])))
                       (map js_number_of [2; 4]) s') /\
  (exists s', Produces (from (SequenceArray (map js_number_of [1; 2; 3; 2])))
                       (map js_number_of [1; 2; 3; 2]) s') /\
  symmetric_comparer (fun x y : JsValue => loose_eq x y) /\
  transitive_comparer (fun x y : JsValue => loose_eq x y) /\
  exists fuel s s'',
    except fuel (SequenceArray (map js_number_of [2; 4])) ComparerUndefined
           (from (SequenceArray (map js_number_of [1; 2; 3; 2]))) = Some (Ok s) /\
    Produces s (map js_number_of [1; 3]) s''.
Proof.
  destruct (Produces_from_array (map js_number_of [2; 4])) as (s2 & H2).
  destruct (Produces_from_array (map js_number_of [1; 2; 3; 2])) as (s1 & H1).
  split; [exists s2; exact H2|]. split; [exists s1; exact H1|].
  split; [exact js_loose_eq_symmetric|]. split; [exact js_loose_eq_transitive|].
  exact (proj2 (@except_removes_the_second_sequence JsValue JsValue_equality
                  ComparerUndefined (SequenceArray (map js_number_of [2; 4]))
                  _ _ _ _ _ H2 H1)
               js_loose_eq_symmetric js_loose_eq_transitive).
Defined.

(** ** [intersperse] and [chunk] *)
Section InterspersedAndChunked.
Context {T : Type}.

Lemma intersperse_pending : forall (separators : list T) (this : Seq T) pending L f',
  FrameProduces (IntersperseFrame separators false [] this) L f' ->
  FrameProduces (IntersperseFrame separators false pending this) (pending ++ L) f'.
Proof.
  intros separators this pending L f' HL.
  induction pending as [|v pending IH]; [exact HL|].
  simpl. eapply FrameProduces_yield; [|exact IH]. exists 1%nat. reflexivity.
Qed.

Lemma intersperse_rest_produces : forall (separators : list T) (s : Seq T) l s',
  Produces s l s' ->
  exists f', FrameProduces (IntersperseFrame separators false [] s)
                           (flat_map (fun y => separators ++ [y]) l) f'.
Proof.
  intros separators.
  induction 1 as [s s' [g Hd] | s x s1 l s' [g Hx] Hrest IH].
  - eexists. apply FrameProduces_return. exists (S g). simpl. rewrite Hd. reflexivity.
  - destruct IH as (f' & Hf'). exists f'. cbn [flat_map].
    pose proof (intersperse_pending (separators := separators) (this := s1)) as Hpend.
    destruct (separators ++ [x]) as [|v pending] eqn:Hsep.
    + destruct separators; discriminate.
    + simpl. eapply FrameProduces_yield; [|exact (Hpend pending _ _ Hf')].
      exists (S g). cbn [resume]. rewrite Hx, Hsep. reflexivity.
Qed.

(** X11. [intersperse] gives the elements of a finite sequence with
    the separators, all of them and in the order given, between every two
    neighbours: none before the first element and none after the last;
    without separators it gives the sequence itself. *)
Theorem intersperse_puts_separators_between : forall (separators : list T)
  (s : Seq T) l s',
  Produces s l s' ->
  (exists s1, Produces (intersperse separators s) (intersperse_list separators l) s1) /\
  intersperse_list [] l = l /\
  List.length (intersperse_list separators l)
  = (List.length l + (List.length l - 1) * List.length separators)%nat.
Proof.
  intros separators s l s' Hs. split; [|split].
  - unfold intersperse, from_generator.
    inversion Hs as [s0 s0' [g Hd] | s0 x s1 l0 s0' [g Hx] Hrest]; subst.
    + assert (Hf : FrameProduces (IntersperseFrame separators true [] s) []
                                 (IntersperseFrame separators true [] s'))
        by (apply FrameProduces_return; exists (S g); simpl; rewrite Hd; reflexivity).
      eexists. apply (Produces_generator Hf).
    + destruct (intersperse_rest_produces separators Hrest) as (f' & Hf').
      assert (Hf0 : FrameProduces (IntersperseFrame separators true [] s)
                                  (intersperse_list separators (x :: l0)) f').
      { cbn [intersperse_list]. eapply FrameProduces_yield; [|exact Hf'].
        exists (S g). cbn [resume]. rewrite Hx. reflexivity. }
      eexists. apply (Produces_generator Hf0).
  - clear Hs. destruct l as [|x l]; [reflexivity|]. simpl. f_equal.
    induction l as [|y l IH]; [reflexivity|]. simpl. rewrite IH. reflexivity.
  - clear Hs. destruct l as [|x l]; [reflexivity|]. cbn [intersperse_list List.length].
    assert (Hlen : List.length (flat_map (fun y => separators ++ [y]) l)
                   = (List.length l + List.length l * List.length separators)%nat).
    { induction l as [|y l IH]; [reflexivity|].
      cbn [flat_map]. rewrite !length_app, IH. simpl List.length. lia. }
    rewrite Hlen. lia.
Qed.

Lemma getNextChunkArray_fuel_le : forall fuel fuel' size ARR (s : Seq T) r,
  (fuel <= fuel')%nat -> getNextChunkArray fuel size ARR s = Some r ->
  getNextChunkArray fuel' size ARR s = Some r.
Proof.
  intros fuel fuel' size ARR s r Hle. induction Hle as [|m Hle IH]; intro Hs; [exact Hs|].
  apply (fuel_monotone_all m). auto.
Qed.

Lemma getNextChunkArray_Produces : forall (s : Seq T) l s',
  Produces s l s' ->
  forall size ARR, exists fuel s1,
    getNextChunkArray fuel size ARR s = Some (Ok (fst (next_chunk size ARR l)), s1) /\
    Produces s1 (snd (next_chunk size ARR l)) s'.
Proof.
  induction 1 as [s s' [g Hd] | s x s1 l s' [g Hx] Hrest IH]; intros size ARR.
  - exists (S g), s'. split; [simpl; rewrite Hd; reflexivity|].
    apply Produces_done. exists g. exact (proj1 (done_pull_answers g) _ _ Hd).
  - cbn [next_chunk]. cbv zeta.
    destruct (Z.of_nat (List.length (ARR ++ [x])) >=? size) eqn:Hfull.
    + exists (S g), s1. split; [|exact Hrest].
      simpl. rewrite Hx. cbv zeta. rewrite Hfull. reflexivity.
    + destruct (IH size (ARR ++ [x])) as (g2 & s2 & H2 & Hp2).
      exists (S (Nat.max g g2)), s2. split; [|exact Hp2].
      cbn [getNextChunkArray].
      rewrite (next_fuel_le (fuel' := Nat.max g g2) s (Nat.le_max_l g g2) Hx).
      cbv zeta. rewrite Hfull.
      apply (getNextChunkArray_fuel_le (fuel := g2)); [lia | exact H2].
Qed.

Lemma next_chunk_facts : forall (size : Z) (l ARR : list T),
  ARR ++ l = fst (next_chunk size ARR l) ++ snd (next_chunk size ARR l) /\
  (List.length (snd (next_chunk size ARR l)) <= List.length l)%nat /\
  (l <> [] -> fst (next_chunk size ARR l) <> [] /\
              (List.length (snd (next_chunk size ARR l)) < List.length l)%nat) /\
  (l = [] -> fst (next_chunk size ARR l) = ARR) /\
  ((List.length ARR < Z.to_nat (Z.max 1 size))%nat ->
   (List.length (fst (next_chunk size ARR l)) <= Z.to_nat (Z.max 1 size))%nat /\
   (snd (next_chunk size ARR l) <> [] ->
    List.length (fst (next_chunk size ARR l)) = Z.to_nat (Z.max 1 size))).
Proof.
  intros size. induction l as [|x l IH]; intros ARR.
  - simpl. rewrite app_nil_r. repeat split; try lia; try congruence.
  - cbn [next_chunk]. cbv zeta.
    destruct (Z.of_nat (List.length (ARR ++ [x])) >=? size) eqn:Hfull.
    + cbn [fst snd]. rewrite <- app_assoc. split; [reflexivity|].
      split; [simpl; lia|]. split; [|split; [discriminate|]].
      * intros _. split; [destruct ARR; discriminate | simpl; lia].
      * intros Hlen. rewrite length_app in *. simpl List.length in *.
        apply Z.geb_le in Hfull. split; [lia|]. intros _. lia.
    + destruct (IH (ARR ++ [x])) as (Happ & Hle & Hne & _ & Hsize).
      rewrite <- app_assoc in Happ. split; [exact Happ|].
      split; [simpl; lia|]. split; [|split; [discriminate|]].
      * intros _. split; [|simpl; lia].
        destruct l as [|y l]; [|exact (proj1 (Hne ltac:(discriminate)))].
        simpl. destruct ARR; discriminate.
      * intros Hlen. apply Hsize. rewrite length_app in *. simpl List.length in *.
        rewrite Z.geb_leb in Hfull. apply Z.leb_gt in Hfull. lia.
Qed.

Lemma chunk_frame_produces : forall (as_item : list T -> T) size n (s : Seq T) l s',
  (List.length l < n)%nat ->
  Produces s l s' ->
  exists f', FrameProduces (ChunkFrame as_item size s)
                           (map as_item (chunks_within n size l)) f'.
Proof.
  intros as_item size. induction n as [|n IH]; intros s l s' Hn Hs; [lia|].
  destruct (getNextChunkArray_Produces Hs size []) as (g & s1 & Hg & H1).
  destruct (next_chunk_facts size l []) as (_ & Hle & Hne & Hnil & _).
  cbn [chunks_within].
  destruct (next_chunk size [] l) as [ARR rest]. cbn [fst snd] in *.
  destruct (0 <? Z.of_nat (List.length ARR)) eqn:Hpos.
  - assert (Hrest : (List.length rest < n)%nat).
    { destruct l as [|x l]; [|destruct (Hne ltac:(discriminate)); simpl in *; lia].
      rewrite (Hnil eq_refl) in Hpos. discriminate. }
    destruct (IH s1 rest s' Hrest H1) as (f' & Hf'). exists f'.
    cbn [map]. eapply FrameProduces_yield; [|exact Hf'].
    exists (S g). cbn [resume]. rewrite Hg, Hpos. reflexivity.
  - eexists. apply FrameProduces_return.
    exists (S g). cbn [resume]. rewrite Hg, Hpos. reflexivity.
Qed.

Lemma chunks_within_facts : forall (size : Z) n (l : list T),
  (List.length l < n)%nat ->
  List.concat (chunks_within n size l) = l /\
  Forall (fun c => (1 <= List.length c <= Z.to_nat (Z.max 1 size))%nat)
         (chunks_within n size l) /\
  Forall (fun c => List.length c = Z.to_nat (Z.max 1 size))
         (removelast (chunks_within n size l)) /\
  (l <> [] -> chunks_within n size l <> []).
Proof.
  intros size. induction n as [|n IH]; intros l Hn; [lia|].
  destruct (next_chunk_facts size l []) as (Happ & Hle & Hne & Hnil & Hsize).
  assert (Hm : (List.length (@nil T) < Z.to_nat (Z.max 1 size))%nat) by (simpl; lia).
  destruct (Hsize Hm) as [Hmax Hfull]. clear Hsize Hm.
  cbn [chunks_within].
  destruct (next_chunk size [] l) as [ARR rest]. cbn [fst snd] in *.
  destruct (0 <? Z.of_nat (List.length ARR)) eqn:Hpos.
  - apply Z.ltb_lt in Hpos.
    assert (Hrest : (List.length rest < n)%nat).
    { destruct l as [|x l]; [|destruct (Hne ltac:(discriminate)); simpl in *; lia].
      rewrite (Hnil eq_refl) in Hpos. simpl in Hpos. lia. }
    destruct (IH rest Hrest) as (Hcat & Hall & Hinit & Hnonempty).
    split; [|split; [|split]].
    + cbn [List.concat]. rewrite Hcat. symmetry. exact Happ.
    + constructor; [lia | exact Hall].
    + destruct rest as [|y rest].
      * destruct n as [|n']; [lia|]. simpl. constructor.
      * specialize (Hnonempty ltac:(discriminate)).
        destruct (chunks_within n size (y :: rest)) as [|c cs] eqn:Hc; [congruence|].
        change (removelast (ARR :: c :: cs)) with (ARR :: removelast (c :: cs)).
        constructor; [apply Hfull; discriminate | exact Hinit].
    + intros _. discriminate.
  - apply Z.ltb_ge in Hpos.
    assert (HARR : ARR = []) by (destruct ARR; [reflexivity | simpl in Hpos; lia]).
    subst ARR.
    assert (Hl : l = []).
    { destruct l as [|x l]; [reflexivity|]. destruct (Hne ltac:(discriminate)) as [Hc _].
      congruence. }
    subst l. split; [reflexivity|]. split; [constructor|]. split; [constructor|].
    intros Hc. congruence.
Qed.

(** X12. For a size that is omitted, not a number, or an integer up
    to 2^53 in magnitude, [chunk(size)] cuts a finite sequence into arrays
    that, joined, are the sequence: every array has at least one element
    and at most [size], all but the last have exactly [size]; a size below
    1 counts as 1, as does a size that is omitted or not a number. *)
Theorem chunk_cuts_into_arrays : forall (sequence_item : list T -> option (T -> Result T) -> T)
  (size : CountArg) (s : Seq T) l s',
  safe_count size ->
  Produces s l s' ->
  exists chunks s1,
    Produces (chunk sequence_item size s)
             (map (fun ARR => sequence_item ARR None) chunks) s1 /\
    List.concat chunks = l /\
    Forall (fun c => (1 <= List.length c <= Z.to_nat (Z.max 1 (count_or_one size)))%nat)
           chunks /\
    Forall (fun c => List.length c = Z.to_nat (Z.max 1 (count_or_one size)))
           (removelast chunks).
Proof.
  intros sequence_item size s l s' _ Hs.
  destruct (chunk_frame_produces (fun ARR => sequence_item ARR None) (count_or_one size)
              (Nat.lt_succ_diag_r (List.length l)) Hs) as (f' & Hf').
  destruct (@chunks_within_facts (count_or_one size) (S (List.length l)) l
              (Nat.lt_succ_diag_r (List.length l)))
    as (Hcat & Hall & Hinit & _).
  exists (chunk_list (count_or_one size) l). eexists.
  split; [|split; [exact Hcat | split; [exact Hall | exact Hinit]]].
  unfold chunk, from_generator. apply (Produces_generator Hf').
Qed.

End InterspersedAndChunked.

(** A comma between three numbers. *)
Lemma intersperse_puts_separators_between_witness :
  (exists s', Produces (from (SequenceArray [1; 2; 3])) [1; 2; 3] s') /\
  exists s1, Produces (intersperse [0] (from (SequenceArray [1; 2; 3]))) [1; 0; 2; 0; 3] s1.
Proof.
  destruct (Produces_from_array [1; 2; 3]) as (s' & Hs).
  split; [exists s'; exact Hs|].
  exact (proj1 (intersperse_puts_separators_between [0] Hs)).
Defined.

(** Three one-element lists in chunks of two, a chunk standing for the
    list of its elements joined. *)
Lemma chunk_cuts_into_arrays_witness :
  safe_count (CountInt 2) /\
  (exists s', Produces (from (SequenceArray [[1]; [2]; [3]])) [[1]; [2]; [3]] s') /\
  exists chunks s1,
    Produces (chunk (fun ARR _ => List.concat ARR) (CountInt 2)
                    (from (SequenceArray [[1]; [2]; [3]])))
             (map (fun ARR => List.concat ARR) chunks) s1 /\
    List.concat chunks = [[1]; [2]; [3]].
Proof.
  destruct (Produces_from_array [[1]; [2]; [3]]) as (s' & Hs).
  assert (Hsafe : safe_count (CountInt 2)) by (unfold safe_count, safe_integer; lia).
  split; [exact Hsafe|]. split; [exists s'; exact Hs|].
  destruct (chunk_cuts_into_arrays (fun ARR _ => List.concat ARR) (CountInt 2) Hsafe Hs)
    as (chunks & s1 & Hp & Hcat & _).
  exists chunks, s1. split; [exact Hp | exact Hcat].
Defined.

(** ** Loops that leave early *)
Section EarlyExit.
Context {T : Type}.

(** A loop whose body leaves at the element [x], after the elements
    [pre], has pulled exactly [pre] and [x]. *)
Lemma for_of_Advances_exit : forall (s : Seq T) pre s1,
  Advances s pre s1 ->
  forall (A R : Type) (acc a : A) (body : A -> T -> Completion A R) x s2,
  for_of_list body acc pre = Continue a ->
  pulls s1 (Ok (IterItem x)) s2 ->
  (forall a', body a x <> Continue a') ->
  exists fuel, for_of fuel s acc body = Some (body a x, s2).
Proof.
  induction 1 as [s | s y s0 l s1 [g Hy] Hrest IH];
    intros A R acc a body x s2 Hpre [g2 Hx] Hexit.
  - simpl in Hpre. injection Hpre as <-. exists (S g2). simpl. rewrite Hx.
    destruct (body acc x) as [a'| | |] eqn:Hb; try reflexivity.
    exfalso. exact (Hexit a' eq_refl).
  - simpl in Hpre. destruct (body acc y) as [acc'| | |] eqn:Hb; try discriminate.
    destruct (IH A R acc' a body x s2 Hpre (ex_intro _ g2 Hx) Hexit) as (g3 & H3).
    exists (S (Nat.max g g3)). simpl.
    rewrite (next_fuel_le (fuel' := Nat.max g g3) s (Nat.le_max_l g g3) Hy).
    rewrite Hb. apply (for_of_fuel_le (fuel := g3)); [lia | exact H3].
Qed.

Lemma Produces_exhausted : forall (s : Seq T) l s',
  Produces s l s' -> Produces s' [] s'.
Proof.
  induction 1 as [s s' [g Hd] | s x s1 l s' Hx Hrest IH]; [|exact IH].
  apply Produces_done. exists g. exact (proj1 (done_pull_answers g) _ _ Hd).
Qed.

Lemma Produces_Advances : forall (s : Seq T) pre post s',
  Produces s (pre ++ post) s' -> exists s1, Advances s pre s1 /\ Produces s1 post s'.
Proof.
  intros s pre. revert s. induction pre as [|x pre IH]; intros s post s' Hs.
  - exists s. split; [apply Advances_nil | exact Hs].
  - inversion Hs as [|s0 x0 s1 l0 s0' Hx Hrest]; subst.
    destruct (IH _ _ _ Hrest) as (s2 & Ha & Hp).
    exists s2. split; [eapply Advances_cons; eassumption | exact Hp].
Qed.

End EarlyExit.

(** ** [count], [all], [any], [first] and [last] *)
Section Searching.
Context {T : Type}.

Lemma count_scan : forall (p : Predicate T) f,
  pure_predicate p f ->
  forall l c,
  for_of_list (R := unit) count_body (c, p) l
  = Continue (c + Z.of_nat (List.length (filter f l)), p).
Proof.
  intros p f Hp. induction l as [|a l IH]; intros c.
  - simpl. rewrite Z.add_0_r. reflexivity.
  - cbn [for_of_list count_body filter]. rewrite (Hp a). destruct (f a).
    + rewrite IH. simpl List.length. f_equal. f_equal. lia.
    + rewrite IH. reflexivity.
Qed.

Lemma count_finishes : forall (predicate : option (Predicate T)) (f : T -> bool)
  (s : Seq T) l s',
  pure_predicate (toPredicateSafe predicate) f ->
  Produces s l s' ->
  exists fuel, count fuel predicate s = Some (Ok (Z.of_nat (List.length (filter f l))), s').
Proof.
  intros predicate f s l s' Hp Hs.
  destruct (@for_of_Produces_continue T s l s' Hs _ unit (0, toPredicateSafe predicate) _
              count_body (count_scan Hp l 0)) as (fuel & Hf).
  exists fuel. unfold count. rewrite Hf. reflexivity.
Qed.

(** X13. [count(predicate)] answers the number of elements of a
    finite sequence that satisfy the predicate, and [count()] the number of
    all its elements; it leaves the sequence exhausted, so that counting
    the same sequence object again answers 0. *)
Theorem count_counts_and_consumes : forall (predicate : option (Predicate T))
  (f : T -> bool) (s : Seq T) l s',
  pure_predicate (toPredicateSafe predicate) f ->
  Produces s l s' ->
  (exists fuel,
     count fuel predicate s = Some (Ok (Z.of_nat (List.length (filter f l))), s')) /\
  (exists fuel, count fuel None s = Some (Ok (Z.of_nat (List.length l)), s')) /\
  (exists fuel, count fuel predicate s' = Some (Ok 0, s')).
Proof.
  intros predicate f s l s' Hp Hs. split; [|split].
  - exact (count_finishes predicate Hp Hs).
  - destruct (count_finishes None (@pure_predicate_default T) Hs) as (fuel & Hf).
    exists fuel. rewrite Hf. repeat f_equal.
    clear. induction l as [|x l IH]; [reflexivity|]. simpl. rewrite IH. reflexivity.
  - exact (count_finishes predicate Hp (Produces_exhausted Hs)).
Qed.

Lemma all_scan : forall (p : Predicate T) f,
  pure_predicate p f ->
  forall l, for_of_list all_body p l = if forallb f l then Continue p else Return false.
Proof.
  intros p f Hp. induction l as [|a l IH]; [reflexivity|].
  cbn [for_of_list forallb]. unfold all_body at 1. rewrite (Hp a). destruct (f a); [exact IH | reflexivity].
Qed.

Lemma any_scan : forall (p : Predicate T) f,
  pure_predicate p f ->
  forall l, for_of_list any_body p l = if existsb f l then Return true else Continue p.
Proof.
  intros p f Hp. induction l as [|a l IH]; [reflexivity|].
  cbn [for_of_list existsb]. unfold any_body at 1. rewrite (Hp a). destruct (f a); [reflexivity | exact IH].
Qed.

(** X14. Over a finite sequence, [all(predicate)] answers whether
    every element satisfies the predicate and [any(predicate)] whether some
    element does; on an empty sequence [all] answers true and [any]
    false. *)
Theorem all_and_any_answer : forall (predicate : option (Predicate T)) (f : T -> bool)
  (s : Seq T) l s',
  pure_predicate (toPredicateSafe predicate) f ->
  Produces s l s' ->
  finishes (fun fuel => all fuel predicate s) (Ok (forallb f l)) /\
  finishes (fun fuel => any fuel predicate s) (Ok (existsb f l)).
Proof.
  intros predicate f s l s' Hp Hs. split.
  - destruct (for_of_Produces Hs (toPredicateSafe predicate) all_body) as (fuel & s'' & Hf).
    exists fuel, s''. unfold all. rewrite Hf, (all_scan Hp).
    destruct (forallb f l); reflexivity.
  - destruct (for_of_Produces Hs (toPredicateSafe predicate) any_body) as (fuel & s'' & Hf).
    exists fuel, s''. unfold any. rewrite Hf, (any_scan Hp).
    destruct (existsb f l); reflexivity.
Qed.

Lemma firstOrDefault_scan : forall (p : Predicate T) f,
  pure_predicate p f ->
  forall l, for_of_list firstOrDefault_body p l
            = match find f l with Some x => Return x | None => Continue p end.
Proof.
  intros p f Hp. induction l as [|a l IH]; [reflexivity|].
  cbn [for_of_list find]. unfold firstOrDefault_body at 1. rewrite (Hp a).
  destruct (f a); [reflexivity | exact IH].
Qed.

Lemma firstOrDefault_finishes : forall (U : Type) (NF : U) (args : OrDefaultArguments U)
  (f : T -> bool) (s : Seq T) l s',
  pure_predicate (snd (getOrDefaultArguments NF args)) f ->
  Produces s l s' ->
  finishes (fun fuel => firstOrDefault fuel NF args s)
           (firstOrDefault_outcome f l (fst (getOrDefaultArguments NF args))).
Proof.
  intros U NF args f s l s' Hp Hs. unfold finishes, firstOrDefault.
  destruct (getOrDefaultArguments NF args) as [d p]. simpl in Hp |- *.
  destruct (for_of_Produces Hs p firstOrDefault_body) as (fuel & s'' & Hf).
  exists fuel, s''. rewrite Hf, (firstOrDefault_scan Hp).
  unfold firstOrDefault_outcome. destruct (find f l); reflexivity.
Qed.

(** X15. Over a finite sequence, [firstOrDefault] answers the first
    element that satisfies the predicate (the first element, when the call
    has no predicate), and when there is none the default it was given,
    [NOT_FOUND] when the call passes none; [first] answers the same element
    and throws the element-not-found error when there is none. *)
Theorem first_and_firstOrDefault_outcomes :
  forall (s : Seq T) (l : list T) (s' : Seq T) (f : T -> bool),
  Produces s l s' ->
  let p := PredicateFn (fun x => Ok (f x)) in
  (forall (U : Type) (NF d : U),
     finishes (fun fuel => firstOrDefault fuel NF (TwoArguments (Some p) d) s)
              (firstOrDefault_outcome f l d) /\
     finishes (fun fuel => firstOrDefault fuel NF (OneFunction p) s)
              (firstOrDefault_outcome f l NF) /\
     finishes (fun fuel => firstOrDefault fuel NF (OneValue d) s)
              (match l with x :: _ => Ok (inl x) | [] => Ok (inr d) end) /\
     finishes (fun fuel => firstOrDefault fuel NF NoArguments s)
              (match l with x :: _ => Ok (inl x) | [] => Ok (inr NF) end)) /\
  finishes (fun fuel => first fuel (Some p) s) (first_outcome f l) /\
  finishes (fun fuel => first fuel None s)
           (match l with x :: _ => Ok x | [] => Throw element_not_found end).
Proof.
  intros s l s' f Hs p.
  assert (Hany : forall (U : Type) (d : U),
            firstOrDefault_outcome (fun _ => true) l d
            = match l with x :: _ => Ok (inl x) | [] => Ok (inr d) end)
    by (intros U d; destruct l; reflexivity).
  split; [intros U NF d; split; [|split; [|split]]|split].
  - apply (@firstOrDefault_finishes U NF (TwoArguments (Some p) d) f s l s');
      [apply pure_predicate_fn | exact Hs].
  - apply (@firstOrDefault_finishes U NF (OneFunction p) f s l s');
      [apply pure_predicate_fn | exact Hs].
  - rewrite <- Hany.
    apply (@firstOrDefault_finishes U NF (OneValue d) (fun _ => true) s l s');
      [apply pure_predicate_default | exact Hs].
  - rewrite <- Hany.
    apply (@firstOrDefault_finishes U NF NoArguments (fun _ => true) s l s');
      [apply pure_predicate_default | exact Hs].
  - destruct (@firstOrDefault_finishes unit tt (TwoArguments (Some p) tt) f s l s'
                (pure_predicate_fn f) Hs) as (fuel & s'' & Hf).
    exists fuel, s''. unfold first. cbn [toPredicateSafe]. fold p. rewrite Hf.
    unfold firstOrDefault_outcome, first_outcome. destruct (find f l); reflexivity.
  - destruct (@firstOrDefault_finishes unit tt
                (TwoArguments (Some (toPredicateSafe None)) tt) (fun _ => true) s l s'
                (@pure_predicate_default T) Hs) as (fuel & s'' & Hf).
    exists fuel, s''. unfold first. rewrite Hf.
    unfold firstOrDefault_outcome. destruct l; reflexivity.
Qed.

Lemma last_cons_default : forall (A : Type) (m : list A) x d,
  List.last (x :: m) d = List.last m x.
Proof.
  intros A m x d. destruct m as [|y m]; [reflexivity|].
  change (List.last (y :: m) d = List.last (y :: m) x). apply last_default_irrelevant.
Qed.

Lemma lastOrDefault_scan : forall (p : Predicate T) f,
  pure_predicate p f ->
  forall l result,
  for_of_list (R := unit) lastOrDefault_body (result, p) l
  = Continue (List.last (map Some (filter f l)) result, p).
Proof.
  intros p f Hp. induction l as [|a l IH]; intros result; [reflexivity|].
  cbn [for_of_list lastOrDefault_body filter]. rewrite (Hp a). destruct (f a).
  - rewrite IH. cbn [map]. rewrite last_cons_default. reflexivity.
  - apply IH.
Qed.

Lemma lastOrDefault_finishes : forall (U : Type) (NF : U) (args : OrDefaultArguments U)
  (f : T -> bool) (s : Seq T) l s',
  pure_predicate (snd (getOrDefaultArguments NF args)) f ->
  Produces s l s' ->
  finishes (fun fuel => lastOrDefault fuel NF args s)
           (lastOrDefault_outcome f l (fst (getOrDefaultArguments NF args))).
Proof.
  intros U NF args f s l s' Hp Hs. unfold finishes, lastOrDefault.
  destruct (getOrDefaultArguments NF args) as [d p]. simpl in Hp |- *.
  destruct (for_of_Produces Hs (R := unit) (None, p) lastOrDefault_body)
    as (fuel & s'' & Hf).
  exists fuel, s''. rewrite Hf, (lastOrDefault_scan Hp).
  unfold lastOrDefault_outcome, last_match.
  destruct (List.last (map Some (filter f l)) None); reflexivity.
Qed.

Lemma last_match_spec : forall (f : T -> bool) l,
  (forall pre x post, l = pre ++ x :: post -> f x = true -> existsb f post = false ->
                      last_match f l = Some x) /\
  (existsb f l = false -> last_match f l = None).
Proof.
  intros f l. unfold last_match. split.
  - intros pre x post -> Hx Hpost. rewrite filter_app. cbn [filter]. rewrite Hx.
    assert (Hnone : filter f post = []).
    { clear - Hpost. induction post as [|y post IH]; [reflexivity|].
      simpl in *. destruct (f y); [discriminate | exact (IH Hpost)]. }
    rewrite Hnone, map_app. cbn [map]. apply last_last.
  - intros Hnone. replace (filter f l) with (@nil T); [reflexivity|].
    clear - Hnone. induction l as [|y l IH]; [reflexivity|].
    simpl in *. destruct (f y); [discriminate | exact (IH Hnone)].
Qed.

(** X16. Over a finite sequence, [lastOrDefault] answers the last
    element that satisfies the predicate, that is the one no later element
    of the sequence follows with the predicate satisfied, and the default
    ([NOT_FOUND] when none was passed) when no element satisfies it;
    [last] answers the same element and throws the element-not-found error
    when there is none. *)
Theorem last_and_lastOrDefault_outcomes :
  forall (s : Seq T) (l : list T) (s' : Seq T) (f : T -> bool),
  Produces s l s' ->
  let p := PredicateFn (fun x => Ok (f x)) in
  (forall (U : Type) (NF d : U),
     finishes (fun fuel => lastOrDefault fuel NF (TwoArguments (Some p) d) s)
              (lastOrDefault_outcome f l d) /\
     finishes (fun fuel => lastOrDefault fuel NF (OneFunction p) s)
              (lastOrDefault_outcome f l NF) /\
     finishes (fun fuel => lastOrDefault fuel NF (OneValue d) s)
              (lastOrDefault_outcome (fun _ => true) l d) /\
     finishes (fun fuel => lastOrDefault fuel NF NoArguments s)
              (lastOrDefault_outcome (fun _ => true) l NF)) /\
  finishes (fun fuel => last fuel (Some p) s) (last_outcome f l) /\
  (forall pre x post, l = pre ++ x :: post -> f x = true -> existsb f post = false ->
                      last_match f l = Some x) /\
  (existsb f l = false -> last_match f l = None).
Proof.
  intros s l s' f Hs p.
  split; [intros U NF d; split; [|split; [|split]]|split].
  - apply (@lastOrDefault_finishes U NF (TwoArguments (Some p) d) f s l s');
      [apply pure_predicate_fn | exact Hs].
  - apply (@lastOrDefault_finishes U NF (OneFunction p) f s l s');
      [apply pure_predicate_fn | exact Hs].
  - apply (@lastOrDefault_finishes U NF (OneValue d) (fun _ => true) s l s');
      [apply pure_predicate_default | exact Hs].
  - apply (@lastOrDefault_finishes U NF NoArguments (fun _ => true) s l s');
      [apply pure_predicate_default | exact Hs].
  - destruct (@lastOrDefault_finishes unit tt (TwoArguments (Some p) tt) f s l s'
                (pure_predicate_fn f) Hs) as (fuel & s'' & Hf).
    exists fuel, s''. unfold last. cbn [toPredicateSafe]. fold p. rewrite Hf.
    unfold lastOrDefault_outcome, last_outcome. destruct (last_match f l); reflexivity.
  - exact (last_match_spec f l).
Qed.

End Searching.

(** Two positive numbers among three. *)
Lemma count_counts_and_consumes_witness :
  pure_predicate (toPredicateSafe (Some (PredicateFn (fun x : Z => Ok (0 <? x)))))
                 (fun x => 0 <? x) /\
  (exists s', Produces (from (SequenceArray [1; -2; 3])) [1; -2; 3] s') /\
  exists fuel s',
    count fuel (Some (PredicateFn (fun x : Z => Ok (0 <? x))))
          (from (SequenceArray [1; -2; 3])) = Some (Ok 2, s').
Proof.
  assert (Hp : pure_predicate (toPredicateSafe (Some (PredicateFn (fun x : Z => Ok (0 <? x)))))
                              (fun x => 0 <? x)) by (intros x; reflexivity).
  destruct (Produces_from_array [1; -2; 3]) as (s' & Hs).
  split; [exact Hp|]. split; [exists s'; exact Hs|].
  destruct (proj1 (count_counts_and_consumes
                     (Some (PredicateFn (fun x : Z => Ok (0 <? x)))) Hp Hs)) as (fuel & Hf).
  exists fuel, s'. exact Hf.
Defined.

Lemma all_and_any_answer_witness :
  pure_predicate (toPredicateSafe (Some (PredicateFn (fun x : Z => Ok (0 <? x)))))
                 (fun x => 0 <? x) /\
  (exists s', Produces (from (SequenceArray [1; -2; 3])) [1; -2; 3] s') /\
  finishes (fun fuel => all fuel (Some (PredicateFn (fun x : Z => Ok (0 <? x))))
                            (from (SequenceArray [1; -2; 3]))) (Ok false) /\
  finishes (fun fuel => any fuel (Some (PredicateFn (fun x : Z => Ok (0 <? x))))
                            (from (SequenceArray [1; -2; 3]))) (Ok true).
Proof.
  assert (Hp : pure_predicate (toPredicateSafe (Some (PredicateFn (fun x : Z => Ok (0 <? x)))))
                              (fun x => 0 <? x)) by (intros x; reflexivity).
  destruct (Produces_from_array [1; -2; 3]) as (s' & Hs).
  split; [exact Hp|]. split; [exists s'; exact Hs|].
  exact (all_and_any_answer (Some (PredicateFn (fun x : Z => Ok (0 <? x)))) Hp Hs).
Defined.

(** The first negative number, and the first element. *)
Lemma first_and_firstOrDefault_outcomes_witness :
  (exists s', Produces (from (SequenceArray [1; -2; 3; -4])) [1; -2; 3; -4] s') /\
  finishes (fun fuel => first fuel (Some (PredicateFn (fun x : Z => Ok (x <? 0))))
                              (from (SequenceArray [1; -2; 3; -4]))) (Ok (-2)) /\
  finishes (fun fuel => first fuel None (from (SequenceArray [1; -2; 3; -4]))) (Ok 1).
Proof.
  destruct (Produces_from_array [1; -2; 3; -4]) as (s' & Hs).
  split; [exists s'; exact Hs|].
  exact (proj2 (first_and_firstOrDefault_outcomes (fun x => x <? 0) Hs)).
Defined.

(** The last negative number. *)
Lemma last_and_lastOrDefault_outcomes_witness :
  (exists s', Produces (from (SequenceArray [1; -2; 3; -4; 5])) [1; -2; 3; -4; 5] s') /\
  finishes (fun fuel => last fuel (Some (PredicateFn (fun x : Z => Ok (x <? 0))))
                             (from (SequenceArray [1; -2; 3; -4; 5]))) (Ok (-4)).
Proof.
  destruct (Produces_from_array [1; -2; 3; -4; 5]) as (s' & Hs).
  split; [exists s'; exact Hs|].
  exact (proj1 (proj2 (last_and_lastOrDefault_outcomes (fun x => x <? 0) Hs))).
Defined.

(** ** Methods that stop at the first match *)
Section ShortCircuit.
Context {T : Type}.

Lemma forallb_negb_find : forall (f : T -> bool) pre,
  forallb (fun y => negb (f y)) pre = true ->
  find f pre = None /\ existsb f pre = false /\ forallb (fun y => negb (f y)) pre = true.
Proof.
  intros f pre Hpre. split; [|split; [|exact Hpre]].
  - induction pre as [|y pre IH]; [reflexivity|]. simpl in *.
    destruct (f y); [discriminate | exact (IH Hpre)].
  - induction pre as [|y pre IH]; [reflexivity|]. simpl in *.
    destruct (f y); [discriminate | exact (IH Hpre)].
Qed.

Lemma elementAt_scan : forall (n : Z) (l : list T) (i : Z),
  for_of_list (elementAtOrDefault_body (Some n)) i l
  = match lookupZ l (n - i - 1) with
    | Some x => Return x
    | None => Continue (i + Z.of_nat (List.length l))
    end.
Proof.
  intros n. induction l as [|a l IH]; intros i.
  - simpl. unfold lookupZ. rewrite Z.add_0_r.
    destruct (n - i - 1 <? 0); [reflexivity|]. destruct (Z.to_nat (n - i - 1)); reflexivity.
  - cbn [for_of_list]. unfold elementAtOrDefault_body at 1. cbv zeta.
    destruct (i + 1 =? n) eqn:E.
    + apply Z.eqb_eq in E. replace (n - i - 1) with 0 by lia. reflexivity.
    + apply Z.eqb_neq in E. rewrite IH.
      replace (i + 1 + Z.of_nat (List.length l)) with (i + Z.of_nat (List.length (a :: l)))
        by (simpl List.length; lia).
      unfold lookupZ.
      destruct (n - i - 1 <? 0) eqn:E1.
      * apply Z.ltb_lt in E1. replace (n - (i + 1) - 1 <? 0) with true
          by (symmetry; apply Z.ltb_lt; lia). reflexivity.
      * apply Z.ltb_ge in E1. replace (n - (i + 1) - 1 <? 0) with false
          by (symmetry; apply Z.ltb_ge; lia).
        replace (Z.to_nat (n - i - 1)) with (S (Z.to_nat (n - (i + 1) - 1))) by lia.
        reflexivity.
Qed.

(** X17. The searching methods stop at the first match and pull
    nothing behind it, so they also answer on an endless sequence: when
    pulling gives the elements [pre], none of which satisfies the
    predicate, and then [x], which does, then [any] answers true,
    [first] and [firstOrDefault] answer [x], [all] with the opposite
    predicate answers false, and [elementAt] with the position of [x],
    when that is at most 2^53, answers [x], each leaving the sequence in
    the state right after [x]. *)
Theorem searches_stop_at_the_first_match : forall (f : T -> bool) (s : Seq T) pre x s1 s2,
  Advances s pre s1 ->
  pulls s1 (Ok (IterItem x)) s2 ->
  forallb (fun y => negb (f y)) pre = true ->
  f x = true ->
  let p := PredicateFn (fun y => Ok (f y)) in
  (exists fuel, any fuel (Some p) s = Some (Ok true, s2)) /\
  (exists fuel, first fuel (Some p) s = Some (Ok x, s2)) /\
  (forall (U : Type) (NF d : U),
     exists fuel, firstOrDefault fuel NF (TwoArguments (Some p) d) s
                  = Some (Ok (inl x), s2)) /\
  (exists fuel, all fuel (Some (PredicateFn (fun y => Ok (negb (f y))))) s
                = Some (Ok false, s2)) /\
  (safe_count (CountInt (Z.of_nat (List.length pre))) ->
   exists fuel, elementAt fuel (CountInt (Z.of_nat (List.length pre))) s
                = Some (Ok x, s2)).
Proof.
  intros f s pre x s1 s2 Ha Hx Hpre Hfx p.
  destruct (forallb_negb_find f pre Hpre) as (Hfind & Hex & _).
  assert (Hfirst : forall (U : Type) (NF d : U),
            exists fuel, firstOrDefault fuel NF (TwoArguments (Some p) d) s
                         = Some (Ok (inl x), s2)).
  { intros U NF d.
    destruct (@for_of_Advances_exit T s pre s1 Ha _ T p p firstOrDefault_body x s2)
      as (fuel & Hf).
    - rewrite (firstOrDefault_scan (pure_predicate_fn f)), Hfind. reflexivity.
    - exact Hx.
    - intros a'. unfold firstOrDefault_body, p. simpl. rewrite Hfx. discriminate.
    - exists fuel. unfold firstOrDefault. cbn [getOrDefaultArguments toPredicateSafe].
      rewrite Hf. unfold firstOrDefault_body, p. simpl. rewrite Hfx. reflexivity. }
  split; [|split; [|split; [exact Hfirst|split]]].
  - destruct (@for_of_Advances_exit T s pre s1 Ha _ bool p p any_body x s2) as (fuel & Hf).
    + rewrite (any_scan (pure_predicate_fn f)), Hex. reflexivity.
    + exact Hx.
    + intros a'. unfold any_body, p. simpl. rewrite Hfx. discriminate.
    + exists fuel. unfold any. cbn [toPredicateSafe]. fold p. rewrite Hf.
      unfold any_body, p. simpl. rewrite Hfx. reflexivity.
  - destruct (Hfirst unit tt tt) as (fuel & Hf).
    exists fuel. unfold first. cbn [toPredicateSafe]. fold p. rewrite Hf. reflexivity.
  - set (q := PredicateFn (fun y => Ok (negb (f y)))).
    destruct (@for_of_Advances_exit T s pre s1 Ha _ bool q q all_body x s2) as (fuel & Hf).
    + rewrite (all_scan (pure_predicate_fn (fun y => negb (f y)))), Hpre. reflexivity.
    + exact Hx.
    + intros a'. unfold all_body, q. simpl. rewrite Hfx. discriminate.
    + exists fuel. unfold all. cbn [toPredicateSafe]. rewrite Hf.
      unfold all_body, q. simpl. rewrite Hfx. reflexivity.
  - intros _. set (n := Z.of_nat (List.length pre)).
    assert (Hscan : for_of_list (elementAtOrDefault_body (Some n)) (-1) pre
                    = Continue (-1 + n)).
    { rewrite elementAt_scan. unfold lookupZ.
      destruct (n - -1 - 1 <? 0) eqn:E; [reflexivity|].
      replace (Z.to_nat (n - -1 - 1)) with (List.length pre) by (unfold n; lia).
      rewrite (proj2 (nth_error_None pre (List.length pre)) (Nat.le_refl _)). reflexivity. }
    assert (Hbody : elementAtOrDefault_body (Some n) (-1 + n) x = Return x).
    { unfold elementAtOrDefault_body. cbv zeta.
      replace (-1 + n + 1 =? n) with true by (symmetry; apply Z.eqb_eq; lia). reflexivity. }
    destruct (@for_of_Advances_exit T s pre s1 Ha _ T (-1) (-1 + n)
                (elementAtOrDefault_body (Some n)) x s2 Hscan Hx) as (fuel & Hf).
    + intros a'. rewrite Hbody. discriminate.
    + exists fuel. unfold elementAt, elementAtOrDefault. cbn [parseInt_count].
      fold n. rewrite Hf, Hbody. reflexivity.
Qed.

End ShortCircuit.

(** On the endless sequence 0, 1, 2, ... the search for 2 ends. *)
Lemma searches_stop_at_the_first_match_witness :
  let zero := num_of_Z 0 in
  let one := num_add zero (num_of_Z 1) in
  let two := num_add one (num_of_Z 1) in
  let f := fun v => js_strict_eq v (js_number_of 2) in
  exists s1 s2,
    Advances (range zero CountUndefined) [JsNumber zero; JsNumber one] s1 /\
    pulls s1 (Ok (IterItem (JsNumber two))) s2 /\
    forallb (fun y => negb (f y)) [JsNumber zero; JsNumber one] = true /\
    f (JsNumber two) = true /\
    exists fuel,
      first fuel (Some (PredicateFn (fun y => Ok (f y)))) (range zero CountUndefined)
      = Some (Ok (JsNumber two), s2).
Proof.
  intros zero one two f.
  assert (Ha : exists s1 s2,
             Advances (range zero CountUndefined) [JsNumber zero; JsNumber one] s1 /\
             pulls s1 (Ok (IterItem (JsNumber two))) s2).
  { eexists. eexists. split.
    - eapply Advances_cons; [exists 3%nat; reflexivity|].
      eapply Advances_cons; [exists 3%nat; reflexivity|]. apply Advances_nil.
    - exists 3%nat. reflexivity. }
  destruct Ha as (s1 & s2 & Ha & Hx).
  exists s1, s2. split; [exact Ha|]. split; [exact Hx|].
  split; [reflexivity|]. split; [reflexivity|].
  exact (proj1 (proj2 (@searches_stop_at_the_first_match JsValue f _ _ _ _ _
                         Ha Hx eq_refl eq_refl))).
Defined.

(** ** [indexOf], [lastIndexOf], [contains], [elementAt] and [sequenceEqual] *)
Section Positions.
Context {T : Type} `{JsEquality T}.

Lemma indexOf_scan : forall (comparer : T -> T -> bool) (item : T) l i,
  for_of_list (indexOf_body comparer item) i l
  = match find_index (fun x => comparer x item) l with
    | Some k => Return (i + 1 + Z.of_nat k)
    | None => Continue (i + Z.of_nat (List.length l))
    end.
Proof.
  intros comparer item. induction l as [|a l IH]; intros i.
  - simpl. rewrite Z.add_0_r. reflexivity.
  - cbn [for_of_list find_index]. unfold indexOf_body at 1. cbv zeta.
    destruct (comparer a item).
    + rewrite Z.add_0_r. reflexivity.
    + rewrite IH. destruct (find_index (fun x => comparer x item) l) as [k|]; cbn [option_map].
      * f_equal. lia.
      * f_equal. simpl List.length. lia.
Qed.

Lemma lastIndexOf_scan : forall (comparer : T -> T -> bool) (item : T) l i lastIndex,
  for_of_list (R := unit) (lastIndexOf_body comparer item) (i, lastIndex) l
  = Continue (i + Z.of_nat (List.length l),
              match find_last_index (fun x => comparer x item) l with
              | Some k => i + 1 + Z.of_nat k
              | None => lastIndex
              end).
Proof.
  intros comparer item. induction l as [|a l IH]; intros i lastIndex.
  - simpl. rewrite Z.add_0_r. reflexivity.
  - cbn [for_of_list find_last_index lastIndexOf_body].
    destruct (comparer a item); rewrite IH;
      destruct (find_last_index (fun x => comparer x item) l) as [k|];
      f_equal; f_equal; simpl List.length; lia.
Qed.

Lemma existsb_false_app : forall (m : T -> bool) l1 l2,
  existsb m (l1 ++ l2) = false -> existsb m l1 = false /\ existsb m l2 = false.
Proof.
  intros m l1 l2 Hn. rewrite existsb_app in Hn. apply orb_false_iff in Hn. exact Hn.
Qed.

Lemma find_index_spec : forall (m : T -> bool) l,
  (forall pre x post, l = pre ++ x :: post -> existsb m pre = false -> m x = true ->
                      find_index m l = Some (List.length pre)) /\
  (existsb m l = false -> find_index m l = None) /\
  (forall k, find_index m l = Some k -> existsb m l = true).
Proof.
  intros m l. split; [|split].
  - intros pre x post -> Hpre Hx. induction pre as [|y pre IH].
    + simpl. rewrite Hx. reflexivity.
    + simpl in *. destruct (m y); [discriminate|]. rewrite (IH Hpre). reflexivity.
  - induction l as [|y l IH]; [reflexivity|]. simpl. intros Hn.
    destruct (m y); [discriminate|]. rewrite (IH Hn). reflexivity.
  - induction l as [|y l IH]; intros k Hk; [discriminate|]. simpl in *.
    destruct (m y); [reflexivity|].
    destruct (find_index m l) as [j|]; [exact (IH j eq_refl) | discriminate].
Qed.

Lemma find_last_index_spec : forall (m : T -> bool) l,
  (forall pre x post, l = pre ++ x :: post -> m x = true -> existsb m post = false ->
                      find_last_index m l = Some (List.length pre)) /\
  (existsb m l = false -> find_last_index m l = None).
Proof.
  intros m l.
  assert (Hnone : forall l0, existsb m l0 = false -> find_last_index m l0 = None).
  { induction l0 as [|y l0 IH]; [reflexivity|]. simpl. intros Hn.
    destruct (m y); [discriminate|]. rewrite (IH Hn). reflexivity. }
  split; [|apply Hnone].
  intros pre x post -> Hx Hpost. induction pre as [|y pre IH].
  - simpl. rewrite (Hnone post Hpost), Hx. reflexivity.
  - simpl. rewrite IH. reflexivity.
Qed.

(** X18. Over a finite sequence, [indexOf(item)] answers the
    zero-based position of the first element the comparer equates with
    [item] and [lastIndexOf(item)] the position of the last one, both -1
    when there is none; [contains(item)] answers whether there is one.  The
    comparer is [==] by default and [===] when [true] is passed. *)
Theorem indexOf_answers_positions : forall (comparer : EqualityComparerArg T) (item : T)
  (s : Seq T) l s',
  Produces s l s' ->
  let m := fun x => toEqualityComparerSafe comparer x item in
  finishes (fun fuel => indexOf fuel item comparer s)
           (Ok (index_or_minus_one (find_index m l))) /\
  finishes (fun fuel => lastIndexOf fuel item comparer s)
           (Ok (index_or_minus_one (find_last_index m l))) /\
  finishes (fun fuel => contains fuel item comparer s) (Ok (existsb m l)) /\
  (forall pre x post, l = pre ++ x :: post -> existsb m pre = false -> m x = true ->
                      find_index m l = Some (List.length pre)) /\
  (forall pre x post, l = pre ++ x :: post -> m x = true -> existsb m post = false ->
                      find_last_index m l = Some (List.length pre)) /\
  (existsb m l = false -> find_index m l = None /\ find_last_index m l = None).
Proof.
  intros comparer item s l s' Hs m.
  destruct (find_index_spec m l) as (Hfirst & Hnone & Hsome).
  destruct (find_last_index_spec m l) as (Hlast & Hnone').
  assert (Hidx : exists fuel s'',
            indexOf fuel item comparer s
            = Some (Ok (index_or_minus_one (find_index m l)), s'')).
  { destruct (for_of_Produces Hs (-1) (indexOf_body (toEqualityComparerSafe comparer) item))
      as (fuel & s'' & Hf).
    exists fuel, s''. unfold indexOf. cbv zeta. rewrite Hf, indexOf_scan. fold m.
    destruct (find_index m l) as [k|]; [|reflexivity].
    cbn [index_or_minus_one]. repeat f_equal; try lia. }
  split; [exact Hidx|]. split; [|split; [|split; [exact Hfirst|split; [exact Hlast|]]]].
  - destruct (@for_of_Produces_continue T s l s' Hs _ unit (-1, -1) _
                (lastIndexOf_body (toEqualityComparerSafe comparer) item)
                (lastIndexOf_scan (toEqualityComparerSafe comparer) item l (-1) (-1)))
      as (fuel & Hf).
    exists fuel, s'. unfold lastIndexOf. cbv zeta. rewrite Hf. fold m.
    destruct (find_last_index m l) as [k|]; [|reflexivity].
    cbn [index_or_minus_one]. repeat f_equal; try lia.
  - destruct Hidx as (fuel & s'' & Hf). exists fuel, s''. unfold contains. rewrite Hf.
    repeat f_equal. destruct (find_index m l) as [k|] eqn:Hk.
    + rewrite (Hsome k eq_refl). cbn [index_or_minus_one]. apply Z.ltb_lt. lia.
    + destruct (existsb m l) eqn:Hex; [|reflexivity].
      apply existsb_exists in Hex. destruct Hex as (x & Hin & Hx).
      clear - Hk Hin Hx. exfalso. induction l as [|y l IH]; [exact Hin|].
      simpl in Hk. destruct Hin as [-> | Hin]; [rewrite Hx in Hk; discriminate|].
      destruct (m y); [discriminate|].
      destruct (find_index m l); [discriminate | exact (IH eq_refl Hin)].
  - intros Hn. split; [exact (Hnone Hn) | exact (Hnone' Hn)].
Qed.

Lemma elementAt_scan_NaN : forall (l : list T) (i : Z),
  for_of_list (R := T) (elementAtOrDefault_body None) i l
  = Continue (i + Z.of_nat (List.length l)).
Proof.
  induction l as [|a l IH]; intros i.
  - simpl. rewrite Z.add_0_r. reflexivity.
  - cbn [for_of_list]. unfold elementAtOrDefault_body at 1. cbv zeta. rewrite IH.
    f_equal. simpl List.length. lia.
Qed.

Lemma elementAtOrDefault_finishes : forall (U : Type) (NF : U) (index : CountArg)
  (defaultValue : option U) (s : Seq T) l s',
  Produces s l s' ->
  finishes (fun fuel => elementAtOrDefault fuel NF index defaultValue s)
           (elementAtOrDefault_outcome index l
              (match defaultValue with Some d => d | None => NF end)).
Proof.
  intros U NF index defaultValue s l s' Hs.
  destruct (for_of_Produces Hs (-1) (elementAtOrDefault_body (parseInt_count index)))
    as (fuel & s'' & Hf).
  exists fuel, s''. unfold elementAtOrDefault. cbv zeta. rewrite Hf.
  unfold elementAtOrDefault_outcome, element_at.
  destruct (parseInt_count index) as [n|].
  - rewrite elementAt_scan. replace (n - -1 - 1) with n by lia.
    destruct (lookupZ l n); reflexivity.
  - rewrite elementAt_scan_NaN. reflexivity.
Qed.

(** X19. Over a finite sequence and for an index that is not a
    number or an integer up to 2^53 in magnitude,
    [elementAtOrDefault(index, d)] answers the element at the zero-based
    position [index], and the default ([NOT_FOUND] when none was passed)
    when the position is negative, not below the number of elements, or not
    a number; [elementAt] throws the element-not-found error in these
    cases. *)
Theorem elementAt_answers_by_position : forall (index : CountArg) (s : Seq T) l s',
  safe_count index ->
  Produces s l s' ->
  (forall (U : Type) (NF d : U),
     finishes (fun fuel => elementAtOrDefault fuel NF index (Some d) s)
              (elementAtOrDefault_outcome index l d) /\
     finishes (fun fuel => elementAtOrDefault fuel NF index None s)
              (elementAtOrDefault_outcome index l NF)) /\
  finishes (fun fuel => elementAt fuel index s) (elementAt_outcome index l) /\
  (forall n, safe_integer n -> 0 <= n < Z.of_nat (List.length l) ->
             element_at (CountInt n) l = nth_error l (Z.to_nat n) /\
             element_at (CountInt n) l <> None) /\
  (forall n, safe_integer n -> n < 0 \/ Z.of_nat (List.length l) <= n ->
             element_at (CountInt n) l = None) /\
  element_at CountNaN l = None /\ element_at CountUndefined l = None.
Proof.
  intros index s l s' _ Hs. split; [|split; [|split; [|split; [|split]]]].
  - intros U NF d. split.
    + exact (elementAtOrDefault_finishes NF index (Some d) Hs).
    + exact (elementAtOrDefault_finishes NF index None Hs).
  - destruct (elementAtOrDefault_finishes tt index (Some tt) Hs) as (fuel & s'' & Hf).
    exists fuel, s''. unfold elementAt. rewrite Hf.
    unfold elementAtOrDefault_outcome, elementAt_outcome.
    destruct (element_at index l); reflexivity.
  - intros n _ Hn. unfold element_at, lookupZ. cbn [parseInt_count].
    replace (n <? 0) with false by (symmetry; apply Z.ltb_ge; lia).
    split; [reflexivity|]. apply nth_error_Some. lia.
  - intros n _ Hn. unfold element_at, lookupZ. cbn [parseInt_count].
    destruct (n <? 0) eqn:E; [reflexivity|]. apply Z.ltb_ge in E.
    apply nth_error_None. lia.
  - reflexivity.
  - reflexivity.
Qed.

Lemma sequenceEqual_loop_fuel_S : forall fuel (comparer : T -> T -> bool) (s o : Seq T) r,
  sequenceEqual_loop fuel comparer s o = Some r ->
  sequenceEqual_loop (S fuel) comparer s o = Some r.
Proof.
  induction fuel as [|fuel IH]; intros comparer s o r Hr; [discriminate|].
  remember (S fuel) as fuel' eqn:Hfuel.
  rewrite Hfuel in Hr. simpl in Hr. simpl.
  destruct (next fuel s) as [[res s1]|] eqn:E; [|discriminate].
  assert (E' : next fuel' s = Some (res, s1)).
  { rewrite Hfuel. apply (fuel_monotone_all fuel). exact E. }
  rewrite E'. destruct res as [[X|]|e]; try exact Hr.
  - destruct (next fuel o) as [[res2 o1]|] eqn:E2; [|discriminate].
    assert (E2' : next fuel' o = Some (res2, o1)).
    { rewrite Hfuel. apply (fuel_monotone_all fuel). exact E2. }
    rewrite E2'. destruct res2 as [[Y|]|e]; try exact Hr.
    destruct (comparer X Y); [|exact Hr]. apply IH. exact Hr.
  - destruct (next fuel o) as [[res2 o1]|] eqn:E2; [|discriminate].
    assert (E2' : next fuel' o = Some (res2, o1)).
    { rewrite Hfuel. apply (fuel_monotone_all fuel). exact E2. }
    rewrite E2'. exact Hr.
Qed.

Lemma sequenceEqual_loop_fuel_le : forall fuel fuel' (comparer : T -> T -> bool)
  (s o : Seq T) r,
  (fuel <= fuel')%nat -> sequenceEqual_loop fuel comparer s o = Some r ->
  sequenceEqual_loop fuel' comparer s o = Some r.
Proof.
  intros fuel fuel' comparer s o r Hle. induction Hle; intro Hs; [exact Hs|].
  apply sequenceEqual_loop_fuel_S. auto.
Qed.

Lemma sequenceEqual_loop_finishes : forall (comparer : T -> T -> bool) (s : Seq T) l1 s',
  Produces s l1 s' ->
  forall (o : Seq T) l2 o', Produces o l2 o' ->
  exists fuel s1 o1,
    sequenceEqual_loop fuel comparer s o = Some (Ok (list_equal comparer l1 l2), s1, o1).
Proof.
  intros comparer.
  induction 1 as [s s' [g Hd] | s x s1 l s' [g Hx] Hrest IH];
    intros o l2 o' Ho;
    inversion Ho as [o0 o0' [g2 Hd2] | o0 y o1 l0 o0' [g2 Hy] Hrest2]; subst.
  - exists (S (Nat.max g g2)). eexists. eexists. simpl.
    rewrite (next_fuel_le (fuel' := Nat.max g g2) s (Nat.le_max_l g g2) Hd).
    rewrite (next_fuel_le (fuel' := Nat.max g g2) o (Nat.le_max_r g g2) Hd2).
    reflexivity.
  - exists (S (Nat.max g g2)). eexists. eexists. simpl.
    rewrite (next_fuel_le (fuel' := Nat.max g g2) s (Nat.le_max_l g g2) Hd).
    rewrite (next_fuel_le (fuel' := Nat.max g g2) o (Nat.le_max_r g g2) Hy).
    reflexivity.
  - exists (S (Nat.max g g2)). eexists. eexists. simpl.
    rewrite (next_fuel_le (fuel' := Nat.max g g2) s (Nat.le_max_l g g2) Hx).
    rewrite (next_fuel_le (fuel' := Nat.max g g2) o (Nat.le_max_r g g2) Hd2).
    reflexivity.
  - cbn [list_equal]. destruct (comparer x y) eqn:Hc.
    + destruct (IH _ _ _ Hrest2) as (g3 & s2 & o2 & H3).
      assert (Hg : (g <= Nat.max (Nat.max g g2) g3)%nat) by lia.
      assert (Hg2 : (g2 <= Nat.max (Nat.max g g2) g3)%nat) by lia.
      exists (S (Nat.max (Nat.max g g2) g3)), s2, o2. simpl.
      rewrite (next_fuel_le s Hg Hx), (next_fuel_le o Hg2 Hy).
      rewrite Hc. apply (sequenceEqual_loop_fuel_le (fuel := g3)); [lia | exact H3].
    + exists (S (Nat.max g g2)). eexists. eexists. simpl.
      rewrite (next_fuel_le (fuel' := Nat.max g g2) s (Nat.le_max_l g g2) Hx).
      rewrite (next_fuel_le (fuel' := Nat.max g g2) o (Nat.le_max_r g g2) Hy).
      rewrite Hc. reflexivity.
Qed.

Lemma list_equal_Forall2 : forall (comparer : T -> T -> bool) l1 l2,
  list_equal comparer l1 l2 = true <-> Forall2 (fun x y => comparer x y = true) l1 l2.
Proof.
  intros comparer. induction l1 as [|x l1 IH]; intros [|y l2]; simpl.
  - split; [constructor | reflexivity].
  - split; [discriminate | intros Hf; inversion Hf].
  - split; [discriminate | intros Hf; inversion Hf].
  - destruct (comparer x y) eqn:Hc.
    + rewrite IH. split; [intros Hf; constructor; assumption|].
      intros Hf. inversion Hf; subst. assumption.
    + split; [discriminate|]. intros Hf. inversion Hf; subst. congruence.
Qed.

(** X20. For two finite sequences, [sequenceEqual] answers true
    exactly when both have the same number of elements and the comparer
    ([==] by default, [===] for [true]) equates them position by position;
    a missing other sequence counts as empty. *)
Theorem sequenceEqual_compares_pairwise : forall (comparer : EqualityComparerArg T)
  (other : Sequence T) l2 other' (s : Seq T) l1 s',
  Produces s l1 s' ->
  Produces (from other) l2 other' ->
  (exists fuel s1 o1,
     sequenceEqual fuel other comparer s
     = Some (Ok (list_equal (toEqualityComparerSafe comparer) l1 l2), s1, o1)) /\
  (list_equal (toEqualityComparerSafe comparer) l1 l2 = true <->
   Forall2 (fun x y => toEqualityComparerSafe comparer x y = true) l1 l2) /\
  (list_equal (toEqualityComparerSafe comparer) l1 l2 = true ->
   List.length l1 = List.length l2) /\
  (exists fuel s1 o1,
     sequenceEqual fuel SequenceNull comparer s
     = Some (Ok (match l1 with [] => true | _ => false end), s1, o1)).
Proof.
  intros comparer other l2 other' s l1 s' Hs Ho. split; [|split; [|split]].
  - unfold sequenceEqual.
    exact (sequenceEqual_loop_finishes (toEqualityComparerSafe comparer) Hs Ho).
  - apply list_equal_Forall2.
  - intros Heq. apply list_equal_Forall2 in Heq. exact (Forall2_length Heq).
  - destruct (Produces_from_array (@nil T)) as (e' & He).
    destruct (sequenceEqual_loop_finishes (toEqualityComparerSafe comparer) Hs He)
      as (fuel & s1 & o1 & Hf).
    exists fuel, s1, o1. unfold sequenceEqual, from in *. rewrite Hf.
    destruct l1; reflexivity.
Qed.

End Positions.

(** The positions of 2 in 1, 2, 3, 2. *)
Lemma indexOf_answers_positions_witness :
  (exists s', Produces (from (SequenceArray (map js_number_of [1; 2; 3; 2])))
                       (map js_number_of [1; 2; 3; 2]) s') /\
  finishes (fun fuel => indexOf fuel (js_number_of 2) ComparerUndefined
                                (from (SequenceArray (map js_number_of [1; 2; 3; 2]))))
           (Ok 1) /\
  finishes (fun fuel => lastIndexOf fuel (js_number_of 2) ComparerUndefined
                                    (from (SequenceArray (map js_number_of [1; 2; 3; 2]))))
           (Ok 3).
Proof.
  destruct (Produces_from_array (map js_number_of [1; 2; 3; 2])) as (s' & Hs).
  split; [exists s'; exact Hs|].
  destruct (@indexOf_answers_positions JsValue JsValue_equality ComparerUndefined
              (js_number_of 2) _ _ _ Hs) as (Hi & Hl & _).
  split; [exact Hi | exact Hl].
Defined.

(** Position 1 of three elements, and a position behind the end. *)
Lemma elementAt_answers_by_position_witness :
  safe_count (CountInt 1) /\
  (exists s', Produces (from (SequenceArray [5; 6; 7])) [5; 6; 7] s') /\
  finishes (fun fuel => elementAt fuel (CountInt 1) (from (SequenceArray [5; 6; 7])))
           (Ok 6).
Proof.
  destruct (Produces_from_array [5; 6; 7]) as (s' & Hs).
  assert (Hsafe : safe_count (CountInt 1)) by (unfold safe_count, safe_integer; lia).
  split; [exact Hsafe|]. split; [exists s'; exact Hs|].
  exact (proj1 (proj2 (elementAt_answers_by_position (CountInt 1) Hsafe Hs))).
Defined.

(** Two arrays with the same numbers. *)
Lemma sequenceEqual_compares_pairwise_witness :
  (exists s', Produces (from (SequenceArray (map js_number_of [1; 2])))
                       (map js_number_of [1; 2]) s') /\
  exists fuel s1 o1,
    sequenceEqual fuel (SequenceArray (map js_number_of [1; 2])) ComparerTrue
                  (from (SequenceArray (map js_number_of [1; 2])))
    = Some (Ok true, s1, o1).
Proof.
  destruct (Produces_from_array (map js_number_of [1; 2])) as (s' & Hs).
  split; [exists s'; exact Hs|].
  exact (proj1 (@sequenceEqual_compares_pairwise JsValue JsValue_equality ComparerTrue
                  (SequenceArray (map js_number_of [1; 2])) _ _ _ _ _ Hs Hs)).
Defined.

(** ** [forEach] and [pipe] *)
Section Actions.
Context {T : Type}.

Lemma forEach_scan : forall (a : EachAction T) l i,
  (forall k y, nth_error l k = Some y -> action_call a y (i + 1 + Z.of_nat k) = Ok tt) ->
  for_of_list (R := unit) (forEach_body (Some a)) i l
  = Continue (i + Z.of_nat (List.length l)).
Proof.
  intros a. induction l as [|x l IH]; intros i Hok.
  - simpl. rewrite Z.add_0_r. reflexivity.
  - cbn [for_of_list]. unfold forEach_body at 1. cbv zeta.
    pose proof (Hok 0%nat x eq_refl) as H0. rewrite Z.add_0_r in H0. rewrite H0.
    rewrite IH.
    + f_equal. simpl List.length. lia.
    + intros k y Hk. specialize (Hok (S k) y Hk).
      replace (i + 1 + 1 + Z.of_nat k) with (i + 1 + Z.of_nat (S k)) by lia. exact Hok.
Qed.

(** X21. [forEach] calls the action with every element and its
    zero-based position and answers normally when no call fails, the
    sequence then being exhausted; the first call that fails ends it at
    once: [forEach] throws what the action threw, as it is, and pulls
    nothing behind the element the action failed on. *)
Theorem forEach_stops_at_the_first_failure : forall (a : EachAction T) (s : Seq T),
  (forall l s',
     Produces s l s' ->
     (forall k y, nth_error l k = Some y -> action_call a y (Z.of_nat k) = Ok tt) ->
     exists fuel, forEach fuel (Some a) s = Some (Ok tt, s')) /\
  (forall pre x s1 s2 e,
     Advances s pre s1 ->
     pulls s1 (Ok (IterItem x)) s2 ->
     (forall k y, nth_error pre k = Some y -> action_call a y (Z.of_nat k) = Ok tt) ->
     action_call a x (Z.of_nat (List.length pre)) = Throw e ->
     exists fuel, forEach fuel (Some a) s = Some (Throw e, s2)).
Proof.
  intros a s. split.
  - intros l s' Hs Hok.
    destruct (@for_of_Produces_continue T s l s' Hs _ unit (-1) _ (forEach_body (Some a))
                (forEach_scan a l (-1) Hok)) as (fuel & Hf).
    exists fuel. unfold forEach. rewrite Hf. reflexivity.
  - intros pre x s1 s2 e Ha Hx Hok He.
    assert (Hbody : forEach_body (Some a) (-1 + Z.of_nat (List.length pre)) x
                    = Abrupt e).
    { unfold forEach_body. cbv zeta.
      replace (-1 + Z.of_nat (List.length pre) + 1) with (Z.of_nat (List.length pre)) by lia.
      rewrite He. reflexivity. }
    destruct (@for_of_Advances_exit T s pre s1 Ha _ unit (-1)
                (-1 + Z.of_nat (List.length pre)) (forEach_body (Some a)) x s2
                (forEach_scan a pre (-1) Hok) Hx) as (fuel & Hf).
    + intros a'. rewrite Hbody. discriminate.
    + exists fuel. unfold forEach. rewrite Hf, Hbody. reflexivity.
Qed.

Lemma pipe_frame_produces : forall (a : EachAction T) (s : Seq T) l s',
  Produces s l s' ->
  forall i,
  (forall k y, nth_error l k = Some y -> action_call a y (i + 1 + Z.of_nat k) = Ok tt) ->
  FrameProduces (PipeFrame (Some a) i s) l
                (PipeFrame (Some a) (i + Z.of_nat (List.length l)) s').
Proof.
  intros a. induction 1 as [s s' [g Hd] | s x s1 l s' [g Hx] Hrest IH]; intros i Hok.
  - simpl. rewrite Z.add_0_r. apply FrameProduces_return.
    exists (S g). simpl. rewrite Hd. reflexivity.
  - pose proof (Hok 0%nat x eq_refl) as H0. rewrite Z.add_0_r in H0.
    replace (i + Z.of_nat (List.length (x :: l))) with (i + 1 + Z.of_nat (List.length l))
      by (simpl List.length; lia).
    eapply FrameProduces_yield; [|apply IH].
    + exists (S g). cbn [resume]. rewrite Hx. cbv zeta. rewrite H0. reflexivity.
    + intros k y Hk. specialize (Hok (S k) y Hk).
      replace (i + 1 + 1 + Z.of_nat k) with (i + 1 + Z.of_nat (S k)) by lia. exact Hok.
Qed.

Lemma pipe_frame_emits : forall (a : EachAction T) (s : Seq T) pre s1,
  Advances s pre s1 ->
  forall i x s2 e,
  pulls s1 (Ok (IterItem x)) s2 ->
  (forall k y, nth_error pre k = Some y -> action_call a y (i + 1 + Z.of_nat k) = Ok tt) ->
  action_call a x (i + 1 + Z.of_nat (List.length pre)) = Throw e ->
  FrameEmits (PipeFrame (Some a) i s) pre (Some e)
             (PipeFrame (Some a) (i + 1 + Z.of_nat (List.length pre)) s2).
Proof.
  intros a. induction 1 as [s | s y s0 l s1 [g Hy] Hrest IH]; intros i x s2 e Hx Hok He.
  - destruct Hx as [g Hx]. simpl in *. rewrite Z.add_0_r in *.
    apply FrameEmits_raise. exists (S g). cbn [resume]. rewrite Hx. cbv zeta.
    rewrite He. reflexivity.
  - pose proof (Hok 0%nat y eq_refl) as H0. rewrite Z.add_0_r in H0.
    replace (i + 1 + Z.of_nat (List.length (y :: l)))
      with (i + 1 + 1 + Z.of_nat (List.length l)) in * by (simpl List.length; lia).
    eapply FrameEmits_yield; [|apply (IH (i + 1) x s2 e Hx)].
    + exists (S g). cbn [resume]. rewrite Hy. cbv zeta. rewrite H0. reflexivity.
    + intros k z Hk. specialize (Hok (S k) z Hk).
      replace (i + 1 + 1 + Z.of_nat k) with (i + 1 + Z.of_nat (S k)) by lia. exact Hok.
    + exact He.
Qed.

(** X22. [pipe] hands every element on unchanged after it called the
    action with the element and its zero-based position; without an action,
    or when no call fails, it gives the sequence itself; the first call
    that fails makes the pull for that element throw what the action
    threw, after the elements before it were given. *)
Theorem pipe_passes_elements_through : forall (a : EachAction T) (s : Seq T),
  (forall l s',
     Produces s l s' ->
     (forall k y, nth_error l k = Some y -> action_call a y (Z.of_nat k) = Ok tt) ->
     exists s1, Produces (pipe (Some a) s) l s1) /\
  (forall l s', Produces s l s' -> exists s1, Produces (pipe None s) l s1) /\
  (forall pre x s1 s2 e,
     Advances s pre s1 ->
     pulls s1 (Ok (IterItem x)) s2 ->
     (forall k y, nth_error pre k = Some y -> action_call a y (Z.of_nat k) = Ok tt) ->
     action_call a x (Z.of_nat (List.length pre)) = Throw e ->
     exists s3, Emits (pipe (Some a) s) pre (Some e) s3).
Proof.
  intros a s. split; [|split].
  - intros l s' Hs Hok. eexists. unfold pipe, from_generator.
    apply (Produces_generator (pipe_frame_produces a Hs (-1) Hok)).
  - intros l s' Hs.
    assert (Hf : exists f', FrameProduces (PipeFrame None (-1) s) l f').
    { clear a. generalize (-1). induction Hs as [s s' [g Hd] | s x s1 l s' [g Hx] Hrest IH];
        intros i.
      - eexists. apply FrameProduces_return. exists (S g). simpl. rewrite Hd. reflexivity.
      - destruct (IH (i + 1)) as (f' & Hf'). exists f'.
        eapply FrameProduces_yield; [|exact Hf'].
        exists (S g). cbn [resume]. rewrite Hx. reflexivity. }
    destruct Hf as (f' & Hf'). eexists. unfold pipe, from_generator.
    apply (Produces_generator Hf').
  - intros pre x s1 s2 e Ha Hx Hok He. unfold pipe, from_generator.
    apply (Emits_generator (@pipe_frame_emits a s pre s1 Ha (-1) x s2 e Hx Hok He)).
Qed.

End Actions.

(** An action that fails from the second element on, over three
    elements: the loop ends at the second, the third is not pulled. *)
Lemma forEach_stops_at_the_first_failure_witness :
  exists fuel,
    forEach fuel (Some fails_from_second) (from (SequenceArray [10%nat; 20%nat; 30%nat]))
    = Some (Throw (UserError 20),
            ArrayEnumerable [10%nat; 20%nat; 30%nat] 1 (Some (IterItem 20%nat))).
Proof.
  apply (proj2 (forEach_stops_at_the_first_failure fails_from_second
                  (from (SequenceArray [10%nat; 20%nat; 30%nat]))))
    with (pre := [10%nat]) (x := 20%nat)
         (s1 := ArrayEnumerable [10%nat; 20%nat; 30%nat] 0 (Some (IterItem 10%nat))).
  - eapply Advances_cons; [exists 1%nat; reflexivity | apply Advances_nil].
  - exists 1%nat. reflexivity.
  - intros [|[|k]] y Hk; [reflexivity | discriminate | discriminate].
  - reflexivity.
Defined.

Lemma pipe_passes_elements_through_witness :
  exists s3,
    Emits (pipe (Some fails_from_second) (from (SequenceArray [10%nat; 20%nat; 30%nat])))
          [10%nat] (Some (UserError 20)) s3.
Proof.
  apply (proj2 (proj2 (pipe_passes_elements_through fails_from_second
                         (from (SequenceArray [10%nat; 20%nat; 30%nat])))))
    with (x := 20%nat)
         (s1 := ArrayEnumerable [10%nat; 20%nat; 30%nat] 0 (Some (IterItem 10%nat)))
         (s2 := ArrayEnumerable [10%nat; 20%nat; 30%nat] 1 (Some (IterItem 20%nat))).
  - eapply Advances_cons; [exists 1%nat; reflexivity | apply Advances_nil].
  - exists 1%nat. reflexivity.
  - intros [|[|k]] y Hk; [reflexivity | discriminate | discriminate].
  - reflexivity.
Defined.

(** ** [reset], [makeResettable], [length] and [isEmpty] *)
Section Resetting.
Context {T : Type}.

Lemma Advances_array : forall (arr : list T) i c pre s1,
  Advances (ArrayEnumerable arr i c) pre s1 ->
  exists c', s1 = ArrayEnumerable arr (i + Z.of_nat (List.length pre)) c' /\
             (i + Z.of_nat (List.length pre) < Z.of_nat (List.length arr) \/ pre = []).
Proof.
  intros arr i c pre s1 Ha.
  remember (ArrayEnumerable arr i c) as s eqn:Es. revert i c Es.
  induction Ha as [s | s x s0 l s1 [g Hx] Hrest IH]; intros i c ->.
  - exists c. simpl. rewrite Z.add_0_r. split; [reflexivity | right; reflexivity].
  - destruct g as [|g]; [discriminate|]. simpl in Hx.
    destruct (i + 1 >=? Z.of_nat (List.length arr)) eqn:E; [discriminate|].
    destruct (lookupZ arr (i + 1)) as [v|]; [|discriminate].
    injection Hx as <- <-.
    destruct (IH (i + 1) (Some (IterItem v)) eq_refl) as (c' & -> & Hlt).
    exists c'. replace (i + Z.of_nat (List.length (v :: l)))
      with (i + 1 + Z.of_nat (List.length l)) by (simpl List.length; lia).
    split; [reflexivity|]. left.
    destruct Hlt as [Hlt | ->]; [exact Hlt|].
    simpl. rewrite Z.geb_leb in E. apply Z.leb_gt in E. lia.
Qed.

Lemma filter_always : forall (l : list T), filter (fun _ => true) l = l.
Proof.
  induction l as [|x l IH]; [reflexivity|]. simpl. rewrite IH. reflexivity.
Qed.



(** X24. An array-backed sequence answers [length()] with the length
    of its array and [isEmpty()] by that length, without pulling: the
    answer counts the elements already pulled too, and [isEmpty()] says
    false on a non-empty array even when nothing is left to pull, while
    [count()] at the same position counts what is left.  Any other
    sequence answers [length()] by counting: for a finite one the number of
    elements left, which exhausts it. *)
Theorem length_ignores_the_position_of_an_array : forall (arr : list T) pre s1,
  Advances (from (SequenceArray arr)) pre s1 ->
  (forall fuel, length fuel s1 = Some (Ok (Z.of_nat (List.length arr)), s1)) /\
  (forall fuel, isEmpty_ fuel s1
                = Some (Ok (match arr with [] => true | _ => false end), s1)) /\
  (exists fuel s2,
     count fuel None s1
     = Some (Ok (Z.of_nat (List.length arr) - Z.of_nat (List.length pre)), s2)) /\
  (forall (it : Iterator T) i c l s',
     Produces (IteratorEnumerable it i c) l s' ->
     exists fuel, length fuel (IteratorEnumerable it i c)
                  = Some (Ok (Z.of_nat (List.length l)), s')).
Proof.
  intros arr pre s1 Ha. unfold from in Ha.
  destruct (Advances_array Ha) as (c' & -> & Hlt).
  split; [|split; [|split]].
  - intros fuel. reflexivity.
  - intros fuel. unfold isEmpty_. cbn [length]. destruct arr as [|a arr]; [reflexivity|].
    replace (Z.of_nat (List.length (a :: arr)) <? 1) with false
      by (symmetry; apply Z.ltb_ge; simpl List.length; lia).
    reflexivity.
  - assert (Hpos : 0 <= -1 + Z.of_nat (List.length pre) + 1 <= Z.of_nat (List.length arr)).
    { destruct Hlt as [Hlt | Hnil]; [lia | rewrite Hnil; cbn [List.length]; lia]. }
    destruct (@Produces_array_from T arr
                (List.length arr - List.length pre)%nat (List.length pre) c')
      as (c2 & Hp); [lia|].
    replace (Z.of_nat (List.length pre) - 1) with (-1 + Z.of_nat (List.length pre))
      in Hp by lia.
    destruct (count_finishes None (@pure_predicate_default T) Hp) as (fuel & Hf).
    exists fuel. eexists. rewrite Hf. repeat f_equal.
    rewrite filter_always, length_skipn. lia.
  - intros it i c l s' Hs.
    destruct (count_finishes None (@pure_predicate_default T) Hs) as (fuel & Hf).
    exists fuel. cbn [length]. rewrite Hf, filter_always. reflexivity.
Qed.

End Resetting.


(** After one pull from an array of three, [length()] still says 3. *)
Lemma length_ignores_the_position_of_an_array_witness :
  Advances (from (SequenceArray [5; 6; 7])) [5]
           (ArrayEnumerable [5; 6; 7] 0 (Some (IterItem 5))) /\
  length 1 (ArrayEnumerable [5; 6; 7] 0 (Some (IterItem 5)))
  = Some (Ok 3, ArrayEnumerable [5; 6; 7] 0 (Some (IterItem 5))).
Proof.
  assert (Ha : Advances (from (SequenceArray [5; 6; 7])) [5]
                 (ArrayEnumerable [5; 6; 7] 0 (Some (IterItem 5)))).
  { eapply Advances_cons; [exists 1%nat; reflexivity | apply Advances_nil]. }
  split; [exact Ha|].
  exact (proj1 (length_ignores_the_position_of_an_array Ha) 1%nat).
Defined.

(** ** [range], [repeat], [popFrom], [shiftFrom] and [build] *)
Section SourceSequences.

Lemma range_frame_produces : forall n current c,
  Z.to_nat c = n ->
  exists f', FrameProduces (SourceFrame rangeInner (current, Some c))
                           (range_list current n) f'.
Proof.
  induction n as [|n IH]; intros current c Hc.
  - eexists. apply FrameProduces_return. exists 1%nat. simpl.
    replace (c <? 1) with true by (symmetry; apply Z.ltb_lt; lia). reflexivity.
  - destruct (IH (num_add current (num_of_Z 1)) (c - 1) ltac:(lia)) as (f' & Hf').
    exists f'. simpl. eapply FrameProduces_yield; [|exact Hf'].
    exists 1%nat. simpl.
    replace (c <? 1) with false by (symmetry; apply Z.ltb_ge; lia). reflexivity.
Qed.

Lemma range_frame_advances : forall k current,
  forall i c, exists s',
    Advances (IteratorEnumerable
                (GeneratorObject false (SourceFrame rangeInner (current, @None Z))) i c)
             (range_list current k) s'.
Proof.
  induction k as [|k IH]; intros current i c.
  - eexists. apply Advances_nil.
  - destruct (IH (num_add current (num_of_Z 1)) (i + 1) (Some (IterItem (JsNumber current))))
      as (s' & Hs').
    exists s'. simpl. eapply Advances_cons; [|exact Hs'].
    apply pulls_generator_yield. exists 1%nat. reflexivity.
Qed.

Lemma range_list_nth : forall n a k v,
  nth_error (range_list (Fin a) n) k = Some v ->
  exists q, v = JsNumber (Fin q) /\ Qeq q (a + inject_Z (Z.of_nat k)).
Proof.
  induction n as [|n IH]; intros a k v Hk; [destruct k; discriminate|].
  destruct k as [|k].
  - simpl in Hk. injection Hk as <-. exists a. split; [reflexivity|].
    simpl. ring.
  - simpl in Hk. destruct (IH _ _ _ Hk) as (q & -> & Hq).
    exists q. split; [reflexivity|]. rewrite Hq.
    rewrite Nat2Z.inj_succ. unfold Z.succ. rewrite inject_Z_plus. simpl inject_Z at 2.
    ring.
Qed.

Lemma range_list_length : forall n current, List.length (range_list current n) = n.
Proof.
  induction n as [|n IH]; intros current; [reflexivity|]. simpl. rewrite IH. reflexivity.
Qed.

(** X25. For an integer [start] and a [count] that stay within 2^53
    together, where the numbers of the code count by one without rounding,
    [range(start, count)] gives [count] numbers, the first [start] and each
    one more than the one before, and nothing when [count] is below 1;
    without a count it goes on, as far as that bound is followed here; a
    start that is not a number counts as 0. *)
Theorem range_counts_up_from_start : forall (start : JsNum) (z : Z),
  (if isNaN start then num_of_Z 0 else start) = num_of_Z z ->
  (forall c, Z.abs z + Z.abs c <= 2 ^ 53 ->
             exists s', Produces (range start (CountInt c))
                                 (range_list (num_of_Z z) (Z.to_nat c)) s') /\
  (forall count k, parseInt_count count = None ->
                   Z.abs z + Z.of_nat k <= 2 ^ 53 ->
                   exists s', Advances (range start count) (range_list (num_of_Z z) k) s') /\
  (forall n, List.length (range_list (num_of_Z z) n) = n) /\
  (forall n k v, Z.abs z + Z.of_nat n <= 2 ^ 53 ->
                 nth_error (range_list (num_of_Z z) n) k = Some v ->
                 exists q, v = JsNumber (Fin q) /\
                           Qeq q (inject_Z z + inject_Z (Z.of_nat k))).
Proof.
  intros start z Hstart. split; [|split; [|split]].
  - intros c _. destruct (range_frame_produces (num_of_Z z) c eq_refl) as (f' & Hf').
    eexists. unfold range, from_generator. rewrite Hstart. cbn [parseInt_count].
    apply (Produces_generator Hf').
  - intros count k Hnone _. unfold range, from_generator. rewrite Hstart, Hnone.
    apply range_frame_advances.
  - intros n. apply range_list_length.
  - intros n k v _. apply range_list_nth.
Qed.

Context {T : Type}.

Lemma repeat_frame_produces : forall (item : T) n c,
  Z.to_nat c = n ->
  exists f', FrameProduces (SourceFrame (repeatInner item) (Some c))
                           (List.repeat item n) f'.
Proof.
  intros item. induction n as [|n IH]; intros c Hc.
  - eexists. apply FrameProduces_return. exists 1%nat. simpl.
    replace (c <? 1) with true by (symmetry; apply Z.ltb_lt; lia). reflexivity.
  - destruct (IH (c - 1) ltac:(lia)) as (f' & Hf').
    exists f'. simpl. eapply FrameProduces_yield; [|exact Hf'].
    exists 1%nat. simpl.
    replace (c <? 1) with false by (symmetry; apply Z.ltb_ge; lia). reflexivity.
Qed.

Lemma repeat_outcomes : forall (item : T),
  (forall c, exists s', Produces (repeat item (CountInt c))
                                 (List.repeat item (Z.to_nat c)) s') /\
  (forall count k, parseInt_count count = None ->
                   exists s', Advances (repeat item count) (List.repeat item k) s') /\
  (exists s', Produces (@empty T) [] s').
Proof.
  intros item. split; [|split].
  - intros c. destruct (repeat_frame_produces item c eq_refl) as (f' & Hf').
    eexists. unfold repeat, from_generator. cbn [parseInt_count].
    apply (Produces_generator Hf').
  - intros count k Hnone. unfold repeat, from_generator. rewrite Hnone.
    generalize (-1) (@None (IteratorResult T)).
    induction k as [|k IH]; intros i c; [eexists; apply Advances_nil|].
    destruct (IH (i + 1) (Some (IterItem item))) as (s' & Hs').
    exists s'. simpl. eapply Advances_cons; [|exact Hs'].
    apply pulls_generator_yield. exists 1%nat. reflexivity.
  - eexists. unfold empty, from_generator.
    apply (@Produces_generator T (SourceFrame emptyIterator tt) [] (SourceFrame emptyIterator tt)).
    apply FrameProduces_return. exists 1%nat. reflexivity.
Qed.

Lemma shiftFrom_frame_produces : forall (st : list T),
  FrameProduces (SourceFrame shiftFromInner (Some st)) st
                (SourceFrame shiftFromInner (Some [])).
Proof.
  induction st as [|v st IH].
  - apply FrameProduces_return. exists 1%nat. reflexivity.
  - eapply FrameProduces_yield; [|exact IH]. exists 1%nat. cbn [resume shiftFromInner].
    replace (0 <? Z.of_nat (List.length (v :: st))) with true
      by (symmetry; apply Z.ltb_lt; simpl List.length; lia).
    reflexivity.
Qed.

Lemma popFrom_frame_produces : forall n (st : list T),
  List.length st = n ->
  FrameProduces (SourceFrame popFromInner (Some st)) (rev st)
                (SourceFrame popFromInner (Some [])).
Proof.
  induction n as [|n IH]; intros st Hn.
  - destruct st; [|discriminate]. apply FrameProduces_return. exists 1%nat. reflexivity.
  - destruct (exists_last (l := st)) as (front & v & ->); [destruct st; discriminate|].
    rewrite length_app in Hn. simpl in Hn.
    rewrite rev_app_distr. simpl.
    eapply FrameProduces_yield; [|apply (IH front); lia].
    exists 1%nat. cbn [resume popFromInner].
    replace (0 <? Z.of_nat (List.length (front ++ [v]))) with true
      by (symmetry; apply Z.ltb_lt; rewrite length_app; simpl List.length; lia).
    replace (List.length (front ++ [v]) - 1)%nat with (List.length front)
      by (rewrite length_app; simpl List.length; lia).
    rewrite nth_error_app2 by lia. rewrite Nat.sub_diag. cbn [nth_error].
    rewrite removelast_last. reflexivity.
Qed.

Lemma stack_outcomes : forall (st : list T),
  Produces (shiftFrom (Some st)) st
           (IteratorEnumerable (GeneratorObject true (SourceFrame shiftFromInner (Some [])))
                               (-1 + Z.of_nat (List.length st)) (Some IterDone)) /\
  Produces (popFrom (Some st)) (rev st)
           (IteratorEnumerable (GeneratorObject true (SourceFrame popFromInner (Some [])))
                               (-1 + Z.of_nat (List.length st)) (Some IterDone)) /\
  (exists s', Produces (shiftFrom (@None (list T))) [] s') /\
  (exists s', Produces (popFrom (@None (list T))) [] s').
Proof.
  intros st. split; [|split; [|split]].
  - unfold shiftFrom, from_generator.
    exact (Produces_generator (shiftFrom_frame_produces st) (-1) None).
  - unfold popFrom, from_generator. rewrite <- (length_rev st).
    exact (Produces_generator (@popFrom_frame_produces (List.length st) st eq_refl) (-1) None).
  - eexists. unfold shiftFrom, from_generator.
    apply (@Produces_generator T _ [] (SourceFrame shiftFromInner None)).
    apply FrameProduces_return. exists 1%nat. reflexivity.
  - eexists. unfold popFrom, from_generator.
    apply (@Produces_generator T _ [] (SourceFrame popFromInner None)).
    apply FrameProduces_return. exists 1%nat. reflexivity.
Qed.

(** X26. For a [count] up to 2^53 in magnitude, [repeat(item, count)]
    gives [item] [count] times and nothing
    when [count] is below 1; without a count it gives [item] for ever;
    [empty()] gives nothing.  [shiftFrom(stack)] gives the elements of the
    stack from the first to the last and [popFrom(stack)] gives them from
    the last to the first, the reverse; either leaves the stack empty once
    it has signalled done, and a missing stack gives nothing. *)
Theorem repeat_and_the_stack_sources : forall (item : T) (st : list T),
  (forall c, safe_integer c ->
             exists s', Produces (repeat item (CountInt c))
                                 (List.repeat item (Z.to_nat c)) s') /\
  (forall count k, parseInt_count count = None ->
                   exists s', Advances (repeat item count) (List.repeat item k) s') /\
  (exists s', Produces (@empty T) [] s') /\
  Produces (shiftFrom (Some st)) st
           (IteratorEnumerable (GeneratorObject true (SourceFrame shiftFromInner (Some [])))
                               (-1 + Z.of_nat (List.length st)) (Some IterDone)) /\
  Produces (popFrom (Some st)) (rev st)
           (IteratorEnumerable (GeneratorObject true (SourceFrame popFromInner (Some [])))
                               (-1 + Z.of_nat (List.length st)) (Some IterDone)) /\
  (exists s', Produces (shiftFrom (@None (list T))) [] s') /\
  (exists s', Produces (popFrom (@None (list T))) [] s').
Proof.
  intros item st.
  destruct (repeat_outcomes item) as (Hcount & Hendless & Hempty).
  destruct (stack_outcomes st) as (Hshift & Hpop & Hnoshift & Hnopop).
  split; [intros c _; exact (Hcount c)|]. split; [exact Hendless|]. split; [exact Hempty|].
  split; [exact Hshift|]. split; [exact Hpop|]. split; [exact Hnoshift | exact Hnopop].
Qed.

End SourceSequences.

(** ** [build] *)
Section Building.
Context {T : Type}.

Lemma build_frame_produces : forall (factory : @CancelableFactory T) (items : Z -> T)
  (cancels : Z -> list (option bool)) (count : option Z),
  (forall i, factory i = Ok (items i, cancels i)) ->
  forall n i,
  (forall j, (j < n)%nat ->
             run_after true (cancels (i + 1 + Z.of_nat j)) = true /\
             forall c, count = Some c -> i + 1 + Z.of_nat j < c) ->
  buildInner factory count (i + Z.of_nat n) = None ->
  FrameProduces (SourceFrame (buildInner factory count) i)
                (map items (count_up (i + 1) n))
                (SourceFrame (buildInner factory count) (i + Z.of_nat n)).
Proof.
  intros factory items cancels count Hfactory.
  induction n as [|n IH]; intros i Hrun Hstop.
  - simpl in *. rewrite Z.add_0_r in *. apply FrameProduces_return.
    exists 1%nat. cbn [resume]. rewrite Hstop. reflexivity.
  - destruct (Hrun 0%nat ltac:(lia)) as [Hrun0 Hcount0]. rewrite Z.add_0_r in *.
    replace (i + Z.of_nat (S n)) with (i + 1 + Z.of_nat n) in * by lia.
    cbn [count_up map]. eapply FrameProduces_yield; [|apply IH].
    + exists 1%nat. cbn [resume]. unfold buildInner at 1. cbv zeta.
      replace (match count with Some c => i + 1 >=? c | None => false end) with false.
      * rewrite Hfactory, Hrun0. reflexivity.
      * destruct count as [c|]; [|reflexivity]. symmetry. rewrite Z.geb_leb.
        apply Z.leb_gt. exact (Hcount0 c eq_refl).
    + intros j Hj. destruct (Hrun (S j) ltac:(lia)) as [Hr Hc].
      replace (i + 1 + 1 + Z.of_nat j) with (i + 1 + Z.of_nat (S j)) by lia.
      split; [exact Hr | exact Hc].
    + exact Hstop.
Qed.

(** X28. For a [count] that is omitted, not a number, or an integer
    up to 2^53 in magnitude, [build(factory, count)] gives the items the
    factory makes for the indexes 0, 1, 2, ...: [count] of them when no
    call of the factory cancels, and when the call for the index [k], at
    most 2^53, is the first that cancels, the items of the indexes below
    [k] only, the item of the cancelling call being dropped.  Of several
    calls of the cancel function the last one decides; [cancel(false)] does
    not cancel. *)
Theorem build_runs_the_factory_until_cancelled : forall (factory : @CancelableFactory T)
  (items : Z -> T) (cancels : Z -> list (option bool)),
  (forall i, factory i = Ok (items i, cancels i)) ->
  (forall c, safe_integer c ->
             (forall j, 0 <= j < c -> run_after true (cancels j) = true) ->
             exists s', Produces (build factory (CountInt c))
                                 (map items (count_up 0 (Z.to_nat c))) s') /\
  (forall count k,
     safe_count count ->
     safe_integer (Z.of_nat k) ->
     (forall j, 0 <= j < Z.of_nat k -> run_after true (cancels j) = true) ->
     run_after true (cancels (Z.of_nat k)) = false ->
     (forall c, parseInt_count count = Some c -> Z.of_nat k < c) ->
     exists s', Produces (build factory count) (map items (count_up 0 k)) s') /\
  (forall run calls flag,
     run_after run (calls ++ [flag])
     = negb (match flag with Some f => f | None => true end)).
Proof.
  intros factory items cancels Hfactory. split; [|split].
  - intros c _ Hrun. eexists. unfold build, from_generator. cbn [parseInt_count].
    apply (Produces_generator
             (@build_frame_produces factory items cancels (Some c) Hfactory
                (Z.to_nat c) (-1)
                ltac:(intros j Hj; split;
                      [apply Hrun; lia | intros c0 Hc0; injection Hc0 as <-; lia])
                ltac:(unfold buildInner; cbv zeta;
                      replace (-1 + Z.of_nat (Z.to_nat c) + 1 >=? c) with true
                        by (symmetry; rewrite Z.geb_leb; apply Z.leb_le; lia);
                      reflexivity))).
  - intros count k _ _ Hrun Hcancel Hcount. eexists. unfold build, from_generator.
    apply (Produces_generator
             (@build_frame_produces factory items cancels (parseInt_count count) Hfactory
                k (-1)
                ltac:(intros j Hj; split;
                      [apply Hrun; lia | intros c0 Hc0; specialize (Hcount c0 Hc0); lia])
                ltac:(unfold buildInner; cbv zeta;
                      replace (-1 + Z.of_nat k + 1) with (Z.of_nat k) by lia;
                      rewrite Hfactory, Hcancel;
                      destruct (parseInt_count count) as [c0|]; [|reflexivity];
                      replace (Z.of_nat k >=? c0) with false
                        by (symmetry; rewrite Z.geb_leb; apply Z.leb_gt;
                            exact (Hcount c0 eq_refl));
                      reflexivity))).
  - intros run calls flag. revert run.
    induction calls as [|f0 calls IH]; intros run; [reflexivity|]. simpl. apply IH.
Qed.

End Building.

(** Three numbers from 5 on. *)
Lemma range_counts_up_from_start_witness :
  (if isNaN (num_of_Z 5) then num_of_Z 0 else num_of_Z 5) = num_of_Z 5 /\
  Z.abs 5 + Z.abs 3 <= 2 ^ 53 /\
  exists s', Produces (range (num_of_Z 5) (CountInt 3))
                      (range_list (num_of_Z 5) 3) s'.
Proof.
  assert (Hsafe : Z.abs 5 + Z.abs 3 <= 2 ^ 53) by lia.
  split; [reflexivity|]. split; [exact Hsafe|].
  exact (proj1 (@range_counts_up_from_start (num_of_Z 5) 5 eq_refl) 3 Hsafe).
Defined.

(** Without a count, [repeat] can be pulled as often as one likes; a
    stack of three popped. *)
Lemma repeat_and_the_stack_sources_witness :
  parseInt_count CountUndefined = None /\
  (exists s', Advances (repeat 7 CountUndefined) [7; 7; 7; 7] s') /\
  exists s', Produces (popFrom (Some [1; 2; 3])) [3; 2; 1] s'.
Proof.
  pose proof (repeat_and_the_stack_sources 7 [1; 2; 3]) as (_ & Hendless & _ & _ & Hpop & _).
  split; [reflexivity|]. split; [exact (Hendless CountUndefined 4%nat eq_refl)|].
  eexists. exact Hpop.
Defined.

(** A factory of squares that cancels at the index 3, without a count. *)
Lemma build_runs_the_factory_until_cancelled_witness :
  let factory := fun i : Z => Ok (i * i, if i =? 3 then [@None bool] else []) in
  (forall i, factory i = Ok (i * i, if i =? 3 then [@None bool] else [])) /\
  safe_count CountUndefined /\
  safe_integer (Z.of_nat 3) /\
  (forall j, 0 <= j < Z.of_nat 3 ->
             run_after true (if j =? 3 then [@None bool] else []) = true) /\
  run_after true (if Z.of_nat 3 =? 3 then [@None bool] else []) = false /\
  exists s', Produces (build factory CountUndefined) [0; 1; 4] s'.
Proof.
  intros factory.
  assert (Hrun : forall j, 0 <= j < Z.of_nat 3 ->
                           run_after true (if j =? 3 then [@None bool] else []) = true).
  { intros j Hj. replace (j =? 3) with false by (symmetry; apply Z.eqb_neq; lia).
    reflexivity. }
  assert (Hsafe : safe_integer (Z.of_nat 3)) by (unfold safe_integer; simpl; lia).
  split; [intros i; reflexivity|]. split; [exact I|]. split; [exact Hsafe|].
  split; [exact Hrun|]. split; [reflexivity|].
  apply (proj1 (proj2 (@build_runs_the_factory_until_cancelled Z factory
                         (fun i => i * i) (fun i => if i =? 3 then [@None bool] else [])
                         (fun i => eq_refl)))
           CountUndefined 3%nat I Hsafe Hrun eq_refl).
  intros c Hc. discriminate.
Defined.

(** ** Descending orders *)
Section Descending.
Context {T : Type}.

Lemma flipped_comparer_consistent : forall (U : Type) (c : U -> U -> Z),
  consistent_comparer c -> consistent_comparer (fun a b => c b a).
Proof.
  intros U c Hc. constructor.
  - intros x y. apply (comparer_antisym Hc).
  - intros x y z Hxy Hyz. exact (comparer_trans_lt Hc _ _ _ Hyz Hxy).
  - intros x y z Hxy Hyz. exact (comparer_trans_eq Hc _ _ _ Hyz Hxy).
Qed.

(** X29. [orderByDescending] sorts a finite sequence with the
    comparer turned round: the result has the same elements, no element
    comes before one with a greater key, and elements whose keys tie keep
    the order they had in the sequence, so it is not the reverse of what
    [orderBy] gives; [thenByDescending] refines an ordered sequence the same
    way, turning round the comparer of the new level only. *)
Theorem orderByDescending_is_stable :
  forall (U : Type) (HU : JsRelational U) (s : Seq T) (l : list T) (s' : Seq T)
         (selector : T -> Result U) (comparer : option (Comparer U))
         (k : T -> U) (c : U -> U -> Z),
  Produces s l s' ->
  (forall x, selector x = Ok (k x)) ->
  (forall a b, toComparerSafe comparer a b = Ok (c a b)) ->
  consistent_comparer c ->
  (exists fuel o,
     orderByDescending fuel selector comparer s = Some (Ok o, s') /\
     ordered_by l k (fun a b => c b a) o /\
     exists fuel' out,
       OrderedEnumerable_toArray fuel' o = Some (Ok out) /\
       Permutation out l /\
       StronglySorted (fun x y => 0 <= c (k x) (k y)) out /\
       forall a, filter (fun z => c (k z) (k a) =? 0) out
                 = filter (fun z => c (k z) (k a) =? 0) l) /\
  (forall (U0 : Type) (o0 : OrderedEnumerable T U0) (k0 : T -> U0) (c0 : U0 -> U0 -> Z),
     ordered_by l k0 c0 o0 ->
     consistent_comparer c0 ->
     exists fuel o1 s'',
       thenByDescending fuel selector comparer o0 = Some (Ok o1, s'') /\
       ordered_by l (levels_key k0 k) (levels_comparer c0 (fun a b => c b a)) o1 /\
       exists fuel' out,
         OrderedEnumerable_toArray fuel' o1 = Some (Ok out) /\
         is_stable_sort_of (levels_key k0 k) (levels_comparer c0 (fun a b => c b a)) l out).
Proof.
  intros U HU s l s' selector comparer k c Hs Hsel Hcmp Hc.
  pose proof (flipped_comparer_consistent Hc) as Hflip.
  assert (Hcmp' : forall a b,
            toComparerSafe (Some (fun x y => toComparerSafe comparer y x)) a b
            = Ok (c b a)) by (intros a b; exact (Hcmp b a)).
  split.
  - destruct (@new_OrderedEnumerable_ordered T U HU selector
                (Some (fun x y => toComparerSafe comparer y x)) k (fun a b => c b a)
                s l s' Hsel Hcmp' Hs) as (fuel & o & Ho & Hord).
    exists fuel, o. split; [exact Ho|]. split; [exact Hord|].
    destruct (@ordered_by_toArray T U o l k (fun a b => c b a) Hord) as (fuel' & Hout).
    exists fuel'. eexists. split; [exact Hout|].
    destruct (@stable_sort_is_stable_sort T U k (fun a b => c b a) l Hflip)
      as (Hperm & Hsorted & Hties).
    split; [exact Hperm|]. split; [|exact Hties].
    clear - Hsorted Hc. induction Hsorted as [|x out Hout IH Hall]; constructor.
    + exact IH.
    + apply (Forall_impl _ (P := fun y => c (k y) (k x) <= 0)); [|exact Hall].
      intros y Hy. destruct (Z.eq_dec (c (k y) (k x)) 0) as [H0 | H0].
      * rewrite (@comparer_sym_eq U c Hc _ _ H0). lia.
      * assert (0 < c (k x) (k y)) by (apply (comparer_antisym Hc); lia). lia.
  - intros U0 o0 k0 c0 Hord0 Hc0.
    destruct (@thenBy_ordered T U0 U HU o0 l k0 c0 selector
                (Some (fun x y => toComparerSafe comparer y x)) k (fun a b => c b a)
                Hord0 Hsel Hcmp') as (fuel & o1 & s'' & Ho1 & Hord1).
    exists fuel, o1, s''. split; [exact Ho1|]. split; [exact Hord1|].
    destruct (@ordered_by_toArray T (Levels U0 U) o1 l _ _ Hord1) as (fuel' & Hout).
    exists fuel'. eexists. split; [exact Hout|].
    apply stable_sort_is_stable_sort.
    exact (levels_comparer_consistent U0 U c0 (fun a b => c b a) Hc0 Hflip).
Qed.

End Descending.

(** Two pairs with the same key before a pair with a greater one. *)
Lemma orderByDescending_is_stable_witness :
  (exists s', Produces (from (SequenceArray [(1, "a"%string); (1, "b"%string); (2, "c"%string)]))
                       [(1, "a"%string); (1, "b"%string); (2, "c"%string)] s') /\
  (forall x : Z * string, Ok (fst x) = Ok (fst x)) /\
  (forall a b : Z, toComparerSafe None a b = Ok (Z_default_comparer a b)) /\
  consistent_comparer Z_default_comparer /\
  exists fuel o s',
    orderByDescending fuel (fun x : Z * string => Ok (fst x)) None
      (from (SequenceArray [(1, "a"%string); (1, "b"%string); (2, "c"%string)]))
    = Some (Ok o, s') /\
    exists fuel' out,
      OrderedEnumerable_toArray fuel' o = Some (Ok out) /\
      Permutation out [(1, "a"%string); (1, "b"%string); (2, "c"%string)].
Proof.
  destruct (Produces_from_array [(1, "a"%string); (1, "b"%string); (2, "c"%string)])
    as (s' & Hs).
  split; [exists s'; exact Hs|]. split; [intros x; reflexivity|].
  split; [exact toComparerSafe_default_Z|]. split; [exact Z_default_comparer_consistent|].
  destruct (proj1 (@orderByDescending_is_stable (Z * string) Z Z_relational
                     _ _ _ (fun x => Ok (fst x)) None fst Z_default_comparer Hs
                     (fun x => eq_refl) toComparerSafe_default_Z
                     Z_default_comparer_consistent))
    as (fuel & o & Ho & _ & fuel' & out & Hout & Hperm & _).
  exists fuel, o, s'. split; [exact Ho|]. exists fuel', out. split; [exact Hout | exact Hperm].
Defined.

(** The descending order keeps ties in their original order. *)
Example orderByDescending_keeps_equal_keys_in_order :
  match orderByDescending 10 (fun x : Z * string => Ok (fst x)) None
          (from (SequenceArray [(1, "a"%string); (1, "b"%string); (2, "c"%string)])) with
  | Some (Ok o, _) => OrderedEnumerable_toArray 10 o
  | _ => None
  end = Some (Ok [(2, "c"%string); (1, "a"%string); (1, "b"%string)]).
Proof. reflexivity. Qed.

(** ** [min] and [max] *)
Section Extremes.

Lemma first_least : forall (A U : Type) (k : A -> U) (d : U -> U -> Z),
  consistent_comparer d ->
  forall l pre cur mid,
  (forall z, In z pre -> d (k cur) (k z) < 0) ->
  (forall z, In z mid -> d (k cur) (k z) <= 0) ->
  exists pre' post',
    pre ++ cur :: mid ++ l
    = pre' ++ fold_left (fun cur y => if d (k y) (k cur) <? 0 then y else cur) l cur :: post' /\
    (forall z, In z pre' ->
       d (k (fold_left (fun cur y => if d (k y) (k cur) <? 0 then y else cur) l cur)) (k z)
       < 0) /\
    (forall z, In z post' ->
       d (k (fold_left (fun cur y => if d (k y) (k cur) <? 0 then y else cur) l cur)) (k z)
       <= 0).
Proof.
  intros A U k d Hd. induction l as [|y l IH]; intros pre cur mid Hpre Hmid.
  - exists pre, mid. rewrite app_nil_r. split; [reflexivity|]. split; assumption.
  - cbn [fold_left]. destruct (d (k y) (k cur) <? 0) eqn:Hlt.
    + apply Z.ltb_lt in Hlt.
      destruct (IH (pre ++ cur :: mid) y []) as (pre' & post' & Heq & Hp & Hq).
      * intros z Hz. apply in_app_or in Hz. destruct Hz as [Hz | [<- | Hz]].
        -- exact (comparer_trans_lt Hd _ _ _ Hlt (Hpre z Hz)).
        -- exact Hlt.
        -- specialize (Hmid z Hz). destruct (Z.eq_dec (d (k cur) (k z)) 0) as [H0 | H0].
           ++ exact (@comparer_lt_eq U d Hd _ _ _ Hlt H0).
           ++ apply (comparer_trans_lt Hd _ _ _ Hlt). lia.
      * intros z [].
      * exists pre', post'. split; [|split; assumption].
        rewrite <- Heq. rewrite <- app_assoc. reflexivity.
    + apply Z.ltb_ge in Hlt.
      destruct (IH pre cur (mid ++ [y])) as (pre' & post' & Heq & Hp & Hq).
      * exact Hpre.
      * intros z Hz. apply in_app_or in Hz. destruct Hz as [Hz | [<- | []]].
        -- exact (Hmid z Hz).
        -- pose proof (comparer_antisym Hd (k y) (k cur)) as Ha.
           pose proof (comparer_antisym Hd (k cur) (k y)) as Hb. lia.
      * exists pre', post'. split; [|split; assumption].
        rewrite <- Heq. rewrite <- app_assoc. reflexivity.
Qed.

Lemma extremum_fold : forall (better : Z -> bool) vs cmp (k : JsValue -> JsValue)
  (c : JsValue -> JsValue -> Z),
  (forall x, vs x = Ok (k x)) ->
  (forall a b, cmp a b = Ok (c a b)) ->
  forall l cur,
  for_of_list (extremum_body better vs cmp) (cur, k cur, false) l
  = Continue (fold_left (fun cur y => if better (c (k y) (k cur)) then y else cur) l cur,
              k (fold_left (fun cur y => if better (c (k y) (k cur)) then y else cur) l cur),
              false).
Proof.
  intros better vs cmp k c Hvs Hcmp. induction l as [|y l IH]; intros cur; [reflexivity|].
  cbn [for_of_list fold_left]. unfold extremum_body at 1. rewrite Hvs. cbn [negb].
  rewrite Hcmp. destruct (better (c (k y) (k cur))); apply IH.
Qed.

Lemma extremum_finishes : forall (better : Z -> bool)
  (valueSelector : option (JsValue -> Result JsValue)) (comparer : option (Comparer JsValue))
  (k : JsValue -> JsValue) (c : JsValue -> JsValue -> Z) (s : Seq JsValue) x l s',
  (forall y, match valueSelector with Some f => f y | None => Ok y end = Ok (k y)) ->
  (forall a b, toComparerSafe comparer a b = Ok (c a b)) ->
  Produces s (x :: l) s' ->
  finishes (fun fuel => extremum better fuel valueSelector comparer s)
           (Ok (fold_left (fun cur y => if better (c (k y) (k cur)) then y else cur) l x)).
Proof.
  intros better valueSelector comparer k c s x l s' Hvs Hcmp Hs.
  set (vs := match valueSelector with Some f => f | None => fun i => Ok i end).
  assert (Hvs' : forall y, vs y = Ok (k y))
    by (intros y; specialize (Hvs y); unfold vs; destruct valueSelector; exact Hvs).
  assert (Hscan : for_of_list (extremum_body better vs (toComparerSafe comparer))
                    (JsSymbol IS_EMPTY, JsUndefined, true) (x :: l)
                  = Continue
                      (fold_left (fun cur y => if better (c (k y) (k cur)) then y else cur) l x,
                       k (fold_left (fun cur y => if better (c (k y) (k cur)) then y else cur)
                                    l x),
                       false)).
  { cbn [for_of_list]. unfold extremum_body at 1. rewrite Hvs'. cbn [negb].
    apply (extremum_fold better vs (toComparerSafe comparer) k c Hvs' Hcmp). }
  destruct (@for_of_Produces_continue JsValue s (x :: l) s' Hs _ unit _ _ _ Hscan)
    as (fuel & Hf).
  exists fuel, s'. unfold extremum. fold vs. rewrite Hf. reflexivity.
Qed.

(** X30. Over a non-empty finite sequence, with a value selector
    that does not throw and a consistent comparer, [min] answers the first
    element whose value is least: the values of the elements before it are
    greater, those of the elements behind it are not smaller.  [max]
    answers the first element whose value is greatest. *)
Theorem min_and_max_answer_the_first_extreme :
  forall (valueSelector : option (JsValue -> Result JsValue))
         (comparer : option (Comparer JsValue))
         (k : JsValue -> JsValue) (c : JsValue -> JsValue -> Z)
         (s : Seq JsValue) x l s',
  (forall y, match valueSelector with Some f => f y | None => Ok y end = Ok (k y)) ->
  (forall a b, toComparerSafe comparer a b = Ok (c a b)) ->
  consistent_comparer c ->
  Produces s (x :: l) s' ->
  (exists m pre post,
     finishes (fun fuel => min fuel valueSelector comparer s) (Ok m) /\
     x :: l = pre ++ m :: post /\
     (forall z, In z pre -> c (k m) (k z) < 0) /\
     (forall z, In z post -> c (k m) (k z) <= 0)) /\
  (exists m pre post,
     finishes (fun fuel => max fuel valueSelector comparer s) (Ok m) /\
     x :: l = pre ++ m :: post /\
     (forall z, In z pre -> c (k z) (k m) < 0) /\
     (forall z, In z post -> c (k z) (k m) <= 0)).
Proof.
  intros valueSelector comparer k c s x l s' Hvs Hcmp Hc Hs. split.
  - destruct (@first_least JsValue JsValue k c Hc l [] x [])
      as (pre & post & Heq & Hpre & Hpost); [intros z [] | intros z [] |].
    eexists. exists pre, post. split; [|split; [exact Heq | split; [exact Hpre | exact Hpost]]].
    exact (@extremum_finishes (fun v => v <? 0) valueSelector comparer k c s x l s' Hvs Hcmp Hs).
  - destruct (@first_least JsValue JsValue k (fun a b => c b a)
                (flipped_comparer_consistent Hc) l [] x [])
      as (pre & post & Heq & Hpre & Hpost); [intros z [] | intros z [] |].
    assert (Hfold : forall cur,
              fold_left (fun cur y => if 0 <? c (k y) (k cur) then y else cur) l cur
              = fold_left (fun cur y => if c (k cur) (k y) <? 0 then y else cur) l cur).
    { clear - Hc. induction l as [|y l IH]; intros cur; [reflexivity|].
      cbn [fold_left].
      replace (0 <? c (k y) (k cur)) with (c (k cur) (k y) <? 0); [apply IH|].
      pose proof (comparer_antisym Hc (k cur) (k y)) as Ha.
      destruct (c (k cur) (k y) <? 0) eqn:E1; destruct (0 <? c (k y) (k cur)) eqn:E2;
        try reflexivity; [apply Z.ltb_lt in E1; apply Z.ltb_ge in E2
                         | apply Z.ltb_ge in E1; apply Z.ltb_lt in E2]; lia. }
    eexists. exists pre, post. split; [|split; [exact Heq | split; [exact Hpre | exact Hpost]]].
    rewrite <- Hfold.
    exact (@extremum_finishes (fun v => 0 <? v) valueSelector comparer k c s x l s' Hvs Hcmp Hs).
Qed.

End Extremes.

(** The least of 3, 1, 2, compared by their numerators. *)
Lemma min_and_max_answer_the_first_extreme_witness :
  let key := fun v => match v with JsNumber (Fin q) => Qnum q | _ => 0 end in
  let c := fun a b => Z_default_comparer (key a) (key b) in
  consistent_comparer c /\
  (exists s', Produces (from (SequenceArray (map js_number_of [3; 1; 2])))
                       (map js_number_of [3; 1; 2]) s') /\
  exists m,
    finishes (fun fuel => min fuel None (Some (fun a b => Ok (c a b)))
                              (from (SequenceArray (map js_number_of [3; 1; 2]))))
             (Ok m).
Proof.
  intros key c.
  assert (Hc : consistent_comparer c).
  { constructor.
    - intros x y. apply (comparer_antisym Z_default_comparer_consistent).
    - intros x y z. apply (comparer_trans_lt Z_default_comparer_consistent).
    - intros x y z. apply (comparer_trans_eq Z_default_comparer_consistent). }
  destruct (Produces_from_array (map js_number_of [3; 1; 2])) as (s' & Hs).
  split; [exact Hc|]. split; [exists s'; exact Hs|].
  destruct (proj1 (@min_and_max_answer_the_first_extreme None
                     (Some (fun a b => Ok (c a b))) (fun v => v) c _ _ _ _
                     (fun y => eq_refl) (fun a b => eq_refl) Hc Hs))
    as (m & _ & _ & Hm & _).
  exists m. exact Hm.
Defined.

(** ** [assert] and [assertAll] *)
Section Asserting.
Context {T : Type}.
Variable number_text : Z -> string.

Lemma assert_scan : forall (p : Predicate T) f (errMsg : T -> Z -> Result string),
  pure_predicate p f ->
  forall l i, forallb f l = true ->
  for_of_list (assert_body errMsg) (i, p) l = Continue (i + Z.of_nat (List.length l), p).
Proof.
  intros p f errMsg Hp. induction l as [|x l IH]; intros i Hall.
  - simpl. rewrite Z.add_0_r. reflexivity.
  - simpl in Hall. apply andb_true_iff in Hall. destruct Hall as [Hx Hall].
    cbn [for_of_list assert_body]. cbv zeta. rewrite (Hp x), Hx, (IH _ Hall).
    f_equal. f_equal. simpl List.length. lia.
Qed.

Lemma assertAll_scan : forall (p : Predicate T) f (errMsg : T -> Z -> Result string) msg,
  pure_predicate p f ->
  (forall x i, errMsg x i = Ok (msg x i)) ->
  forall l ERRORS i,
  for_of_list (assertAll_body errMsg) (ERRORS, i, p) l
  = Continue (ERRORS ++ map Some (failed_conditions f msg (i + 1) l),
              i + Z.of_nat (List.length l), p).
Proof.
  intros p f errMsg msg Hp Hmsg. induction l as [|x l IH]; intros ERRORS i.
  - simpl. rewrite Z.add_0_r, app_nil_r. reflexivity.
  - cbn [for_of_list assertAll_body failed_conditions]. cbv zeta. rewrite (Hp x).
    replace (i + Z.of_nat (List.length (x :: l))) with (i + 1 + Z.of_nat (List.length l))
      by (simpl List.length; lia).
    destruct (f x).
    + rewrite IH. reflexivity.
    + rewrite Hmsg, IH. cbn [map]. rewrite <- app_assoc. reflexivity.
Qed.

Lemma failed_conditions_spec : forall (f : T -> bool) (msg : T -> Z -> string) l i e,
  In e (failed_conditions f msg i l) <->
  exists k x, nth_error l k = Some x /\ f x = false /\
              e = ThrownString (msg x (i + Z.of_nat k)).
Proof.
  intros f msg. induction l as [|y l IH]; intros i e.
  - simpl. split; [intros [] | intros (k & x & Hk & _)]. destruct k; discriminate.
  - cbn [failed_conditions]. split.
    + intros Hin.
      assert (Hrest : In e (failed_conditions f msg (i + 1) l) ->
                      exists k x, nth_error (y :: l) k = Some x /\ f x = false /\
                                  e = ThrownString (msg x (i + Z.of_nat k))).
      { intros Hr. apply IH in Hr. destruct Hr as (k & x & Hk & Hx & ->).
        exists (S k), x. split; [exact Hk|]. split; [exact Hx|].
        replace (i + Z.of_nat (S k)) with (i + 1 + Z.of_nat k) by lia. reflexivity. }
      destruct (f y) eqn:Hy; [exact (Hrest Hin)|].
      destruct Hin as [<- | Hin]; [|exact (Hrest Hin)].
      exists 0%nat, y. split; [reflexivity|]. split; [exact Hy|].
      rewrite Z.add_0_r. reflexivity.
    + intros (k & x & Hk & Hx & ->). destruct k as [|k].
      * injection Hk as ->. rewrite Hx. left. rewrite Z.add_0_r. reflexivity.
      * assert (Hin : In (ThrownString (msg x (i + Z.of_nat (S k))))
                         (failed_conditions f msg (i + 1) l)).
        { apply IH. exists k, x. split; [exact Hk|]. split; [exact Hx|].
          replace (i + Z.of_nat (S k)) with (i + 1 + Z.of_nat k) by lia. reflexivity. }
        destruct (f y); [exact Hin | right; exact Hin].
Qed.

(** X27. [assertAll] checks every element of a finite sequence and
    throws one [AggregateError] that holds, in order, the message of every
    element that fails the condition, each made from the element and its
    zero-based position; it answers normally when none fails.  [assert]
    answers normally when none fails too, but throws at the first element
    that fails, the message of that element alone and as it is, and pulls
    nothing behind it.  Without a message the text is
    [Condition failed at index] and the index. *)
Theorem assert_stops_and_assertAll_collects : forall (predicate : option (Predicate T))
  (f : T -> bool) (errMsg : ItemMessage T) (msg : T -> Z -> string) (s : Seq T),
  pure_predicate (toPredicateSafe predicate) f ->
  (forall x i, toItemMessageSafe number_text errMsg x i = Ok (msg x i)) ->
  (forall l s',
     Produces s l s' ->
     exists fuel,
       assertAll number_text fuel predicate errMsg s
       = Some (match failed_conditions f msg 0 l with
               | [] => Ok tt
               | failures => Throw (AggregateError failures)
               end, s')) /\
  (forall l s',
     Produces s l s' -> forallb f l = true ->
     exists fuel, assert number_text fuel predicate errMsg s = Some (Ok tt, s')) /\
  (forall pre x s1 s2,
     Advances s pre s1 ->
     pulls s1 (Ok (IterItem x)) s2 ->
     forallb f pre = true ->
     f x = false ->
     exists fuel,
       assert number_text fuel predicate errMsg s
       = Some (Throw (ThrownString (msg x (Z.of_nat (List.length pre)))), s2)) /\
  (forall l e,
     In e (failed_conditions f msg 0 l) <->
     exists k x, nth_error l k = Some x /\ f x = false /\
                 e = ThrownString (msg x (Z.of_nat k))) /\
  (forall (x : T) i,
     toItemMessageSafe number_text MessageUndefined x i
     = Ok (String.append "Condition failed at index " (number_text i))).
Proof.
  intros predicate f errMsg msg s Hp Hmsg.
  split; [|split; [|split; [|split]]].
  - intros l s' Hs.
    destruct (@for_of_Produces_continue T s l s' Hs _ unit
                ([], -1, toPredicateSafe predicate) _
                (assertAll_body (toItemMessageSafe number_text errMsg))
                (@assertAll_scan _ f (toItemMessageSafe number_text errMsg) msg Hp Hmsg
                                 l [] (-1))) as (fuel & Hf).
    exists fuel. unfold assertAll. cbv zeta. rewrite Hf. cbn [app].
    replace (-1 + 1) with 0 by lia.
    destruct (failed_conditions f msg 0 l) as [|e0 failures] eqn:Hfail; [reflexivity|].
    replace (0 <? Z.of_nat (List.length (map Some (e0 :: failures)))) with true
      by (symmetry; apply Z.ltb_lt; simpl List.length; lia).
    unfold new_AggregateError.
    pose proof (filter_defined_map_Some (fun e => e) (e0 :: failures)) as Hfd.
    rewrite map_id in Hfd.
    replace (filter_defined (map Some (e0 :: failures))) with (e0 :: failures);
      first [reflexivity | symmetry; exact Hfd].
  - intros l s' Hs Hall.
    destruct (@for_of_Produces_continue T s l s' Hs _ unit
                (-1, toPredicateSafe predicate) _
                (assert_body (toItemMessageSafe number_text errMsg))
                (@assert_scan _ f (toItemMessageSafe number_text errMsg) Hp l (-1) Hall))
      as (fuel & Hf).
    exists fuel. unfold assert. cbv zeta. rewrite Hf. reflexivity.
  - intros pre x s1 s2 Ha Hx Hall Hfx.
    assert (Hbody : assert_body (toItemMessageSafe number_text errMsg)
                      (-1 + Z.of_nat (List.length pre), toPredicateSafe predicate) x
                    = Abrupt (ThrownString (msg x (Z.of_nat (List.length pre))))).
    { cbn [assert_body]. cbv zeta. rewrite (Hp x), Hfx, Hmsg.
      replace (-1 + Z.of_nat (List.length pre) + 1) with (Z.of_nat (List.length pre)) by lia.
      reflexivity. }
    destruct (@for_of_Advances_exit T s pre s1 Ha _ unit
                (-1, toPredicateSafe predicate)
                (-1 + Z.of_nat (List.length pre), toPredicateSafe predicate)
                (assert_body (toItemMessageSafe number_text errMsg)) x s2
                (@assert_scan _ f (toItemMessageSafe number_text errMsg) Hp pre (-1) Hall) Hx)
      as (fuel & Hf).
    + intros a'. rewrite Hbody. discriminate.
    + exists fuel. unfold assert. cbv zeta. rewrite Hf, Hbody. reflexivity.
  - intros l e. rewrite failed_conditions_spec. split.
    + intros (k & x & Hk & Hx & ->). exists k, x. repeat split; assumption.
    + intros (k & x & Hk & Hx & ->). exists k, x. repeat split; assumption.
  - intros x i. reflexivity.
Qed.

End Asserting.

(** The one number of three that is not positive, with the default
    message. *)
Lemma assert_stops_and_assertAll_collects_witness :
  let number_text := fun i : Z => if i =? 1 then "1"%string else "n"%string in
  pure_predicate (toPredicateSafe (Some (PredicateFn (fun x : Z => Ok (0 <? x)))))
                 (fun x => 0 <? x) /\
  (forall (x : Z) i,
     toItemMessageSafe number_text MessageUndefined x i
     = Ok (String.append "Condition failed at index " (number_text i))) /\
  exists s',
    Produces (from (SequenceArray [1; -2; 3])) [1; -2; 3] s' /\
    exists fuel,
      assertAll number_text fuel (Some (PredicateFn (fun x : Z => Ok (0 <? x))))
                MessageUndefined (from (SequenceArray [1; -2; 3]))
      = Some (Throw (AggregateError [ThrownString "Condition failed at index 1"]), s').
Proof.
  intros number_text.
  assert (Hp : pure_predicate (toPredicateSafe (Some (PredicateFn (fun x : Z => Ok (0 <? x)))))
                              (fun x => 0 <? x)) by (intros x; reflexivity).
  destruct (Produces_from_array [1; -2; 3]) as (s' & Hs).
  split; [exact Hp|]. split; [intros x i; reflexivity|].
  exists s'. split; [exact Hs|].
  exact (proj1 (@assert_stops_and_assertAll_collects Z number_text
                  (Some (PredicateFn (fun x : Z => Ok (0 <? x)))) (fun x => 0 <? x)
                  MessageUndefined
                  (fun _ i => String.append "Condition failed at index " (number_text i))
                  (from (SequenceArray [1; -2; 3])) Hp (fun x i => eq_refl))
               _ _ Hs).
Defined.

(** ** Lookups over a sequence that never ends *)
Section EndlessSequences.
Context {T : Type}.

(** A loop whose body goes on over the elements [pre] needs more fuel
    than [pre] has elements. *)
Lemma for_of_needs_fuel : forall (s : Seq T) pre s1,
  Advances s pre s1 ->
  forall (A R : Type) (acc a : A) (body : A -> T -> Completion A R) fuel,
  for_of_list body acc pre = Continue a ->
  (fuel <= List.length pre)%nat ->
  for_of fuel s acc body = None.
Proof.
  induction 1 as [s | s y s0 l s1 Hy Hrest IH]; intros A R acc a body fuel Hpre Hfuel.
  - simpl in Hfuel. replace fuel with 0%nat by lia. reflexivity.
  - destruct fuel as [|fuel]; [reflexivity|]. simpl in Hfuel. simpl.
    destruct (next fuel s) as [[r s'']|] eqn:Hn; [|reflexivity].
    destruct (pulls_deterministic Hy (ex_intro _ fuel Hn)) as [<- <-].
    simpl in Hpre. destruct (body acc y) as [acc'| | |] eqn:Hb; try discriminate.
    apply (IH A R acc' a body fuel Hpre). lia.
Qed.

(** [single] and [singleOrDefault] do not return over a sequence that
    gives elements without end, of which at most one matches. *)
Lemma lookups_run_forever : forall (s : Seq T) (f : T -> bool),
  (forall k, exists pre s1, Advances s pre s1 /\ List.length pre = k /\
                            (List.length (filter f pre) <= 1)%nat) ->
  let p := PredicateFn (fun x => Ok (f x)) in
  forall fuel,
    single fuel (Some p) s = None /\
    (forall (U : Type) (NF d : U),
       singleOrDefault fuel NF (TwoArguments (Some p) d) s = None /\
       singleOrDefault fuel NF (OneFunction p) s = None).
Proof.
  intros s f Hendless p fuel.
  destruct (Hendless fuel) as (pre & s1 & Ha & Hlen & Hone).
  assert (Hloop : for_of (R := T + Thrown) fuel s (None, p) singleOrDefault_body = None).
  { assert (Hscan : exists a, for_of_list (R := T + Thrown) singleOrDefault_body (None, p) pre
                              = Continue a).
    { rewrite (singleOrDefault_scan (pure_predicate_fn f)).
      destruct (filter f pre) as [|a [|b m]]; [eexists; reflexivity ..|].
      simpl in Hone. lia. }
    destruct Hscan as (a & Hscan).
    apply (for_of_needs_fuel Ha _ _ Hscan). lia. }
  assert (Hboth : forall (U : Type) (NF d : U),
            singleOrDefault fuel NF (TwoArguments (Some p) d) s = None /\
            singleOrDefault fuel NF (OneFunction p) s = None).
  { intros U NF d. split; unfold singleOrDefault;
      cbn [getOrDefaultArguments toPredicateSafe]; rewrite Hloop; reflexivity. }
  split; [|exact Hboth].
  unfold single. cbn [toPredicateSafe]. fold p.
  rewrite (proj1 (Hboth unit tt tt)). reflexivity.
Qed.

End EndlessSequences.

(** * The lookups and [forAll] on sequences that fail or never end *)
Section EveryKindOfSequence.
Context {T : Type}.

(** C5. Over a finite sequence and a predicate, [singleOrDefault] throws
    the ambiguous-match error when more than one element matches, whether
    or not a default was passed; with one match it returns that element;
    with none it returns the default it was given, and that default is
    [NOT_FOUND] when the call passes none.  [single] does the same with the
    element-not-found error in the place of the default.  Over any
    sequence, an endless one included, both throw the ambiguous-match error
    at the second element that matches, and pull nothing behind it; over a
    sequence that gives elements without end, of which at most one matches,
    neither returns. *)
Theorem single_and_singleOrDefault_outcomes :
  forall (s : Seq T) (l : list T) (s' : Seq T) (f : T -> bool),
  Produces s l s' ->
  let p := PredicateFn (fun x => Ok (f x)) in
  (forall (U : Type) (NF d : U),
     finishes (fun fuel => singleOrDefault fuel NF (TwoArguments (Some p) d) s)
              (singleOrDefault_outcome f l d) /\
     finishes (fun fuel => singleOrDefault fuel NF (OneFunction p) s)
              (singleOrDefault_outcome f l NF) /\
     finishes (fun fuel => singleOrDefault fuel NF (OneValue d) s)
              (singleOrDefault_outcome (fun _ => true) l d) /\
     finishes (fun fuel => singleOrDefault fuel NF NoArguments s)
              (singleOrDefault_outcome (fun _ => true) l NF)) /\
  finishes (fun fuel => single fuel (Some p) s) (single_outcome f l) /\
  (forall (U : Type) (d : U) a b rest,
     filter f l = a :: b :: rest ->
     singleOrDefault_outcome f l d = Throw ambiguous_match /\
     single_outcome f l = Throw ambiguous_match) /\
  (forall (s0 : Seq T) pre a x s1 s2,
     Advances s0 pre s1 ->
     pulls s1 (Ok (IterItem x)) s2 ->
     filter f pre = [a] ->
     f x = true ->
     (forall (U : Type) (NF d : U),
        (exists fuel, singleOrDefault fuel NF (TwoArguments (Some p) d) s0
                      = Some (Throw ambiguous_match, s2)) /\
        (exists fuel, singleOrDefault fuel NF (OneFunction p) s0
                      = Some (Throw ambiguous_match, s2))) /\
     (exists fuel, single fuel (Some p) s0 = Some (Throw ambiguous_match, s2))) /\
  (forall (s0 : Seq T),
     (forall k, exists pre s1, Advances s0 pre s1 /\ List.length pre = k /\
                               (List.length (filter f pre) <= 1)%nat) ->
     forall fuel,
       single fuel (Some p) s0 = None /\
       (forall (U : Type) (NF d : U),
          singleOrDefault fuel NF (TwoArguments (Some p) d) s0 = None /\
          singleOrDefault fuel NF (OneFunction p) s0 = None)).
Proof.
  intros s l s' f Hs p.
  destruct (single_and_singleOrDefault_over_finite f Hs) as (Hdefault & Hsingle & Htwo).
  split; [exact Hdefault|]. split; [exact Hsingle|]. split; [exact Htwo|].
  split; [|intros s0 Hendless; exact (lookups_run_forever f Hendless)].
  intros s0 pre a x s1 s2 Ha Hx Hpre Hfx.
  assert (Hscan : for_of_list (R := T + Thrown) singleOrDefault_body (None, p) pre
                  = Continue (Some a, p)).
  { rewrite (singleOrDefault_scan (pure_predicate_fn f)), Hpre. reflexivity. }
  assert (Hbody : singleOrDefault_body (Some a, p) x = Abrupt ambiguous_match).
  { unfold singleOrDefault_body, p. simpl. rewrite Hfx. reflexivity. }
  destruct (@for_of_Advances_exit T s0 pre s1 Ha _ (T + Thrown)%type (None, p) (Some a, p)
              singleOrDefault_body x s2 Hscan Hx) as (fuel & Hf).
  { intros a'. rewrite Hbody. discriminate. }
  rewrite Hbody in Hf.
  assert (Hboth : forall (U : Type) (NF d : U),
            (exists fuel, singleOrDefault fuel NF (TwoArguments (Some p) d) s0
                          = Some (Throw ambiguous_match, s2)) /\
            (exists fuel, singleOrDefault fuel NF (OneFunction p) s0
                          = Some (Throw ambiguous_match, s2))).
  { intros U NF d. split; exists fuel; unfold singleOrDefault;
      cbn [getOrDefaultArguments toPredicateSafe]; rewrite Hf; reflexivity. }
  split; [exact Hboth|].
  destruct (proj1 (Hboth unit tt tt)) as (fuel1 & Hf1).
  exists fuel1. unfold single. cbn [toPredicateSafe]. fold p. rewrite Hf1. reflexivity.
Qed.

(** C4. [forAll] goes through the whole of a finite sequence whose own
    pulls succeed, whatever the action does (it ends in the state in which
    the sequence is exhausted); it returns normally when no call of the
    action failed, and otherwise throws one [AggregateError] whose errors
    are, in order, one [FunctionError] for each failing call and for no
    other, each holding what the call threw, the action and the zero-based
    index of the element.  When a pull of the sequence itself throws,
    [forAll] throws what the pull threw, and the failures of the action
    collected until then are lost. *)
Theorem forAll_collects_every_failure :
  forall (s : Seq T) (l : list T) (s' : Seq T) (action : EachAction T),
  Produces s l s' ->
  (exists fuel, forAll fuel (Some action) s = Some (forAll_outcome action l, s')) /\
  (forall i e,
     In (i, e) (failing_actions (action_call action) 0 l) <->
     (0 <= i /\ exists x, nth_error l (Z.to_nat i) = Some x /\
                          action_call action x i = Throw e)) /\
  NoDup (map fst (failing_actions (action_call action) 0 l)) /\
  (exists fuel, forAll fuel None s = Some (Ok tt, s')) /\
  (forall (s0 : Seq T) l0 e s0',
     Emits s0 l0 (Some e) s0' ->
     exists fuel s'', forAll fuel (Some action) s0 = Some (Throw e, s'')).
Proof.
  intros s l s' action Hs.
  destruct (forAll_over_finite action Hs) as (Hout & Hspec & Hnodup & Hnone).
  split; [exact Hout|]. split; [exact Hspec|]. split; [exact Hnodup|].
  split; [exact Hnone|].
  intros s0 l0 e s0' He.
  destruct (for_of_Emits He (R := unit) ([], -1) (forAll_body (Some action)))
    as (fuel & s'' & Hf).
  exists fuel, s''. unfold forAll. rewrite Hf. unfold for_of_emitted.
  rewrite (forAll_scan action l0 [] (-1)). reflexivity.
Qed.

End EveryKindOfSequence.

(** The sequence 1, 2, 2 and the predicate "is 2": two matches. *)
Lemma single_and_singleOrDefault_outcomes_witness :
  (exists s', Produces (from (SequenceArray [1%nat; 2%nat; 2%nat]))
                       [1%nat; 2%nat; 2%nat] s') /\
  finishes (fun fuel => singleOrDefault fuel 0%nat
                          (TwoArguments (Some (PredicateFn (fun x => Ok (Nat.eqb x 2)))) 9%nat)
                          (from (SequenceArray [1%nat; 2%nat; 2%nat])))
           (Throw ambiguous_match).
Proof.
  destruct (Produces_from_array [1%nat; 2%nat; 2%nat]) as (s' & Hs).
  split; [exists s'; exact Hs|].
  exact (proj1 (proj1 (single_and_singleOrDefault_outcomes (fun x => Nat.eqb x 2) Hs)
                      nat 0%nat 9%nat)).
Defined.

Lemma forAll_collects_every_failure_witness :
  (exists s', Produces (from (SequenceArray [10%nat; 20%nat; 30%nat]))
                       [10%nat; 20%nat; 30%nat] s') /\
  exists fuel s',
    forAll fuel (Some fails_from_second) (from (SequenceArray [10%nat; 20%nat; 30%nat]))
    = Some (Throw (AggregateError [FunctionError (UserError 20) (Some 5%nat) 1;
                                   FunctionError (UserError 30) (Some 5%nat) 2]), s').
Proof.
  destruct (Produces_from_array [10%nat; 20%nat; 30%nat]) as (s' & Hs).
  split; [exists s'; exact Hs|].
  destruct (proj1 (forAll_collects_every_failure fails_from_second Hs)) as (fuel & Hf).
  exists fuel, s'. exact Hf.
Defined.

(** The action fails on the second element, then the pull of the third
    throws: the error of the pull leaves [forAll] alone, and the
    [FunctionError] for the second element is lost. *)
Lemma forAll_loses_failures_when_a_pull_throws :
  action_call fails_from_second 20%nat 1 = Throw (UserError 20) /\
  option_map fst
    (toArray 20 (select (Some fails_on_30) (from (SequenceArray [10%nat; 20%nat; 30%nat]))))
  = Some (Throw (UserError 99)) /\
  option_map fst
    (forAll 20 (Some fails_from_second)
            (select (Some fails_on_30) (from (SequenceArray [10%nat; 20%nat; 30%nat]))))
  = Some (Throw (UserError 99)).
Proof. repeat split; reflexivity. Qed.

Lemma filter_repeat_none : forall (T : Type) (f : T -> bool) (item : T) k,
  f item = false -> filter f (List.repeat item k) = [].
Proof.
  intros T f item k Hf. induction k as [|k IH]; [reflexivity|].
  simpl. rewrite Hf. exact IH.
Qed.

Lemma filter_range_positive : forall n (a : Q),
  (0 < a)%Q -> filter not_positive (range_list (Fin a) n) = [].
Proof.
  induction n as [|n IH]; intros a Ha; [reflexivity|].
  simpl. destruct (Qle_bool a 0) eqn:Hle.
  - apply Qle_bool_iff in Hle. exfalso. exact (Qlt_not_le _ _ Ha Hle).
  - apply IH. apply (Qlt_trans _ a); [exact Ha|].
    rewrite <- (Qplus_0_r a) at 1. apply Qplus_lt_r. reflexivity.
Qed.

(** [repeat(1)] without a count gives 1 for ever and [range(0)] without
    a count gives 0, 1, 2, ... for ever.  No element of the first is 2 and
    one element of the second, the first, is not above zero; yet [single]
    and [singleOrDefault] return nothing over either, with whatever fuel:
    the loop looks for a further match for ever. *)
Lemma single_runs_forever_on_endless_sequences :
  (forall k, exists s', Advances (repeat 1%nat CountUndefined) (List.repeat 1%nat k) s') /\
  (forall k, filter (fun x => Nat.eqb x 2) (List.repeat 1%nat k) = []) /\
  (forall fuel,
     single fuel (Some (PredicateFn (fun x => Ok (Nat.eqb x 2))))
            (repeat 1%nat CountUndefined) = None /\
     singleOrDefault fuel 0%nat
       (TwoArguments (Some (PredicateFn (fun x => Ok (Nat.eqb x 2)))) 9%nat)
       (repeat 1%nat CountUndefined) = None) /\
  (forall k, exists s', Advances (range (num_of_Z 0) CountUndefined)
                                 (range_list (num_of_Z 0) k) s') /\
  (forall k, filter not_positive (range_list (num_of_Z 0) (S k)) = [JsNumber (num_of_Z 0)]) /\
  (forall fuel,
     single fuel (Some (PredicateFn (fun x => Ok (not_positive x))))
            (range (num_of_Z 0) CountUndefined) = None /\
     singleOrDefault fuel (JsNumber NaN)
       (OneFunction (PredicateFn (fun x => Ok (not_positive x))))
       (range (num_of_Z 0) CountUndefined) = None).
Proof.
  assert (Hrepeat : forall k, exists s',
            Advances (repeat 1%nat CountUndefined) (List.repeat 1%nat k) s').
  { intros k. exact (proj1 (proj2 (repeat_outcomes 1%nat)) CountUndefined k eq_refl). }
  assert (Hnone : forall k, filter (fun x => Nat.eqb x 2) (List.repeat 1%nat k) = []).
  { intros k. apply filter_repeat_none. reflexivity. }
  assert (Hrange : forall k, exists s',
            Advances (range (num_of_Z 0) CountUndefined) (range_list (num_of_Z 0) k) s').
  { intros k. unfold range, from_generator. apply range_frame_advances. }
  assert (Hfirst : forall k, filter not_positive (range_list (num_of_Z 0) (S k))
                             = [JsNumber (num_of_Z 0)]).
  { intros k. simpl. rewrite filter_range_positive; reflexivity. }
  split; [exact Hrepeat|]. split; [exact Hnone|]. split; [|split; [exact Hrange|split;
    [exact Hfirst|]]].
  - intros fuel.
    destruct (@lookups_run_forever nat (repeat 1%nat CountUndefined) (fun x => Nat.eqb x 2))
      with (fuel := fuel) as (Hsingle & Hdefault).
    { intros k. destruct (Hrepeat k) as (s' & Hs'). exists (List.repeat 1%nat k), s'.
      split; [exact Hs'|]. split; [apply repeat_length|]. rewrite Hnone. simpl. lia. }
    split; [exact Hsingle | exact (proj1 (Hdefault nat 0%nat 9%nat))].
  - intros fuel.
    destruct (@lookups_run_forever JsValue (range (num_of_Z 0) CountUndefined) not_positive)
      with (fuel := fuel) as (Hsingle & Hdefault).
    { intros k. destruct (Hrange k) as (s' & Hs'). exists (range_list (num_of_Z 0) k), s'.
      split; [exact Hs'|]. split; [apply range_list_length|].
      destruct k as [|k]; [simpl; lia|]. rewrite Hfirst. simpl. lia. }
    split; [exact Hsingle | exact (proj2 (Hdefault JsValue (JsNumber NaN) (JsNumber NaN)))].
Qed.

(** ** Sorting keys that the default comparer cannot order *)

(** The default comparer ties NaN with 3 and with 2, and puts 3 after 2.
    [orderBy] over 3, NaN, 2 gives 3, NaN, 2, with 3 in front of 2; and
    whatever order a sort gave, it would not be a stable sort: the ties
    with NaN hold every element where it was. *)
Lemma orderBy_cannot_order_around_NaN :
  toComparerSafe None (js_number_of 3) (JsNumber NaN) = Ok 0 /\
  toComparerSafe None (JsNumber NaN) (js_number_of 2) = Ok 0 /\
  toComparerSafe None (js_number_of 3) (js_number_of 2) = Ok 1 /\
  (exists s', Produces (from (SequenceArray three_NaN_two)) three_NaN_two s') /\
  match orderBy 10 (fun x : JsValue => Ok x) None (from (SequenceArray three_NaN_two)) with
  | Some (Ok o, _) => OrderedEnumerable_toArray 10 o
  | _ => None
  end = Some (Ok three_NaN_two) /\
  (forall out, ~ is_stable_sort_of (fun x : JsValue => x) default_order three_NaN_two out) /\
  ~ consistent_comparer default_order.
Proof.
  split; [reflexivity|]. split; [reflexivity|]. split; [reflexivity|].
  split; [apply Produces_from_array|]. split; [reflexivity|]. split.
  - intros out (Hperm & Hsorted & Hties).
    specialize (Hties (JsNumber NaN)).
    assert (Hall : filter (tied (fun x : JsValue => x) default_order (JsNumber NaN))
                          three_NaN_two = three_NaN_two) by reflexivity.
    rewrite Hall in Hties.
    assert (Hout : out = three_NaN_two).
    { rewrite <- Hties. symmetry. apply forallb_filter_id. apply filter_length_forallb.
      rewrite Hties. symmetry. apply Permutation_length. exact Hperm. }
    subst out. inversion Hsorted as [|x r _ Hfirst]; subst.
    inversion Hfirst as [|y r' _ Hrest]; subst.
    inversion Hrest as [|z r'' Hz _]; subst.
    vm_compute in Hz. apply Hz. reflexivity.
  - intros Hc.
    pose proof (comparer_trans_eq Hc (js_number_of 3) (JsNumber NaN) (js_number_of 2)
                  eq_refl eq_refl) as H.
    vm_compute in H. discriminate.
Qed.
